(** * Walrus: WebAssembly to bytecode translator (parser/WASMParser.cpp)

    A shallow embedding of the emitter class [WASMBinaryReader]: the
    value-stack tracker, the block stack, the preprocess collector, the
    constant pool, the opcode handlers with the eqz/branch fusion, and the
    slot allocator of [optimizeLocals].

    Conventions.
    - [size_t] and [uint16_t] values are integers of [Z]; a 16-bit counter
      is reduced with [u16] where the C++ stores into it.
    - [std::vector] is a list in index order: [push_back] appends at the
      end, [back()] is the last element.
    - The release build is modelled: [ASSERT] compiles to nothing. Where the
      C++ then reads past a vector, dereferences an absent element or reaches
      [RELEASE_ASSERT_NOT_REACHED], the model stops with [None].
    - The 64-bit build (WALRUS_64) is modelled: [sizeof(size_t) = 8]. *)

From Stdlib Require Import ZArith Lia Bool.
From Stdlib Require Import Sorting.Permutation Sorting.Sorted Sorting.Mergesort.
From Stdlib Require Import Orders.
From stdpp Require Import base list.

#[local] Open Scope Z_scope.

(** ** Machine integers *)

Definition SIZE_MAX : Z := 2 ^ 64 - 1.

(** Conversion to [uint16_t] ([m_functionStackSizeSoFar],
    [m_initialFunctionStackSize], [m_requiredStackSize]). *)
Definition u16 (z : Z) : Z := z mod 2 ^ 16.

(** Conversion to [size_t]. *)
Definition usize (z : Z) : Z := z mod 2 ^ 64.

(** Conversion to [int32_t] (the relative offset of a jump). *)
Definition i32 (z : Z) : Z := (z + 2 ^ 31) mod 2 ^ 32 - 2 ^ 31.

(** Modelled from the spec: [std::numeric_limits<ByteCodeStackOffset>::max()];
    interpreter/ByteCode.h is absent, the spec fixes a 16-bit stack offset. *)
Definition ByteCodeStackOffset_max : Z := 2 ^ 16 - 1.

(** ** Runtime values (runtime/Value.h) *)

Module Value.

Inductive Type_ := I32 | I64 | F32 | F64 | V128 | FuncRef | ExternRef | Void.

#[global] Instance Type_eq_dec : EqDecision Type_.
Proof. solve_decision. Defined.

(** A constant: its kind and its payload read as an unsigned integer
    (4, 8 or 16 bytes). *)
Record t := mk { type : Type_; bits : Z }.

#[global] Instance eq_dec : EqDecision t.
Proof. solve_decision. Defined.

(** Modelled from the spec: [Value::operator==] (runtime/Value.h is absent).
    The spec says equality of constants is bit-exact, NaN payloads
    included: same kind and same payload. *)
Definition eqb (a b : t) : bool := bool_decide (a = b).

End Value.

(** Modelled from the spec: [Walrus::valueStackAllocatedSize]
    (runtime/Value.h is absent). The spec gives every kind a fixed
    allocated width: 4, 8, 16 bytes, or the pointer width for references. *)
Definition valueStackAllocatedSize (t : Value.Type_) : Z :=
  match t with
  | Value.I32 | Value.F32 => 4
  | Value.I64 | Value.F64 => 8
  | Value.V128 => 16
  | Value.FuncRef | Value.ExternRef => 8
  | Value.Void => 0
  end.

(** Modelled from the spec: [Walrus::valueSize], the natural width. *)
Definition valueSize (t : Value.Type_) : Z :=
  match t with
  | Value.I32 | Value.F32 => 4
  | Value.I64 | Value.F64 => 8
  | Value.V128 => 16
  | Value.FuncRef | Value.ExternRef => 8
  | Value.Void => 0
  end.

(** Modelled from the spec: [valueFunctionCopyCount]; each kind contributes
    [ceil(width / pointer-width)] offsets to a tail array. *)
Definition valueFunctionCopyCount (t : Value.Type_) : Z :=
  (valueSize t + 7) / 8.

Module FunctionType.

Record t := mk { param : list Value.Type_; result : list Value.Type_ }.

(** Modelled from the spec: [FunctionType::paramStackSize], the sum of the
    allocated widths of the parameters. *)
Definition paramStackSize (ft : t) : Z :=
  foldr (fun ty acc => valueStackAllocatedSize ty + acc) 0 (param ft).

End FunctionType.

(** ** wabt's [Type]: a value type, [Void], or an index into the
    function-type table (a multi-value block signature). *)

Module Type_.

Inductive t :=
| I32 | I64 | F32 | F64 | V128 | FuncRef | ExternRef | Void
| Index (i : nat).

Definition IsIndex (ty : t) : bool :=
  match ty with Index _ => true | _ => false end.

Definition isVoid (ty : t) : bool :=
  match ty with Void => true | _ => false end.

End Type_.

(** [toValueKind]: the default case is [RELEASE_ASSERT_NOT_REACHED]. *)
Definition toValueKind (ty : Type_.t) : option Value.Type_ :=
  match ty with
  | Type_.I32 => Some Value.I32
  | Type_.I64 => Some Value.I64
  | Type_.F32 => Some Value.F32
  | Type_.F64 => Some Value.F64
  | Type_.V128 => Some Value.V128
  | Type_.FuncRef => Some Value.FuncRef
  | Type_.ExternRef => Some Value.ExternRef
  | _ => None
  end.

(** ** The opcode table (g_wasmCodeInfo)

    Modelled from the spec: the rows of wabt/opcode.def, which is absent.
    The unary and binary opcodes below carry the signatures the WebAssembly
    standard gives them; the handlers only read the operand and result
    kinds. *)

Module WASMOpcode.

Inductive unary :=
| I32Eqz | I32Clz | I32Ctz | I32Popcnt
| I64Eqz | I64Clz | I32WrapI64 | I64ExtendI32S | I64ExtendI32U
| F32Neg | F64Neg.

Inductive binary :=
| I32Add | I32Sub | I32Mul | I32And | I32Or | I32Xor
| I32Eq | I32Ne | I32LtS | I32LtU | I32GtS | I32GtU
| I64Add | I64Sub | I64Mul | I64Eq | I64LtS
| F32Add | F32Sub | F64Add | F64Sub.

#[global] Instance unary_eq_dec : EqDecision unary.
Proof. solve_decision. Defined.

#[global] Instance binary_eq_dec : EqDecision binary.
Proof. solve_decision. Defined.

End WASMOpcode.

Module WASMCodeInfo.

(** [m_resultType] of a unary opcode, through [codeTypeToValueType]. *)
Definition unaryResultType (op : WASMOpcode.unary) : Value.Type_ :=
  match op with
  | WASMOpcode.I32Eqz | WASMOpcode.I32Clz | WASMOpcode.I32Ctz
  | WASMOpcode.I32Popcnt | WASMOpcode.I64Eqz | WASMOpcode.I32WrapI64 => Value.I32
  | WASMOpcode.I64Clz | WASMOpcode.I64ExtendI32S
  | WASMOpcode.I64ExtendI32U => Value.I64
  | WASMOpcode.F32Neg => Value.F32
  | WASMOpcode.F64Neg => Value.F64
  end.

(** [m_resultType] of a binary opcode. *)
Definition binaryResultType (op : WASMOpcode.binary) : Value.Type_ :=
  match op with
  | WASMOpcode.I64Add | WASMOpcode.I64Sub | WASMOpcode.I64Mul => Value.I64
  | WASMOpcode.F32Add | WASMOpcode.F32Sub => Value.F32
  | WASMOpcode.F64Add | WASMOpcode.F64Sub => Value.F64
  | _ => Value.I32
  end.

End WASMCodeInfo.

(** ** Bytecode records (interpreter/ByteCode.h)

    A record is a constructor with its operand fields. Operand fields are
    [ByteCodeStackOffset]s; every position the emitter stores in one comes
    from a 16-bit counter or from a local's home offset. *)

Module ByteCode.

Inductive MoveKind := MoveI32 | MoveF32 | MoveI64 | MoveF64 | MoveV128.

Inductive t :=
| Const32 (dstOffset value : Z)
| Const64 (dstOffset value : Z)
| Const128 (dstOffset value : Z)
| BinaryOperation (op : WASMOpcode.binary) (src0 src1 dst : Z)
| UnaryOperation (op : WASMOpcode.unary) (srcOffset dstOffset : Z)
| Move (k : MoveKind) (srcOffset dstOffset : Z)
| GlobalGet32 (dstOffset index : Z)
| GlobalGet64 (dstOffset index : Z)
| GlobalGet128 (dstOffset index : Z)
| GlobalSet32 (srcOffset index : Z)
| GlobalSet64 (srcOffset index : Z)
| GlobalSet128 (srcOffset index : Z)
| Select (condOffset valueSize : Z) (isFloat : bool) (src0 src1 dst : Z)
| Jump (offset : Z)
| JumpIfTrue (srcOffset offset : Z)
| JumpIfFalse (srcOffset offset : Z)
| BrTable (condOffset tableSize defaultOffset : Z) (jumpOffsets : list Z)
| End_ (resultOffsets : list Z)
| Throw (tagIndex : Z) (dataOffsets : list Z)
| Unreachable.

(** The opcode tag of a record ([ByteCode::opcode()]). *)
Inductive Opcode :=
| Const32Opcode | Const64Opcode | Const128Opcode
| BinaryOpcode (op : WASMOpcode.binary)
| UnaryOpcode (op : WASMOpcode.unary)
| MoveOpcode (k : MoveKind)
| GlobalGet32Opcode | GlobalGet64Opcode | GlobalGet128Opcode
| GlobalSet32Opcode | GlobalSet64Opcode | GlobalSet128Opcode
| SelectOpcode | JumpOpcode | JumpIfTrueOpcode | JumpIfFalseOpcode
| BrTableOpcode | EndOpcode | ThrowOpcode | UnreachableOpcode.

Definition opcode (c : t) : Opcode :=
  match c with
  | Const32 _ _ => Const32Opcode
  | Const64 _ _ => Const64Opcode
  | Const128 _ _ => Const128Opcode
  | BinaryOperation op _ _ _ => BinaryOpcode op
  | UnaryOperation op _ _ => UnaryOpcode op
  | Move k _ _ => MoveOpcode k
  | GlobalGet32 _ _ => GlobalGet32Opcode
  | GlobalGet64 _ _ => GlobalGet64Opcode
  | GlobalGet128 _ _ => GlobalGet128Opcode
  | GlobalSet32 _ _ => GlobalSet32Opcode
  | GlobalSet64 _ _ => GlobalSet64Opcode
  | GlobalSet128 _ _ => GlobalSet128Opcode
  | Select _ _ _ _ _ _ => SelectOpcode
  | Jump _ => JumpOpcode
  | JumpIfTrue _ _ => JumpIfTrueOpcode
  | JumpIfFalse _ _ => JumpIfFalseOpcode
  | BrTable _ _ _ _ => BrTableOpcode
  | End_ _ => EndOpcode
  | Throw _ _ => ThrowOpcode
  | Unreachable => UnreachableOpcode
  end.

(** [ByteCode::pointerAlignedSize]: the next multiple of the pointer
    width. *)
Definition pointerAlignedSize (n : Z) : Z := (n + 7) / 8 * 8.

(** The variable-length tail that [expandByteCode] reserves after the
    header of [End], [Throw] and (when it has targets) [BrTable]; the
    entries of the tail are the list the record carries. *)
Definition tailSize (c : t) : Z :=
  match c with
  | End_ offs => pointerAlignedSize (2 * Z.of_nat (length offs))
  | Throw _ offs => pointerAlignedSize (2 * Z.of_nat (length offs))
  | BrTable _ _ _ js =>
      if Z.of_nat (length js) =? 0 then 0
      else pointerAlignedSize (4 * Z.of_nat (length js))
  | _ => 0
  end.

End ByteCode.

(** The sizes of the record structs. interpreter/ByteCode.h is absent, so
    the layout is a parameter: any positive header sizes, with the one
    relation the source asserts,
    [static_assert(sizeof(JumpIfTrue) == sizeof(JumpIfFalse))]. *)
Class Layout := {
  sizeof : ByteCode.Opcode -> Z;
  sizeof_pos : forall o, 0 < sizeof o;
  sizeof_JumpIf : sizeof ByteCode.JumpIfTrueOpcode = sizeof ByteCode.JumpIfFalseOpcode;
(** [BrTable::offsetOfDefault()], the place of the default target inside
    the header. *)
offsetOfDefault : Z;
offsetOfDefault_range : 0 <= offsetOfDefault < sizeof ByteCode.BrTableOpcode
}.

(** [std::sort] with the comparator of [organizeConstantData]
    ([a.second > b.second]). The language promises a permutation in which
    no later element has a larger count; the order of equal counts is
    unspecified. *)
Class StdSort := {
  std_sort : list (Value.t * Z) -> list (Value.t * Z);
  std_sort_perm : forall l, Permutation l (std_sort l);
  std_sort_sorted : forall l, StronglySorted (fun a b => snd b <= snd a) (std_sort l)
}.

Section Buffer.

Context {L : Layout}.

(** [ByteCode::getSize()]. *)
Definition getSize (c : ByteCode.t) : Z :=
  sizeof (ByteCode.opcode c) + ByteCode.tailSize c.

(** The byte length of a buffer of records. *)
Fixpoint byteSize (buf : list ByteCode.t) : Z :=
  match buf with
  | [] => 0
  | c :: r => getSize c + byteSize r
  end.

(** [peekByteCode<T>(pos)]: the record that starts at byte [pos]. A
    position inside a record or past the end has no record. *)
Fixpoint peekAt (buf : list ByteCode.t) (pos : Z) : option ByteCode.t :=
  match buf with
  | [] => None
  | c :: r =>
      if pos =? 0 then Some c
      else if pos <? getSize c then None
      else peekAt r (pos - getSize c)
  end.

(** A write through [peekByteCode<T>(pos)]: [f] rewrites the record that
    starts at [pos]; [f] answers [None] when the record is not a [T]. *)
Fixpoint updateAt (f : ByteCode.t -> option ByteCode.t)
         (buf : list ByteCode.t) (pos : Z) : option (list ByteCode.t) :=
  match buf with
  | [] => None
  | c :: r =>
      if pos =? 0 then c' ← f c; Some (c' :: r)
      else if pos <? getSize c then None
      else r' ← updateAt f r (pos - getSize c); Some (c :: r')
  end.

(** [resizeByteCode(pos)] for a [pos] that is a record boundary not past
    the end: the records before [pos] remain. *)
Fixpoint truncateAt (buf : list ByteCode.t) (pos : Z) : option (list ByteCode.t) :=
  if pos =? 0 then Some []
  else match buf with
       | [] => None
       | c :: r =>
           if pos <? getSize c then None
           else r' ← truncateAt r (pos - getSize c); Some (c :: r')
       end.

(** The record that holds byte [pos] strictly inside it, with the start
    of that record: used for the [int32_t] entries of a [BrTable]. *)
Fixpoint updateInside (f : Z -> ByteCode.t -> option ByteCode.t)
         (buf : list ByteCode.t) (pos : Z) : option (list ByteCode.t) :=
  match buf with
  | [] => None
  | c :: r =>
      if (0 <=? pos) && (pos <? getSize c) then c' ← f pos c; Some (c' :: r)
      else r' ← updateInside f r (pos - getSize c); Some (c :: r')
  end.

Fixpoint peekInside {A} (f : Z -> ByteCode.t -> option A)
         (buf : list ByteCode.t) (pos : Z) : option A :=
  match buf with
  | [] => None
  | c :: r =>
      if (0 <=? pos) && (pos <? getSize c) then f pos c
      else peekInside f r (pos - getSize c)
  end.

(** [Jump::setOffset]. *)
Definition setJumpOffset (v : Z) (c : ByteCode.t) : option ByteCode.t :=
  match c with
  | ByteCode.Jump _ => Some (ByteCode.Jump (i32 v))
  | _ => None
  end.

(** [JumpIfFalse::setOffset] through a [JumpIfFalse] pointer; the source
    uses it for [JumpIfTrue] records too (same layout). *)
Definition setJumpIfOffset (v : Z) (c : ByteCode.t) : option ByteCode.t :=
  match c with
  | ByteCode.JumpIfTrue s _ => Some (ByteCode.JumpIfTrue s (i32 v))
  | ByteCode.JumpIfFalse s _ => Some (ByteCode.JumpIfFalse s (i32 v))
  | _ => None
  end.

(** The [int32_t] at byte [off] of a [BrTable] record: the default target
    at [offsetOfDefault], entry [i] at [sizeof(BrTable) + 4 * i]. *)
Definition brTableEntry (off : Z) (c : ByteCode.t) : option Z :=
  match c with
  | ByteCode.BrTable _ n d js =>
      if off =? offsetOfDefault then Some d
      else
        let k := off - sizeof ByteCode.BrTableOpcode in
        if (0 <=? k) && (k mod 4 =? 0) && (k / 4 <? n)
        then js !! Z.to_nat (k / 4) else None
  | _ => None
  end.

Definition setBrTableEntry (g : Z -> Z) (off : Z) (c : ByteCode.t)
  : option ByteCode.t :=
  match c with
  | ByteCode.BrTable s n d js =>
      if off =? offsetOfDefault then Some (ByteCode.BrTable s n (i32 (g d)) js)
      else
        let k := off - sizeof ByteCode.BrTableOpcode in
        if (0 <=? k) && (k mod 4 =? 0) && (k / 4 <? n)
        then old ← js !! Z.to_nat (k / 4);
             Some (ByteCode.BrTable s n d (<[Z.to_nat (k / 4) := i32 (g old)]> js))
        else None
  | _ => None
  end.

End Buffer.

(** ** The data of the emitter

    One module per struct of the source; [set_f v r] is [r] with field [f]
    replaced by [v]. *)

Module UsageInfo.

(** [PreprocessData::LocalVariableInfo::UsageInfo]: one read interval of a
    local, in reader offsets. *)
Record t := mk {
  m_startPosition : Z;
  m_endPosition : Z;
  m_pushCount : Z;
  m_hasWriteUsage : bool
}.

Definition set_m_startPosition (v : Z) (r : t) : t :=
  mk v (m_endPosition r) (m_pushCount r) (m_hasWriteUsage r).

Definition set_m_endPosition (v : Z) (r : t) : t :=
  mk (m_startPosition r) v (m_pushCount r) (m_hasWriteUsage r).

Definition set_m_pushCount (v : Z) (r : t) : t :=
  mk (m_startPosition r) (m_endPosition r) v (m_hasWriteUsage r).

Definition set_m_hasWriteUsage (v : bool) (r : t) : t :=
  mk (m_startPosition r) (m_endPosition r) (m_pushCount r) v.

(** The constructor [UsageInfo(startPosition, pushCount)]. *)
Definition new (startPosition pushCount : Z) : t :=
  mk startPosition SIZE_MAX pushCount false.

End UsageInfo.

Module LocalVariableInfo.

(** [PreprocessData::LocalVariableInfo]. *)
Record t := mk {
  m_needsExplicitInitOnStartup : bool;
  m_definitelyWritePlaces : list Z;
  m_writePlacesBetweenBranches : list Z;
  m_usageInfo : list UsageInfo.t
}.

Definition set_m_needsExplicitInitOnStartup (v : bool) (r : t) : t :=
  mk v (m_definitelyWritePlaces r) (m_writePlacesBetweenBranches r)
    (m_usageInfo r).

Definition set_m_definitelyWritePlaces (v : list Z) (r : t) : t :=
  mk (m_needsExplicitInitOnStartup r) v (m_writePlacesBetweenBranches r)
    (m_usageInfo r).

Definition set_m_writePlacesBetweenBranches (v : list Z) (r : t) : t :=
  mk (m_needsExplicitInitOnStartup r) (m_definitelyWritePlaces r) v
    (m_usageInfo r).

Definition set_m_usageInfo (v : list UsageInfo.t) (r : t) : t :=
  mk (m_needsExplicitInitOnStartup r) (m_definitelyWritePlaces r)
    (m_writePlacesBetweenBranches r) v.

Definition new : t := mk false [] [] [].

End LocalVariableInfo.

Module PreprocessData.

(** [PreprocessData]; [m_constantData] pairs a constant with its reference
    count (preprocess pass) or its assigned position (emit pass). *)
Record t := mk {
  m_inPreprocess : bool;
  m_localVariableInfo : list LocalVariableInfo.t;
  m_constantData : list (Value.t * Z)
}.

Definition set_m_inPreprocess (v : bool) (r : t) : t :=
  mk v (m_localVariableInfo r) (m_constantData r).

Definition set_m_localVariableInfo (v : list LocalVariableInfo.t) (r : t) : t :=
  mk (m_inPreprocess r) v (m_constantData r).

Definition set_m_constantData (v : list (Value.t * Z)) (r : t) : t :=
  mk (m_inPreprocess r) (m_localVariableInfo r) v.

End PreprocessData.

Module VMStackInfo.

(** [VMStackInfo]: an entry of the shadow stack. [m_localIndex] is
    [SIZE_MAX] when the entry is not a reference to a local. *)
Record t := mk {
  m_valueType : Value.Type_;
  m_position : Z;
  m_nonOptimizedPosition : Z;
  m_localIndex : Z
}.

Definition set_m_valueType (v : Value.Type_) (r : t) : t :=
  mk v (m_position r) (m_nonOptimizedPosition r) (m_localIndex r).

Definition set_m_position (v : Z) (r : t) : t :=
  mk (m_valueType r) v (m_nonOptimizedPosition r) (m_localIndex r).

Definition set_m_nonOptimizedPosition (v : Z) (r : t) : t :=
  mk (m_valueType r) (m_position r) v (m_localIndex r).

Definition set_m_localIndex (v : Z) (r : t) : t :=
  mk (m_valueType r) (m_position r) (m_nonOptimizedPosition r) v.

Definition hasValidLocalIndex (i : t) : bool := negb (m_localIndex i =? SIZE_MAX).

Definition clearLocalIndex (i : t) : t := set_m_localIndex SIZE_MAX i.

Definition position (i : t) : Z := m_position i.

Definition setPosition (p : Z) (i : t) : t := set_m_position p i.

Definition valueType (i : t) : Value.Type_ := m_valueType i.

Definition stackAllocatedSize (i : t) : Z :=
  valueStackAllocatedSize (m_valueType i).

Definition nonOptimizedPosition (i : t) : Z := m_nonOptimizedPosition i.

Definition localIndex (i : t) : Z := m_localIndex i.

End VMStackInfo.

Module JumpToEndBrInfo.

Inductive JumpToEndType := IsJump | IsJumpIf | IsBrTable.

Record t := mk { m_type : JumpToEndType; m_position : Z }.

End JumpToEndBrInfo.

Module BlockInfo.

Inductive BlockType := IfElse | Loop | Block | TryCatch.

#[global] Instance BlockType_eq_dec : EqDecision BlockType.
Proof. solve_decision. Defined.

(** [BlockInfo]: a control block with the snapshot of the shadow stack
    taken when it was opened. *)
Record t := mk {
  m_blockType : BlockType;
  m_returnValueType : Type_.t;
  m_position : Z;
  m_vmStack : list VMStackInfo.t;
  m_functionStackSizeSoFar : Z;
  m_shouldRestoreVMStackAtEnd : bool;
  m_byteCodeGenerationStopped : bool;
  m_seenBranch : bool;
  m_jumpToEndBrInfo : list JumpToEndBrInfo.t
}.

Definition set_m_blockType (v : BlockType) (r : t) : t :=
  mk v (m_returnValueType r) (m_position r) (m_vmStack r)
    (m_functionStackSizeSoFar r) (m_shouldRestoreVMStackAtEnd r)
    (m_byteCodeGenerationStopped r) (m_seenBranch r) (m_jumpToEndBrInfo r).

Definition set_m_returnValueType (v : Type_.t) (r : t) : t :=
  mk (m_blockType r) v (m_position r) (m_vmStack r)
    (m_functionStackSizeSoFar r) (m_shouldRestoreVMStackAtEnd r)
    (m_byteCodeGenerationStopped r) (m_seenBranch r) (m_jumpToEndBrInfo r).

Definition set_m_position (v : Z) (r : t) : t :=
  mk (m_blockType r) (m_returnValueType r) v (m_vmStack r)
    (m_functionStackSizeSoFar r) (m_shouldRestoreVMStackAtEnd r)
    (m_byteCodeGenerationStopped r) (m_seenBranch r) (m_jumpToEndBrInfo r).

Definition set_m_vmStack (v : list VMStackInfo.t) (r : t) : t :=
  mk (m_blockType r) (m_returnValueType r) (m_position r) v
    (m_functionStackSizeSoFar r) (m_shouldRestoreVMStackAtEnd r)
    (m_byteCodeGenerationStopped r) (m_seenBranch r) (m_jumpToEndBrInfo r).

Definition set_m_functionStackSizeSoFar (v : Z) (r : t) : t :=
  mk (m_blockType r) (m_returnValueType r) (m_position r) (m_vmStack r) v
    (m_shouldRestoreVMStackAtEnd r) (m_byteCodeGenerationStopped r)
    (m_seenBranch r) (m_jumpToEndBrInfo r).

Definition set_m_shouldRestoreVMStackAtEnd (v : bool) (r : t) : t :=
  mk (m_blockType r) (m_returnValueType r) (m_position r) (m_vmStack r)
    (m_functionStackSizeSoFar r) v (m_byteCodeGenerationStopped r)
    (m_seenBranch r) (m_jumpToEndBrInfo r).

Definition set_m_byteCodeGenerationStopped (v : bool) (r : t) : t :=
  mk (m_blockType r) (m_returnValueType r) (m_position r) (m_vmStack r)
    (m_functionStackSizeSoFar r) (m_shouldRestoreVMStackAtEnd r) v
    (m_seenBranch r) (m_jumpToEndBrInfo r).

Definition set_m_seenBranch (v : bool) (r : t) : t :=
  mk (m_blockType r) (m_returnValueType r) (m_position r) (m_vmStack r)
    (m_functionStackSizeSoFar r) (m_shouldRestoreVMStackAtEnd r)
    (m_byteCodeGenerationStopped r) v (m_jumpToEndBrInfo r).

Definition set_m_jumpToEndBrInfo (v : list JumpToEndBrInfo.t) (r : t) : t :=
  mk (m_blockType r) (m_returnValueType r) (m_position r) (m_vmStack r)
    (m_functionStackSizeSoFar r) (m_shouldRestoreVMStackAtEnd r)
    (m_byteCodeGenerationStopped r) (m_seenBranch r) v.

End BlockInfo.

Module CatchInfo.

Record t := mk {
  m_tryCatchBlockDepth : Z;
  m_tryStart : Z;
  m_tryEnd : Z;
  m_catchStart : Z;
  m_tagIndex : Z
}.

End CatchInfo.

Module LocalInfo.

Record t := mk { m_valueType : Value.Type_; m_position : Z }.

End LocalInfo.

Module ModuleFunction.

(** [Walrus::ModuleFunction], the output record of one function: the
    fields the emitter writes. An entry of [m_catchInfo] is
    (try start, try end, catch start, stack size to restore, tag). *)
Record t := mk {
  m_functionType : FunctionType.t;
  m_byteCode : list ByteCode.t;
  m_requiredStackSize : Z;
  m_local : list Value.Type_;
  m_catchInfo : list (Z * Z * Z * Z * Z);
  m_hasTryCatch : bool
}.

Definition set_m_functionType (v : FunctionType.t) (r : t) : t :=
  mk v (m_byteCode r) (m_requiredStackSize r) (m_local r) (m_catchInfo r)
    (m_hasTryCatch r).

Definition set_m_byteCode (v : list ByteCode.t) (r : t) : t :=
  mk (m_functionType r) v (m_requiredStackSize r) (m_local r)
    (m_catchInfo r) (m_hasTryCatch r).

Definition set_m_requiredStackSize (v : Z) (r : t) : t :=
  mk (m_functionType r) (m_byteCode r) v (m_local r) (m_catchInfo r)
    (m_hasTryCatch r).

Definition set_m_local (v : list Value.Type_) (r : t) : t :=
  mk (m_functionType r) (m_byteCode r) (m_requiredStackSize r) v
    (m_catchInfo r) (m_hasTryCatch r).

Definition set_m_catchInfo (v : list (Z * Z * Z * Z * Z)) (r : t) : t :=
  mk (m_functionType r) (m_byteCode r) (m_requiredStackSize r) (m_local r) v
    (m_hasTryCatch r).

Definition set_m_hasTryCatch (v : bool) (r : t) : t :=
  mk (m_functionType r) (m_byteCode r) (m_requiredStackSize r) (m_local r)
    (m_catchInfo r) v.

(** [new ModuleFunction(functionType)]. *)
Definition new (ft : FunctionType.t) : t := mk ft [] 0 [] [] false.

End ModuleFunction.

Module WASMParsingResult.

(** The tables of the module the handlers read: function types, the kinds
    of the globals, the signature index of each tag. *)
Record t := mk {
  m_functionTypes : list FunctionType.t;
  m_globalTypes : list Value.Type_;
  m_tagTypes : list nat
}.

End WASMParsingResult.

Module WASMBinaryReader.

(** The state of [WASMBinaryReader]. [readerOffset] is the value behind
    [m_readerOffsetPointer] and [readerData] the bytes behind
    [m_readerDataPointer]. [m_currentFunction] holds the record of the
    function being compiled ([endFunction] leaves it in place for
    inspection where the C++ nulls the pointer). The last three fields are
    inherited from [WASMBinaryReaderDelegate]. *)
Record t := mk {
  readerOffset : Z;
  readerData : list Z;
  m_codeEndOffset : Z;
  m_preprocessData : PreprocessData.t;
  m_inInitExpr : bool;
  m_currentFunction : ModuleFunction.t;
  m_currentFunctionType : FunctionType.t;
  m_initialFunctionStackSize : Z;
  m_functionStackSizeSoFar : Z;
  m_vmStack : list VMStackInfo.t;
  m_blockInfo : list BlockInfo.t;
  m_catchInfo : list CatchInfo.t;
  m_localInfo : list LocalInfo.t;
  m_result : WASMParsingResult.t;
  m_stackValues : list (Value.Type_ * Z);
  m_lastI32EqzPos : Z;
  m_shouldContinueToGenerateByteCode : bool;
  m_resumeGenerateByteCodeAfterNBlockEnd : Z;
  m_skipValidationUntil : Z
}.

Definition set_readerOffset (v : Z) (r : t) : t :=
  mk v (readerData r) (m_codeEndOffset r) (m_preprocessData r)
    (m_inInitExpr r) (m_currentFunction r) (m_currentFunctionType r)
    (m_initialFunctionStackSize r) (m_functionStackSizeSoFar r)
    (m_vmStack r) (m_blockInfo r) (m_catchInfo r) (m_localInfo r)
    (m_result r) (m_stackValues r) (m_lastI32EqzPos r)
    (m_shouldContinueToGenerateByteCode r)
    (m_resumeGenerateByteCodeAfterNBlockEnd r) (m_skipValidationUntil r).

Definition set_readerData (v : list Z) (r : t) : t :=
  mk (readerOffset r) v (m_codeEndOffset r) (m_preprocessData r)
    (m_inInitExpr r) (m_currentFunction r) (m_currentFunctionType r)
    (m_initialFunctionStackSize r) (m_functionStackSizeSoFar r)
    (m_vmStack r) (m_blockInfo r) (m_catchInfo r) (m_localInfo r)
    (m_result r) (m_stackValues r) (m_lastI32EqzPos r)
    (m_shouldContinueToGenerateByteCode r)
    (m_resumeGenerateByteCodeAfterNBlockEnd r) (m_skipValidationUntil r).

Definition set_m_codeEndOffset (v : Z) (r : t) : t :=
  mk (readerOffset r) (readerData r) v (m_preprocessData r) (m_inInitExpr r)
    (m_currentFunction r) (m_currentFunctionType r)
    (m_initialFunctionStackSize r) (m_functionStackSizeSoFar r)
    (m_vmStack r) (m_blockInfo r) (m_catchInfo r) (m_localInfo r)
    (m_result r) (m_stackValues r) (m_lastI32EqzPos r)
    (m_shouldContinueToGenerateByteCode r)
    (m_resumeGenerateByteCodeAfterNBlockEnd r) (m_skipValidationUntil r).

Definition set_m_preprocessData (v : PreprocessData.t) (r : t) : t :=
  mk (readerOffset r) (readerData r) (m_codeEndOffset r) v (m_inInitExpr r)
    (m_currentFunction r) (m_currentFunctionType r)
    (m_initialFunctionStackSize r) (m_functionStackSizeSoFar r)
    (m_vmStack r) (m_blockInfo r) (m_catchInfo r) (m_localInfo r)
    (m_result r) (m_stackValues r) (m_lastI32EqzPos r)
    (m_shouldContinueToGenerateByteCode r)
    (m_resumeGenerateByteCodeAfterNBlockEnd r) (m_skipValidationUntil r).

Definition set_m_inInitExpr (v : bool) (r : t) : t :=
  mk (readerOffset r) (readerData r) (m_codeEndOffset r)
    (m_preprocessData r) v (m_currentFunction r) (m_currentFunctionType r)
    (m_initialFunctionStackSize r) (m_functionStackSizeSoFar r)
    (m_vmStack r) (m_blockInfo r) (m_catchInfo r) (m_localInfo r)
    (m_result r) (m_stackValues r) (m_lastI32EqzPos r)
    (m_shouldContinueToGenerateByteCode r)
    (m_resumeGenerateByteCodeAfterNBlockEnd r) (m_skipValidationUntil r).

Definition set_m_currentFunction (v : ModuleFunction.t) (r : t) : t :=
  mk (readerOffset r) (readerData r) (m_codeEndOffset r)
    (m_preprocessData r) (m_inInitExpr r) v (m_currentFunctionType r)
    (m_initialFunctionStackSize r) (m_functionStackSizeSoFar r)
    (m_vmStack r) (m_blockInfo r) (m_catchInfo r) (m_localInfo r)
    (m_result r) (m_stackValues r) (m_lastI32EqzPos r)
    (m_shouldContinueToGenerateByteCode r)
    (m_resumeGenerateByteCodeAfterNBlockEnd r) (m_skipValidationUntil r).

Definition set_m_currentFunctionType (v : FunctionType.t) (r : t) : t :=
  mk (readerOffset r) (readerData r) (m_codeEndOffset r)
    (m_preprocessData r) (m_inInitExpr r) (m_currentFunction r) v
    (m_initialFunctionStackSize r) (m_functionStackSizeSoFar r)
    (m_vmStack r) (m_blockInfo r) (m_catchInfo r) (m_localInfo r)
    (m_result r) (m_stackValues r) (m_lastI32EqzPos r)
    (m_shouldContinueToGenerateByteCode r)
    (m_resumeGenerateByteCodeAfterNBlockEnd r) (m_skipValidationUntil r).

Definition set_m_initialFunctionStackSize (v : Z) (r : t) : t :=
  mk (readerOffset r) (readerData r) (m_codeEndOffset r)
    (m_preprocessData r) (m_inInitExpr r) (m_currentFunction r)
    (m_currentFunctionType r) v (m_functionStackSizeSoFar r) (m_vmStack r)
    (m_blockInfo r) (m_catchInfo r) (m_localInfo r) (m_result r)
    (m_stackValues r) (m_lastI32EqzPos r)
    (m_shouldContinueToGenerateByteCode r)
    (m_resumeGenerateByteCodeAfterNBlockEnd r) (m_skipValidationUntil r).

Definition set_m_functionStackSizeSoFar (v : Z) (r : t) : t :=
  mk (readerOffset r) (readerData r) (m_codeEndOffset r)
    (m_preprocessData r) (m_inInitExpr r) (m_currentFunction r)
    (m_currentFunctionType r) (m_initialFunctionStackSize r) v (m_vmStack r)
    (m_blockInfo r) (m_catchInfo r) (m_localInfo r) (m_result r)
    (m_stackValues r) (m_lastI32EqzPos r)
    (m_shouldContinueToGenerateByteCode r)
    (m_resumeGenerateByteCodeAfterNBlockEnd r) (m_skipValidationUntil r).

Definition set_m_vmStack (v : list VMStackInfo.t) (r : t) : t :=
  mk (readerOffset r) (readerData r) (m_codeEndOffset r)
    (m_preprocessData r) (m_inInitExpr r) (m_currentFunction r)
    (m_currentFunctionType r) (m_initialFunctionStackSize r)
    (m_functionStackSizeSoFar r) v (m_blockInfo r) (m_catchInfo r)
    (m_localInfo r) (m_result r) (m_stackValues r) (m_lastI32EqzPos r)
    (m_shouldContinueToGenerateByteCode r)
    (m_resumeGenerateByteCodeAfterNBlockEnd r) (m_skipValidationUntil r).

Definition set_m_blockInfo (v : list BlockInfo.t) (r : t) : t :=
  mk (readerOffset r) (readerData r) (m_codeEndOffset r)
    (m_preprocessData r) (m_inInitExpr r) (m_currentFunction r)
    (m_currentFunctionType r) (m_initialFunctionStackSize r)
    (m_functionStackSizeSoFar r) (m_vmStack r) v (m_catchInfo r)
    (m_localInfo r) (m_result r) (m_stackValues r) (m_lastI32EqzPos r)
    (m_shouldContinueToGenerateByteCode r)
    (m_resumeGenerateByteCodeAfterNBlockEnd r) (m_skipValidationUntil r).

Definition set_m_catchInfo (v : list CatchInfo.t) (r : t) : t :=
  mk (readerOffset r) (readerData r) (m_codeEndOffset r)
    (m_preprocessData r) (m_inInitExpr r) (m_currentFunction r)
    (m_currentFunctionType r) (m_initialFunctionStackSize r)
    (m_functionStackSizeSoFar r) (m_vmStack r) (m_blockInfo r) v
    (m_localInfo r) (m_result r) (m_stackValues r) (m_lastI32EqzPos r)
    (m_shouldContinueToGenerateByteCode r)
    (m_resumeGenerateByteCodeAfterNBlockEnd r) (m_skipValidationUntil r).

Definition set_m_localInfo (v : list LocalInfo.t) (r : t) : t :=
  mk (readerOffset r) (readerData r) (m_codeEndOffset r)
    (m_preprocessData r) (m_inInitExpr r) (m_currentFunction r)
    (m_currentFunctionType r) (m_initialFunctionStackSize r)
    (m_functionStackSizeSoFar r) (m_vmStack r) (m_blockInfo r)
    (m_catchInfo r) v (m_result r) (m_stackValues r) (m_lastI32EqzPos r)
    (m_shouldContinueToGenerateByteCode r)
    (m_resumeGenerateByteCodeAfterNBlockEnd r) (m_skipValidationUntil r).

Definition set_m_result (v : WASMParsingResult.t) (r : t) : t :=
  mk (readerOffset r) (readerData r) (m_codeEndOffset r)
    (m_preprocessData r) (m_inInitExpr r) (m_currentFunction r)
    (m_currentFunctionType r) (m_initialFunctionStackSize r)
    (m_functionStackSizeSoFar r) (m_vmStack r) (m_blockInfo r)
    (m_catchInfo r) (m_localInfo r) v (m_stackValues r) (m_lastI32EqzPos r)
    (m_shouldContinueToGenerateByteCode r)
    (m_resumeGenerateByteCodeAfterNBlockEnd r) (m_skipValidationUntil r).

Definition set_m_stackValues (v : list (Value.Type_ * Z)) (r : t) : t :=
  mk (readerOffset r) (readerData r) (m_codeEndOffset r)
    (m_preprocessData r) (m_inInitExpr r) (m_currentFunction r)
    (m_currentFunctionType r) (m_initialFunctionStackSize r)
    (m_functionStackSizeSoFar r) (m_vmStack r) (m_blockInfo r)
    (m_catchInfo r) (m_localInfo r) (m_result r) v (m_lastI32EqzPos r)
    (m_shouldContinueToGenerateByteCode r)
    (m_resumeGenerateByteCodeAfterNBlockEnd r) (m_skipValidationUntil r).

Definition set_m_lastI32EqzPos (v : Z) (r : t) : t :=
  mk (readerOffset r) (readerData r) (m_codeEndOffset r)
    (m_preprocessData r) (m_inInitExpr r) (m_currentFunction r)
    (m_currentFunctionType r) (m_initialFunctionStackSize r)
    (m_functionStackSizeSoFar r) (m_vmStack r) (m_blockInfo r)
    (m_catchInfo r) (m_localInfo r) (m_result r) (m_stackValues r) v
    (m_shouldContinueToGenerateByteCode r)
    (m_resumeGenerateByteCodeAfterNBlockEnd r) (m_skipValidationUntil r).

Definition set_m_shouldContinueToGenerateByteCode (v : bool) (r : t) : t :=
  mk (readerOffset r) (readerData r) (m_codeEndOffset r)
    (m_preprocessData r) (m_inInitExpr r) (m_currentFunction r)
    (m_currentFunctionType r) (m_initialFunctionStackSize r)
    (m_functionStackSizeSoFar r) (m_vmStack r) (m_blockInfo r)
    (m_catchInfo r) (m_localInfo r) (m_result r) (m_stackValues r)
    (m_lastI32EqzPos r) v (m_resumeGenerateByteCodeAfterNBlockEnd r)
    (m_skipValidationUntil r).

Definition set_m_resumeGenerateByteCodeAfterNBlockEnd (v : Z) (r : t) : t :=
  mk (readerOffset r) (readerData r) (m_codeEndOffset r)
    (m_preprocessData r) (m_inInitExpr r) (m_currentFunction r)
    (m_currentFunctionType r) (m_initialFunctionStackSize r)
    (m_functionStackSizeSoFar r) (m_vmStack r) (m_blockInfo r)
    (m_catchInfo r) (m_localInfo r) (m_result r) (m_stackValues r)
    (m_lastI32EqzPos r) (m_shouldContinueToGenerateByteCode r) v
    (m_skipValidationUntil r).

Definition set_m_skipValidationUntil (v : Z) (r : t) : t :=
  mk (readerOffset r) (readerData r) (m_codeEndOffset r)
    (m_preprocessData r) (m_inInitExpr r) (m_currentFunction r)
    (m_currentFunctionType r) (m_initialFunctionStackSize r)
    (m_functionStackSizeSoFar r) (m_vmStack r) (m_blockInfo r)
    (m_catchInfo r) (m_localInfo r) (m_result r) (m_stackValues r)
    (m_lastI32EqzPos r) (m_shouldContinueToGenerateByteCode r)
    (m_resumeGenerateByteCodeAfterNBlockEnd r) v.

(** *** The monad of the handlers

    A handler is a state transformer that may stop ([None]) where the
    C++ has no defined behaviour. *)

Definition M (A : Type) : Type := t -> option (A * t).

Definition ret {A} (a : A) : M A := fun s => Some (a, s).

Definition bind {A B} (m : M A) (k : A -> M B) : M B :=
  fun s => match m s with Some (a, s') => k a s' | None => None end.

Definition gets {A} (f : t -> A) : M A := fun s => Some (f s, s).

Definition modify (f : t -> t) : M unit := fun s => Some (tt, f s).

Definition abort {A} : M A := fun _ => None.

Definition lift {A} (o : option A) : M A :=
  fun s => match o with Some a => Some (a, s) | None => None end.

Declare Scope M_scope.
Delimit Scope M_scope with M.
Bind Scope M_scope with M.

Notation "x <- c1 ;; c2" := (bind c1 (fun x => c2))
  (at level 100, c1 at next level, right associativity) : M_scope.
Notation "e1 ;; e2" := (bind e1 (fun _ => e2))
  (at level 100, right associativity) : M_scope.

#[local] Open Scope M_scope.

Definition when (b : bool) (m : M unit) : M unit :=
  if b then m else ret tt.

(** A [for] loop over the elements of a list. *)
Fixpoint forM_ {A} (l : list A) (body : A -> M unit) : M unit :=
  match l with
  | [] => ret tt
  | x :: r => body x ;; forM_ r body
  end.

(** [n] repetitions of a loop body. *)
Fixpoint repeatM (n : nat) (body : M unit) : M unit :=
  match n with
  | O => ret tt
  | S n' => body ;; repeatM n' body
  end.

(** The final state of a run, when it has one. *)
Definition exec {A} (m : M A) (s : t) : option t := snd <$> m s.

(** The handler [m] keeps the state property [P]. *)
Definition Preserves (P : t -> Prop) {A} (m : M A) : Prop :=
  forall s a s', m s = Some (a, s') -> P s -> P s'.

(** *** Vectors *)

(** [v[i]] for a [size_t] index; out of range is undefined in C++. *)
Definition at_ {A} (l : list A) (i : Z) : option A :=
  if (0 <=? i) && (i <? Z.of_nat (length l)) then l !! Z.to_nat i else None.

(** [v[i] = f(v[i])]. *)
Definition alterAt {A} (f : A -> A) (i : Z) (l : list A) : option (list A) :=
  if (0 <=? i) && (i <? Z.of_nat (length l)) then Some (alter f (Z.to_nat i) l)
  else None.

(** [*(v.rbegin() + i)]. *)
Definition fromBack {A} (l : list A) (i : nat) : option A :=
  if decide (i < length l)%nat then l !! (length l - 1 - i)%nat else None.

Definition alterFromBack {A} (f : A -> A) (i : nat) (l : list A)
  : option (list A) :=
  if decide (i < length l)%nat then Some (alter f (length l - 1 - i)%nat l)
  else None.

Definition size {A} (l : list A) : Z := Z.of_nat (length l).

(** *** Field access *)

(** [m_currentFunction->currentByteCodeSize()]. *)
Definition currentByteCodeSize {L : Layout} (s : t) : Z :=
  byteSize (ModuleFunction.m_byteCode (m_currentFunction s)).

Definition modifyFunction (f : ModuleFunction.t -> ModuleFunction.t) : M unit :=
  modify (fun s => set_m_currentFunction (f (m_currentFunction s)) s).

Definition modifyPreprocessData (f : PreprocessData.t -> PreprocessData.t)
  : M unit :=
  modify (fun s => set_m_preprocessData (f (m_preprocessData s)) s).

Definition inPreprocess : M bool :=
  gets (fun s => PreprocessData.m_inPreprocess (m_preprocessData s)).

(** [m_preprocessData.m_localVariableInfo[localIndex] = f(...)]. *)
Definition modifyLocalVariableInfo (localIndex : Z)
    (f : LocalVariableInfo.t -> LocalVariableInfo.t) : M unit :=
  infos <- gets (fun s => PreprocessData.m_localVariableInfo (m_preprocessData s)) ;;
  infos' <- lift (alterAt f localIndex infos) ;;
  modifyPreprocessData (PreprocessData.set_m_localVariableInfo infos').

Definition setRequiredStackSize (v : Z) : M unit :=
  modifyFunction (ModuleFunction.set_m_requiredStackSize v).

(** [m_requiredStackSize = std::max(m_requiredStackSize,
    m_functionStackSizeSoFar)] (both are [uint16_t]). *)
Definition bumpRequiredStackSize : M unit :=
  modify (fun s =>
    set_m_currentFunction
      (ModuleFunction.set_m_requiredStackSize
         (Z.max (ModuleFunction.m_requiredStackSize (m_currentFunction s))
                (m_functionStackSizeSoFar s))
         (m_currentFunction s)) s).

(** *** PreprocessData *)

(** [PreprocessData::clear]. *)
Definition clear : M unit :=
  n <- gets (fun s => length (m_localInfo s)) ;;
  modifyPreprocessData (fun p =>
    PreprocessData.set_m_constantData []
      (PreprocessData.set_m_localVariableInfo
         (replicate n LocalVariableInfo.new) p)).

(** [PreprocessData::seenBranch]. *)
Definition seenBranch : M unit :=
  inP <- inPreprocess ;;
  when inP (
    modify (fun s =>
      if (0 <? size (m_blockInfo s))
      then set_m_blockInfo
             (alter (BlockInfo.set_m_seenBranch true)
                    (length (m_blockInfo s) - 1)%nat (m_blockInfo s)) s
      else s) ;;
    modifyPreprocessData (fun p =>
      PreprocessData.set_m_localVariableInfo
        (map (LocalVariableInfo.set_m_writePlacesBetweenBranches [])
             (PreprocessData.m_localVariableInfo p)) p)).

(** [PreprocessData::addLocalVariableUsage]. *)
Definition addLocalVariableUsage (localIndex : Z) : M unit :=
  inP <- inPreprocess ;;
  when inP (
    stack <- gets m_vmStack ;;
    let pushCount :=
      size (filter (fun e => VMStackInfo.localIndex e = localIndex) stack) in
    pos <- gets readerOffset ;;
    modifyLocalVariableInfo localIndex (fun info =>
      let info :=
        LocalVariableInfo.set_m_usageInfo
          (LocalVariableInfo.m_usageInfo info ++ [UsageInfo.new pos pushCount])
          info in
      if negb (LocalVariableInfo.m_needsExplicitInitOnStartup info) then
        if size (LocalVariableInfo.m_writePlacesBetweenBranches info) =? 0 then
          let writeFound :=
            existsb (fun w => w <? pos)
                    (LocalVariableInfo.m_definitelyWritePlaces info) in
          if negb writeFound
          then LocalVariableInfo.set_m_needsExplicitInitOnStartup true info
          else info
        else info
      else info)).

(** [PreprocessData::addLocalVariableWrite]. *)
Definition addLocalVariableWrite (localIndex : Z) : M unit :=
  inP <- inPreprocess ;;
  when inP (
    pos <- gets readerOffset ;;
    blocks <- gets m_blockInfo ;;
    let isDefinitelyWritePlaces :=
      negb (existsb BlockInfo.m_seenBranch blocks) in
    modifyLocalVariableInfo localIndex (fun info =>
      let info :=
        LocalVariableInfo.set_m_usageInfo
          (map (fun u =>
                  if (UsageInfo.m_startPosition u <=? pos)
                     && (pos <=? UsageInfo.m_endPosition u)
                  then UsageInfo.set_m_hasWriteUsage true u else u)
               (LocalVariableInfo.m_usageInfo info))
          info in
      let info :=
        if isDefinitelyWritePlaces
        then LocalVariableInfo.set_m_definitelyWritePlaces
               (LocalVariableInfo.m_definitelyWritePlaces info ++ [pos]) info
        else info in
      LocalVariableInfo.set_m_writePlacesBetweenBranches
        (LocalVariableInfo.m_writePlacesBetweenBranches info ++ [pos]) info)).

(** [WALRUS_ASSIGN_CONSTANT_ON_STACK_MAX_COUNT], at its default. *)
Definition maxConstantData : Z := 6.

(** The search loop of [addConstantData]: the count of the first entry
    equal to [v] is incremented; the answer tells whether one was found.
    (The count is a [size_t]; a body has fewer than [2^64] constants.) *)
Fixpoint incrementFirst (v : Value.t) (l : list (Value.t * Z))
  : list (Value.t * Z) * bool :=
  match l with
  | [] => ([], false)
  | e :: r =>
      if Value.eqb (fst e) v then ((fst e, snd e + 1) :: r, true)
      else let '(r', found) := incrementFirst v r in (e :: r', found)
  end.

(** [m_constantData.erase(m_constantData.end() - n, m_constantData.end())]. *)
Definition eraseBack {A} (n : Z) (l : list A) : list A :=
  take (length l - Z.to_nat n)%nat l.

Section Sorting.

Context {Srt : StdSort}.

(** [PreprocessData::organizeConstantData]. *)
Definition organizeConstantData : M unit :=
  modifyPreprocessData (fun p =>
    PreprocessData.set_m_constantData
      (std_sort (PreprocessData.m_constantData p)) p).

(** [PreprocessData::organizeData]. *)
Definition organizeData : M unit := organizeConstantData.

(** [PreprocessData::addConstantData]. *)
Definition addConstantData (v : Value.t) : M unit :=
  inP <- inPreprocess ;;
  when inP (
    modifyPreprocessData (fun p =>
      let '(l, found) := incrementFirst v (PreprocessData.m_constantData p) in
      PreprocessData.set_m_constantData
        (if found then l else l ++ [(v, 1)]) p) ;;
    n <- gets (fun s => size (PreprocessData.m_constantData (m_preprocessData s))) ;;
    when (maxConstantData <? n) (
      organizeConstantData ;;
      modifyPreprocessData (fun p =>
        PreprocessData.set_m_constantData
          (eraseBack (maxConstantData / 4) (PreprocessData.m_constantData p))
          p))).

End Sorting.

(** *** The value-stack tracker *)

(** [pushVMStack(type, pos, localIndex)]. *)
Definition pushVMStack (type : Value.Type_) (pos : Z) (localIndex : Z) : M unit :=
  when (negb (localIndex =? SIZE_MAX)) (addLocalVariableUsage localIndex) ;;
  modify (fun s =>
    set_m_vmStack
      (m_vmStack s ++
         [VMStackInfo.mk type pos (m_functionStackSizeSoFar s) localIndex]) s) ;;
  let allocSize := valueStackAllocatedSize type in
  when (localIndex =? SIZE_MAX)
    (modify (fun s => set_m_stackValues (m_stackValues s ++ [(type, pos)]) s)) ;;
  modify (fun s =>
    set_m_functionStackSizeSoFar (u16 (m_functionStackSizeSoFar s + allocSize)) s) ;;
  bumpRequiredStackSize.

(** [pushVMStack(type)]: the entry goes to the current top. *)
Definition pushVMStack1 (type : Value.Type_) : M Z :=
  pos <- gets m_functionStackSizeSoFar ;;
  pushVMStack type pos SIZE_MAX ;;
  ret pos.

(** The loop of [popVMStackInfo] over [m_usageInfo.rbegin()]: the last
    interval that is still open gets [pos] as its end. The list is given
    back to front. *)
Fixpoint closeFirstOpen (pos : Z) (l : list UsageInfo.t)
  : option (list UsageInfo.t) :=
  match l with
  | [] => None
  | u :: r =>
      if UsageInfo.m_endPosition u =? SIZE_MAX
      then Some (UsageInfo.set_m_endPosition pos u :: r)
      else r' ← closeFirstOpen pos r; Some (u :: r')
  end.

(** The interval of local [localIndex] opened last and not yet closed
    ends at the reader offset. *)
Definition closeUsage (localIndex : Z) : M unit :=
  pos <- gets readerOffset ;;
  infos <- gets (fun s => PreprocessData.m_localVariableInfo (m_preprocessData s)) ;;
  info <- lift (at_ infos localIndex) ;;
  usage <- lift (closeFirstOpen pos (rev (LocalVariableInfo.m_usageInfo info))) ;;
  modifyLocalVariableInfo localIndex
    (LocalVariableInfo.set_m_usageInfo (rev usage)).

(** [popVMStackInfo]. *)
Definition popVMStackInfo : M VMStackInfo.t :=
  stack <- gets m_vmStack ;;
  info <- lift (last stack) ;;
  modify (fun s =>
    set_m_functionStackSizeSoFar
      (u16 (m_functionStackSizeSoFar s
            - valueStackAllocatedSize (VMStackInfo.valueType info))) s) ;;
  modify (set_m_vmStack (removelast stack)) ;;
  inP <- inPreprocess ;;
  when (inP && VMStackInfo.hasValidLocalIndex info)
    (closeUsage (VMStackInfo.localIndex info)) ;;
  ret info.

(** [peekVMStackInfo]. *)
Definition peekVMStackInfo : M VMStackInfo.t :=
  stack <- gets m_vmStack ;;
  lift (last stack).

Definition popVMStack : M Z :=
  info <- popVMStackInfo ;; ret (VMStackInfo.position info).

Definition peekVMStack : M Z :=
  info <- peekVMStackInfo ;; ret (VMStackInfo.position info).

Definition peekVMStackValueType : M Value.Type_ :=
  info <- peekVMStackInfo ;; ret (VMStackInfo.valueType info).

(** *** The emitter *)

Section Emitter.

Context {L : Layout} {Srt : StdSort}.

(** [s_noI32Eqz = SIZE_MAX - sizeof(Walrus::I32Eqz)]. *)
Definition s_noI32Eqz : Z :=
  SIZE_MAX - sizeof (ByteCode.UnaryOpcode WASMOpcode.I32Eqz).

Definition byteCode : M (list ByteCode.t) :=
  gets (fun s => ModuleFunction.m_byteCode (m_currentFunction s)).

Definition setByteCode (buf : list ByteCode.t) : M unit :=
  modifyFunction (ModuleFunction.set_m_byteCode buf).

(** [pushByteCode]: the overload for [Walrus::I32Eqz] first records
    where the record starts. *)
Definition pushByteCode (code : ByteCode.t) : M unit :=
  match code with
  | ByteCode.UnaryOperation WASMOpcode.I32Eqz _ _ =>
      modify (fun s => set_m_lastI32EqzPos (currentByteCodeSize s) s)
  | _ => ret tt
  end ;;
  modifyFunction (fun f =>
    ModuleFunction.set_m_byteCode (ModuleFunction.m_byteCode f ++ [code]) f).

(** [peekByteCode<Walrus::UnaryOperation>(pos)]: source and destination
    offsets of the unary record that starts at [pos]. *)
Definition peekUnaryOperation (pos : Z) : M (Z * Z) :=
  buf <- byteCode ;;
  c <- lift (peekAt buf pos) ;;
  match c with
  | ByteCode.UnaryOperation _ src dst => ret (src, dst)
  | _ => abort
  end.

(** [canBeInverted]; [&&] does not look at the record when the first
    test fails. *)
Definition canBeInverted (stackPos : Z) : M bool :=
  lastPos <- gets m_lastI32EqzPos ;;
  cur <- gets currentByteCodeSize ;;
  if usize (lastPos + sizeof (ByteCode.UnaryOpcode WASMOpcode.I32Eqz)) =? cur
  then sd <- peekUnaryOperation lastPos ;; ret (snd sd =? stackPos)
  else ret false.

(** [m_currentFunction->resizeByteCode(pos)]. *)
Definition resizeByteCode (pos : Z) : M unit :=
  buf <- byteCode ;;
  buf' <- lift (truncateAt buf pos) ;;
  setByteCode buf'.

(** The three statements both conditional branches run when
    [canBeInverted] holds: the condition becomes the source of the
    [i32.eqz], the buffer is rewound to its start and the candidate is
    forgotten. *)
Definition rewindI32Eqz : M Z :=
  lastPos <- gets m_lastI32EqzPos ;;
  sd <- peekUnaryOperation lastPos ;;
  resizeByteCode lastPos ;;
  modify (set_m_lastI32EqzPos s_noI32Eqz) ;;
  ret (fst sd).

(** [lookaheadUnsigned8]. *)
Definition lookaheadUnsigned8 (offset : Z) : M (option Z) :=
  o <- gets readerOffset ;;
  e <- gets m_codeEndOffset ;;
  data <- gets readerData ;;
  if o + offset <? e
  then b <- lift (at_ data (o + offset)) ;; ret (Some b)
  else ret None.

(** Modelled from the spec: wabt's [ReadU32Leb128(p, end, &out)], which
    is absent; the spec names a LEB128 look-ahead. The answer is the
    value left in [out] (initialised to 0 by the caller) and the number
    of bytes read, 0 on failure. *)
Definition ReadU32Leb128 (data : list Z) (p end_ : Z) : Z * Z :=
  let b i := default 0 (at_ data (p + i)) in
  let lo i := Z.land (b i) 127 in
  let stop i := (p + i <? end_) && (Z.land (b i) 128 =? 0) in
  if stop 0 then (b 0, 1)
  else if stop 1 then (Z.lor (Z.shiftl (b 1) 7) (lo 0), 2)
  else if stop 2 then
    (Z.lor (Z.shiftl (b 2) 14) (Z.lor (Z.shiftl (lo 1) 7) (lo 0)), 3)
  else if stop 3 then
    (Z.lor (Z.shiftl (b 3) 21)
       (Z.lor (Z.shiftl (lo 2) 14) (Z.lor (Z.shiftl (lo 1) 7) (lo 0))), 4)
  else if stop 4 then
    if negb (Z.land (b 4) 240 =? 0) then (0, 0)
    else
      (Z.lor (Z.shiftl (b 4) 28)
         (Z.lor (Z.shiftl (lo 3) 21)
            (Z.lor (Z.shiftl (lo 2) 14) (Z.lor (Z.shiftl (lo 1) 7) (lo 0)))), 5)
  else (0, 0).

(** [lookaheadUnsigned32]: the value and the length read. *)
Definition lookaheadUnsigned32 (offset : Z) : M (option Z * Z) :=
  o <- gets readerOffset ;;
  e <- gets m_codeEndOffset ;;
  data <- gets readerData ;;
  if o + offset <? e
  then let '(out, len) := ReadU32Leb128 data (o + offset) e in ret (Some out, len)
  else ret (None, 0).

(** [readAheadLocalGetIfExists]: the index and the code length when the
    next opcode is [local.set] (0x21). *)
Definition readAheadLocalGetIfExists : M (option Z * Z) :=
  mayLoadGetCode <- lookaheadUnsigned8 0 ;;
  match mayLoadGetCode with
  | Some 33 =>
      r <- lookaheadUnsigned32 1 ;;
      match fst r with
      | Some v => ret (Some v, snd r + 1)
      | None => ret (None, 0)
      end
  | _ => ret (None, 0)
  end.

Definition localInfo (localIndex : Z) : M LocalInfo.t :=
  infos <- gets m_localInfo ;; lift (at_ infos localIndex).

(** [computeExprResultPosition]. *)
Definition computeExprResultPosition (type : Value.Type_) : M Z :=
  inP <- inPreprocess ;;
  localSetInfo <- (if negb inP then readAheadLocalGetIfExists
                   else ret (None, 0)) ;;
  match fst localSetInfo with
  | Some idx =>
      info <- localInfo idx ;;
      modify (fun s => set_readerOffset (usize (readerOffset s + snd localSetInfo)) s) ;;
      ret (LocalInfo.m_position info)
  | None => pushVMStack1 type
  end.

(** [generateMoveCodeIfNeeds]. *)
Definition generateMoveCodeIfNeeds (srcPosition dstPosition : Z)
    (type : Value.Type_) : M unit :=
  when (negb (srcPosition =? dstPosition))
    (pushByteCode
       (ByteCode.Move
          match type with
          | Value.I32 => ByteCode.MoveI32
          | Value.F32 => ByteCode.MoveF32
          | Value.I64 => ByteCode.MoveI64
          | Value.F64 => ByteCode.MoveF64
          | Value.V128 => ByteCode.MoveV128
          | _ => ByteCode.MoveI64
          end srcPosition dstPosition)).

(** *** Constants *)

(** The loop of [processConstValue] over [m_constantData]. *)
Fixpoint findConstant (value : Value.t) (l : list (Value.t * Z)) : option Z :=
  match l with
  | [] => None
  | e :: r => if Value.eqb (fst e) value then Some (snd e) else findConstant value r
  end.

(** [processConstValue]. *)
Definition processConstValue (value : Value.t) : M bool :=
  inInit <- gets m_inInitExpr ;;
  if negb inInit then
    addConstantData value ;;
    inP <- inPreprocess ;;
    if negb inP then
      consts <- gets (fun s => PreprocessData.m_constantData (m_preprocessData s)) ;;
      match findConstant value consts with
      | Some pos => pushVMStack (Value.type value) pos SIZE_MAX ;; ret true
      | None => ret false
      end
    else ret false
  else ret false.

Definition OnI32ConstExpr (value : Z) : M unit :=
  done <- processConstValue (Value.mk Value.I32 value) ;;
  if done then ret tt
  else pos <- computeExprResultPosition Value.I32 ;;
       pushByteCode (ByteCode.Const32 pos value).

Definition OnI64ConstExpr (value : Z) : M unit :=
  done <- processConstValue (Value.mk Value.I64 value) ;;
  if done then ret tt
  else pos <- computeExprResultPosition Value.I64 ;;
       pushByteCode (ByteCode.Const64 pos value).

Definition OnF32ConstExpr (value : Z) : M unit :=
  done <- processConstValue (Value.mk Value.F32 value) ;;
  if done then ret tt
  else pos <- computeExprResultPosition Value.F32 ;;
       pushByteCode (ByteCode.Const32 pos value).

Definition OnF64ConstExpr (value : Z) : M unit :=
  done <- processConstValue (Value.mk Value.F64 value) ;;
  if done then ret tt
  else pos <- computeExprResultPosition Value.F64 ;;
       pushByteCode (ByteCode.Const64 pos value).

Definition OnV128ConstExpr (value : Z) : M unit :=
  done <- processConstValue (Value.mk Value.V128 value) ;;
  if done then ret tt
  else pos <- computeExprResultPosition Value.V128 ;;
       pushByteCode (ByteCode.Const128 pos value).

(** *** Function begin, local declarations, the two passes *)

(** The loop of [beginFunction] over the parameters. *)
Fixpoint paramLocalInfo (pos : Z) (params : list Value.Type_) : list LocalInfo.t :=
  match params with
  | [] => []
  | ty :: r =>
      LocalInfo.mk ty pos :: paramLocalInfo (pos + valueStackAllocatedSize ty) r
  end.

(** [beginFunction]. *)
Definition beginFunction (mf : ModuleFunction.t) (inInitExpr : bool) : M unit :=
  modify (set_m_inInitExpr inInitExpr) ;;
  modify (set_m_currentFunction mf) ;;
  let ft := ModuleFunction.m_functionType mf in
  modify (set_m_currentFunctionType ft) ;;
  modify (set_m_localInfo (paramLocalInfo 0 (FunctionType.param ft))) ;;
  modify (set_m_functionStackSizeSoFar (u16 (FunctionType.paramStackSize ft))) ;;
  modify (set_m_initialFunctionStackSize (u16 (FunctionType.paramStackSize ft))) ;;
  bumpRequiredStackSize.

(** [OnLocalDecl]. *)
Definition OnLocalDecl (count : nat) (type : Type_.t) : M unit :=
  repeatM count (
    wType <- lift (toValueKind type) ;;
    modifyFunction (fun f =>
      ModuleFunction.set_m_local (ModuleFunction.m_local f ++ [wType]) f) ;;
    modify (fun s =>
      set_m_localInfo
        (m_localInfo s ++ [LocalInfo.mk wType (m_functionStackSizeSoFar s)]) s) ;;
    let sz := valueStackAllocatedSize wType in
    modify (fun s =>
      set_m_initialFunctionStackSize (u16 (m_initialFunctionStackSize s + sz)) s) ;;
    modify (fun s =>
      set_m_functionStackSizeSoFar (u16 (m_functionStackSizeSoFar s + sz)) s)) ;;
  bumpRequiredStackSize.

(** [OnStartReadInstructions]. *)
Definition OnStartReadInstructions (start end_ : Z) : M unit :=
  modify (set_m_codeEndOffset end_).

(** [OnStartPreprocess]. *)
Definition OnStartPreprocess : M unit :=
  modifyPreprocessData (PreprocessData.set_m_inPreprocess true) ;;
  clear.

(** The first loop of [OnEndPreprocess]: every retained constant gets
    the current [m_initialFunctionStackSize] as its position, and the
    [uint16_t] counter moves past it. *)
Fixpoint assignConstantPositions (initial : Z) (l : list (Value.t * Z))
  : list (Value.t * Z) * Z :=
  match l with
  | [] => ([], initial)
  | e :: r =>
      let '(r', final) :=
        assignConstantPositions
          (u16 (initial + valueStackAllocatedSize (Value.type (fst e)))) r in
      ((fst e, initial) :: r', final)
  end.

(** The record that materialises one retained constant. *)
Definition constantInit (e : Value.t * Z) : ByteCode.t :=
  let constSize := valueSize (Value.type (fst e)) in
  if constSize =? 4 then ByteCode.Const32 (snd e) (Value.bits (fst e))
  else if constSize =? 8 then ByteCode.Const64 (snd e) (Value.bits (fst e))
  else ByteCode.Const128 (snd e) (Value.bits (fst e)).

(** [OnEndPreprocess]. *)
Definition OnEndPreprocess : M unit :=
  modifyPreprocessData (PreprocessData.set_m_inPreprocess false) ;;
  modify (fun s => set_m_skipValidationUntil (usize (readerOffset s - 1)) s) ;;
  modify (set_m_shouldContinueToGenerateByteCode true) ;;
  setByteCode [] ;;
  modifyFunction (ModuleFunction.set_m_catchInfo []) ;;
  modify (set_m_blockInfo []) ;;
  modify (set_m_catchInfo []) ;;
  modify (set_m_vmStack []) ;;
  organizeData ;;
  modify (fun s =>
    let '(consts, initial) :=
      assignConstantPositions (m_initialFunctionStackSize s)
        (PreprocessData.m_constantData (m_preprocessData s)) in
    set_m_initialFunctionStackSize initial
      (set_m_preprocessData
         (PreprocessData.set_m_constantData consts (m_preprocessData s)) s)) ;;
  modify (fun s => set_m_functionStackSizeSoFar (m_initialFunctionStackSize s) s) ;;
  modify (fun s =>
    set_m_currentFunction
      (ModuleFunction.set_m_requiredStackSize (m_functionStackSizeSoFar s)
         (m_currentFunction s)) s) ;;
  consts <- gets (fun s => PreprocessData.m_constantData (m_preprocessData s)) ;;
  forM_ consts (fun e => pushByteCode (constantInit e)).

(** *** Locals and globals *)

(** [OnLocalGetExpr]. *)
Definition OnLocalGetExpr (localIndex : Z) : M unit :=
  info <- localInfo localIndex ;;
  let localPos := LocalInfo.m_position info in
  let localValueType := LocalInfo.m_valueType info in
  pos <- gets readerOffset ;;
  infos <- gets (fun s => PreprocessData.m_localVariableInfo (m_preprocessData s)) ;;
  varInfo <- lift (at_ infos localIndex) ;;
  let canUseDirectReference :=
    negb (existsb
            (fun r => (UsageInfo.m_startPosition r <=? pos)
                      && (pos <=? UsageInfo.m_endPosition r)
                      && UsageInfo.m_hasWriteUsage r)
            (LocalVariableInfo.m_usageInfo varInfo)) in
  if canUseDirectReference then pushVMStack localValueType localPos localIndex
  else
    pos <- gets m_functionStackSizeSoFar ;;
    pushVMStack localValueType pos localIndex ;;
    generateMoveCodeIfNeeds localPos pos localValueType.

(** [OnLocalSetExpr]. *)
Definition OnLocalSetExpr (localIndex : Z) : M unit :=
  info <- localInfo localIndex ;;
  let localPos := LocalInfo.m_position info in
  src <- popVMStackInfo ;;
  generateMoveCodeIfNeeds (VMStackInfo.position src) localPos
    (VMStackInfo.valueType src) ;;
  addLocalVariableWrite localIndex.

(** [OnLocalTeeExpr]. *)
Definition OnLocalTeeExpr (localIndex : Z) : M unit :=
  info <- localInfo localIndex ;;
  let valueType := LocalInfo.m_valueType info in
  let localPos := LocalInfo.m_position info in
  dstInfo <- peekVMStackInfo ;;
  generateMoveCodeIfNeeds (VMStackInfo.position dstInfo) localPos valueType ;;
  addLocalVariableWrite localIndex.

Definition globalType (index : Z) : M Value.Type_ :=
  tys <- gets (fun s => WASMParsingResult.m_globalTypes (m_result s)) ;;
  lift (at_ tys index).

(** [OnGlobalGetExpr]. *)
Definition OnGlobalGetExpr (index : Z) : M unit :=
  valueType <- globalType index ;;
  let sz := valueSize valueType in
  stackPos <- computeExprResultPosition valueType ;;
  if sz =? 4 then pushByteCode (ByteCode.GlobalGet32 stackPos index)
  else if sz =? 8 then pushByteCode (ByteCode.GlobalGet64 stackPos index)
  else pushByteCode (ByteCode.GlobalGet128 stackPos index).

(** [OnGlobalSetExpr]. *)
Definition OnGlobalSetExpr (index : Z) : M unit :=
  valueType <- globalType index ;;
  stackPos <- peekVMStack ;;
  let sz := valueSize valueType in
  (if sz =? 4 then pushByteCode (ByteCode.GlobalSet32 stackPos index)
   else if sz =? 8 then pushByteCode (ByteCode.GlobalSet64 stackPos index)
   else pushByteCode (ByteCode.GlobalSet128 stackPos index)) ;;
  popVMStack ;; ret tt.

Definition OnDropExpr : M unit := popVMStack ;; ret tt.

(** [OnBinaryExpr] with [generateBinaryCode]. *)
Definition OnBinaryExpr (code : WASMOpcode.binary) : M unit :=
  src1 <- popVMStack ;;
  src0 <- popVMStack ;;
  dst <- computeExprResultPosition (WASMCodeInfo.binaryResultType code) ;;
  pushByteCode (ByteCode.BinaryOperation code src0 src1 dst).

(** [OnUnaryExpr] with [generateUnaryCode]. *)
Definition OnUnaryExpr (code : WASMOpcode.unary) : M unit :=
  src <- popVMStack ;;
  dst <- computeExprResultPosition (WASMCodeInfo.unaryResultType code) ;;
  pushByteCode (ByteCode.UnaryOperation code src dst).

(** [OnSelectExpr]. *)
Definition OnSelectExpr : M unit :=
  stackPos <- popVMStack ;;
  type <- peekVMStackValueType ;;
  src1 <- popVMStack ;;
  src0 <- popVMStack ;;
  dst <- computeExprResultPosition type ;;
  let isFloat := bool_decide (type = Value.F32) || bool_decide (type = Value.F64) in
  pushByteCode (ByteCode.Select stackPos (valueSize type) isFloat src0 src1 dst).

(** [OnRefIsNullExpr] (64-bit build: an [I64Eqz]). *)
Definition OnRefIsNullExpr : M unit :=
  src <- popVMStack ;;
  dst <- computeExprResultPosition Value.I32 ;;
  pushByteCode (ByteCode.UnaryOperation WASMOpcode.I64Eqz src dst).

Definition OnNopExpr : M unit := ret tt.

(** *** Blocks *)

(** [m_result.m_functionTypes[type]] for a block signature that is an
    index. *)
Definition functionTypeOf (ty : Type_.t) : M FunctionType.t :=
  match ty with
  | Type_.Index i =>
      fts <- gets (fun s => WASMParsingResult.m_functionTypes (m_result s)) ;;
      lift (fts !! i)
  | _ => abort
  end.

Definition stackFromBack (i : nat) : M VMStackInfo.t :=
  stack <- gets m_vmStack ;; lift (fromBack stack i).

Definition modifyStackFromBack (i : nat) (f : VMStackInfo.t -> VMStackInfo.t)
  : M unit :=
  stack <- gets m_vmStack ;;
  stack' <- lift (alterFromBack f i stack) ;;
  modify (set_m_vmStack stack').

(** The loop that [OnBrExpr], [OnBrIfExpr] and the [BlockInfo]
    constructor share in the source text: the top [n] entries are moved
    to their canonical positions. [close] says whether the entry's
    link to a local is cut as well (the constructor does it). *)
Definition moveToCanonical (close : bool) (n : nat) : M unit :=
  forM_ (seq 0 n) (fun i =>
    iter <- stackFromBack i ;;
    if close then
      when (negb (VMStackInfo.position iter =? VMStackInfo.nonOptimizedPosition iter)) (
        generateMoveCodeIfNeeds (VMStackInfo.position iter)
          (VMStackInfo.nonOptimizedPosition iter) (VMStackInfo.valueType iter) ;;
        modifyStackFromBack i
          (VMStackInfo.setPosition (VMStackInfo.nonOptimizedPosition iter)) ;;
        inP <- inPreprocess ;;
        when (inP && VMStackInfo.hasValidLocalIndex iter)
          (closeUsage (VMStackInfo.localIndex iter)) ;;
        modifyStackFromBack i VMStackInfo.clearLocalIndex)
    else
      generateMoveCodeIfNeeds (VMStackInfo.position iter)
        (VMStackInfo.nonOptimizedPosition iter) (VMStackInfo.valueType iter) ;;
      modifyStackFromBack i
        (VMStackInfo.setPosition (VMStackInfo.nonOptimizedPosition iter))).

(** The constructor [BlockInfo(type, returnValueType, binaryReader)]. *)
Definition BlockInfo_new (type : BlockInfo.BlockType) (returnValueType : Type_.t)
  : M BlockInfo.t :=
  sofar <- gets m_functionStackSizeSoFar ;;
  shouldRestore <-
    (if Type_.IsIndex returnValueType
     then ft <- functionTypeOf returnValueType ;;
          ret ((0 <? size (FunctionType.result ft))
               || negb (Type_.isVoid returnValueType))
     else ret (negb (Type_.isVoid returnValueType))) ;;
  (if Type_.IsIndex returnValueType
   then ft <- functionTypeOf returnValueType ;;
        moveToCanonical true (length (FunctionType.param ft))
   else ret tt) ;;
  stack <- gets m_vmStack ;;
  pos <- gets currentByteCodeSize ;;
  ret (BlockInfo.mk type returnValueType pos stack sofar shouldRestore
         false false []).

Definition pushBlockInfo (b : BlockInfo.t) : M unit :=
  modify (fun s => set_m_blockInfo (m_blockInfo s ++ [b]) s).

(** [m_blockInfo.back()]. *)
Definition backBlockInfo : M BlockInfo.t :=
  blocks <- gets m_blockInfo ;; lift (last blocks).

(** A write through a reference to the block at index [i]. *)
Definition modifyBlockInfo (i : nat) (f : BlockInfo.t -> BlockInfo.t) : M unit :=
  blocks <- gets m_blockInfo ;;
  if decide (i < length blocks)%nat
  then modify (set_m_blockInfo (alter f i blocks))
  else abort.

Definition modifyBackBlockInfo (f : BlockInfo.t -> BlockInfo.t) : M unit :=
  blocks <- gets m_blockInfo ;;
  modifyBlockInfo (length blocks - 1) f.

Definition pushJumpToEnd (i : nat) (ty : JumpToEndBrInfo.JumpToEndType) (pos : Z)
  : M unit :=
  modifyBlockInfo i (fun b =>
    BlockInfo.set_m_jumpToEndBrInfo
      (BlockInfo.m_jumpToEndBrInfo b ++ [JumpToEndBrInfo.mk ty pos]) b).

(** A conditional jump of the given polarity. *)
Definition condJump (ifTrue : bool) (src offset : Z) : ByteCode.t :=
  if ifTrue then ByteCode.JumpIfTrue src offset
  else ByteCode.JumpIfFalse src offset.

(** [OnIfExpr] after the condition has been fixed: the part both
    polarities share. *)
Definition ifTail (isInverted : bool) (stackPos : Z) (sigType : Type_.t) : M unit :=
  b <- BlockInfo_new BlockInfo.IfElse sigType ;;
  pushBlockInfo
    (BlockInfo.set_m_jumpToEndBrInfo
       [JumpToEndBrInfo.mk JumpToEndBrInfo.IsJumpIf (BlockInfo.m_position b)] b) ;;
  pushByteCode (condJump isInverted stackPos 0) ;;
  seenBranch.

(** [OnIfExpr]. *)
Definition OnIfExpr (sigType : Type_.t) : M unit :=
  stackPos <- popVMStack ;;
  isInverted <- canBeInverted stackPos ;;
  stackPos <- (if isInverted then rewindI32Eqz else ret stackPos) ;;
  ifTail isInverted stackPos sigType.

(** [restoreVMStackBy]. *)
Definition restoreVMStackBy (blockInfo : BlockInfo.t) : M unit :=
  stack <- gets m_vmStack ;;
  when (size (BlockInfo.m_vmStack blockInfo) <=? size stack)
    (repeatM (length stack - length (BlockInfo.m_vmStack blockInfo))
       (popVMStack ;; ret tt)) ;;
  modify (set_m_vmStack (BlockInfo.m_vmStack blockInfo)) ;;
  modify (set_m_functionStackSizeSoFar
            (u16 (BlockInfo.m_functionStackSizeSoFar blockInfo))).

(** The sum of the allocated widths of [m_vmStack[start..]]. *)
Definition stackSizeFrom (start : nat) (stack : list VMStackInfo.t) : Z :=
  foldr (fun e acc => VMStackInfo.stackAllocatedSize e + acc) 0 (drop start stack).

(** [dropStackValuesBeforeBrIfNeeds]: drop size and parameter size. *)
Definition dropStackValuesBeforeBrIfNeeds (depth : Z) : M (Z * Z) :=
  blocks <- gets m_blockInfo ;;
  stack <- gets m_vmStack ;;
  if depth <? size blocks then
    iter <- lift (fromBack blocks (Z.to_nat depth)) ;;
    if size (BlockInfo.m_vmStack iter) <? size stack then
      let dropValueSize := stackSizeFrom (length (BlockInfo.m_vmStack iter)) stack in
      if decide (BlockInfo.m_blockType iter = BlockInfo.Loop) then
        if Type_.IsIndex (BlockInfo.m_returnValueType iter) then
          ft <- functionTypeOf (BlockInfo.m_returnValueType iter) ;;
          ret (dropValueSize + FunctionType.paramStackSize ft,
               FunctionType.paramStackSize ft)
        else ret (dropValueSize, 0)
      else
        if Type_.IsIndex (BlockInfo.m_returnValueType iter) then
          ft <- functionTypeOf (BlockInfo.m_returnValueType iter) ;;
          ret (dropValueSize,
               foldr (fun ty acc => valueStackAllocatedSize ty + acc) 0
                     (FunctionType.result ft))
        else if negb (Type_.isVoid (BlockInfo.m_returnValueType iter)) then
          ty <- lift (toValueKind (BlockInfo.m_returnValueType iter)) ;;
          ret (dropValueSize, valueStackAllocatedSize ty)
        else ret (dropValueSize, 0)
    else ret (0, 0)
  else if 0 <? size blocks then
    iter <- lift (head blocks) ;;
    ret (stackSizeFrom (length (BlockInfo.m_vmStack iter)) stack, 0)
  else ret (0, 0).

(** [keepBlockResultsIfNeeds(blockInfo, dropSize)]; the source does not
    read [dropSize]. [info] is a copy of the top entry, so
    [info.setPosition] leaves the stack as it is. *)
Definition keepBlockResultsIfNeeds2 (blockInfo : BlockInfo.t) (dropSize : Z * Z)
  : M unit :=
  let keepOne :=
    (info <- peekVMStackInfo ;;
     generateMoveCodeIfNeeds (VMStackInfo.position info)
       (VMStackInfo.nonOptimizedPosition info) (VMStackInfo.valueType info) ;;
     popVMStack ;; ret tt) in
  when (BlockInfo.m_shouldRestoreVMStackAtEnd blockInfo
        && negb (BlockInfo.m_byteCodeGenerationStopped blockInfo)) (
    if Type_.IsIndex (BlockInfo.m_returnValueType blockInfo) then
      ft <- functionTypeOf (BlockInfo.m_returnValueType blockInfo) ;;
      repeatM (length (FunctionType.result ft)) keepOne
    else if negb (Type_.isVoid (BlockInfo.m_returnValueType blockInfo)) then keepOne
    else ret tt).

(** [keepBlockResultsIfNeeds(blockInfo)]. *)
Definition keepBlockResultsIfNeeds (blockInfo : BlockInfo.t) : M unit :=
  dropSize <- dropStackValuesBeforeBrIfNeeds 0 ;;
  keepBlockResultsIfNeeds2 blockInfo dropSize.

(** A write of a relative offset into the jump at [pos]. *)
Definition setOffsetAt (set : Z -> ByteCode.t -> option ByteCode.t) (pos v : Z)
  : M unit :=
  buf <- byteCode ;;
  buf' <- lift (updateAt (set v) buf pos) ;;
  setByteCode buf'.

(** [OnElseExpr]. *)
Definition OnElseExpr : M unit :=
  seenBranch ;;
  blockInfo <- backBlockInfo ;;
  keepBlockResultsIfNeeds blockInfo ;;
  (if size (BlockInfo.m_jumpToEndBrInfo blockInfo) =? 0 then abort
   else modifyBackBlockInfo (fun b =>
          BlockInfo.set_m_jumpToEndBrInfo (tail (BlockInfo.m_jumpToEndBrInfo b)) b)) ;;
  when (negb (BlockInfo.m_byteCodeGenerationStopped blockInfo)) (
    cur <- gets currentByteCodeSize ;;
    blocks <- gets m_blockInfo ;;
    pushJumpToEnd (length blocks - 1) JumpToEndBrInfo.IsJump cur ;;
    pushByteCode (ByteCode.Jump 0)) ;;
  modifyBackBlockInfo (BlockInfo.set_m_byteCodeGenerationStopped false) ;;
  blockInfo <- backBlockInfo ;;
  restoreVMStackBy blockInfo ;;
  cur <- gets currentByteCodeSize ;;
  setOffsetAt setJumpIfOffset (BlockInfo.m_position blockInfo)
    (cur - BlockInfo.m_position blockInfo).

(** [OnLoopExpr]. *)
Definition OnLoopExpr (sigType : Type_.t) : M unit :=
  b <- BlockInfo_new BlockInfo.Loop sigType ;; pushBlockInfo b.

(** [OnBlockExpr]. *)
Definition OnBlockExpr (sigType : Type_.t) : M unit :=
  b <- BlockInfo_new BlockInfo.Block sigType ;; pushBlockInfo b.

(** [findBlockInfoInBr]: the index of the block [depth] levels out. *)
Definition findBlockInfoInBr (depth : Z) : M nat :=
  blocks <- gets m_blockInfo ;;
  if (0 <=? depth) && (depth <? size blocks)
  then ret (length blocks - 1 - Z.to_nat depth)%nat
  else abort.

Definition blockInfoAt (i : nat) : M BlockInfo.t :=
  blocks <- gets m_blockInfo ;; lift (blocks !! i).

(** [stopToGenerateByteCodeWhileBlockEnd]. *)
Definition stopToGenerateByteCodeWhileBlockEnd : M unit :=
  resume <- gets m_resumeGenerateByteCodeAfterNBlockEnd ;;
  if negb (resume =? 0) then ret tt
  else
    blocks <- gets m_blockInfo ;;
    (if 0 <? size blocks then
       modify (set_m_resumeGenerateByteCodeAfterNBlockEnd 1) ;;
       modifyBackBlockInfo (fun b =>
         BlockInfo.set_m_byteCodeGenerationStopped true
           (BlockInfo.set_m_shouldRestoreVMStackAtEnd true b))
     else
       stack <- gets m_vmStack ;;
       repeatM (length stack) (popVMStack ;; ret tt)) ;;
    modify (set_m_shouldContinueToGenerateByteCode false).

(** The first two loops of [generateMoveValuesCodeRegardToDrop]: from
    the top of the stack (the list is given top first) until the widths
    add up to [remainSize]. [Some (Some i)]: entry [i] from the top
    completes the sum; [Some None]: the sum was overshot (the function
    returns); [None]: the iterator left the stack. *)
Fixpoint scanFromBack (l : list VMStackInfo.t) (remainSize : Z) (i : nat)
  : option (option nat) :=
  match l with
  | [] => None
  | e :: r =>
      let remainSize := remainSize - VMStackInfo.stackAllocatedSize e in
      if remainSize =? 0 then Some (Some i)
      else if remainSize <? 0 then Some None
      else scanFromBack r remainSize (S i)
  end.

(** The third loop: moves from entry [srcI] to the canonical position of
    entry [dstI] (both counted from the top), stepping both towards the
    top. *)
Fixpoint moveLoop (stack : list VMStackInfo.t) (srcI dstI : nat) (remainSize : Z)
  : M unit :=
  src <- lift (fromBack stack srcI) ;;
  dst <- lift (fromBack stack dstI) ;;
  generateMoveCodeIfNeeds (VMStackInfo.position src)
    (VMStackInfo.nonOptimizedPosition dst) (VMStackInfo.valueType src) ;;
  let remainSize := remainSize - VMStackInfo.stackAllocatedSize src in
  if remainSize =? 0 then ret tt
  else match srcI, dstI with
       | S srcI', S dstI' => moveLoop stack srcI' dstI' remainSize
       | _, _ => abort
       end.

(** [generateMoveValuesCodeRegardToDrop]. *)
Definition generateMoveValuesCodeRegardToDrop (dropSize : Z * Z) : M unit :=
  stack <- gets m_vmStack ;;
  srcIter <- lift (scanFromBack (rev stack) (snd dropSize) 0) ;;
  match srcIter with
  | None => ret tt
  | Some srcI =>
      dstIter <- lift (scanFromBack (rev stack) (fst dropSize) 0) ;;
      match dstIter with
      | None => ret tt
      | Some dstI => moveLoop stack srcI dstI (snd dropSize)
      end
  end.

(** [computeFunctionParameterOrResultOffsetCount] (a [uint16_t]). *)
Definition computeFunctionParameterOrResultOffsetCount (types : list Value.Type_)
  : Z :=
  fold_left (fun result ty => u16 (result + valueFunctionCopyCount ty)) types 0.

(** The inner loop of [generateEndCode]: the [s / 8] words of one result
    at [pos]. *)
Fixpoint fillWords (words : nat) (base pos : Z) (k : Z) (arr : list Z) : list Z :=
  match words with
  | O => arr
  | S w =>
      fillWords w base pos (k + 1) (<[Z.to_nat (base + k) := pos + 8 * k]> arr)
  end.

(** The outer loop of [generateEndCode] over the results, last result
    first; [stackRev] is the stack, top first. *)
Fixpoint fillResultOffsets (resultsRev : list Value.Type_)
    (stackRev : list VMStackInfo.t) (offsetCount offsetIndex : Z) (arr : list Z)
  : list Z :=
  match resultsRev, stackRev with
  | type :: rs, e :: es =>
      let s := valueSize type in
      let subIndexCount := valueFunctionCopyCount type in
      let arr :=
        fillWords (Z.to_nat ((s + 7) / 8))
          (offsetCount - offsetIndex - subIndexCount) (VMStackInfo.position e) 0 arr in
      fillResultOffsets rs es offsetCount (offsetIndex + subIndexCount) arr
  | _, _ => arr
  end.

(** [generateEndCode]. *)
Definition generateEndCode (shouldClearVMStack : bool) : M unit :=
  ft <- gets m_currentFunctionType ;;
  stack <- gets m_vmStack ;;
  let result := FunctionType.result ft in
  if size stack <? size result then ret tt
  else
    let offsetCount := computeFunctionParameterOrResultOffsetCount result in
    pushByteCode
      (ByteCode.End_
         (fillResultOffsets (rev result) (rev stack) offsetCount 0
            (replicate (Z.to_nat offsetCount) 0))) ;;
    when shouldClearVMStack (repeatM (length result) (popVMStack ;; ret tt)).

(** [while (dropSize) dropSize -= popVMStackInfo().stackAllocatedSize()]:
    every round pops, so the loop stops within [fuel] rounds, [fuel]
    being one more than the height of the stack. *)
Fixpoint popWhile (fuel : nat) (dropSize : Z) : M unit :=
  if dropSize =? 0 then ret tt
  else match fuel with
       | O => abort
       | S fuel' =>
           info <- popVMStackInfo ;;
           popWhile fuel' (usize (dropSize - VMStackInfo.stackAllocatedSize info))
       end.

(** [generateFunctionReturnCode]. *)
Definition generateFunctionReturnCode (shouldClearVMStack : bool) : M unit :=
  generateEndCode false ;;
  (if shouldClearVMStack then
     blocks <- gets m_blockInfo ;;
     dropSize <- dropStackValuesBeforeBrIfNeeds (size blocks) ;;
     stack <- gets m_vmStack ;;
     popWhile (S (length stack)) (fst dropSize)
   else
     ft <- gets m_currentFunctionType ;;
     repeatM (length (FunctionType.result ft)) (popVMStack ;; ret tt) ;;
     stopToGenerateByteCodeWhileBlockEnd) ;;
  blocks <- gets m_blockInfo ;;
  when (size blocks =? 0) (
    modify (set_m_shouldContinueToGenerateByteCode false) ;;
    modify (set_m_resumeGenerateByteCodeAfterNBlockEnd 0)).

(** Is the target a loop whose signature has parameters? *)
Definition isLoopWithParams (blockInfo : BlockInfo.t) : M (option FunctionType.t) :=
  if bool_decide (BlockInfo.m_blockType blockInfo = BlockInfo.Loop)
     && Type_.IsIndex (BlockInfo.m_returnValueType blockInfo)
  then ft <- functionTypeOf (BlockInfo.m_returnValueType blockInfo) ;;
       ret (if 0 <? size (FunctionType.param ft) then Some ft else None)
  else ret None.

(** [OnBrExpr]. *)
Definition OnBrExpr (depth : Z) : M unit :=
  seenBranch ;;
  blocks <- gets m_blockInfo ;;
  if size blocks =? depth then generateFunctionReturnCode true
  else
    bi <- findBlockInfoInBr depth ;;
    blockInfo <- blockInfoAt bi ;;
    cur <- gets currentByteCodeSize ;;
    let offset := i32 (BlockInfo.m_position blockInfo - cur) in
    dropSize <- dropStackValuesBeforeBrIfNeeds depth ;;
    (if negb (snd dropSize =? 0) then generateMoveValuesCodeRegardToDrop dropSize
     else
       loopFt <- isLoopWithParams blockInfo ;;
       match loopFt with
       | Some ft => moveToCanonical false (length (FunctionType.param ft))
       | None => ret tt
       end) ;;
    when (negb (bool_decide (BlockInfo.m_blockType blockInfo = BlockInfo.Loop))) (
      cur <- gets currentByteCodeSize ;;
      pushJumpToEnd bi JumpToEndBrInfo.IsJump cur) ;;
    pushByteCode (ByteCode.Jump offset) ;;
    stopToGenerateByteCodeWhileBlockEnd.

(** [sizeof(Walrus::ByteCodeStackOffset)]. *)
Definition sizeof_ByteCodeStackOffset : Z := 2.

(** [OnBrIfExpr] after the condition has been fixed: the part both
    polarities share. Where the branch is taken by falling through to a
    jump, the record emitted is [JumpIfTrue] for an inverted condition
    and [JumpIfFalse] otherwise; where the branch is the conditional
    jump itself, it is the other way round. *)
Definition brIfTail (isInverted : bool) (stackPos : Z) (depth : Z) : M unit :=
  blocks <- gets m_blockInfo ;;
  if size blocks =? depth then
    pos <- gets currentByteCodeSize ;;
    ft <- gets m_currentFunctionType ;;
    pushByteCode
      (condJump isInverted stackPos
         (i32 (sizeof ByteCode.JumpIfTrueOpcode + sizeof ByteCode.EndOpcode
               + sizeof_ByteCodeStackOffset * size (FunctionType.result ft)))) ;;
    generateEndCode false ;;
    cur <- gets currentByteCodeSize ;;
    setOffsetAt setJumpIfOffset pos (cur - pos)
  else
    bi <- findBlockInfoInBr depth ;;
    blockInfo <- blockInfoAt bi ;;
    dropSize <- dropStackValuesBeforeBrIfNeeds depth ;;
    let jumpBack :=
      (cur <- gets currentByteCodeSize ;;
       let offset := i32 (BlockInfo.m_position blockInfo - cur) in
       when (negb (bool_decide (BlockInfo.m_blockType blockInfo = BlockInfo.Loop)))
         (pushJumpToEnd bi JumpToEndBrInfo.IsJump cur) ;;
       pushByteCode (ByteCode.Jump offset)) in
    if negb (snd dropSize =? 0) then
      pos <- gets currentByteCodeSize ;;
      pushByteCode (condJump isInverted stackPos 0) ;;
      generateMoveValuesCodeRegardToDrop dropSize ;;
      jumpBack ;;
      cur <- gets currentByteCodeSize ;;
      setOffsetAt setJumpIfOffset pos (cur - pos)
    else
      loopFt <- isLoopWithParams blockInfo ;;
      match loopFt with
      | Some ft =>
          pos <- gets currentByteCodeSize ;;
          pushByteCode (condJump isInverted stackPos 0) ;;
          moveToCanonical false (length (FunctionType.param ft)) ;;
          jumpBack ;;
          cur <- gets currentByteCodeSize ;;
          setOffsetAt setJumpIfOffset pos (cur - pos)
      | None =>
          cur <- gets currentByteCodeSize ;;
          let offset := i32 (BlockInfo.m_position blockInfo - cur) in
          when (negb (bool_decide (BlockInfo.m_blockType blockInfo = BlockInfo.Loop)))
            (pushJumpToEnd bi JumpToEndBrInfo.IsJumpIf cur) ;;
          pushByteCode (condJump (negb isInverted) stackPos offset)
      end.

(** [OnBrIfExpr]. *)
Definition OnBrIfExpr (depth : Z) : M unit :=
  seenBranch ;;
  stackPos <- popVMStack ;;
  isInverted <- canBeInverted stackPos ;;
  stackPos <- (if isInverted then rewindI32Eqz else ret stackPos) ;;
  brIfTail isInverted stackPos depth.

(** A write of the [int32_t] at byte [jumpOffset] of the [BrTable]
    record that starts at [brTableCode]. *)
Definition writeBrTableEntry (brTableCode jumpOffset v : Z) : M unit :=
  buf <- byteCode ;;
  buf' <- lift (updateAt (setBrTableEntry (fun _ => v) jumpOffset) buf brTableCode) ;;
  setByteCode buf'.

(** [emitBrTableCase]. *)
Definition emitBrTableCase (brTableCode depth jumpOffset : Z) : M unit :=
  cur <- gets currentByteCodeSize ;;
  let offset := i32 (cur - brTableCode) in
  blocks <- gets m_blockInfo ;;
  if size blocks =? depth then
    writeBrTableEntry brTableCode jumpOffset offset ;;
    generateEndCode false
  else
    dropSize <- dropStackValuesBeforeBrIfNeeds depth ;;
    if negb (snd dropSize =? 0) then
      writeBrTableEntry brTableCode jumpOffset offset ;;
      OnBrExpr depth
    else
      bi <- findBlockInfoInBr depth ;;
      blockInfo <- blockInfoAt bi ;;
      if bool_decide (BlockInfo.m_blockType blockInfo = BlockInfo.Loop) then
        writeBrTableEntry brTableCode jumpOffset
          (i32 (BlockInfo.m_position blockInfo - brTableCode))
      else
        pushJumpToEnd bi JumpToEndBrInfo.IsBrTable (brTableCode + jumpOffset) ;;
        writeBrTableEntry brTableCode jumpOffset (i32 jumpOffset).

(** [OnBrTableExpr]; [numTargets] is the length of [targetDepths]. The
    tail that [expandByteCode] reserves is taken as zeroes. *)
Definition OnBrTableExpr (targetDepths : list Z) (defaultTargetDepth : Z) : M unit :=
  seenBranch ;;
  stackPos <- popVMStack ;;
  brTableCode <- gets currentByteCodeSize ;;
  let numTargets := size targetDepths in
  pushByteCode
    (ByteCode.BrTable stackPos numTargets 0 (replicate (length targetDepths) 0)) ;;
  forM_ (imap (fun i d => (Z.of_nat i, d)) targetDepths) (fun id =>
    emitBrTableCase brTableCode (snd id)
      (sizeof ByteCode.BrTableOpcode + fst id * 4)) ;;
  emitBrTableCase brTableCode defaultTargetDepth offsetOfDefault ;;
  stopToGenerateByteCodeWhileBlockEnd.

(** [std::numeric_limits<Index>::max()], the catch-all tag. *)
Definition Index_max : Z := 2 ^ 32 - 1.

Definition tagFunctionType (tagIndex : Z) : M FunctionType.t :=
  tags <- gets (fun s => WASMParsingResult.m_tagTypes (m_result s)) ;;
  sigIndex <- lift (at_ tags tagIndex) ;;
  fts <- gets (fun s => WASMParsingResult.m_functionTypes (m_result s)) ;;
  lift (fts !! sigIndex).

(** [OnThrowExpr]. *)
Definition OnThrowExpr (tagIndex : Z) : M unit :=
  seenBranch ;;
  if tagIndex =? Index_max then
    pushByteCode (ByteCode.Throw tagIndex []) ;;
    stopToGenerateByteCodeWhileBlockEnd
  else
    ft <- tagFunctionType tagIndex ;;
    stack <- gets m_vmStack ;;
    let n := length (FunctionType.param ft) in
    (if decide (n <= length stack)%nat then ret tt else abort) ;;
    pushByteCode
      (ByteCode.Throw tagIndex
         (map VMStackInfo.position (drop (length stack - n) stack))) ;;
    repeatM n (popVMStack ;; ret tt) ;;
    stopToGenerateByteCodeWhileBlockEnd.

(** [OnTryExpr]. *)
Definition OnTryExpr (sigType : Type_.t) : M unit :=
  b <- BlockInfo_new BlockInfo.TryCatch sigType ;;
  pushBlockInfo b ;;
  modifyFunction (ModuleFunction.set_m_hasTryCatch true).

(** [processCatchExpr]. *)
Definition processCatchExpr (tagIndex : Z) : M unit :=
  seenBranch ;;
  blockInfo <- backBlockInfo ;;
  keepBlockResultsIfNeeds blockInfo ;;
  restoreVMStackBy blockInfo ;;
  cur <- gets currentByteCodeSize ;;
  catches <- gets m_catchInfo ;;
  blocks <- gets m_blockInfo ;;
  let tryEnd :=
    match last catches with
    | Some c => if CatchInfo.m_tryCatchBlockDepth c =? size blocks
                then CatchInfo.m_tryEnd c else cur
    | None => cur
    end in
  when (negb (BlockInfo.m_byteCodeGenerationStopped blockInfo)) (
    pushJumpToEnd (length blocks - 1) JumpToEndBrInfo.IsJump cur ;;
    pushByteCode (ByteCode.Jump 0)) ;;
  modifyBackBlockInfo (BlockInfo.set_m_byteCodeGenerationStopped false) ;;
  cur <- gets currentByteCodeSize ;;
  modify (fun s =>
    set_m_catchInfo
      (m_catchInfo s ++
         [CatchInfo.mk (size blocks) (BlockInfo.m_position blockInfo) tryEnd cur
            tagIndex]) s) ;;
  if tagIndex =? Index_max then ret tt
  else
    ft <- tagFunctionType tagIndex ;;
    forM_ (FunctionType.param ft) (fun ty => pushVMStack1 ty ;; ret tt).

Definition OnCatchExpr (tagIndex : Z) : M unit := processCatchExpr tagIndex.

Definition OnCatchAllExpr : M unit := processCatchExpr Index_max.

(** [OnReturnExpr]. *)
Definition OnReturnExpr : M unit :=
  seenBranch ;;
  generateFunctionReturnCode false.

(** [OnUnreachableExpr]. *)
Definition OnUnreachableExpr : M unit :=
  seenBranch ;;
  pushByteCode ByteCode.Unreachable ;;
  stopToGenerateByteCodeWhileBlockEnd.

(** One round of the patch loop of [OnEndExpr]. For a [br_table] entry
    the new content is the current position plus the old content minus
    the recorded site. *)
Definition patchJumpToEnd (j : JumpToEndBrInfo.t) : M unit :=
  cur <- gets currentByteCodeSize ;;
  let site := JumpToEndBrInfo.m_position j in
  match JumpToEndBrInfo.m_type j with
  | JumpToEndBrInfo.IsJump => setOffsetAt setJumpOffset site (cur - site)
  | JumpToEndBrInfo.IsJumpIf => setOffsetAt setJumpIfOffset site (cur - site)
  | JumpToEndBrInfo.IsBrTable =>
      buf <- byteCode ;;
      buf' <- lift (updateInside
                      (setBrTableEntry (fun old => usize (cur + usize old - site)))
                      buf site) ;;
      setByteCode buf'
  end.

(** The harvest of the catch records of a [try] block in [OnEndExpr];
    [depth] is the height of the block stack after the pop and
    [snapshot] the height of the block's stack snapshot. *)
Fixpoint harvestCatchInfo (depth : Z) (snapshot : nat) (catches : list CatchInfo.t)
  : M (list CatchInfo.t) :=
  match catches with
  | [] => ret []
  | c :: r =>
      if negb (usize (CatchInfo.m_tryCatchBlockDepth c - 1) =? depth) then
        r' <- harvestCatchInfo depth snapshot r ;; ret (c :: r')
      else
        stack <- gets m_vmStack ;;
        initial <- gets m_initialFunctionStackSize ;;
        (if decide (snapshot <= length stack)%nat then ret tt else abort) ;;
        let stackSizeToBe :=
          initial + foldr (fun e acc => VMStackInfo.stackAllocatedSize e + acc) 0
                          (take snapshot stack) in
        modifyFunction (fun f =>
          ModuleFunction.set_m_catchInfo
            (ModuleFunction.m_catchInfo f ++
               [(CatchInfo.m_tryStart c, CatchInfo.m_tryEnd c,
                 CatchInfo.m_catchStart c, stackSizeToBe, CatchInfo.m_tagIndex c)])
            f) ;;
        harvestCatchInfo depth snapshot r
  end.

(** [OnEndExpr]. *)
Definition OnEndExpr : M unit :=
  modify (set_m_lastI32EqzPos s_noI32Eqz) ;;
  blocks <- gets m_blockInfo ;;
  match last blocks with
  | Some blockInfo =>
      dropSize <- dropStackValuesBeforeBrIfNeeds 0 ;;
      modify (set_m_blockInfo (removelast blocks)) ;;
      when (bool_decide (BlockInfo.m_blockType blockInfo = BlockInfo.TryCatch)) (
        catches <- gets m_catchInfo ;;
        catches' <- harvestCatchInfo (size (removelast blocks))
                      (length (BlockInfo.m_vmStack blockInfo)) catches ;;
        modify (set_m_catchInfo catches')) ;;
      if BlockInfo.m_byteCodeGenerationStopped blockInfo
         && (size (BlockInfo.m_jumpToEndBrInfo blockInfo) =? 0)
      then stopToGenerateByteCodeWhileBlockEnd
      else
        keepBlockResultsIfNeeds2 blockInfo dropSize ;;
        when (BlockInfo.m_shouldRestoreVMStackAtEnd blockInfo) (
          restoreVMStackBy blockInfo ;;
          if Type_.IsIndex (BlockInfo.m_returnValueType blockInfo) then
            ft <- functionTypeOf (BlockInfo.m_returnValueType blockInfo) ;;
            repeatM (length (FunctionType.param ft)) (popVMStack ;; ret tt) ;;
            forM_ (FunctionType.result ft) (fun ty => pushVMStack1 ty ;; ret tt)
          else if negb (Type_.isVoid (BlockInfo.m_returnValueType blockInfo)) then
            ty <- lift (toValueKind (BlockInfo.m_returnValueType blockInfo)) ;;
            pushVMStack1 ty ;; ret tt
          else ret tt) ;;
        forM_ (BlockInfo.m_jumpToEndBrInfo blockInfo) patchJumpToEnd
  | None => generateEndCode true
  end.

(** [optimizeLocals], for a function without declared locals: the pass
    returns at once. With declared locals it goes on to the interval
    analysis and to the slot assignment of [Allocator] below; that run
    is not part of this definition, which stops there. *)
Definition optimizeLocals : M unit :=
  ft <- gets (fun s => ModuleFunction.m_functionType (m_currentFunction s)) ;;
  infos <- gets m_localInfo ;;
  if size (FunctionType.param ft) =? size infos then ret tt else abort.

(** [endFunction] (release build). The source also sets
    [m_currentFunction] and [m_currentFunctionType] to null; the model
    leaves both in place, so that the records of the finished function
    can be read off the state. *)
Definition endFunction : M unit :=
  optimizeLocals ;;
  modify (set_m_vmStack []) ;;
  modify (set_m_shouldContinueToGenerateByteCode true).

(** [BeginFunctionBody]. *)
Definition BeginFunctionBody (mf : ModuleFunction.t) : M unit :=
  beginFunction mf false.

(** [EndFunctionBody]. *)
Definition EndFunctionBody : M unit :=
  modify (set_m_lastI32EqzPos s_noI32Eqz) ;;
  endFunction.

End Emitter.

(** [WASMBinaryReader()]: the state after construction, reading [data]
    for a module with the tables [result]. The constructor leaves
    [m_currentFunction] and [m_currentFunctionType] null; here an empty
    function of type [() -> ()] stands for the null pointers until
    [beginFunction] sets both. *)
Definition new {L : Layout} (data : list Z) (result : WASMParsingResult.t) : t :=
  mk 0 data 0 (PreprocessData.mk false [] []) false
     (ModuleFunction.new (FunctionType.mk [] [])) (FunctionType.mk [] [])
     0 0 [] [] [] [] result [] s_noI32Eqz true 0 0.

End WASMBinaryReader.

(** ** The decoder's side

    Modelled from the spec: the binary decoder (wabt's reader and its
    walrus delegate) is absent. The spec gives the events it sends and
    their order: per function the body bracketing, the preprocess
    bracketing around a first walk over the instructions, then a second
    walk over the same instructions. It publishes its read offset, which
    stands just behind the instruction being delivered, and it goes on
    reading from wherever the look-ahead of the emitter has moved that
    offset. *)

Module Decoder.

Import WASMBinaryReader.

#[local] Open Scope M_scope.

Inductive Event :=
| I32Const (v : Z) | I64Const (v : Z) | F32Const (v : Z) | F64Const (v : Z)
| V128Const (v : Z)
| LocalGet (i : Z) | LocalSet (i : Z) | LocalTee (i : Z)
| GlobalGet (i : Z) | GlobalSet (i : Z)
| Drop | Binary (op : WASMOpcode.binary) | Unary (op : WASMOpcode.unary)
| Select | RefIsNull | Nop
| If (sig : Type_.t) | Else | Loop (sig : Type_.t) | Block (sig : Type_.t) | End_
| Br (depth : Z) | BrIf (depth : Z) | BrTable (depths : list Z) (default : Z)
| Return | Unreachable
| Throw (tag : Z) | Try (sig : Type_.t) | Catch (tag : Z) | CatchAll
| LocalDecl (count : nat) (type : Type_.t)
| StartReadInstructions (start end_ : Z)
| StartPreprocess | EndPreprocess
| BeginFunctionBody (mf : ModuleFunction.t) | EndFunctionBody
(** What the decoder itself writes: its read offset and the two
    generation flags the emitter inherits from the delegate interface. *)
| SetOffset (o : Z)
| SetShouldContinueToGenerateByteCode (b : bool)
| SetResumeGenerateByteCodeAfterNBlockEnd (n : Z).

Section Handle.

Context {L : Layout} {Srt : StdSort}.

(** The handler an event is delivered to. *)
Definition handle (e : Event) : M unit :=
  match e with
  | I32Const v => OnI32ConstExpr v
  | I64Const v => OnI64ConstExpr v
  | F32Const v => OnF32ConstExpr v
  | F64Const v => OnF64ConstExpr v
  | V128Const v => OnV128ConstExpr v
  | LocalGet i => OnLocalGetExpr i
  | LocalSet i => OnLocalSetExpr i
  | LocalTee i => OnLocalTeeExpr i
  | GlobalGet i => OnGlobalGetExpr i
  | GlobalSet i => OnGlobalSetExpr i
  | Drop => OnDropExpr
  | Binary op => OnBinaryExpr op
  | Unary op => OnUnaryExpr op
  | Select => OnSelectExpr
  | RefIsNull => OnRefIsNullExpr
  | Nop => OnNopExpr
  | If sig => OnIfExpr sig
  | Else => OnElseExpr
  | Loop sig => OnLoopExpr sig
  | Block sig => OnBlockExpr sig
  | End_ => OnEndExpr
  | Br d => OnBrExpr d
  | BrIf d => OnBrIfExpr d
  | BrTable ds d => OnBrTableExpr ds d
  | Return => OnReturnExpr
  | Unreachable => OnUnreachableExpr
  | Throw tag => OnThrowExpr tag
  | Try sig => OnTryExpr sig
  | Catch tag => OnCatchExpr tag
  | CatchAll => OnCatchAllExpr
  | LocalDecl count type => OnLocalDecl count type
  | StartReadInstructions start end_ => OnStartReadInstructions start end_
  | StartPreprocess => OnStartPreprocess
  | EndPreprocess => OnEndPreprocess
  | BeginFunctionBody mf => WASMBinaryReader.BeginFunctionBody mf
  | EndFunctionBody => WASMBinaryReader.EndFunctionBody
  | SetOffset o => modify (set_readerOffset o)
  | SetShouldContinueToGenerateByteCode b =>
      modify (set_m_shouldContinueToGenerateByteCode b)
  | SetResumeGenerateByteCodeAfterNBlockEnd n =>
      modify (set_m_resumeGenerateByteCodeAfterNBlockEnd n)
  end.

(** A run of events. *)
Definition run (es : list Event) : M unit := forM_ es handle.

(** One walk over a body. An instruction is an event with the offset
    just behind its bytes. An instruction the look-ahead has already
    consumed is not delivered. The walk is defined while generation
    continues; what the decoder does with the events of a stopped
    stretch is not modelled, and the walk stops there. *)
Definition walk (body : list (Event * Z)) : M unit :=
  forM_ body (fun i =>
    o <- gets readerOffset ;;
    if snd i <=? o then ret tt
    else
      continue <- gets m_shouldContinueToGenerateByteCode ;;
      if continue then modify (set_readerOffset (snd i)) ;; handle (fst i)
      else abort).

(** The events of one function up to instruction [n] of the second
    walk: the declarations of its locals, the preprocess walk over the
    whole body, then the first [n] instructions again, bracketed as the
    spec says. *)
Definition walkPrefix (n : nat) (mf : ModuleFunction.t)
    (locals : list (nat * Type_.t)) (start end_ : Z) (body : list (Event * Z))
  : M unit :=
  WASMBinaryReader.BeginFunctionBody mf ;;
  forM_ locals (fun d => OnLocalDecl (fst d) (snd d)) ;;
  modify (set_readerOffset start) ;;
  OnStartReadInstructions start end_ ;;
  OnStartPreprocess ;;
  walk body ;;
  OnEndPreprocess ;;
  modify (set_readerOffset start) ;;
  walk (take n body).

(** The events of one function up to its last instruction. *)
Definition walkFunction (mf : ModuleFunction.t) (locals : list (nat * Type_.t))
    (start end_ : Z) (body : list (Event * Z)) : M unit :=
  walkPrefix (length body) mf locals start end_ body.

(** The events of one function. *)
Definition compileFunction (mf : ModuleFunction.t) (locals : list (nat * Type_.t))
    (start end_ : Z) (body : list (Event * Z)) : M unit :=
  walkFunction mf locals start end_ body ;;
  WASMBinaryReader.EndFunctionBody.

End Handle.

End Decoder.

(** ** Sample instances: a layout and a sort

    Used where a statement is evaluated on concrete input. The layout gives
    every header 16 bytes, except 24 for [Const64] and 32 for [Const128];
    the sort is the library's merge sort on descending counts. *)

Module Sample.

Definition sampleSizeof (o : ByteCode.Opcode) : Z :=
  match o with
  | ByteCode.Const64Opcode => 24
  | ByteCode.Const128Opcode => 32
  | _ => 16
  end.

#[export, refine] Instance layout : Layout :=
  {| sizeof := sampleSizeof; offsetOfDefault := 12 |}.
Proof.
  - intros o; destruct o; reflexivity.
  - reflexivity.
  - cbn; lia.
Defined.

Module CountOrder <: TotalLeBool.
Definition t : Type := Value.t * Z.
Definition leb (a b : t) : bool := snd b <=? snd a.
Theorem leb_total a b : leb a b = true \/ leb b a = true.
Proof. unfold leb. lia. Qed.
End CountOrder.

Module CountSort := Sort CountOrder.

#[export, refine] Instance sort : StdSort := {| std_sort := CountSort.sort |}.
Proof.
  - apply CountSort.Permuted_sort.
  - intros l.
    assert (Transitive (fun a b => is_true (CountOrder.leb a b))) as Ht.
    { intros a b c. unfold CountOrder.leb, is_true. lia. }
    pose proof (CountSort.StronglySorted_sort l Ht) as H.
    induction H as [|a r _ IH Hall]; constructor; [exact IH|].
    eapply Forall_impl; [exact Hall|].
    intros b. unfold CountOrder.leb, is_true. lia.
Defined.

End Sample.

(** ** The slot allocator of [optimizeLocals]

    The third step of the pass: [preallocateParameters], the shared slot
    of the unused entities, and the loop that calls [deallocateLocal] and
    [allocateLocal] at every record position. Its input is the table
    [variableRange] as the interval analysis leaves it, in the order of the
    [std::map] (ascending original position). *)

Module Allocator.

(** A pointer to a [stackElement]: null, one of the two sentinels
    ([connected], the address -2, and [reserved], the address -3), the
    element that [slots[i]] points to, or [unusedVariableElem]. Every
    element but the last is created together with its entry in [slots], so
    the index names it. *)
Inductive ptr := nullptr | connected | reserved | slot (i : nat) | unusedElem.

#[global] Instance ptr_eq_dec : EqDecision ptr.
Proof. solve_decision. Defined.

Record stackElement := mkElement {
  prev : ptr;
  next : ptr;
  pos : Z;
  idx : Z
}.

Record variableRangeInfo := mkRange {
  originalPosition : Z;
  needsInit : bool;
  type : Value.Type_;
  start : Z;
  end_ : Z;
  rangePos : Z;  (* the field [pos] *)
  assignedPosition : ptr
}.

Definition set_assignedPosition (p : ptr) (r : variableRangeInfo) : variableRangeInfo :=
  mkRange (originalPosition r) (needsInit r) (type r) (start r) (end_ r) (rangePos r) p.

Definition set_rangePos (v : Z) (r : variableRangeInfo) : variableRangeInfo :=
  mkRange (originalPosition r) (needsInit r) (type r) (start r) (end_ r) v
    (assignedPosition r).

(** The elements on the heap: those [slots] points to, in the order of
    [slots], and [unusedVariableElem]. *)
Record Heap := mkHeap {
  slots : list stackElement;
  unusedVariableElem : stackElement
}.

(** What a call of [allocateLocal] or [deallocateLocal] works on: the heap
    and the two reference parameters [range] and [offset], and its own
    copies of the three list heads, which are passed by value. *)
Record Frame := mkFrame {
  heap : Heap;
  range : variableRangeInfo;
  offset : Z;
  free32Slots : ptr;
  free64Slots : ptr;
  free128Slots : ptr
}.

Definition A (T : Type) : Type := Frame -> option (T * Frame).

Definition aret {T} (x : T) : A T := fun f => Some (x, f).

Definition abind {T U} (m : A T) (k : T -> A U) : A U :=
  fun f => match m f with Some (x, f') => k x f' | None => None end.

Definition aget {T} (g : Frame -> T) : A T := fun f => Some (g f, f).

Definition amod (g : Frame -> Frame) : A unit := fun f => Some (tt, g f).

Definition undefined {T} : A T := fun _ => None.

Declare Scope A_scope.
Delimit Scope A_scope with A.
Bind Scope A_scope with A.

Notation "x <- c1 ;; c2" := (abind c1 (fun x => c2))
  (at level 100, c1 at next level, right associativity) : A_scope.
Notation "e1 ;; e2" := (abind e1 (fun _ => e2))
  (at level 100, right associativity) : A_scope.

#[local] Open Scope A_scope.

Definition awhen (b : bool) (m : A unit) : A unit := if b then m else aret tt.

Definition isNull (p : ptr) : bool := bool_decide (p = nullptr).

(** A read through [p]. *)
Definition load (p : ptr) : A stackElement :=
  h <- aget heap ;;
  match p with
  | slot i => match slots h !! i with Some e => aret e | None => undefined end
  | unusedElem => aret (unusedVariableElem h)
  | _ => undefined
  end.

(** A write through [p]: the element becomes [g] of itself. *)
Definition store (p : ptr) (g : stackElement -> stackElement) : A unit :=
  h <- aget heap ;;
  match p with
  | slot i =>
      match slots h !! i with
      | Some _ =>
          amod (fun f => mkFrame (mkHeap (alter g i (slots h)) (unusedVariableElem h))
                           (range f) (offset f) (free32Slots f) (free64Slots f)
                           (free128Slots f))
      | None => undefined
      end
  | unusedElem =>
      amod (fun f => mkFrame (mkHeap (slots h) (g (unusedVariableElem h)))
                       (range f) (offset f) (free32Slots f) (free64Slots f)
                       (free128Slots f))
  | _ => undefined
  end.

Definition setNext (p q : ptr) : A unit :=
  store p (fun e => mkElement (prev e) q (pos e) (idx e)).

Definition setPrev (p q : ptr) : A unit :=
  store p (fun e => mkElement q (next e) (pos e) (idx e)).

Definition getNext (p : ptr) : A ptr := e <- load p ;; aret (next e).

Definition getPrev (p : ptr) : A ptr := e <- load p ;; aret (prev e).

Definition getPos (p : ptr) : A Z := e <- load p ;; aret (pos e).

Definition getIdx (p : ptr) : A Z := e <- load p ;; aret (idx e).

(** [slots.size()]. *)
Definition slotsSize : A Z := h <- aget heap ;; aret (Z.of_nat (length (slots h))).

(** [slots[k]] for a [size_t] index [k]. *)
Definition slotAt (k : Z) : A ptr :=
  n <- slotsSize ;;
  if (0 <=? usize k) && (usize k <? n) then aret (slot (Z.to_nat (usize k)))
  else undefined.

Definition setFree32 (p : ptr) : A unit :=
  amod (fun f => mkFrame (heap f) (range f) (offset f) p (free64Slots f) (free128Slots f)).

Definition setFree64 (p : ptr) : A unit :=
  amod (fun f => mkFrame (heap f) (range f) (offset f) (free32Slots f) p (free128Slots f)).

Definition setFree128 (p : ptr) : A unit :=
  amod (fun f => mkFrame (heap f) (range f) (offset f) (free32Slots f) (free64Slots f) p).

Definition setRange (g : variableRangeInfo -> variableRangeInfo) : A unit :=
  amod (fun f => mkFrame (heap f) (g (range f)) (offset f) (free32Slots f)
                   (free64Slots f) (free128Slots f)).

(** [slots[k + i]->next = q; slots[k + i]->prev = q] for [i] in [is_]. *)
Fixpoint markSlots (k : Z) (is_ : list Z) (q : ptr) : A unit :=
  match is_ with
  | [] => aret tt
  | i :: r => p <- slotAt (k + i) ;; setNext p q ;; setPrev p q ;; markSlots k r q
  end.

(** The four statements that put [p] at the end of the list of free
    128-bit slots. *)
Definition pushFree128 (p : ptr) : A unit :=
  f128 <- aget free128Slots ;;
  if negb (isNull f128) then
    setNext f128 p ;; setPrev p f128 ;; setFree128 p ;; setNext p nullptr
  else
    setFree128 p ;; setNext p nullptr ;; setPrev p nullptr.

(** The unlinking both 32-bit merges start with: [a] is taken out of its
    list, between the neighbours read from [a] and [b]. *)
Definition unlink (a nextFrom prevFrom : ptr) : A unit :=
  ap <- getPrev a ;;
  awhen (negb (isNull ap)) (
    n <- getNext nextFrom ;;
    setNext ap n ;;
    an <- getNext a ;;
    awhen (negb (isNull an)) (
      p <- getPrev prevFrom ;;
      setPrev an p)).

(** [deallocateLocal]. A [break] leaves the [switch]; the statement behind
    it clears [range.assignedPosition]. The test
    [slots[idx + 1]->pos + 4 % 8 == 0] is read as C++ parses it:
    [pos + (4 % 8) == 0]. *)
Definition deallocateLocal : A unit :=
  r <- aget range ;;
  let ap := assignedPosition r in
  let appendTo32 :=
    (f32 <- aget free32Slots ;;
     setNext f32 ap ;;
     setPrev ap f32 ;;
     n <- getNext f32 ;;
     setFree32 n ;;
     setNext n nullptr) in
  match type r with
  | Value.I32 | Value.F32 =>
      f32 <- aget free32Slots ;;
      if negb (isNull f32) then
        i <- getIdx ap ;;
        n <- slotsSize ;;
        next1 <- (if usize (i + 1) <? n
                  then p <- slotAt (i + 1) ;; q <- getPos p ;; aret (q + 4 mod 8 =? 0)
                  else aret false) ;;
        if next1 then
          s1 <- slotAt (i + 1) ;;
          s1next <- getNext s1 ;;
          if negb (isNull s1next) || bool_decide (s1 = f32) then
            f64 <- aget free64Slots ;;
            if negb (isNull f64) then
              appos <- getPos ap ;;
              c1 <- (if usize (i + 3) <? n
                     then s3 <- slotAt (i + 3) ;; s3next <- getNext s3 ;;
                          aret (bool_decide (s3next = connected) && (appos mod 16 =? 0))
                     else aret false) ;;
              if c1 then
                s2 <- slotAt (i + 2) ;;
                unlink s2 s1 s1 ;;
                markSlots i [1; 2; 3] connected
              else
                sm1 <- slotAt (i - 1) ;;
                sm1next <- getNext sm1 ;;
                c2 <- (if bool_decide (sm1next = connected)
                       then sm2 <- slotAt (i - 2) ;; q <- getPos sm2 ;; aret (q mod 16 =? 0)
                       else aret false) ;;
                if c2 then
                  sm2 <- slotAt (i - 2) ;;
                  unlink sm2 sm2 sm2 ;;
                  markSlots i [0; -1; -2] connected
                else appendTo32
            else
              setFree64 ap ;;
              markSlots i [1] connected
          else appendTo32
        else
          sm1 <- slotAt (i - 1) ;;
          q <- getPos sm1 ;;
          if q mod 8 =? 0 then
            sm1next <- getNext sm1 ;;
            if negb (isNull sm1next) || bool_decide (sm1 = f32) then
              f64 <- aget free64Slots ;;
              if negb (isNull f64) then
                appos <- getPos ap ;;
                c1 <- (if usize (i + 2) <? n
                       then s2 <- slotAt (i + 2) ;; s2next <- getNext s2 ;;
                            aret (bool_decide (s2next = connected) && (appos mod 16 =? 0))
                       else aret false) ;;
                if c1 then
                  s1 <- slotAt (i + 1) ;;
                  unlink s1 s1 s1 ;;
                  markSlots i [0; 1; 2] connected ;;
                  f128 <- aget free128Slots ;;
                  if negb (isNull f128) then
                    setNext f128 sm1 ;; setPrev sm1 f128 ;; setFree128 sm1 ;;
                    setNext sm1 nullptr
                  else
                    setFree128 ap ;; setNext ap nullptr ;; setPrev ap nullptr
                else
                  sm2 <- slotAt (i - 2) ;;
                  sm2next <- getNext sm2 ;;
                  sm2pos <- getPos sm2 ;;
                  if bool_decide (sm2next = connected) && (sm2pos mod 16 =? 0) then
                    sm3 <- slotAt (i - 3) ;;
                    unlink sm3 sm3 sm3 ;;
                    markSlots i [0; -1; -2] connected ;;
                    pushFree128 sm3
                  else appendTo32
              else
                setFree64 ap ;;
                markSlots i [1] connected
            else appendTo32
          else appendTo32
      else
        setFree32 ap ;;
        setPrev ap nullptr ;;
        setNext ap nullptr
  | Value.I64 | Value.F64 | Value.FuncRef | Value.ExternRef =>
      f64 <- aget free64Slots ;;
      if negb (isNull f64) then
        i <- getIdx ap ;;
        n <- slotsSize ;;
        c1 <- (if usize (i + 3) <? n
               then s3 <- slotAt (i + 3) ;; s3next <- getNext s3 ;;
                    aret (bool_decide (s3next = connected) && (i mod 16 =? 0))
               else aret false) ;;
        if c1 then
          markSlots i [1; 2; 3] connected ;;
          pushFree128 ap
        else
          sm2 <- slotAt (i - 2) ;;
          sm2next <- getNext sm2 ;;
          sm2pos <- getPos sm2 ;;
          if bool_decide (sm2next = connected) && (sm2pos mod 16 =? 0) then
            markSlots (i - 2) [0; 1; 2] connected ;;
            f128 <- aget free128Slots ;;
            if negb (isNull f128) then
              setNext f128 sm2 ;; setPrev sm2 f128 ;; setFree128 sm2 ;; setNext sm2 nullptr
            else
              setFree128 sm2 ;; setPrev sm2 nullptr ;; setNext sm2 nullptr
          else aret tt
      else
        setFree64 ap ;;
        setNext ap nullptr ;;
        setPrev ap nullptr
  | Value.V128 => pushFree128 ap
  | Value.Void => undefined
  end ;;
  setRange (set_assignedPosition nullptr).

(** [new stackElement({reserved, reserved, offset, slots.size()});
    offset += 4; slots.push_back(newElement)]; [offset] is a
    [ByteCodeStackOffset]. *)
Definition newElement : A ptr :=
  f <- aget (fun f => f) ;;
  let h := heap f in
  let e := mkElement reserved reserved (offset f) (Z.of_nat (length (slots h))) in
  amod (fun f => mkFrame (mkHeap (slots h ++ [e]) (unusedVariableElem h)) (range f)
                   (u16 (offset f + 4)) (free32Slots f) (free64Slots f)
                   (free128Slots f)) ;;
  aret (slot (length (slots h))).

(** [range.assignedPosition = p; range.pos = p->pos]. *)
Definition assign (p : ptr) : A unit :=
  q <- getPos p ;;
  setRange (fun r => set_rangePos q (set_assignedPosition p r)).

(** [free32Slots] receives [p] at its end, as the splitting branches of
    [allocateLocal] do. *)
Definition pushFree32 (p : ptr) : A unit :=
  f32 <- aget free32Slots ;;
  if isNull f32 then
    setFree32 p ;; setPrev p nullptr ;; setNext p nullptr
  else
    setNext f32 p ;; setPrev p f32 ;; setFree32 p ;; setNext p nullptr.

(** [allocateLocal]. *)
Definition allocateLocal : A unit :=
  r <- aget range ;;
  f32 <- aget free32Slots ;;
  f64 <- aget free64Slots ;;
  f128 <- aget free128Slots ;;
  match type r with
  | Value.I32 | Value.F32 =>
      if negb (isNull f32) then
        assign f32 ;;
        p <- getPrev f32 ;;
        (if negb (isNull p) then setFree32 p ;; setNext p nullptr
         else setFree32 nullptr) ;;
        setNext f32 reserved ;;
        setPrev f32 reserved
      else if negb (isNull f64) then
        assign f64 ;;
        i <- getIdx f64 ;;
        s1 <- slotAt (i + 1) ;;
        pushFree32 s1 ;;
        setNext f64 reserved ;;
        setPrev f64 reserved
      else if negb (isNull f128) then
        assign f128 ;;
        i <- getIdx f128 ;;
        s1 <- slotAt (i + 1) ;;
        pushFree32 s1 ;;
        s2 <- slotAt (i + 2) ;;
        s3 <- slotAt (i + 3) ;;
        f64 <- aget free64Slots ;;
        (if isNull f64 then
           setPrev s2 nullptr ;; setNext s2 s3 ;; setNext s3 nullptr ;; setFree64 s3
         else
           setNext f64 s2 ;; setPrev s2 f64 ;; setNext s2 s3 ;; setPrev s3 s2 ;;
           setFree64 s3 ;; setNext s3 nullptr) ;;
        setNext f128 reserved ;;
        setPrev f128 reserved
      else
        p <- newElement ;;
        assign p
  | Value.I64 | Value.F64 | Value.FuncRef | Value.ExternRef =>
      if negb (isNull f64) then
        p <- getPrev f64 ;;
        assign p ;;
        setFree64 p ;;
        n <- getNext p ;;
        setPrev n nullptr ;;
        setNext p nullptr ;;
        pp <- getPrev p ;;
        if negb (isNull pp) then
          setFree64 pp ;;
          n <- getNext pp ;;
          setPrev n nullptr
        else
          setPrev p nullptr ;;
          setFree64 nullptr
      else if negb (isNull f128) then
        assign f128 ;;
        p <- getPrev f128 ;;
        setFree128 p ;;
        setNext f128 reserved ;;
        setPrev f128 reserved ;;
        i <- getIdx f128 ;;
        markSlots i [1] reserved ;;
        s2 <- slotAt (i + 2) ;;
        f64 <- aget free64Slots ;;
        (if negb (isNull f64) then
           setNext f64 s2 ;; setPrev s2 f64 ;; setFree64 s2 ;; setNext s2 nullptr
         else
           setFree64 s2 ;; setNext s2 nullptr ;; setPrev s2 nullptr) ;;
        markSlots i [3] connected
      else
        p <- newElement ;;
        assign p ;;
        newElement ;; aret tt
  | Value.V128 =>
      if negb (isNull f128) then
        assign f128 ;;
        p <- getPrev f128 ;;
        (if negb (isNull p) then setFree128 p ;; setNext p nullptr
         else setFree128 nullptr) ;;
        f128' <- aget free128Slots ;;
        i <- getIdx f128' ;;
        markSlots i [1; 2; 3] reserved
      else
        p <- newElement ;;
        assign p ;;
        newElement ;; newElement ;; newElement ;; aret tt
  | Value.Void => undefined
  end.

(** A call from [optimizeLocals]: [slots], the entry of [variableRange] and
    [offset] go by reference, the three list heads by value. What the
    callee leaves in its copies of the heads is lost on return. *)
Definition call (callee : A unit) (h : Heap) (r : variableRangeInfo) (off : Z)
    (free32 free64 free128 : ptr) : option (Heap * variableRangeInfo * Z) :=
  match callee (mkFrame h r off free32 free64 free128) with
  | Some (_, f) => Some (heap f, range f, offset f)
  | None => None
  end.

(** The state of the allocation loop of [optimizeLocals]. Its three list
    heads are local variables initialised to [nullptr]; the loop passes
    [free32Slots, free64Slots, free64Slots] and never assigns them. *)
Record Loop := mkLoop {
  loopHeap : Heap;
  variableRange : list (Z * variableRangeInfo);
  loopOffset : Z
}.

(** The body of the inner loop for the entry [kr] of [variableRange] at
    record position [i]. *)
Definition visit (i : Z) (st : Heap * Z) (kr : Z * variableRangeInfo)
  : option (Heap * Z * (Z * variableRangeInfo)) :=
  let free32Slots := nullptr in
  let free64Slots := nullptr in
  let '(h, off) := st in
  let r := snd kr in
  if start r =? end_ r then Some (h, off, kr)
  else
    '(h, r, off) ← (if end_ r =? i
                    then call deallocateLocal h r off free32Slots free64Slots free64Slots
                    else Some (h, r, off));
    '(h, r, off) ← (if (start r =? i) && isNull (assignedPosition r)
                    then call allocateLocal h r off free32Slots free64Slots free64Slots
                    else Some (h, r, off));
    Some (h, off, (fst kr, r)).

(** The inner loop over [variableRange]. *)
Fixpoint visitAll (i : Z) (st : Heap * Z) (vr : list (Z * variableRangeInfo))
  : option (Heap * Z * list (Z * variableRangeInfo)) :=
  match vr with
  | [] => Some (st, [])
  | kr :: rest =>
      '(st, kr') ← visit i st kr;
      '(st, rest') ← visitAll i st rest;
      Some (st, kr' :: rest')
  end.

Section Loop.

Context {L : Layout}.

(** The outer loop: one round per record of the buffer, [i] being the byte
    position of the record. *)
Fixpoint allocationLoop (i : Z) (buf : list ByteCode.t) (st : Loop) : option Loop :=
  match buf with
  | [] => Some st
  | c :: rest =>
      '(h, off, vr) ← visitAll i (loopHeap st, loopOffset st) (variableRange st);
      allocationLoop (i + getSize c) rest (mkLoop h vr off)
  end.

End Loop.

(** [preallocateParameters]: one element per parameter, at the parameter's
    home offset. An absent entry is [RELEASE_ASSERT_NOT_REACHED]. *)
Fixpoint preallocateParameters (params : list LocalInfo.t) (st : Loop) : option Loop :=
  match params with
  | [] => Some st
  | p :: rest =>
      let h := loopHeap st in
      let key := LocalInfo.m_position p in
      if existsb (fun kr => fst kr =? key) (variableRange st) then
        let n := length (slots h) in
        let e := mkElement (if (n =? 0)%nat then nullptr else slot (n - 1)) nullptr
                   (u16 key) (Z.of_nat n) in
        let linked :=
          if (n =? 0)%nat then slots h
          else alter (fun l => mkElement (prev l) (slot n) (pos l) (idx l)) (n - 1)%nat
                     (slots h) in
        preallocateParameters rest
          (mkLoop (mkHeap (linked ++ [e]) (unusedVariableElem h))
             (map (fun kr => if fst kr =? key
                             then (fst kr, set_assignedPosition (slot n) (snd kr))
                             else kr) (variableRange st))
             (loopOffset st))
      else None
  end.

(** The loop that gives every entity without a live range the shared
    element [unusedVariableElem] and widens that slot to the widest of
    them; [off] is the parameter stack size. The answer carries
    [unusedElemOffset] and [wasUnusedVar]. *)
Fixpoint assignUnused (off : Z) (unusedElemOffset : Z) (wasUnusedVar : bool)
    (unusedPos : Z) (vr : list (Z * variableRangeInfo))
  : list (Z * variableRangeInfo) * Z * bool :=
  match vr with
  | [] => ([], unusedElemOffset, wasUnusedVar)
  | kr :: rest =>
      let r := snd kr in
      if (start r =? end_ r) || (start r =? SIZE_MAX) then
        let r' := set_rangePos unusedPos (set_assignedPosition unusedElem r) in
        let unusedElemOffset :=
          match type r with
          | Value.F64 | Value.I64 | Value.ExternRef | Value.FuncRef =>
              if unusedElemOffset - off =? 4 then unusedElemOffset + 4
              else unusedElemOffset
          | Value.V128 =>
              if unusedElemOffset - off =? 4 then unusedElemOffset + 12
              else if unusedElemOffset - off =? 8 then unusedElemOffset + 8
              else unusedElemOffset
          | _ => unusedElemOffset
          end in
        let '(rest', o, w) := assignUnused off unusedElemOffset true unusedPos rest in
        ((fst kr, r') :: rest', o, w)
      else
        let '(rest', o, w) := assignUnused off unusedElemOffset wasUnusedVar unusedPos rest in
        (kr :: rest', o, w)
  end.

Section Assign.

Context {L : Layout}.

(** The slot assignment of [optimizeLocals], from the declaration of
    [offset] and [slots] to the end of the allocation loop. [params] are
    the entries of [m_localInfo] for the parameters. *)
Definition assignSlots (params : list LocalInfo.t) (paramStackSize : Z)
    (vr : list (Z * variableRangeInfo)) (buf : list ByteCode.t) : option Loop :=
  st ← preallocateParameters params (mkLoop (mkHeap [] (mkElement nullptr nullptr 0 0)) vr 0);
  let off := u16 paramStackSize in
  let unused := mkElement nullptr nullptr off 0 in
  let '(vr', unusedElemOffset, wasUnusedVar) :=
    assignUnused off (off + 4) false off (variableRange st) in
  let off := if wasUnusedVar then u16 unusedElemOffset else off in
  allocationLoop 0 buf (mkLoop (mkHeap (slots (loopHeap st)) unused) vr' off).

End Assign.

End Allocator.

(** ** The command-line shell (shell/Shell.cpp)

    A [std::string] is the list of its characters. [exit(1)] ends the run
    with the message printed before it. *)

From Stdlib Require Ascii.

Module Shell.

Import Ascii.

#[local] Open Scope char_scope.

Definition string : Type := list ascii.

#[global] Instance ascii_eq_dec : EqDecision ascii := ascii_dec.

(** [str.compare(pos, len, other) == 0]: the [len] characters of [str]
    from [pos] on are [other]. *)
Definition compareAt (str : string) (pos len : nat) (other : string) : bool :=
  bool_decide (take len (drop pos str) = other).

(** [endsWith]. *)
Definition endsWith (str suffix : string) : bool :=
  bool_decide (length suffix <= length str)%nat
  && compareAt str (length str - length suffix) (length suffix) suffix.

(** [s.find(c)]: the index of the first [c], if any. *)
Fixpoint find (c : ascii) (s : string) : option nat :=
  match s with
  | [] => None
  | d :: r => if bool_decide (d = c) then Some O else S <$> find c r
  end.

(** The first loop of [formatDecmialString]: while the string has a
    point and ends in ['0'], its last character is dropped. A round
    shortens the string, so [fuel] rounds, [fuel] being its length, are
    enough. *)
Fixpoint dropZeros (fuel : nat) (s : string) : string :=
  match fuel with
  | O => s
  | S fuel' =>
      if bool_decide (find "." s <> None) && bool_decide (last s = Some "0")
      then dropZeros fuel' (removelast s)
      else s
  end.

(** The loop over the digits behind the point: every third digit that
    is not the last one is followed by ['_']. [cnt] counts the digits
    copied so far. *)
Fixpoint group (cnt : nat) (digits : string) : string :=
  match digits with
  | [] => []
  | c :: r =>
      c :: (if (S cnt mod 3 =? 0)%nat && negb (bool_decide (r = []))
            then "_" :: group (S cnt) r
            else group (S cnt) r)
  end.

(** [formatDecmialString]. *)
Definition formatDecmialString (s : string) : string :=
  let s := dropZeros (length s) s in
  let s := if bool_decide (last s = Some ".") then removelast s else s in
  match find "." s with
  | Some pos => take pos s ++ "." :: group 0 (drop (S pos) s)
  | None => s
  end.

(** [isCanonicalNan(float)] and [isArithmeticNan(float)], on the bits
    [memcpy] reads from the value. *)
Definition isCanonicalNan32 (s : Z) : bool :=
  ((s =? 0x7fc00000) || (s =? 0xffc00000))%Z.

Definition isArithmeticNan32 (s : Z) : bool :=
  (Z.land s 0x7fc00000 =? 0x7fc00000)%Z.

(** [isCanonicalNan(double)] and [isArithmeticNan(double)]. *)
Definition isCanonicalNan64 (s : Z) : bool :=
  ((s =? 0x7ff8000000000000) || (s =? 0xfff8000000000000))%Z.

Definition isArithmeticNan64 (s : Z) : bool :=
  (Z.land s 0x7ff8000000000000 =? 0x7ff8000000000000)%Z.

(** [struct ArgParser]. *)
Record ArgParser := mkArgParser {
  exportToRun : string;
  fileNames : list string
}.

(** How [parseArguments] ends: it returns, or it prints an error and
    calls [exit(1)]. [PastTheEnd] stands for an iterator moved behind the
    last argument, which the C++ leaves undefined. *)
Inductive Outcome :=
| Parsed (p : ArgParser)
| RunExportRequiresArgument
| UnknownArgument (arg : string)
| NoInputFiles
| PastTheEnd.

Definition runExportOption : string :=
  ["-"; "-"; "r"; "u"; "n"; "-"; "e"; "x"; "p"; "o"; "r"; "t"].

Definition isSourceFile (arg : string) : bool :=
  endsWith arg ["w"; "a"; "t"] || endsWith arg ["w"; "a"; "s"; "t"]
  || endsWith arg ["w"; "a"; "s"; "m"].

(** The loop of [parseArguments] from the iterator on; [back] is
    [args.back()]. The option is compared with the last argument by its
    text ([*it == args.back()]). *)
Fixpoint parseLoop (back : string) (rest : list string) (p : ArgParser) : Outcome :=
  match rest with
  | [] => Parsed p
  | arg :: rest' =>
      if bool_decide (arg = runExportOption) then
        if bool_decide (arg = back) then RunExportRequiresArgument
        else
          match rest' with
          | value :: rest'' =>
              parseLoop back rest'' (mkArgParser value (fileNames p))
          | [] => PastTheEnd
          end
      else if isSourceFile arg then
        parseLoop back rest' (mkArgParser (exportToRun p) (fileNames p ++ [arg]))
      else UnknownArgument arg
  end.

(** [parseArguments]; [args] is [argv + 1 .. argv + argc]. *)
Definition parseArguments (args : list string) (argParser : ArgParser) : Outcome :=
  match parseLoop (default [] (last args)) args argParser with
  | Parsed p =>
      if bool_decide (fileNames p = []) then NoInputFiles else Parsed p
  | o => o
  end.

End Shell.

(** ** Vocabulary of the statements *)

(** Concrete functions the statements are evaluated on. An instruction of a
    body is paired with the offset just behind its bytes. *)

Module Inputs.

Import WASMBinaryReader.

Definition emptyResult : WASMParsingResult.t := WASMParsingResult.mk [] [] [].

(** Scenario S1 of the spec: a function of type [(i32) -> i32] with the
    body [local.get 0; i32.const 1; i32.add; end]. *)
Definition S1 : ModuleFunction.t :=
ModuleFunction.new (FunctionType.mk [Value.I32] [Value.I32]).
Definition S1_data : list Z := [0; 32; 0; 65; 1; 106; 11].
Definition S1_body : list (Decoder.Event * Z) :=
  [(Decoder.LocalGet 0, 3); (Decoder.I32Const 1, 5);
   (Decoder.Binary WASMOpcode.I32Add, 6); (Decoder.End_, 7)].

(** The events of S1 up to the [i32.const] of the emission pass, with the
    moves of the read offset. *)
Definition S1_until_const : list Decoder.Event :=
  [Decoder.BeginFunctionBody S1; Decoder.SetOffset 1;
   Decoder.StartReadInstructions 1 7; Decoder.StartPreprocess;
   Decoder.SetOffset 3; Decoder.LocalGet 0;
   Decoder.SetOffset 5; Decoder.I32Const 1;
   Decoder.SetOffset 6; Decoder.Binary WASMOpcode.I32Add;
   Decoder.SetOffset 7; Decoder.End_;
   Decoder.EndPreprocess; Decoder.SetOffset 1;
   Decoder.SetOffset 3; Decoder.LocalGet 0;
   Decoder.SetOffset 5].

(** A function of type [(v128 x 4096) -> ()] with the body
    [i32.const 7; drop; end]: its parameters fill 65536 bytes. *)
Definition wideParams : ModuleFunction.t :=
ModuleFunction.new (FunctionType.mk (replicate 4096 Value.V128) []).
Definition wideParams_data : list Z := [0; 65; 7; 26; 11].
Definition wideParams_body : list (Decoder.Event * Z) :=
  [(Decoder.I32Const 7, 3); (Decoder.Drop, 4); (Decoder.End_, 5)].

(** The same body in a function of type [() -> ()] that declares 4096
    locals of type v128. *)
Definition wideLocals : ModuleFunction.t :=
ModuleFunction.new (FunctionType.mk [] []).
Definition wideLocals_decls : list (nat * Type_.t) := [(4096%nat, Type_.V128)].
Definition wideLocals_data : list Z := [1; 128; 32; 123; 65; 7; 26; 11].
Definition wideLocals_body : list (Decoder.Event * Z) :=
  [(Decoder.I32Const 7, 6); (Decoder.Drop, 7); (Decoder.End_, 8)].

(** A function of type [(i32) -> ()] with the body
    [block (result i32) local.get 0; i32.eqz; end; br_if 0; end]. *)
Definition eqzInBlock : ModuleFunction.t :=
ModuleFunction.new (FunctionType.mk [Value.I32] []).
Definition eqzInBlock_data : list Z := [0; 2; 127; 32; 0; 69; 11; 13; 0; 11].
Definition eqzInBlock_body : list (Decoder.Event * Z) :=
  [(Decoder.Block Type_.I32, 3); (Decoder.LocalGet 0, 5);
   (Decoder.Unary WASMOpcode.I32Eqz, 6); (Decoder.End_, 7);
   (Decoder.BrIf 0, 9); (Decoder.End_, 10)].

(** A function of type [(i32) -> ()], in a module whose type 0 is
    [(i32) -> ()], with the body
    [local.get 0; i32.eqz; loop (type 0); br_if 1;
     local.get 0; i32.clz; local.get 0; br_if 0; drop; end; end]:
    the [i32.eqz] is the parameter of the loop, and the second [br_if]
    branches back to the loop. *)
Definition eqzBeforeLoop : ModuleFunction.t :=
ModuleFunction.new (FunctionType.mk [Value.I32] []).
Definition eqzBeforeLoop_result : WASMParsingResult.t :=
  WASMParsingResult.mk [FunctionType.mk [Value.I32] []] [] [].
Definition eqzBeforeLoop_data : list Z :=
  [0; 32; 0; 69; 3; 0; 13; 1; 32; 0; 103; 32; 0; 13; 0; 26; 11; 11].
Definition eqzBeforeLoop_body : list (Decoder.Event * Z) :=
  [(Decoder.LocalGet 0, 3); (Decoder.Unary WASMOpcode.I32Eqz, 4);
   (Decoder.Loop (Type_.Index 0), 6); (Decoder.BrIf 1, 8);
   (Decoder.LocalGet 0, 10); (Decoder.Unary WASMOpcode.I32Clz, 11);
   (Decoder.LocalGet 0, 13); (Decoder.BrIf 0, 15);
   (Decoder.Drop, 16); (Decoder.End_, 17); (Decoder.End_, 18)].

(** The same without the block: [local.get 0; i32.eqz; br_if 0; end]. *)
Definition eqzBrIf_data : list Z := [0; 32; 0; 69; 13; 0; 11].
Definition eqzBrIf_body : list (Decoder.Event * Z) :=
  [(Decoder.LocalGet 0, 3); (Decoder.Unary WASMOpcode.I32Eqz, 4);
   (Decoder.BrIf 0, 6); (Decoder.End_, 7)].

(** A function of type [(i32) -> ()] with the body
    [block; local.get 0; br_table 0; end; end]: the events of one pass up
    to the [end] of the block, those of the whole preprocess pass up to
    the start of the emission pass, and those of both passes up to the
    [end] of the block in the emission pass. Behind the
    [br_table] the decoder has left the stopped stretch at the [end] of the
    enclosing block. *)
Definition brTableInBlock : ModuleFunction.t :=
ModuleFunction.new (FunctionType.mk [Value.I32] []).
Definition brTableInBlock_data : list Z := [0; 2; 64; 32; 0; 14; 0; 0; 11; 11].
Definition brTableInBlock_pass : list Decoder.Event :=
  [Decoder.SetOffset 3; Decoder.Block Type_.Void;
   Decoder.SetOffset 5; Decoder.LocalGet 0;
   Decoder.SetOffset 8; Decoder.BrTable [] 0;
   Decoder.SetShouldContinueToGenerateByteCode true;
   Decoder.SetResumeGenerateByteCodeAfterNBlockEnd 0;
   Decoder.SetOffset 9].
Definition brTableInBlock_first_pass : list Decoder.Event :=
  [Decoder.BeginFunctionBody brTableInBlock; Decoder.SetOffset 1;
   Decoder.StartReadInstructions 1 10; Decoder.StartPreprocess]
  ++ brTableInBlock_pass
  ++ [Decoder.End_; Decoder.SetOffset 10; Decoder.End_;
      Decoder.EndPreprocess; Decoder.SetOffset 1].
Definition brTableInBlock_until_end : list Decoder.Event :=
  brTableInBlock_first_pass ++ brTableInBlock_pass.

(** A function of type [() -> ()] with two i32 locals and the body
    [global.get 0; local.set 0; local.get 0; global.set 0;
     global.get 0; local.set 1; local.get 1; global.set 0; end],
    in a module whose global 0 is an i32. Local 0 lives in the first two
    records, local 1 in the next two. *)
Definition twoLocals : ModuleFunction.t :=
ModuleFunction.new (FunctionType.mk [] []).
Definition twoLocals_result : WASMParsingResult.t :=
  WASMParsingResult.mk [] [Value.I32] [].
Definition twoLocals_decls : list (nat * Type_.t) := [(2%nat, Type_.I32)].
Definition twoLocals_data : list Z :=
  [1; 2; 127; 35; 0; 33; 0; 32; 0; 36; 0; 35; 0; 33; 1; 32; 1; 36; 0; 11].
Definition twoLocals_body : list (Decoder.Event * Z) :=
  [(Decoder.GlobalGet 0, 5); (Decoder.LocalSet 0, 7); (Decoder.LocalGet 0, 9);
   (Decoder.GlobalSet 0, 11); (Decoder.GlobalGet 0, 13); (Decoder.LocalSet 1, 15);
   (Decoder.LocalGet 1, 17); (Decoder.GlobalSet 0, 19); (Decoder.End_, 20)].

(** The records of that function, and the table [variableRange] the
    interval analysis of [optimizeLocals] makes of them (16-byte records):
    local 0, at offset 0, is written at byte 0 and read at byte 16; local
    1, at offset 4, is written at byte 32 and read at byte 48. *)
Definition twoLocals_buf : list ByteCode.t :=
  [ByteCode.GlobalGet32 0 0; ByteCode.GlobalSet32 0 0;
   ByteCode.GlobalGet32 4 0; ByteCode.GlobalSet32 4 0; ByteCode.End_ []].
Definition twoLocals_ranges : list (Z * Allocator.variableRangeInfo) :=
  [(0, Allocator.mkRange 0 false Value.I32 0 16 0 Allocator.nullptr);
   (4, Allocator.mkRange 4 false Value.I32 32 48 0 Allocator.nullptr)].

(** What a statement reads off a translated function: its records, its
    required stack size, and the stack offset of its local 0. *)
Definition outcome (s : t)
  : list ByteCode.t * Z * option Z :=
  (ModuleFunction.m_byteCode (m_currentFunction s),
ModuleFunction.m_requiredStackSize (m_currentFunction s),
LocalInfo.m_position <$> m_localInfo s !! 0%nat).

End Inputs.

(** Sequences of operations of the value-stack tracker. *)

Module TrackerOps.

Import WASMBinaryReader.

#[local] Open Scope M_scope.

Inductive StackOp :=
| Push (type : Value.Type_)
| PushAt (type : Value.Type_) (pos localIndex : Z)
| Pop.

Definition step (op : StackOp) : M unit :=
  match op with
  | Push type => pushVMStack1 type ;; ret tt
  | PushAt type pos localIndex => pushVMStack type pos localIndex
  | Pop => popVMStackInfo ;; ret tt
  end.

Definition runOps (ops : list StackOp) : M unit := forM_ ops step.

(** The sum of the allocated widths of the entries of a shadow stack. *)
Definition stackWidth (stack : list VMStackInfo.t) : Z :=
  foldr (fun e acc => VMStackInfo.stackAllocatedSize e + acc) 0 stack.

(** The running size is the initial size of the function (parameters,
    declared locals, retained constants) plus the widths on the stack, as
    a 16-bit value. *)
Definition sizeInvariant (s : t) : Prop :=
  m_functionStackSizeSoFar s
  = u16 (m_initialFunctionStackSize s + stackWidth (m_vmStack s)).

(** The fields the tracker works on. *)
Definition trackerIs (stack : list VMStackInfo.t) (sofar initial : Z)
    (f : ModuleFunction.t) (s : t) : Prop :=
  m_vmStack s = stack /\ m_functionStackSizeSoFar s = sofar
  /\ m_initialFunctionStackSize s = initial /\ m_currentFunction s = f.

(** The invariant as the spec words it: the running size is the sum of the
    widths on the stack, after any tracker operations in any function. *)
Definition sizeIsSumOfWidths {L : Layout} : Prop :=
  forall (mf : ModuleFunction.t) (ops : list StackOp) (s' : t),
    (beginFunction mf false ;; runOps ops)
      (new [] (WASMParsingResult.mk [] [] [])) = Some (tt, s') ->
    m_functionStackSizeSoFar s' = stackWidth (m_vmStack s').

End TrackerOps.

(** The needs-explicit-init flag of the preprocess collector. *)

Module InitFlag.

Import WASMBinaryReader.

(** [infos[localIndex].m_needsExplicitInitOnStartup]. *)
Definition flagOf (infos : list LocalVariableInfo.t) (localIndex : Z) : option bool :=
  LocalVariableInfo.m_needsExplicitInitOnStartup <$> at_ infos localIndex.

Definition needsExplicitInit (s : t) (localIndex : Z) : option bool :=
  flagOf (PreprocessData.m_localVariableInfo (m_preprocessData s)) localIndex.

Definition flagged (localIndex : Z) (s : t) : Prop :=
  needsExplicitInit s localIndex = Some true.

(** The local has no write since the last branch and no definitive write
    at a position before [pos]. *)
Definition unwrittenAt (pos : Z) (info : LocalVariableInfo.t) : bool :=
  (size (LocalVariableInfo.m_writePlacesBetweenBranches info) =? 0)
  && negb (existsb (fun w => w <? pos)
                   (LocalVariableInfo.m_definitelyWritePlaces info)).

(** The preprocess data is [p]. *)
Definition preprocessDataIs (p : PreprocessData.t) (s : t) : Prop :=
  m_preprocessData s = p.

End InitFlag.

(** The candidate of the eqz/branch fusion. *)

Module Candidate.

Import WASMBinaryReader.

(** The records for which the [Walrus::I32Eqz] overload of [pushByteCode]
    is chosen. *)
Definition isI32Eqz (c : ByteCode.t) : bool :=
  match c with
  | ByteCode.UnaryOperation WASMOpcode.I32Eqz _ _ => true
  | _ => false
  end.

Section Defs.

Context {L : Layout}.

(** No [i32.eqz] record is designated. *)
Definition noCandidate (s : t) : Prop := m_lastI32EqzPos s = s_noI32Eqz.

(** No record is designated, in a buffer that does not fill the address
    space. *)
Definition cannotFuse (s : t) : Prop :=
  noCandidate s /\ currentByteCodeSize s <> SIZE_MAX.

End Defs.

End Candidate.

(** The constant pool of the preprocess collector. *)

Module Pool.

Import WASMBinaryReader.

Definition pool (s : t) : list (Value.t * Z) :=
  PreprocessData.m_constantData (m_preprocessData s).

(** [counted v l l']: [l'] is [l] with one more reference to [v], on its
    first entry for [v] or on a new last entry with count 1. *)
Inductive counted (v : Value.t) : list (Value.t * Z) -> list (Value.t * Z) -> Prop :=
| counted_seen pre c post :
    v ∉ map fst pre ->
    counted v (pre ++ (v, c) :: post) (pre ++ (v, c + 1) :: post)
| counted_unseen l :
    v ∉ map fst l ->
    counted v l (l ++ [(v, 1)]).

(** No later entry has a larger count. *)
Definition descending (l : list (Value.t * Z)) : Prop :=
  StronglySorted (fun a b => snd b <= snd a) l.

(** The kinds a [*.const] instruction can have. *)
Definition isConstKind (ty : Value.Type_) : bool :=
  match ty with
  | Value.I32 | Value.I64 | Value.F32 | Value.F64 | Value.V128 => true
  | _ => false
  end.

(** The constant of a [*.const] instruction. *)
Definition constantOf (e : Decoder.Event) : option Value.t :=
  match e with
  | Decoder.I32Const v => Some (Value.mk Value.I32 v)
  | Decoder.I64Const v => Some (Value.mk Value.I64 v)
  | Decoder.F32Const v => Some (Value.mk Value.F32 v)
  | Decoder.F64Const v => Some (Value.mk Value.F64 v)
  | Decoder.V128Const v => Some (Value.mk Value.V128 v)
  | _ => None
  end.

(** The bytes the constants of a pool take in the prelude. *)
Definition poolWidth (l : list (Value.t * Z)) : Z :=
  foldr (fun e acc => valueStackAllocatedSize (Value.type (fst e)) + acc) 0 l.

(** What the handlers keep true of the pool: one entry per constant, at
    most [maxConstantData] entries, and, once the positions are assigned at
    the end of the preprocess pass, one position per entry. *)
Definition poolOk (s : t) : Prop :=
  NoDup (map fst (pool s))
  /\ size (pool s) <= maxConstantData
  /\ Forall (fun e => isConstKind (Value.type (fst e)) = true) (pool s)
  /\ (PreprocessData.m_inPreprocess (m_preprocessData s) = false ->
      NoDup (map snd (pool s))).

(** The rule as the spec words it, with [K = maxConstantData]: count the
    constant; if the pool then exceeds [K + K/4] entries, sort it stably by
    descending count and keep [K] entries. *)
Definition addConstantData_spec (v : Value.t) (l : list (Value.t * Z))
  : list (Value.t * Z) :=
  let '(l', found) := incrementFirst v l in
  let l2 := if found then l' else l' ++ [(v, 1)] in
  if maxConstantData + maxConstantData / 4 <? size l2
  then take (Z.to_nat maxConstantData) (Sample.CountSort.sort l2)
  else l2.

(** A preprocess pass that has seen the six constants [1 .. 6] once each. *)
Definition sixSeen {L : Layout} : t :=
  set_m_preprocessData
    (PreprocessData.mk true []
       (map (fun n => (Value.mk Value.I32 n, 1)) [1; 2; 3; 4; 5; 6]))
    (new [] Inputs.emptyResult).

End Pool.

(** The fixups a block patches at its end. *)

Module Patch.

Import WASMBinaryReader.

Section Defs.

Context {L : Layout}.

Definition jumpOffset (c : ByteCode.t) : option Z :=
  match c with ByteCode.Jump o => Some o | _ => None end.

Definition jumpIfOffset (c : ByteCode.t) : option Z :=
  match c with
  | ByteCode.JumpIfTrue _ o | ByteCode.JumpIfFalse _ o => Some o
  | _ => None
  end.

(** The relative offset a buffer holds at the site of a fixup: the offset
    of the jump or conditional jump that starts there, or the [int32_t] of
    a [BrTable] at that byte. *)
Definition offsetAt (ty : JumpToEndBrInfo.JumpToEndType) (buf : list ByteCode.t)
    (site : Z) : option Z :=
  match ty with
  | JumpToEndBrInfo.IsJump => peekAt buf site ≫= jumpOffset
  | JumpToEndBrInfo.IsJumpIf => peekAt buf site ≫= jumpIfOffset
  | JumpToEndBrInfo.IsBrTable => peekInside brTableEntry buf site
  end.

(** What the end of a block writes at a site when the buffer ends at
    [cur]: [old] is what the site held. *)
Definition patchedOffset (ty : JumpToEndBrInfo.JumpToEndType) (cur site old : Z) : Z :=
  match ty with
  | JumpToEndBrInfo.IsBrTable => i32 (cur + old - site)
  | _ => i32 (cur - site)
  end.

(** The fixup [j] has been patched between two buffers. *)
Definition fixupPatched (before after : list ByteCode.t) (cur : Z)
    (j : JumpToEndBrInfo.t) : Prop :=
  exists old,
    offsetAt (JumpToEndBrInfo.m_type j) before (JumpToEndBrInfo.m_position j)
    = Some old
    /\ offsetAt (JumpToEndBrInfo.m_type j) after (JumpToEndBrInfo.m_position j)
       = Some (patchedOffset (JumpToEndBrInfo.m_type j) cur
                 (JumpToEndBrInfo.m_position j) old).

(** The buffer of the current function. *)
Definition bufOf (s : t) : list ByteCode.t :=
ModuleFunction.m_byteCode (m_currentFunction s).

(** The buffer still starts with [buf0]. *)
Definition extends (buf0 : list ByteCode.t) (s : t) : Prop :=
  exists extra, bufOf s = buf0 ++ extra.

(** The block stack has [n] blocks. *)
Definition blockCount (n : nat) (s : t) : Prop := length (m_blockInfo s) = n.

(** The rule as the spec words it: every patched site holds the current
    position minus the site. *)
Definition fixupPatched_spec (after : list ByteCode.t) (cur : Z)
    (j : JumpToEndBrInfo.t) : Prop :=
  offsetAt (JumpToEndBrInfo.m_type j) after (JumpToEndBrInfo.m_position j)
  = Some (i32 (cur - JumpToEndBrInfo.m_position j)).

End Defs.

End Patch.

(** The states in which a conditional branch is fused with an [i32.eqz]. *)

Module Fused.

Import WASMBinaryReader Patch.

#[local] Open Scope M_scope.

Section Defs.

Context {L : Layout}.

(** The buffer ends with an [i32.eqz] from [src] to [dst] that is the
    candidate of the fusion, in a buffer that fits the address space. *)
Definition eqzIsCandidate (pre : list ByteCode.t) (src dst : Z) (s : t) : Prop :=
  bufOf s = pre ++ [ByteCode.UnaryOperation WASMOpcode.I32Eqz src dst]
  /\ m_lastI32EqzPos s = byteSize pre
  /\ byteSize (bufOf s) < 2 ^ 64.

(** The entry on top of the shadow stack is at [pos]. *)
Definition conditionIs (pos : Z) (s : t) : Prop :=
  VMStackInfo.position <$> last (m_vmStack s) = Some pos.

(** The other polarity of a conditional jump. *)
Definition flipJumpIf (c : ByteCode.t) : ByteCode.t :=
  match c with
  | ByteCode.JumpIfTrue src o => ByteCode.JumpIfFalse src o
  | ByteCode.JumpIfFalse src o => ByteCode.JumpIfTrue src o
  | c => c
  end.

(** The state [s] with the polarity of record [n] of its buffer
    inverted. *)
Definition flipRecord (n : nat) (s : t) : t :=
  set_m_currentFunction
    (ModuleFunction.set_m_byteCode (alter flipJumpIf n (bufOf s)) (m_currentFunction s))
    s.

(** Record [n] of the buffer is a conditional jump on [src]. *)
Definition condJumpAt (n : nat) (src : Z) (s : t) : Prop :=
  exists b o, bufOf s !! n = Some (condJump b src o).

(** The handler [m] does the same on a buffer in which record [n] has
    the other polarity. *)
Definition Flips (n : nat) {A} (m : M A) : Prop :=
  forall s a s',
    (n < length (bufOf s))%nat ->
    m s = Some (a, s') ->
    m (flipRecord n s) = Some (a, flipRecord n s')
    /\ (n < length (bufOf s'))%nat.

(** The rewinding: the buffer is cut back to [pre] and the candidate is
    forgotten. *)
Definition rewind (pre : list ByteCode.t) : M unit :=
  setByteCode pre ;; modify (set_m_lastI32EqzPos s_noI32Eqz).

End Defs.

End Fused.

(** The layout of the locals of a function. *)

Module LocalsLayout.

Import WASMBinaryReader.

(** The kinds of the locals a list of declarations adds, in order. A
    declaration of no locals adds none, whatever its type; otherwise its
    type has to be a value type. *)
Definition declaredKinds (decls : list (nat * Type_.t)) : option (list Value.Type_) :=
  foldr (fun d acc =>
           tys ← acc;
           match fst d with
           | O => Some tys
           | S _ => ty ← toValueKind (snd d); Some (replicate (fst d) ty ++ tys)
           end) (Some []) decls.

(** The bytes a list of locals takes. *)
Definition width (tys : list Value.Type_) : Z :=
  foldr (fun ty acc => valueStackAllocatedSize ty + acc) 0 tys.

(** The locals [tys] are laid out one behind the other from offset 0, the
    two counters stand behind the last one, and the function records the
    declared ones. *)
Definition laidOut (tys : list Value.Type_) (declared : list Value.Type_) (s : t) : Prop :=
  m_localInfo s = paramLocalInfo 0 tys
  /\ m_functionStackSizeSoFar s = width tys
  /\ m_initialFunctionStackSize s = width tys
  /\ ModuleFunction.m_local (m_currentFunction s) = declared.

(** The bytes local [a] occupies end where local [b] starts or before. *)
Definition before (a b : LocalInfo.t) : Prop :=
  LocalInfo.m_position a + valueStackAllocatedSize (LocalInfo.m_valueType a)
  <= LocalInfo.m_position b.

End LocalsLayout.

(** The events of a body and what they leave alone. *)

Module Events.

Import WASMBinaryReader.

(** The events that stand for an instruction of a body. *)
Definition isInstruction (e : Decoder.Event) : bool :=
  match e with
  | Decoder.LocalDecl _ _ | Decoder.StartReadInstructions _ _
  | Decoder.StartPreprocess | Decoder.EndPreprocess
  | Decoder.BeginFunctionBody _ | Decoder.EndFunctionBody
  | Decoder.SetOffset _ | Decoder.SetShouldContinueToGenerateByteCode _
  | Decoder.SetResumeGenerateByteCodeAfterNBlockEnd _ => false
  | _ => true
  end.

(** What the head of a function fixes: the layout of its locals, its
    initial stack size, its type and declared locals, the tables of the
    module, the bytes being read and where the body ends. *)
Record Fixed := mkFixed {
  fixedLocalInfo : list LocalInfo.t;
  fixedInitialSize : Z;
  fixedType : FunctionType.t;
  fixedFunctionType : FunctionType.t;
  fixedLocal : list Value.Type_;
  fixedResult : WASMParsingResult.t;
  fixedData : list Z;
  fixedCodeEnd : Z;
  fixedInInitExpr : bool
}.

Definition fixedOf (s : t) : Fixed :=
  mkFixed (m_localInfo s) (m_initialFunctionStackSize s) (m_currentFunctionType s)
    (ModuleFunction.m_functionType (m_currentFunction s))
    (ModuleFunction.m_local (m_currentFunction s))
    (m_result s) (readerData s) (m_codeEndOffset s) (m_inInitExpr s).

Definition required (s : t) : Z :=
ModuleFunction.m_requiredStackSize (m_currentFunction s).

(** The fixed part is [x] and the watermark is at least [r]. *)
Definition framed (x : Fixed) (r : Z) (s : t) : Prop :=
  fixedOf s = x /\ r <= required s.

(** The height of the block stack behind an instruction, from the height
    [n] before it. *)
Definition depthAfter (e : Decoder.Event) (n : nat) : nat :=
  match e with
  | Decoder.If _ | Decoder.Loop _ | Decoder.Block _ | Decoder.Try _ => S n
  | Decoder.End_ => pred n
  | _ => n
  end.
End Events.

(** The state of the value-stack tracker across the handlers. *)

Module Tracked.

Import WASMBinaryReader TrackerOps Events.

(** Every prefix of a shadow stack, placed behind [initial] bytes, ends
    within [limit] bytes (as a 16-bit offset). *)
Definition covered (initial limit : Z) (stack : list VMStackInfo.t) : Prop :=
  forall k : nat, u16 (initial + stackWidth (take k stack)) <= limit.

(** The snapshot a block has taken of the tracker agrees with itself: its
    running size is the initial size plus the widths of its stack, and its
    stack is covered. *)
Definition snapshotOk (initial limit : Z) (b : BlockInfo.t) : Prop :=
  BlockInfo.m_functionStackSizeSoFar b
  = u16 (initial + stackWidth (BlockInfo.m_vmStack b))
  /\ covered initial limit (BlockInfo.m_vmStack b).

(** The state of the tracker the handlers keep: the running size is the
    initial size plus the widths on the shadow stack, the required stack
    size covers every prefix of the stack, and the same holds of the
    snapshots of the open blocks and of the snapshots [held] in the local
    variables of a handler. *)
Definition trackedWith (held : list BlockInfo.t) (s : t) : Prop :=
  sizeInvariant s
  /\ covered (m_initialFunctionStackSize s) (required s) (m_vmStack s)
  /\ Forall (snapshotOk (m_initialFunctionStackSize s) (required s))
            (m_blockInfo s ++ held).

Definition tracked (s : t) : Prop := trackedWith [] s.

End Tracked.

(** Decimal strings as the shell prints them. *)

Module Decimal.

Import Ascii Shell.

#[local] Open Scope char_scope.

(** The digits behind the point in groups of three, with ['_'] between the
    groups. *)
Fixpoint groupsOfThree (digits : Shell.string) : Shell.string :=
  match digits with
  | a :: b :: c :: rest =>
      match rest with
      | [] => [a; b; c]
      | _ :: _ => a :: b :: c :: "_" :: groupsOfThree rest
      end
  | _ => digits
  end.

End Decimal.

(** The elements of the slot allocator. *)

Module Elements.

Import Allocator.

(** The number of 4-byte elements [allocateLocal] makes for a value of a
    kind (64-bit build: a reference takes two). *)
Definition elementsOf (ty : Value.Type_) : nat :=
  match ty with
  | Value.I32 | Value.F32 => 1
  | Value.I64 | Value.F64 | Value.FuncRef | Value.ExternRef => 2
  | Value.V128 => 4
  | Value.Void => 0
  end.

(** Where an element lives: its frame offset and its index in [slots]. *)
Definition placeOf (e : stackElement) : Z * Z := (pos e, idx e).

Definition places (h : Heap) : list (Z * Z) := map placeOf (slots h).

(** [slots[e->idx] == e] for every element of [slots]. *)
Definition indexed (h : Heap) : Prop :=
  forall i e, slots h !! i = Some e -> idx e = Z.of_nat i.

(** From [h] to [h']: the elements of [h] are still in [slots], at their
    places, and [slots] has stayed indexed if it was. *)
Definition settled (h h' : Heap) : Prop :=
  places h `prefix_of` places h' /\ (indexed h -> indexed h').

(** A piece of the allocator that leaves the elements settled. *)
Definition Steady {T} (m : A T) : Prop :=
  forall f x f', m f = Some (x, f') -> settled (heap f) (heap f').

End Elements.

(** Moves in the buffer. *)

Module Moves.

Import WASMBinaryReader Patch.

(** A move from a position to itself. *)
Definition selfMove (c : ByteCode.t) : bool :=
  match c with
  | ByteCode.Move _ src dst => src =? dst
  | _ => false
  end.

(** The buffer holds no move from a position to itself. *)
Definition noSelfMove (s : t) : Prop :=
  Forall (fun c => selfMove c = false) (bufOf s).

(** The events up to the end of a body, a function beginning with an
    empty buffer: [EndFunctionBody], which hands the buffer to
    [optimizeLocals], is not one of them. *)
Definition beforeOptimizeLocals (e : Decoder.Event) : Prop :=
  match e with
  | Decoder.BeginFunctionBody mf => ModuleFunction.m_byteCode mf = []
  | Decoder.EndFunctionBody => False
  | _ => True
  end.

End Moves.

(** The fixups of the open blocks and the records they name. *)

Module Sites.

Import WASMBinaryReader Patch Candidate.

Section Defs.

Context {L : Layout}.

(** The fixup [j] names the start of a record of its kind in [buf]: a
    [Jump] for a jump, a [JumpIfTrue] or [JumpIfFalse] for a conditional
    jump. Nothing is asked of the entries of a [br_table]. *)
Definition sited (buf : list ByteCode.t) (j : JumpToEndBrInfo.t) : Prop :=
  match JumpToEndBrInfo.m_type j with
  | JumpToEndBrInfo.IsBrTable => True
  | ty => is_Some (offsetAt ty buf (JumpToEndBrInfo.m_position j))
  end.

(** Every fixup of every open block is sited in the buffer. *)
Definition wired (s : t) : Prop :=
  Forall (fun b => Forall (sited (bufOf s)) (BlockInfo.m_jumpToEndBrInfo b))
         (m_blockInfo s).

(** The designated record, if there is one, is an [i32.eqz]. *)
Definition candidateIsEqz (s : t) : Prop :=
  noCandidate s
  \/ exists src dst,
       peekAt (bufOf s) (m_lastI32EqzPos s)
       = Some (ByteCode.UnaryOperation WASMOpcode.I32Eqz src dst).

Definition jumpsWired (s : t) : Prop := wired s /\ candidateIsEqz s.

(** A write that keeps the size and the kind of the record it rewrites. *)
Definition keepsKind (f : ByteCode.t -> option ByteCode.t) : Prop :=
  forall c c', f c = Some c' ->
    getSize c' = getSize c
    /\ (is_Some (jumpOffset c) -> is_Some (jumpOffset c'))
    /\ (is_Some (jumpIfOffset c) -> is_Some (jumpIfOffset c'))
    /\ (isI32Eqz c = true -> c' = c).

End Defs.

End Sites.

(** The fixups of the open blocks, as the [end] of a block needs them. *)

Module Landed.

Import WASMBinaryReader Patch Candidate Events Sites.

Section Defs.

Context {L : Layout} {Srt : StdSort}.

(** What byte [site] of a buffer holds when it is an [int32_t] of a
    [BrTable] record: the distance of [site] from the start of that
    record, and the value. *)
Definition entryAt (buf : list ByteCode.t) (site : Z) : option (Z * Z) :=
  peekInside (fun off c => pair off <$> brTableEntry off c) buf site.

(** A [br_table] fixup as [emitBrTableCase] records it: the entry at its
    site holds the distance of the site from the start of its record. *)
Definition tabled (buf : list ByteCode.t) (j : JumpToEndBrInfo.t) : Prop :=
  JumpToEndBrInfo.m_type j = JumpToEndBrInfo.IsBrTable ->
  exists off, entryAt buf (JumpToEndBrInfo.m_position j) = Some (off, i32 off).

(** The fixups of all open blocks. *)
Definition fixupsOf (s : t) : list JumpToEndBrInfo.t :=
  concat (map BlockInfo.m_jumpToEndBrInfo (m_blockInfo s)).

(** No two fixups of the open blocks share a site; every site lies in
    the buffer and in [R]; every [br_table] fixup is as recorded; the
    buffer has at least [hi] bytes. [R] and [hi] describe the sites in
    use while a [br_table] is being emitted. *)
Definition apart (R : Z -> Prop) (hi : Z) (s : t) : Prop :=
  NoDup (map JumpToEndBrInfo.m_position (fixupsOf s))
  /\ Forall (fun j => JumpToEndBrInfo.m_position j < currentByteCodeSize s
                      /\ R (JumpToEndBrInfo.m_position j)
                      /\ tabled (bufOf s) j) (fixupsOf s)
  /\ hi <= currentByteCodeSize s.

(** The sites in use while the [BrTable] record of [G] bytes at [lo] is
    being filled: those outside the record, and the entries [U] of the
    record that have been written. *)
Definition aroundTable (lo G : Z) (U : list Z) (z : Z) : Prop :=
  z < lo \/ lo + G <= z \/ exists b, b ∈ U /\ z = lo + b.

(** The fixups of the open blocks are in order: jumps and conditional
    jumps are wired, the sites are distinct, and the [br_table] entries
    are as recorded. *)
Definition fixupsSound (s : t) : Prop :=
  jumpsWired s /\ apart (fun _ => True) 0 s.

(** The same in terms of [entryAt]: the [br_table] entry at distance
    [off] from the start of its record holds [cur] minus that start. *)
Definition landedAt (after : list ByteCode.t) (cur : Z)
    (j : JumpToEndBrInfo.t) : Prop :=
  match JumpToEndBrInfo.m_type j with
  | JumpToEndBrInfo.IsBrTable =>
      exists off,
        entryAt after (JumpToEndBrInfo.m_position j)
        = Some (off, i32 (cur - (JumpToEndBrInfo.m_position j - off)))
  | ty =>
      offsetAt ty after (JumpToEndBrInfo.m_position j)
      = Some (i32 (cur - JumpToEndBrInfo.m_position j))
  end.

(** The fixup [j] has landed on [cur]: a jump or conditional jump at its
    site holds [cur] minus the site; a [br_table] entry holds [cur] minus
    the start of the [BrTable] record its site lies in. *)
Definition fixupLanded (after : list ByteCode.t) (cur : Z)
    (j : JumpToEndBrInfo.t) : Prop :=
  match JumpToEndBrInfo.m_type j with
  | JumpToEndBrInfo.IsBrTable =>
      exists start c,
        peekAt after start = Some c
        /\ start <= JumpToEndBrInfo.m_position j < start + getSize c
        /\ brTableEntry (JumpToEndBrInfo.m_position j - start) c
           = Some (i32 (cur - start))
  | ty =>
      offsetAt ty after (JumpToEndBrInfo.m_position j)
      = Some (i32 (cur - JumpToEndBrInfo.m_position j))
  end.

(** The events of a function body: the instructions, and what the
    decoder itself writes between them. *)
Definition inBody (e : Decoder.Event) : bool :=
  match e with
  | Decoder.SetOffset _ | Decoder.SetShouldContinueToGenerateByteCode _
  | Decoder.SetResumeGenerateByteCodeAfterNBlockEnd _ => true
  | _ => isInstruction e
  end.

(** A run of events of a body from [s0] to [s], every handler returning,
    in buffers that do not fill the address space. *)
Fixpoint bodyRun (es : list Decoder.Event) (s0 s : t) : Prop :=
  match es with
  | [] => s = s0
  | e :: es' =>
      inBody e = true
      /\ currentByteCodeSize s0 <> SIZE_MAX
      /\ exists s1, Decoder.handle e s0 = Some (tt, s1) /\ bodyRun es' s1 s
  end.

End Defs.

End Landed.

(** * Properties *)

(** ** Reasoning about handlers *)

Module MonadFacts.

Import WASMBinaryReader.

#[local] Open Scope M_scope.

Lemma bind_Some {A B} (m : M A) (k : A -> M B) s b s' :
  bind m k s = Some (b, s') <->
  exists a s1, m s = Some (a, s1) /\ k a s1 = Some (b, s').
Proof.
  unfold bind. split.
  - destruct (m s) as [[a s1]|]; [|discriminate]. eauto.
  - intros (a & s1 & -> & H). exact H.
Qed.

Lemma ret_Some {A} (a : A) s a' s' :
  ret a s = Some (a', s') <-> a' = a /\ s' = s.
Proof. unfold ret. split; [intros H; by inversion H | intros [-> ->]; done]. Qed.

Lemma gets_Some {A} (f : t -> A) s a s' :
  gets f s = Some (a, s') <-> a = f s /\ s' = s.
Proof. unfold gets. split; [intros H; by inversion H | intros [-> ->]; done]. Qed.

Lemma modify_Some f s a s' : modify f s = Some (a, s') <-> s' = f s.
Proof.
  unfold modify. split; [intros H; by inversion H | intros ->; by destruct a].
Qed.

Lemma when_Some b (m : M unit) s a s' :
  when b m s = Some (a, s') <-> if b then m s = Some (a, s') else s' = s.
Proof.
  destruct b; simpl; [done|]. destruct a. rewrite ret_Some.
  split; [by intros [_ ->] | by intros ->].
Qed.

Lemma lift_Some {A} (o : option A) s a s' :
  lift o s = Some (a, s') <-> o = Some a /\ s' = s.
Proof.
  unfold lift. destruct o; split; intros H.
  - by inversion H.
  - destruct H as [H ->]. by inversion H.
  - discriminate.
  - by destruct H.
Qed.

Section Rules.

Context (P : t -> Prop).

Lemma pres_ret {A} (a : A) : Preserves P (ret a).
Proof. intros s a' s' H. by inversion H. Qed.

Lemma pres_bind {A B} (m : M A) (k : A -> M B) :
  Preserves P m -> (forall a, Preserves P (k a)) -> Preserves P (bind m k).
Proof.
  intros Hm Hk s b s' H HP.
  apply bind_Some in H as (a & s1 & H1 & H2).
  eapply Hk; [exact H2|]. eapply Hm; [exact H1|exact HP].
Qed.

Lemma pres_gets {A} (f : t -> A) : Preserves P (gets f).
Proof. intros s a s' H. by inversion H. Qed.

Lemma pres_abort {A} : Preserves P (@abort A).
Proof. intros s a s' H. discriminate. Qed.

Lemma pres_lift {A} (o : option A) : Preserves P (lift o).
Proof. intros s a s' H. apply lift_Some in H as [_ ->]. done. Qed.

Lemma pres_modify (f : t -> t) :
  (forall s, P s -> P (f s)) -> Preserves P (modify f).
Proof. intros Hf s a s' H. inversion H. auto. Qed.

Lemma pres_when (b : bool) (m : M unit) :
  Preserves P m -> Preserves P (when b m).
Proof. destruct b; [done|]. intros _. apply pres_ret. Qed.

Lemma pres_forM {A} (l : list A) (body : A -> M unit) :
  (forall x, Preserves P (body x)) -> Preserves P (forM_ l body).
Proof.
  intros Hb. induction l as [|x l IH]; simpl.
  - apply pres_ret.
  - apply pres_bind; auto.
Qed.

Lemma pres_repeatM (n : nat) (body : M unit) :
  Preserves P body -> Preserves P (repeatM n body).
Proof.
  intros Hb. induction n as [|n IH]; simpl.
  - apply pres_ret.
  - apply pres_bind; auto.
Qed.

End Rules.

(** One step of a proof that a handler keeps a property: split a
    sequence, or decide a test the handler branches on. *)
Ltac pres_step :=
  lazymatch goal with
  | |- Preserves _ (bind _ _) => apply pres_bind; [|intros ?]
  | |- Preserves _ (ret _) => apply pres_ret
  | |- Preserves _ (gets _) => apply pres_gets
  | |- Preserves _ abort => apply pres_abort
  | |- Preserves _ (lift _) => apply pres_lift
  | |- Preserves _ (when _ _) => apply pres_when
  | |- Preserves _ (forM_ _ _) => apply pres_forM; intros ?
  | |- Preserves _ (repeatM _ _) => apply pres_repeatM
  | |- Preserves _ (if ?b then _ else _) => destruct b
  | |- Preserves _ (match ?x with _ => _ end) => destruct x
  | |- Preserves _ (let _ := _ in _) => cbv zeta
  end.

Ltac head_of t := lazymatch t with ?f _ => head_of f | _ => t end.

Create HintDb pres.

(** A field update keeps a property that does not read the field. *)
Ltac pres_modify :=
  apply pres_modify;
  let s := fresh "s" in let H := fresh "H" in
  intros s H;
  first [ exact H | reflexivity
        | repeat case_match; first [exact H | reflexivity] | idtac ].

Ltac pres_unfold :=
  lazymatch goal with
  | |- Preserves _ ?m => let h := head_of m in progress unfold h
  end.

(** Walk through a handler: known handlers come from the hint database
    [pres], the others are unfolded. *)
Ltac pres :=
  repeat first
    [ pres_step
    | solve [eauto 2 with pres nocore]
    | lazymatch goal with |- Preserves _ (modify _) => pres_modify end
    | pres_unfold ].

(** Invert a successful run into the runs of its parts. *)
Ltac inv_run :=
  repeat match goal with
  | H : bind _ _ _ = Some _ |- _ =>
      let a := fresh "a" in let s := fresh "s" in let H1 := fresh "H" in
      apply bind_Some in H as (a & s & H1 & H)
  | H : ret _ _ = Some _ |- _ => apply ret_Some in H as [? ?]; subst
  | H : gets _ _ = Some _ |- _ => apply gets_Some in H as [? ?]; subst
  | H : modify _ _ = Some _ |- _ => apply modify_Some in H; subst
  | H : lift _ _ = Some _ |- _ => apply lift_Some in H as [? ?]; subst
  | H : abort _ = Some _ |- _ => discriminate H
  | a : unit |- _ => destruct a
  | H : inPreprocess _ = Some _ |- _ => unfold inPreprocess in H
  | H : byteCode _ = Some _ |- _ => unfold byteCode in H
  | H : setByteCode _ _ = Some _ |- _ => unfold setByteCode in H
  | H : modifyFunction _ _ = Some _ |- _ => unfold modifyFunction in H
  | H : modifyPreprocessData _ _ = Some _ |- _ => unfold modifyPreprocessData in H
  | H : bumpRequiredStackSize _ = Some _ |- _ => unfold bumpRequiredStackSize in H
  | H : setRequiredStackSize _ _ = Some _ |- _ => unfold setRequiredStackSize in H
  | H : pushBlockInfo _ _ = Some _ |- _ => unfold pushBlockInfo in H
  | H : backBlockInfo _ = Some _ |- _ => unfold backBlockInfo in H
  | H : blockInfoAt _ _ = Some _ |- _ => unfold blockInfoAt in H
  | H : localInfo _ _ = Some _ |- _ => unfold localInfo in H
  end.

(** Arithmetic of 16-bit counters. *)

Lemma u16_add_l a b : u16 (u16 a + b) = u16 (a + b).
Proof. unfold u16. by rewrite Zplus_mod_idemp_l. Qed.

Lemma u16_range a : 0 <= u16 a < 2 ^ 16.
Proof. unfold u16. apply Z.mod_pos_bound. lia. Qed.

Lemma u16_sub_add a b c : u16 (u16 (a + b) - c) = u16 (a + (b - c)).
Proof. unfold u16. rewrite Zminus_mod_idemp_l. f_equal. lia. Qed.

Lemma u16_small a : 0 <= a < 2 ^ 16 -> u16 a = a.
Proof. unfold u16. apply Z.mod_small. Qed.

Lemma last_Some_removelast {A} (l : list A) x :
  last l = Some x -> l = removelast l ++ [x].
Proof.
  intros H. destruct l as [|y l] using rev_ind; [done|].
  rewrite last_snoc in H. inversion H; subst. by rewrite removelast_last.
Qed.

End MonadFacts.

(** ** Facts shared by the handlers *)

Module HandlerFacts.

Import WASMBinaryReader MonadFacts.

#[local] Open Scope M_scope.

Lemma at_alterAt {A} (f : A -> A) i j (l l' : list A) :
  alterAt f i l = Some l' ->
  at_ l' j = if decide (j = i) then f <$> at_ l j else at_ l j.
Proof.
  unfold alterAt, at_. intros H.
  destruct ((0 <=? i) && (i <? Z.of_nat (length l))) eqn:E; [|discriminate].
  inversion H; subst. rewrite length_alter.
  apply andb_prop in E as [E1 E2].
  destruct decide as [->|Hne].
  - rewrite E1, E2. simpl. rewrite list_lookup_alter. by rewrite decide_True.
  - destruct ((0 <=? j) && (j <? Z.of_nat (length l))) eqn:Ej; [|done].
    rewrite list_lookup_alter. rewrite decide_False; [done|].
    apply andb_prop in Ej as [? ?]. lia.
Qed.

Lemma at_map {A B} (f : A -> B) i (l : list A) :
  at_ (map f l) i = f <$> at_ l i.
Proof.
  unfold at_. rewrite length_map. case_match; [|done]. by rewrite list_lookup_fmap.
Qed.

(** The loops of the handlers keep what their bodies keep. *)
Section Loops.

Context {L : Layout} {Srt : StdSort} (P : t -> Prop).

Hypothesis pushByteCode_P :
  forall c, Candidate.isI32Eqz c = false -> Preserves P (pushByteCode c).
Hypothesis popVMStackInfo_P : Preserves P popVMStackInfo.
Hypothesis catchInfo_P : forall g,
  Preserves P (modifyFunction (fun f => ModuleFunction.set_m_catchInfo (g f) f)).

#[local] Hint Resolve popVMStackInfo_P : pres.
#[local] Hint Extern 1 (Preserves P (pushByteCode _)) =>
  apply pushByteCode_P; reflexivity : pres.

Lemma moveLoop_pres stack srcI dstI remainSize :
  Preserves P (moveLoop stack srcI dstI remainSize).
Proof.
  revert dstI remainSize. induction srcI as [|srcI IH]; intros; simpl; pres.
Qed.

Lemma popWhile_pres fuel dropSize : Preserves P (popWhile fuel dropSize).
Proof. revert dropSize. induction fuel as [|fuel IH]; intros; simpl; pres. Qed.

Lemma harvestCatchInfo_pres depth snapshot catches :
  Preserves P (harvestCatchInfo depth snapshot catches).
Proof.
  induction catches as [|c r IH]; simpl; pres.
Qed.

End Loops.

(** *** The tracker *)

Lemma addLocalVariableUsage_tracker stack sofar initial f li :
  Preserves (TrackerOps.trackerIs stack sofar initial f) (addLocalVariableUsage li).
Proof. pres. Qed.

Lemma closeUsage_tracker stack sofar initial f li :
  Preserves (TrackerOps.trackerIs stack sofar initial f) (closeUsage li).
Proof. pres. Qed.

(** What [pushVMStack] does to the tracker. *)
Lemma pushVMStack_Some ty pos li s s' :
  pushVMStack ty pos li s = Some (tt, s') ->
  m_vmStack s' = m_vmStack s ++ [VMStackInfo.mk ty pos (m_functionStackSizeSoFar s) li]
  /\ m_functionStackSizeSoFar s'
     = u16 (m_functionStackSizeSoFar s + valueStackAllocatedSize ty)
  /\ m_initialFunctionStackSize s' = m_initialFunctionStackSize s
  /\ ModuleFunction.m_requiredStackSize (m_currentFunction s')
     = Z.max (ModuleFunction.m_requiredStackSize (m_currentFunction s))
             (m_functionStackSizeSoFar s').
Proof.
  unfold pushVMStack. intros H.
  apply bind_Some in H as (? & s1 & H1 & H).
  assert (TrackerOps.trackerIs (m_vmStack s) (m_functionStackSizeSoFar s)
            (m_initialFunctionStackSize s) (m_currentFunction s) s1)
    as (Hs & Hf & Hi & Hc).
  { revert H1. unfold when. case_match.
    - intros H1. eapply addLocalVariableUsage_tracker; [exact H1|]. by repeat split.
    - intros H1. apply ret_Some in H1 as [_ ->]. by repeat split. }
  clear H1. unfold when, bumpRequiredStackSize in H.
  case_match; inv_run; cbn; rewrite ?Hs, ?Hf, ?Hi, ?Hc; done.
Qed.

(** What [popVMStackInfo] does to the tracker. *)
Lemma popVMStackInfo_Some s info s' :
  popVMStackInfo s = Some (info, s') ->
  last (m_vmStack s) = Some info
  /\ m_vmStack s' = removelast (m_vmStack s)
  /\ m_functionStackSizeSoFar s'
     = u16 (m_functionStackSizeSoFar s - VMStackInfo.stackAllocatedSize info)
  /\ m_initialFunctionStackSize s' = m_initialFunctionStackSize s
  /\ m_currentFunction s' = m_currentFunction s.
Proof.
  unfold popVMStackInfo. intros H. inv_run.
  match goal with H : when _ _ ?s2 = Some (_, ?s3) |- _ =>
    assert (TrackerOps.trackerIs (m_vmStack s2) (m_functionStackSizeSoFar s2)
              (m_initialFunctionStackSize s2) (m_currentFunction s2) s3)
      as (Hs & Hf & Hi & Hc);
    [ apply when_Some in H; case_match;
      [ eapply closeUsage_tracker; [exact H|]; by repeat split
      | subst; by repeat split ]
    | clear H ]
  end.
  cbn in *. rewrite Hs, Hf, Hi, Hc. done.
Qed.

(** Emitting a record leaves the collector alone. *)
Lemma pushByteCode_preprocessData {L : Layout} p c :
  Preserves (InitFlag.preprocessDataIs p) (pushByteCode c).
Proof. pres. Qed.

Lemma generateMoveCodeIfNeeds_preprocessData {L : Layout} p src dst ty :
  Preserves (InitFlag.preprocessDataIs p) (generateMoveCodeIfNeeds src dst ty).
Proof. pres. Qed.

(** Running a continuation that agrees with another on what a handler
    gives back. *)
Lemma bind_congr_run {A B} (m : M A) (k k' : A -> M B) s :
  (forall a s', m s = Some (a, s') -> k a s' = k' a s') ->
  bind m k s = bind m k' s.
Proof.
  intros Hk. unfold bind. destruct (m s) as [[a s']|] eqn:E; [|done]. by apply Hk.
Qed.

(** Running a continuation that agrees with another on the states a
    handler can end in. *)
Lemma bind_congr {A B} (Q : t -> Prop) (m : M A) (k k' : A -> M B) s :
  Preserves Q m -> Q s ->
  (forall a s', Q s' -> k a s' = k' a s') ->
  bind m k s = bind m k' s.
Proof.
  intros Hm HQ Hk. unfold bind. destruct (m s) as [[a s']|] eqn:E; [|done].
  apply Hk. by eapply Hm.
Qed.

End HandlerFacts.

(** ** The value-stack tracker *)

Module Tracker.

Import WASMBinaryReader MonadFacts HandlerFacts TrackerOps.

#[local] Open Scope M_scope.

Lemma stackWidth_snoc l e :
  stackWidth (l ++ [e]) = stackWidth l + VMStackInfo.stackAllocatedSize e.
Proof. unfold stackWidth. induction l; simpl; lia. Qed.

Lemma stackAllocatedSize_nonneg info : 0 <= VMStackInfo.stackAllocatedSize info.
Proof.
  unfold VMStackInfo.stackAllocatedSize. by destruct (VMStackInfo.m_valueType info).
Qed.

Lemma step_Some op s s' :
  step op s = Some (tt, s') ->
  sizeInvariant s ->
  sizeInvariant s'
  /\ m_initialFunctionStackSize s' = m_initialFunctionStackSize s
  /\ ModuleFunction.m_requiredStackSize (m_currentFunction s)
     <= ModuleFunction.m_requiredStackSize (m_currentFunction s').
Proof.
  unfold sizeInvariant. intros H J. destruct op; unfold step in H.
  - unfold pushVMStack1 in H. inv_run.
    match goal with H : pushVMStack _ _ _ _ = Some _ |- _ =>
      apply pushVMStack_Some in H as (Hs & Hf & Hi & Hr) end.
    rewrite Hs, Hf, Hi, Hr, stackWidth_snoc, J, u16_add_l.
    split; [f_equal; unfold VMStackInfo.stackAllocatedSize; simpl; lia|].
    split; [done|lia].
  - apply pushVMStack_Some in H as (Hs & Hf & Hi & Hr).
    rewrite Hs, Hf, Hi, Hr, stackWidth_snoc, J, u16_add_l.
    split; [f_equal; unfold VMStackInfo.stackAllocatedSize; simpl; lia|].
    split; [done|lia].
  - inv_run.
    match goal with H : popVMStackInfo _ = Some _ |- _ =>
      apply popVMStackInfo_Some in H as (Hl & Hs & Hf & Hi & Hc) end.
    rewrite Hs, Hf, Hi, Hc, J.
    apply last_Some_removelast in Hl. rewrite Hl at 1.
    rewrite stackWidth_snoc, u16_sub_add.
    split; [f_equal; lia|]. split; [done|lia].
Qed.

(** C6, as the code has it. Started in a state where the running size is
    the initial size of the function (parameters, declared locals,
    retained constants) plus the widths of the entries on the shadow
    stack, reduced to 16 bits, every sequence of pushes and pops ends in
    such a state, and the required-stack-size watermark has not decreased.
    A pop then removes the last entry and takes the width of that entry's
    kind off the running size (exactly, when the counter holds at least
    that width; modulo 2^16 in general) and leaves the watermark alone. *)
Theorem stack_size_is_initial_plus_widths ops s s' :
  sizeInvariant s ->
  runOps ops s = Some (tt, s') ->
  sizeInvariant s'
  /\ ModuleFunction.m_requiredStackSize (m_currentFunction s)
     <= ModuleFunction.m_requiredStackSize (m_currentFunction s')
  /\ forall info s'',
       popVMStackInfo s' = Some (info, s'') ->
       last (m_vmStack s') = Some info
       /\ m_vmStack s'' = removelast (m_vmStack s')
       /\ m_functionStackSizeSoFar s''
          = u16 (m_functionStackSizeSoFar s' - VMStackInfo.stackAllocatedSize info)
       /\ (VMStackInfo.stackAllocatedSize info <= m_functionStackSizeSoFar s' ->
           m_functionStackSizeSoFar s''
           = m_functionStackSizeSoFar s' - VMStackInfo.stackAllocatedSize info)
       /\ ModuleFunction.m_requiredStackSize (m_currentFunction s'')
          = ModuleFunction.m_requiredStackSize (m_currentFunction s').
Proof.
  intros J H.
  assert (sizeInvariant s'
          /\ ModuleFunction.m_requiredStackSize (m_currentFunction s)
             <= ModuleFunction.m_requiredStackSize (m_currentFunction s'))
    as [J' Hr].
  { revert s J H. unfold runOps.
    induction ops as [|op ops IH]; intros s J H; simpl in H.
    - inv_run. split; [done|lia].
    - inv_run.
      match goal with H : step _ _ = Some _ |- _ =>
        apply step_Some in H as (J1 & _ & Hr1); [|done] end.
      destruct (IH _ J1 H) as [? ?]. split; [done|lia]. }
  split; [done|]. split; [done|].
  intros info s'' Hp.
  apply popVMStackInfo_Some in Hp as (Hl & Hs & Hf & Hi & Hc).
  repeat split; try done.
  - intros Hle. rewrite Hf. apply u16_small.
    pose proof (u16_range (m_initialFunctionStackSize s' + stackWidth (m_vmStack s')))
      as Hb.
    unfold sizeInvariant in J'. rewrite <- J' in Hb.
    pose proof (stackAllocatedSize_nonneg info). lia.
  - by rewrite Hc.
Qed.

(** The theorem at work: in a function of type [(i32) -> ()], push an i32
    and an i64, then pop. *)
Lemma stack_size_is_initial_plus_widths_witness :
  exists s s',
    exec (beginFunction (ModuleFunction.new (FunctionType.mk [Value.I32] [])) false)
      (@new Sample.layout [] Inputs.emptyResult) = Some s
    /\ runOps [Push Value.I32; Push Value.I64; Pop] s = Some (tt, s')
    /\ sizeInvariant s'
    /\ m_functionStackSizeSoFar s' = 8
    /\ ModuleFunction.m_requiredStackSize (m_currentFunction s)
       <= ModuleFunction.m_requiredStackSize (m_currentFunction s').
Proof.
  eexists. eexists.
  split; [vm_compute; reflexivity|].
  split; [vm_compute; reflexivity|].
  match goal with |- sizeInvariant ?s' /\ _ /\ ?r <= _ =>
    match r with context [m_currentFunction ?s] =>
      destruct (stack_size_is_initial_plus_widths
                  [Push Value.I32; Push Value.I64; Pop] s s')
        as (H1 & H2 & _);
      [vm_compute; reflexivity | vm_compute; reflexivity |]
    end
  end.
  split; [exact H1|]. split; [vm_compute; reflexivity | exact H2].
Defined.

(** C6, as the spec words it, does not hold: in a function of type
    [(i32) -> ()] the running size starts at 4, the size of the
    parameter, while the shadow stack is empty. *)
Lemma size_is_not_sum_of_widths : ~ @sizeIsSumOfWidths Sample.layout.
Proof.
  intros H.
  specialize (H (ModuleFunction.new (FunctionType.mk [Value.I32] [])) []).
  assert (exists s',
    (beginFunction (ModuleFunction.new (FunctionType.mk [Value.I32] [])) false ;;
     runOps []) (@new Sample.layout [] (WASMParsingResult.mk [] [] [])) = Some (tt, s')
    /\ m_functionStackSizeSoFar s' = 4 /\ stackWidth (m_vmStack s') = 0)
    as (s' & E & H4 & H0).
  { eexists. split; [vm_compute; reflexivity|]. split; reflexivity. }
  specialize (H s' E). rewrite H4, H0 in H. discriminate H.
Qed.

(** C9. No capacity error exists. A function whose parameters take 65536
    bytes is translated without complaint: the 16-bit running size has
    wrapped to 0, so the retained constant 7 is given offset 0, the offset
    of parameter 0, and the function is said to need 8 bytes of stack. The
    same happens with 4096 declared locals in place of the parameters, up
    to the last instruction of the body. *)
Theorem stack_offset_wraps_without_error :
  FunctionType.paramStackSize (ModuleFunction.m_functionType Inputs.wideParams)
  = 2 ^ 16
  /\ Inputs.outcome <$>
       exec (@Decoder.compileFunction Sample.layout Sample.sort
               Inputs.wideParams [] 1 5 Inputs.wideParams_body)
            (@new Sample.layout Inputs.wideParams_data Inputs.emptyResult)
     = Some ([ByteCode.Const32 0 7; ByteCode.End_ []], 8, Some 0)
  /\ Inputs.outcome <$>
       exec (@Decoder.walkFunction Sample.layout Sample.sort
               Inputs.wideLocals Inputs.wideLocals_decls 4 8 Inputs.wideLocals_body)
            (@new Sample.layout Inputs.wideLocals_data Inputs.emptyResult)
     = Some ([ByteCode.Const32 0 7; ByteCode.End_ []], 8, Some 0).
Proof. repeat split; vm_compute; reflexivity. Qed.

End Tracker.

(** ** The preprocess collector *)

Module Collector.

Import WASMBinaryReader MonadFacts HandlerFacts InitFlag.

#[local] Open Scope M_scope.

#[local] Arguments flagOf : simpl never.

Section Flag.

Context {L : Layout} {Srt : StdSort}.

Lemma flagOf_map li f infos :
  (forall info, LocalVariableInfo.m_needsExplicitInitOnStartup (f info)
                = LocalVariableInfo.m_needsExplicitInitOnStartup info) ->
  flagOf (map f infos) li = flagOf infos li.
Proof.
  intros Hf. unfold flagOf. rewrite at_map. destruct (at_ infos li); [|done].
  simpl. by rewrite Hf.
Qed.

Lemma modifyLocalVariableInfo_flagged li i f :
  (forall info, LocalVariableInfo.m_needsExplicitInitOnStartup info = true ->
     LocalVariableInfo.m_needsExplicitInitOnStartup (f info) = true) ->
  Preserves (flagged li) (modifyLocalVariableInfo i f).
Proof.
  intros Hf s a s' H HP. unfold modifyLocalVariableInfo in H. inv_run.
  unfold flagged, needsExplicitInit, flagOf in *. cbn.
  erewrite at_alterAt by eassumption.
  destruct decide; [|done]. subst.
  destruct (at_ _ i) as [info|]; [|done]. simpl in *.
  inversion HP as [HP']. rewrite HP'. f_equal. by rewrite Hf.
Qed.

Ltac flag_side :=
  intros; cbn; repeat case_match; cbn; first [assumption | reflexivity | idtac].

#[local] Hint Extern 1 (Preserves (flagged _) (modifyLocalVariableInfo _ _)) =>
  apply modifyLocalVariableInfo_flagged; flag_side : pres.

Ltac flag_goal :=
  lazymatch goal with
  | H : flagged _ _ |- flagged _ _ =>
      unfold flagged, needsExplicitInit in *; cbn;
      rewrite ?flagOf_map by done; first [exact H | idtac]
  end.

Lemma seenBranch_flagged li : Preserves (flagged li) seenBranch.
Proof. pres; flag_goal. Qed.

Lemma addLocalVariableUsage_flagged li i :
  Preserves (flagged li) (addLocalVariableUsage i).
Proof. pres; flag_goal. Qed.

Lemma popVMStackInfo_flagged li : Preserves (flagged li) popVMStackInfo.
Proof. pres; flag_goal. Qed.

Lemma pushByteCode_flagged li c : Preserves (flagged li) (pushByteCode c).
Proof. pres; flag_goal. Qed.

#[local] Hint Resolve seenBranch_flagged addLocalVariableUsage_flagged
  popVMStackInfo_flagged pushByteCode_flagged : pres.

Lemma moveLoop_flagged li stack srcI dstI remainSize :
  Preserves (flagged li) (moveLoop stack srcI dstI remainSize).
Proof. apply moveLoop_pres; intros; pres. Qed.

Lemma popWhile_flagged li fuel dropSize :
  Preserves (flagged li) (popWhile fuel dropSize).
Proof. apply popWhile_pres; intros; pres. Qed.

Lemma harvestCatchInfo_flagged li depth snapshot catches :
  Preserves (flagged li) (harvestCatchInfo depth snapshot catches).
Proof. apply harvestCatchInfo_pres; intros; pres. Qed.

#[local] Hint Resolve moveLoop_flagged popWhile_flagged harvestCatchInfo_flagged
  : pres.

(** Only [OnStartPreprocess], which empties the collector, can clear a
    flag. *)
Lemma handle_flagged li e :
  e <> Decoder.StartPreprocess -> Preserves (flagged li) (Decoder.handle e).
Proof.
  intros He. destruct e; try done; unfold Decoder.handle.
  all: pres; try flag_goal.
Qed.

Lemma run_flagged li es :
  Forall (fun e => e <> Decoder.StartPreprocess) es ->
  Preserves (flagged li) (Decoder.run es).
Proof.
  unfold Decoder.run. induction 1 as [|e es He _ IH]; simpl.
  - apply pres_ret.
  - apply pres_bind; [by apply handle_flagged | intros _; exact IH].
Qed.

(** What a read does to the flags. *)
Lemma addLocalVariableUsage_Some li s s' info :
  PreprocessData.m_inPreprocess (m_preprocessData s) = true ->
  at_ (PreprocessData.m_localVariableInfo (m_preprocessData s)) li = Some info ->
  addLocalVariableUsage li s = Some (tt, s') ->
  needsExplicitInit s' li
  = Some (LocalVariableInfo.m_needsExplicitInitOnStartup info
          || unwrittenAt (readerOffset s) info)
  /\ forall lj, lj <> li -> needsExplicitInit s' lj = needsExplicitInit s lj.
Proof.
  intros HinP Hat H. unfold addLocalVariableUsage in H. inv_run.
  rewrite HinP in H. unfold when, modifyLocalVariableInfo in H. inv_run.
  unfold needsExplicitInit, flagOf. cbn. split.
  - erewrite at_alterAt by eassumption. rewrite decide_True by done.
    rewrite Hat. cbn. f_equal. unfold unwrittenAt.
    destruct (LocalVariableInfo.m_needsExplicitInitOnStartup info) eqn:E1; cbn;
      [done|].
    destruct (size _ =? 0) eqn:E2; cbn; [|done].
    by destruct (existsb _ _) eqn:E3; cbn.
  - intros lj Hne. erewrite at_alterAt by eassumption. by rewrite decide_False.
Qed.

(** [pushVMStack] with a local index: the read is recorded, and nothing
    else touches the collector. *)
Lemma pushVMStack_local ty pos li s s' :
  li <> SIZE_MAX ->
  pushVMStack ty pos li s = Some (tt, s') ->
  exists s1, addLocalVariableUsage li s = Some (tt, s1)
             /\ m_preprocessData s' = m_preprocessData s1.
Proof.
  intros Hli H. unfold pushVMStack in H.
  apply bind_Some in H as ([] & s1 & H1 & H).
  assert ((li =? SIZE_MAX) = false) as E by lia.
  rewrite E in H1, H. simpl in H1. exists s1. split; [exact H1|].
  unfold when in H. inv_run. reflexivity.
Qed.

(** C8. In the preprocess pass a [local.get] of local [li], delivered when
    the read offset is [p], leaves the flag of [li] set exactly when it
    was set before or the local has, at that read, no write since the last
    branch and no definitive write at a position before [p]; so the read
    is what flags the local if and only if that condition holds. The
    flags of the other locals are left alone, and no later event other
    than the start of a new preprocess pass clears a flag that is set. *)
Theorem read_flags_local_without_write li s s' info :
  0 <= li < 2 ^ 32 ->
  PreprocessData.m_inPreprocess (m_preprocessData s) = true ->
  at_ (PreprocessData.m_localVariableInfo (m_preprocessData s)) li = Some info ->
  OnLocalGetExpr li s = Some (tt, s') ->
  needsExplicitInit s' li
  = Some (LocalVariableInfo.m_needsExplicitInitOnStartup info
          || unwrittenAt (readerOffset s) info)
  /\ (forall lj, lj <> li -> needsExplicitInit s' lj = needsExplicitInit s lj)
  /\ (forall lj es s'',
        Forall (fun e => e <> Decoder.StartPreprocess) es ->
        Decoder.run es s' = Some (tt, s'') ->
        flagged lj s' -> flagged lj s'').
Proof.
  intros Hli HinP Hat H.
  assert (li <> SIZE_MAX) as Hmax by (unfold SIZE_MAX; lia).
  assert (exists s1, addLocalVariableUsage li s = Some (tt, s1)
                     /\ m_preprocessData s' = m_preprocessData s1)
    as (s1 & H1 & Hp).
  { unfold OnLocalGetExpr in H. inv_run. case_match.
    - by eapply pushVMStack_local.
    - inv_run.
      match goal with H : pushVMStack _ _ _ _ = Some _ |- _ =>
        apply pushVMStack_local in H as (s2 & Hu & Hp); [|done] end.
      exists s2. split; [exact Hu|]. rewrite <- Hp.
      by eapply generateMoveCodeIfNeeds_preprocessData. }
  destruct (addLocalVariableUsage_Some li s s1 info HinP Hat H1) as [Hflag Hother].
  unfold needsExplicitInit in *. rewrite Hp.
  split; [exact Hflag|]. split; [exact Hother|].
  intros lj es s'' Hes Hrun Hf. by eapply run_flagged.
Qed.

End Flag.

(** The theorem at work: the first [local.get 0] of a function of type
    [(i32) -> ()] flags parameter 0. *)
Lemma read_flags_local_without_write_witness :
  exists s s',
    exec (WASMBinaryReader.BeginFunctionBody
            (ModuleFunction.new (FunctionType.mk [Value.I32] [])) ;;
          OnStartPreprocess ;;
          modify (set_readerOffset 3))
         (@new Sample.layout [0; 32; 0; 26; 11] Inputs.emptyResult) = Some s
    /\ @OnLocalGetExpr Sample.layout 0 s = Some (tt, s')
    /\ needsExplicitInit s 0 = Some false
    /\ needsExplicitInit s' 0 = Some true.
Proof.
  evar (s0 : t). evar (s1 : t). exists s0, s1.
  split; [unfold s0; vm_compute; reflexivity|].
  split; [unfold s1; vm_compute; reflexivity|].
  split; [reflexivity|].
  refine (proj1 (@read_flags_local_without_write Sample.layout Sample.sort
                   0 s0 s1 LocalVariableInfo.new _ _ _ _)).
  - lia.
  - reflexivity.
  - reflexivity.
  - vm_compute. reflexivity.
Defined.

End Collector.

(** ** The eqz/branch fusion *)

Module Fusion.

Import WASMBinaryReader MonadFacts HandlerFacts Candidate Patch Fused.

#[local] Open Scope M_scope.

Section Cleared.

Context {L : Layout} {Srt : StdSort}.

Lemma pushByteCode_noCandidate c :
  isI32Eqz c = false -> Preserves noCandidate (pushByteCode c).
Proof.
  intros Hc. unfold pushByteCode.
  apply pres_bind; [|intros; pres].
  destruct c; try apply pres_ret. destruct op; try apply pres_ret; discriminate.
Qed.

Lemma isI32Eqz_condJump b src offset : isI32Eqz (condJump b src offset) = false.
Proof. by destruct b. Qed.

Lemma isI32Eqz_constantInit e : isI32Eqz (constantInit e) = false.
Proof. unfold constantInit. by repeat case_match. Qed.

#[local] Hint Extern 1 (Preserves noCandidate (pushByteCode _)) =>
  apply pushByteCode_noCandidate;
  first [ reflexivity | apply isI32Eqz_condJump | apply isI32Eqz_constantInit ]
  : pres.

Lemma popVMStackInfo_noCandidate : Preserves noCandidate popVMStackInfo.
Proof. pres. Qed.

#[local] Hint Resolve popVMStackInfo_noCandidate : pres.

Lemma moveLoop_noCandidate stack srcI dstI remainSize :
  Preserves noCandidate (moveLoop stack srcI dstI remainSize).
Proof. apply moveLoop_pres. apply pushByteCode_noCandidate. Qed.

Lemma popWhile_noCandidate fuel dropSize :
  Preserves noCandidate (popWhile fuel dropSize).
Proof. apply popWhile_pres; intros; pres. Qed.

Lemma harvestCatchInfo_noCandidate depth snapshot catches :
  Preserves noCandidate (harvestCatchInfo depth snapshot catches).
Proof. apply harvestCatchInfo_pres; intros; pres. Qed.

#[local] Hint Resolve moveLoop_noCandidate popWhile_noCandidate
  harvestCatchInfo_noCandidate : pres.

(** Only the emission of an [i32.eqz] designates a record. *)
Lemma handle_noCandidate e :
  e <> Decoder.Unary WASMOpcode.I32Eqz ->
  Preserves noCandidate (Decoder.handle e).
Proof.
  intros He. destruct e; unfold Decoder.handle.
  all: pres.
  by destruct He.
Qed.

Lemma run_noCandidate es :
  Forall (fun e => e <> Decoder.Unary WASMOpcode.I32Eqz) es ->
  Preserves noCandidate (Decoder.run es).
Proof.
  unfold Decoder.run. induction 1 as [|e es He _ IH]; simpl.
  - apply pres_ret.
  - apply pres_bind; [by apply handle_noCandidate | intros _; exact IH].
Qed.

(** A block [end] and the end of the function body forget the candidate. *)
Lemma OnEndExpr_noCandidate s s' :
  OnEndExpr s = Some (tt, s') -> noCandidate s'.
Proof.
  unfold OnEndExpr. intros H. apply bind_Some in H as ([] & s1 & H1 & H).
  apply modify_Some in H1. subst s1.
  revert H. match goal with |- ?m ?s = _ -> _ =>
    assert (Preserves noCandidate m) as Hm by pres;
    intros H; exact (Hm _ _ _ H eq_refl) end.
Qed.

Lemma EndFunctionBody_noCandidate s s' :
EndFunctionBody s = Some (tt, s') -> noCandidate s'.
Proof.
  unfold EndFunctionBody. intros H. apply bind_Some in H as ([] & s1 & H1 & H).
  apply modify_Some in H1. subst s1.
  revert H. match goal with |- ?m ?s = _ -> _ =>
    assert (Preserves noCandidate m) as Hm by pres;
    intros H; exact (Hm _ _ _ H eq_refl) end.
Qed.

Lemma usize_s_noI32Eqz :
  usize (s_noI32Eqz + sizeof (ByteCode.UnaryOpcode WASMOpcode.I32Eqz)) = SIZE_MAX.
Proof.
  unfold s_noI32Eqz, usize.
  replace (SIZE_MAX - _ + _) with SIZE_MAX by lia. reflexivity.
Qed.

(** Without a candidate the test of the fusion fails. *)
Lemma canBeInverted_cannotFuse stackPos s :
  cannotFuse s -> canBeInverted stackPos s = Some (false, s).
Proof.
  intros [Hc Hsz]. unfold canBeInverted, bind, gets.
  rewrite Hc, usize_s_noI32Eqz.
  destruct (SIZE_MAX =? currentByteCodeSize s) eqn:E; [lia|done].
Qed.

Lemma seenBranch_cannotFuse : Preserves cannotFuse seenBranch.
Proof. pres. Qed.

Lemma popVMStack_cannotFuse : Preserves cannotFuse popVMStack.
Proof. pres. Qed.

Lemma OnBrIfExpr_cannotFuse depth s :
  cannotFuse s ->
  OnBrIfExpr depth s
  = (seenBranch ;; stackPos <- popVMStack ;; brIfTail false stackPos depth) s.
Proof.
  intros Hs. unfold OnBrIfExpr.
  eapply bind_congr; [apply seenBranch_cannotFuse | exact Hs |].
  intros _ s1 Hs1.
  eapply bind_congr; [apply popVMStack_cannotFuse | exact Hs1 |].
  intros stackPos s2 Hs2. unfold bind at 1.
  by rewrite canBeInverted_cannotFuse.
Qed.

Lemma OnIfExpr_cannotFuse sigType s :
  cannotFuse s ->
  OnIfExpr sigType s
  = (stackPos <- popVMStack ;; ifTail false stackPos sigType) s.
Proof.
  intros Hs. unfold OnIfExpr.
  eapply bind_congr; [apply popVMStack_cannotFuse | exact Hs |].
  intros stackPos s2 Hs2. unfold bind at 1.
  by rewrite canBeInverted_cannotFuse.
Qed.

(** A block [end] and the end of the function body forget the fusion
    candidate, and no later event other than the emission of a new
    [i32.eqz] designates one. So, whatever the buffer holds (the old
    [i32.eqz] may still be its last record), a conditional branch that
    comes after such events is translated as an unfused branch: [br_if]
    and [if] emit their record with the popped condition and without
    rewinding. *)
Lemma no_fusion_across_block_end e es s s1 s2 :
  e = Decoder.End_ \/ e = Decoder.EndFunctionBody ->
  Decoder.handle e s = Some (tt, s1) ->
  Forall (fun e => e <> Decoder.Unary WASMOpcode.I32Eqz) es ->
  Decoder.run es s1 = Some (tt, s2) ->
  currentByteCodeSize s2 <> SIZE_MAX ->
  m_lastI32EqzPos s1 = s_noI32Eqz
  /\ m_lastI32EqzPos s2 = s_noI32Eqz
  /\ (forall stackPos, canBeInverted stackPos s2 = Some (false, s2))
  /\ (forall depth,
        OnBrIfExpr depth s2
        = (seenBranch ;; stackPos <- popVMStack ;; brIfTail false stackPos depth) s2)
  /\ (forall sigType,
        OnIfExpr sigType s2
        = (stackPos <- popVMStack ;; ifTail false stackPos sigType) s2).
Proof.
  intros He H1 Hes H2 Hsz.
  assert (noCandidate s1) as Hc1.
  { destruct He as [-> | ->]; simpl in H1.
    - by eapply OnEndExpr_noCandidate.
    - by eapply EndFunctionBody_noCandidate. }
  assert (noCandidate s2) as Hc2 by (by eapply run_noCandidate).
  assert (cannotFuse s2) as Hs2 by done.
  split; [exact Hc1|]. split; [exact Hc2|].
  split; [intros; by apply canBeInverted_cannotFuse|].
  split; intros; [by apply OnBrIfExpr_cannotFuse | by apply OnIfExpr_cannotFuse].
Qed.

End Cleared.

(** The lemma at work: in
    [block (result i32) local.get 0; i32.eqz; end; br_if 0] the [end]
    leaves the [i32.eqz] as the last record of the buffer, with its
    destination on top of the shadow stack, and the [br_if] is translated
    unfused. *)
Lemma no_fusion_across_block_end_witness :
  exists s s1,
    exec (@Decoder.walkPrefix Sample.layout Sample.sort 3 Inputs.eqzInBlock []
            1 10 Inputs.eqzInBlock_body)
         (@new Sample.layout Inputs.eqzInBlock_data Inputs.emptyResult) = Some s
    /\ @OnEndExpr Sample.layout s = Some (tt, s1)
    /\ ModuleFunction.m_byteCode (m_currentFunction s1)
       = [ByteCode.UnaryOperation WASMOpcode.I32Eqz 0 4]
    /\ VMStackInfo.position <$> last (m_vmStack s1) = Some 4
    /\ @OnBrIfExpr Sample.layout 0 s1
       = (seenBranch ;; stackPos <- popVMStack ;;
          @brIfTail Sample.layout false stackPos 0) s1.
Proof.
  evar (s : t). evar (s1 : t). exists s, s1.
  split; [unfold s; vm_compute; reflexivity|].
  split; [unfold s1; vm_compute; reflexivity|].
  split; [reflexivity|]. split; [reflexivity|].
  refine (proj1 (proj2 (proj2 (proj2
    (@no_fusion_across_block_end Sample.layout Sample.sort
       Decoder.End_ [] s s1 s1 _ _ _ _ _)))) 0).
  - left. reflexivity.
  - vm_compute. reflexivity.
  - constructor.
  - reflexivity.
  - vm_compute. intros H. discriminate H.
Defined.

(** [OnLoopExpr] leaves the fusion candidate as it is: unlike [OnEndExpr]
    it does not forget an [i32.eqz] that ends where the loop starts. *)
Lemma OnLoopExpr_keeps_candidate {L : Layout} sigType s s' :
  OnLoopExpr sigType s = Some (tt, s') ->
  m_lastI32EqzPos s' = m_lastI32EqzPos s.
Proof.
  intros H.
  assert (forall c, isI32Eqz c = false ->
            Preserves (fun st => m_lastI32EqzPos st = m_lastI32EqzPos s)
              (pushByteCode c)) as Hpush.
  { intros c Hc. unfold pushByteCode. apply pres_bind; [|intros; pres].
    destruct c; try apply pres_ret.
    destruct op; try apply pres_ret; discriminate. }
  assert (Preserves (fun st => m_lastI32EqzPos st = m_lastI32EqzPos s)
            (OnLoopExpr sigType)) as Hm.
  { pose proof (fun a b c d => moveLoop_pres _ Hpush a b c d) as Hloop.
    unfold OnLoopExpr, BlockInfo_new, pushBlockInfo. pres. }
  exact (Hm _ _ _ H eq_refl).
Qed.

(** C10. The fusion removes a record whose end is a jump target. In
    [local.get 0; i32.eqz; loop (type 0); br_if 1; local.get 0; i32.clz;
     local.get 0; br_if 0; drop; end; end]
    the loop opens at byte 16, the end of the [i32.eqz] record, and the
    [i32.eqz] stays the fusion candidate. The first [br_if] is fused with
    it: the [i32.eqz] record is removed and the loop's first record, the
    inverted branch, is written at byte 0, while the loop keeps position
    16, where the [End] record of the branch now lies. The second [br_if]
    branches back to the loop: in the buffer behind the last instruction
    its [Jump], the record at byte 64, has offset -48 and lands on that
    [End] record, not on the first record of the loop. *)
Theorem fusion_removes_record_at_loop_start :
  exists s3 s4 s,
    exec (@Decoder.walkPrefix Sample.layout Sample.sort 3 Inputs.eqzBeforeLoop []
            1 18 Inputs.eqzBeforeLoop_body)
         (@new Sample.layout Inputs.eqzBeforeLoop_data Inputs.eqzBeforeLoop_result)
    = Some s3
    /\ ModuleFunction.m_byteCode (m_currentFunction s3) = [ByteCode.UnaryOperation WASMOpcode.I32Eqz 0 4]
    /\ map BlockInfo.m_position (m_blockInfo s3) = [16]
    /\ m_lastI32EqzPos s3 = 0
    /\ @OnBrIfExpr Sample.layout 1 (set_readerOffset 8 s3) = Some (tt, s4)
    /\ ModuleFunction.m_byteCode (m_currentFunction s4) = [ByteCode.JumpIfTrue 0 32; ByteCode.End_ []]
    /\ map BlockInfo.m_position (m_blockInfo s4) = [16]
    /\ @peekAt Sample.layout (ModuleFunction.m_byteCode (m_currentFunction s4)) 16 = Some (ByteCode.End_ [])
    /\ exec (@Decoder.walkFunction Sample.layout Sample.sort Inputs.eqzBeforeLoop []
               1 18 Inputs.eqzBeforeLoop_body)
            (@new Sample.layout Inputs.eqzBeforeLoop_data Inputs.eqzBeforeLoop_result)
       = Some s
    /\ ModuleFunction.m_byteCode (m_currentFunction s)
       = [ByteCode.JumpIfTrue 0 32; ByteCode.End_ [];
          ByteCode.UnaryOperation WASMOpcode.I32Clz 0 4;
          ByteCode.JumpIfFalse 0 32; ByteCode.Jump (-48); ByteCode.End_ []]
    /\ @peekAt Sample.layout (ModuleFunction.m_byteCode (m_currentFunction s)) 64
       = Some (ByteCode.Jump (-48))
    /\ @peekAt Sample.layout (ModuleFunction.m_byteCode (m_currentFunction s)) (64 + -48)
       = Some (ByteCode.End_ []).
Proof.
  evar (s3 : t). evar (s4 : t). evar (s : t). exists s3, s4, s.
  split; [unfold s3; vm_compute; reflexivity|].
  repeat (split; [reflexivity|]).
  split; [unfold s4; vm_compute; reflexivity|].
  repeat (split; [reflexivity|]).
  split; [unfold s; vm_compute; reflexivity|].
  repeat split; reflexivity.
Qed.

Section Buffer.

Context {L : Layout}.

Lemma getSize_pos c : 0 < getSize c.
Proof.
  unfold getSize. pose proof (sizeof_pos (ByteCode.opcode c)).
  assert (0 <= ByteCode.tailSize c); [|lia].
  assert (forall n, 0 <= n -> 0 <= ByteCode.pointerAlignedSize n) as Hp.
  { intros n Hn. unfold ByteCode.pointerAlignedSize.
    pose proof (Z.div_pos (n + 7) 8 ltac:(lia) ltac:(lia)). lia. }
  destruct c; simpl; try lia; try (apply Hp; lia).
  case_match; [lia|]. apply Hp. lia.
Qed.

Lemma byteSize_nonneg buf : 0 <= byteSize buf.
Proof.
  induction buf as [|c r IH]; simpl; [lia|]. pose proof (getSize_pos c). lia.
Qed.

Lemma byteSize_app buf1 buf2 : byteSize (buf1 ++ buf2) = byteSize buf1 + byteSize buf2.
Proof. induction buf1 as [|c r IH]; simpl; lia. Qed.

(** The record behind a prefix starts at the length of the prefix. *)
Lemma peekAt_app pre c post : peekAt (pre ++ c :: post) (byteSize pre) = Some c.
Proof.
  induction pre as [|c0 r IH]; simpl; [done|].
  pose proof (getSize_pos c0). pose proof (byteSize_nonneg r).
  assert ((getSize c0 + byteSize r =? 0) = false) as -> by lia.
  assert ((getSize c0 + byteSize r <? getSize c0) = false) as -> by lia.
  replace (getSize c0 + byteSize r - getSize c0) with (byteSize r) by lia. done.
Qed.

(** [resizeByteCode] at the length of a prefix keeps the prefix. *)
Lemma truncateAt_app pre post : truncateAt (pre ++ post) (byteSize pre) = Some pre.
Proof.
  induction pre as [|c0 r IH]; simpl.
  - by destruct post.
  - pose proof (getSize_pos c0). pose proof (byteSize_nonneg r).
    assert ((getSize c0 + byteSize r =? 0) = false) as -> by lia.
    assert ((getSize c0 + byteSize r <? getSize c0) = false) as -> by lia.
    replace (getSize c0 + byteSize r - getSize c0) with (byteSize r) by lia.
    by rewrite IH.
Qed.

End Buffer.

(** *** The polarity of the branch *)

Section Polarity.

Context {L : Layout} {Srt : StdSort}.

Variable n : nat.

Lemma flips_ret {A} (a : A) : Flips n (ret a).
Proof. intros s a' s' Hn H. apply ret_Some in H as [-> ->]. done. Qed.

Lemma flips_bind {A B} (m : M A) (k : A -> M B) :
  Flips n m -> (forall a, Flips n (k a)) -> Flips n (bind m k).
Proof.
  intros Hm Hk s b s' Hn H. apply bind_Some in H as (a & s1 & H1 & H2).
  destruct (Hm _ _ _ Hn H1) as [H1' Hn1]. destruct (Hk _ _ _ _ Hn1 H2) as [H2' Hn2].
  split; [|done]. unfold bind. by rewrite H1'.
Qed.

Lemma flips_gets {A} (f : t -> A) :
  (forall s, f (flipRecord n s) = f s) -> Flips n (gets f).
Proof.
  intros Hf s a s' Hn H. apply gets_Some in H as [-> ->].
  split; [|done]. unfold gets. by rewrite Hf.
Qed.

Lemma flips_abort {A} : Flips n (@abort A).
Proof. intros s a s' _ H. discriminate. Qed.

Lemma flips_lift {A} (o : option A) : Flips n (lift o).
Proof.
  intros s a s' Hn H. apply lift_Some in H as [-> ->]. done.
Qed.

Lemma flips_modify (g : t -> t) :
  (forall s, (n < length (bufOf s))%nat ->
     g (flipRecord n s) = flipRecord n (g s) /\ (n < length (bufOf (g s)))%nat) ->
  Flips n (modify g).
Proof.
  intros Hg s a s' Hn H. apply modify_Some in H. subst s'. destruct a.
  destruct (Hg s Hn) as [Heq Hn']. split; [|done]. unfold modify. by rewrite Heq.
Qed.

Lemma flips_when (b : bool) (m : M unit) : Flips n m -> Flips n (when b m).
Proof. destruct b; [done|]. intros _. apply flips_ret. Qed.

Lemma flips_forM {A} (l : list A) (body : A -> M unit) :
  (forall x, Flips n (body x)) -> Flips n (forM_ l body).
Proof.
  intros Hb. induction l as [|x l IH]; simpl.
  - apply flips_ret.
  - apply flips_bind; auto.
Qed.

Lemma flips_repeatM (k : nat) (body : M unit) : Flips n body -> Flips n (repeatM k body).
Proof.
  intros Hb. induction k as [|k IH]; simpl.
  - apply flips_ret.
  - apply flips_bind; auto.
Qed.

Lemma getSize_flipJumpIf c : getSize (flipJumpIf c) = getSize c.
Proof. destruct c; try done; unfold getSize; simpl; by rewrite sizeof_JumpIf. Qed.

Lemma byteSize_flip k buf : byteSize (alter flipJumpIf k buf) = byteSize buf.
Proof.
  revert k. induction buf as [|c r IH]; intros [|k]; simpl; try done.
  - by rewrite getSize_flipJumpIf.
  - f_equal. apply IH.
Qed.

Lemma flips_currentByteCodeSize : Flips n (gets currentByteCodeSize).
Proof.
  apply flips_gets. intros s. unfold currentByteCodeSize, flipRecord. cbn.
  apply byteSize_flip.
Qed.

(** A record pushed behind record [n]. *)
Lemma flips_pushByteCode c : Flips n (pushByteCode c).
Proof.
  unfold pushByteCode. apply flips_bind.
  - assert (Flips n (modify (fun s => set_m_lastI32EqzPos (currentByteCodeSize s) s)))
      as Hm.
    { apply flips_modify. intros s Hn. split; [|exact Hn].
      unfold flipRecord, currentByteCodeSize, bufOf. cbn. by rewrite byteSize_flip. }
    destruct c; try apply flips_ret. destruct op; try apply flips_ret. exact Hm.
  - intros _. unfold modifyFunction. apply flips_modify. intros s Hn.
    unfold flipRecord, bufOf in *. cbn. split.
    + rewrite (alter_app_l flipJumpIf _ [c] n) by exact Hn. reflexivity.
    + rewrite length_app. lia.
Qed.

Lemma updateAt_flip k v buf pos :
  updateAt (setJumpIfOffset v) (alter flipJumpIf k buf) pos
  = alter flipJumpIf k <$> updateAt (setJumpIfOffset v) buf pos.
Proof.
  revert k pos. induction buf as [|c r IH]; intros k pos; [by destruct k|].
  destruct k as [|k]; simpl.
  - rewrite getSize_flipJumpIf. destruct (pos =? 0).
    + by destruct c.
    + destruct (pos <? getSize c); [done|].
      by destruct (updateAt _ r _).
  - destruct (pos =? 0).
    + by destruct (setJumpIfOffset v c).
    + destruct (pos <? getSize c); [done|].
      specialize (IH k (pos - getSize c)).
      change (list_alter flipJumpIf k r) with (alter flipJumpIf k r).
      rewrite IH. by destruct (updateAt _ r _).
Qed.

Lemma updateAt_length f buf pos buf' :
  updateAt f buf pos = Some buf' -> length buf' = length buf.
Proof.
  revert pos buf'. induction buf as [|c r IH]; intros pos buf' H; simpl in H;
    [discriminate|].
  destruct (pos =? 0).
  - destruct (f c); simpl in H; [|discriminate]. by inversion H.
  - destruct (pos <? getSize c); [discriminate|].
    destruct (updateAt f r _) eqn:E; simpl in H; [|discriminate].
    inversion H. simpl. f_equal. by eapply IH.
Qed.

(** The patch of the conditional jump itself. *)
Lemma flips_setJumpIfOffsetAt pos v : Flips n (setOffsetAt setJumpIfOffset pos v).
Proof.
  intros s [] s' Hn H. unfold setOffsetAt in H. inv_run.
  match goal with H : updateAt _ _ _ = Some _ |- _ => rename H into Hu end.
  split.
  - unfold setOffsetAt, byteCode, setByteCode, modifyFunction, bind, gets, lift, modify.
    cbn. unfold bufOf. rewrite updateAt_flip, Hu. reflexivity.
  - unfold bufOf in *. cbn. by rewrite (updateAt_length _ _ _ _ Hu).
Qed.

End Polarity.

Create HintDb flips.

#[export] Hint Resolve flips_currentByteCodeSize flips_pushByteCode
  flips_setJumpIfOffsetAt : flips.

Ltac flips_step :=
  lazymatch goal with
  | |- Flips _ (bind _ _) => apply flips_bind; [|intros ?]
  | |- Flips _ (ret _) => apply flips_ret
  | |- Flips _ (gets _) => apply flips_gets; intros; reflexivity
  | |- Flips _ abort => apply flips_abort
  | |- Flips _ (lift _) => apply flips_lift
  | |- Flips _ (when _ _) => apply flips_when
  | |- Flips _ (forM_ _ _) => apply flips_forM; intros ?
  | |- Flips _ (repeatM _ _) => apply flips_repeatM
  | |- Flips _ (if ?b then _ else _) => destruct b
  | |- Flips _ (match ?x with _ => _ end) => destruct x
  | |- Flips _ (let _ := _ in _) => cbv zeta
  | |- Flips _ (modify _) =>
      apply flips_modify; intros ? ?; split; [reflexivity | assumption]
  end.

Ltac flips_unfold :=
  lazymatch goal with
  | |- Flips _ ?m => let h := head_of m in progress unfold h
  end.

(** Walk through a handler that leaves record [n] where it is. *)
Ltac flips :=
  repeat first
    [ solve [eauto 2 with flips nocore]
    | flips_step
    | flips_unfold ].

Section Branches.

Context {L : Layout} {Srt : StdSort}.

Lemma flips_moveLoop n stack srcI dstI remainSize :
  Flips n (moveLoop stack srcI dstI remainSize).
Proof.
  revert dstI remainSize. induction srcI as [|srcI IH]; intros; simpl; flips.
Qed.

#[local] Hint Resolve flips_moveLoop : flips.

Lemma flips_seenBranch n : Flips n seenBranch.
Proof.
  unfold seenBranch. flips_step; [flips|]. flips_step. flips_step; [|flips].
  apply flips_modify. intros s Hn. unfold flipRecord. cbn.
  destruct (0 <? size (m_blockInfo s)); split; done.
Qed.

#[local] Hint Resolve flips_seenBranch : flips.

Lemma flips_generateEndCode n b : Flips n (generateEndCode b).
Proof. flips. Qed.

Lemma flips_generateMoveValuesCodeRegardToDrop n dropSize :
  Flips n (generateMoveValuesCodeRegardToDrop dropSize).
Proof. flips. Qed.

Lemma flips_moveToCanonical n close k : Flips n (moveToCanonical close k).
Proof. flips. Qed.

(** The conditional jump stays where it is while records are pushed
    behind it and its offset is patched. *)
Lemma pushByteCode_condJumpAt n p c : Preserves (condJumpAt n p) (pushByteCode c).
Proof.
  unfold pushByteCode. apply pres_bind; [pres|]. intros _.
  unfold modifyFunction. apply pres_modify. intros s (b & o & H).
  exists b, o. unfold bufOf in *. cbn. by apply lookup_app_l_Some.
Qed.

Lemma updateAt_condJump v buf pos buf' k b p o :
  updateAt (setJumpIfOffset v) buf pos = Some buf' ->
  buf !! k = Some (condJump b p o) ->
  exists o', buf' !! k = Some (condJump b p o').
Proof.
  revert pos buf' k.
  induction buf as [|c r IH]; intros pos buf' k H Hk; simpl in H; [discriminate|].
  destruct (pos =? 0).
  - destruct (setJumpIfOffset v c) as [c'|] eqn:Ec; simpl in H; [|discriminate].
    inversion H; subst buf'. destruct k as [|k]; simpl in *; [|by eexists].
    inversion Hk; subst c. destruct b; simpl in Ec; inversion Ec.
    + by exists (i32 v).
    + by exists (i32 v).
  - destruct (pos <? getSize c); [discriminate|].
    destruct (updateAt _ r _) as [r'|] eqn:Er; simpl in H; [|discriminate].
    inversion H; subst buf'. destruct k as [|k]; simpl in *; [by eexists|].
    by eapply IH.
Qed.

Lemma setOffsetAt_condJumpAt n p pos v :
  Preserves (condJumpAt n p) (setOffsetAt setJumpIfOffset pos v).
Proof.
  intros s [] s' H (b & o & Hk). unfold setOffsetAt in H. inv_run.
  match goal with H : updateAt _ _ _ = Some _ |- _ => rename H into Hu end.
  destruct (updateAt_condJump _ _ _ _ _ _ _ _ Hu Hk) as [o' Ho'].
  by exists b, o'.
Qed.

Lemma popVMStackInfo_condJumpAt n p : Preserves (condJumpAt n p) popVMStackInfo.
Proof. pres. Qed.

#[local] Hint Resolve pushByteCode_condJumpAt setOffsetAt_condJumpAt
  popVMStackInfo_condJumpAt : pres.

Lemma moveLoop_condJumpAt n p stack srcI dstI remainSize :
  Preserves (condJumpAt n p) (moveLoop stack srcI dstI remainSize).
Proof. apply moveLoop_pres. intros; pres. Qed.

#[local] Hint Resolve moveLoop_condJumpAt : pres.

Lemma bind_gets {A B} (f : t -> A) (k : A -> M B) s :
  bind (gets f) k s = k (f s) s.
Proof. reflexivity. Qed.

(** A conditional jump pushed in front of handlers that leave it where
    it is: with the other polarity the same happens, on a buffer that
    differs in the polarity of that jump. *)
Lemma push_condJump_polarity b p o (rest : M unit) s s' :
  Flips (length (bufOf s)) rest ->
  Preserves (condJumpAt (length (bufOf s)) p) rest ->
  (pushByteCode (condJump b p o) ;; rest) s = Some (tt, s') ->
  condJumpAt (length (bufOf s)) p s'
  /\ (pushByteCode (condJump (negb b) p o) ;; rest) s
     = Some (tt, flipRecord (length (bufOf s)) s').
Proof.
  intros Hf Hp H. apply bind_Some in H as ([] & s1 & H1 & H).
  set (n := length (bufOf s)) in *.
  assert (forall b0, pushByteCode (condJump b0 p o) s
            = Some (tt, set_m_currentFunction
                          (ModuleFunction.set_m_byteCode (bufOf s ++ [condJump b0 p o])
                             (m_currentFunction s)) s)) as Hpush.
  { intros b0. unfold pushByteCode. by destruct b0. }
  rewrite Hpush in H1. inversion H1 as [Hs1]. clear H1.
  assert (bufOf s1 = bufOf s ++ [condJump b p o]) as Hb1 by (by subst s1).
  assert (condJumpAt n p s1) as Hc1.
  { exists b, o. rewrite Hb1. by apply list_lookup_middle. }
  assert ((n < length (bufOf s1))%nat) as Hn1.
  { rewrite Hb1, length_app. simpl. lia. }
  split; [exact (Hp _ _ _ H Hc1)|].
  destruct (Hf _ _ _ Hn1 H) as [H' _].
  unfold bind. rewrite Hpush. rewrite <- H'. f_equal.
  subst s1. unfold flipRecord, bufOf. cbn.
  replace (alter flipJumpIf n
             (ModuleFunction.m_byteCode (m_currentFunction s) ++ [condJump b p o]))
    with (ModuleFunction.m_byteCode (m_currentFunction s) ++ [condJump (negb b) p o]);
    [reflexivity|].
  replace n with (length (ModuleFunction.m_byteCode (m_currentFunction s)) + 0)%nat
    by (unfold n, bufOf; lia).
  rewrite alter_app_r. by destruct b.
Qed.

(** A handler that only reads. *)
Lemma run_readonly {A} (m : M A) s a s' :
  Preserves (fun st => st = s) m -> m s = Some (a, s') -> s' = s.
Proof. intros Hm H. exact (Hm _ _ _ H eq_refl). Qed.

Lemma bind_ret_tt (m : M unit) s : bind m (fun _ => ret tt) s = m s.
Proof. unfold bind, ret. destruct (m s) as [[[] s1]|]; done. Qed.

(** One reading step of a handler, taken in a run and in the run it is
    compared with. *)
Ltac read_step H :=
  let a := fresh "a" in
  let s1 := fresh "s" in
  let E := fresh "E" in
  unfold bind at 1 in H; unfold bind at 1;
  lazymatch type of H with
  | match ?m ?s with _ => _ end = _ =>
      destruct (m s) as [[a s1]|] eqn:E; [|discriminate H];
      apply run_readonly in E; [subst s1 | pres]
  end.

(** [br_if] with the other polarity. *)
Lemma brIfTail_polarity b p depth s s' :
  brIfTail b p depth s = Some (tt, s') ->
  condJumpAt (length (bufOf s)) p s'
  /\ brIfTail (negb b) p depth s = Some (tt, flipRecord (length (bufOf s)) s').
Proof.
  unfold brIfTail. intros H.
  rewrite bind_gets in H |- *.
  destruct (size (m_blockInfo s) =? depth).
  - rewrite !bind_gets in H |- *.
    apply push_condJump_polarity; [flips | pres | exact H].
  - read_step H. read_step H. read_step H.
    destruct (negb (snd a1 =? 0)).
    + rewrite bind_gets in H |- *.
      apply push_condJump_polarity; [flips | pres | exact H].
    + read_step H. destruct a2 as [ft|].
      * rewrite bind_gets in H |- *.
        apply push_condJump_polarity; [flips | pres | exact H].
      * rewrite bind_gets in H |- *.
        apply bind_Some in H as ([] & s1 & H1 & H).
        unfold bind at 1. rewrite H1.
        assert (bufOf s1 = bufOf s) as Hb.
        { revert H1. match goal with |- ?m _ = _ -> _ =>
            assert (Preserves (fun st => bufOf st = bufOf s) m) as Hp by pres;
            intros H1; exact (Hp _ _ _ H1 eq_refl) end. }
        rewrite <- Hb. rewrite <- bind_ret_tt in H. rewrite <- (bind_ret_tt (pushByteCode _)).
        apply push_condJump_polarity; [flips | pres | exact H].
Qed.

(** [if] with the other polarity; the conditional jump is the last
    record the handler pushes. *)
Lemma ifTail_polarity b p sigType s s' :
  ifTail b p sigType s = Some (tt, s') ->
  exists n,
    condJumpAt n p s'
    /\ ifTail (negb b) p sigType s = Some (tt, flipRecord n s').
Proof.
  unfold ifTail. intros H.
  apply bind_Some in H as (b0 & s1 & H1 & H).
  apply bind_Some in H as ([] & s2 & H2 & H).
  exists (length (bufOf s2)).
  unfold bind at 1. rewrite H1. unfold bind at 1. rewrite H2.
  apply push_condJump_polarity; [flips | pres | exact H].
Qed.

End Branches.

Section FusedBranch.

Context {L : Layout} {Srt : StdSort}.

Lemma seenBranch_candidate pre src dst pos :
  Preserves (fun s => eqzIsCandidate pre src dst s /\ conditionIs pos s) seenBranch.
Proof. pres. Qed.

(** The pop of the condition leaves the candidate alone and answers the
    position of the top entry. *)
Lemma popVMStack_candidate pre src dst pos s p s' :
  eqzIsCandidate pre src dst s -> conditionIs pos s ->
  popVMStack s = Some (p, s') ->
  p = pos /\ eqzIsCandidate pre src dst s'.
Proof.
  intros Hc Hpos H. unfold popVMStack in H. inv_run.
  match goal with H : popVMStackInfo _ = Some _ |- _ => rename H into Hpop end.
  assert (Preserves (eqzIsCandidate pre src dst) popVMStackInfo) as Hp by pres.
  split; [|exact (Hp _ _ _ Hpop Hc)].
  apply popVMStackInfo_Some in Hpop as (Hl & _).
  unfold conditionIs in Hpos. rewrite Hl in Hpos. by inversion Hpos.
Qed.

(** With the candidate behind [pre], the test of the fusion holds and the
    rewinding gives the source of the [i32.eqz]. *)
Lemma canBeInverted_candidate pre src dst s :
  eqzIsCandidate pre src dst s ->
  canBeInverted dst s = Some (true, s)
  /\ exists s', rewindI32Eqz s = Some (src, s') /\ rewind pre s = Some (tt, s').
Proof.
  intros (Hbuf & Hlast & Hsz). unfold bufOf in *.
  assert (usize (m_lastI32EqzPos s + sizeof (ByteCode.UnaryOpcode WASMOpcode.I32Eqz))
          = currentByteCodeSize s) as Hcur.
  { assert (byteSize (pre ++ [ByteCode.UnaryOperation WASMOpcode.I32Eqz src dst])
            = byteSize pre + sizeof (ByteCode.UnaryOpcode WASMOpcode.I32Eqz)) as Hb.
    { rewrite byteSize_app. simpl. unfold getSize. simpl. lia. }
    unfold currentByteCodeSize. rewrite Hlast, Hbuf, Hb.
    unfold usize. apply Z.mod_small.
    rewrite Hbuf, Hb in Hsz. pose proof (byteSize_nonneg pre).
    pose proof (sizeof_pos (ByteCode.UnaryOpcode WASMOpcode.I32Eqz)). lia. }
  assert (peekUnaryOperation (m_lastI32EqzPos s) s = Some ((src, dst), s)) as Hpeek.
  { unfold peekUnaryOperation, byteCode, bind, gets, lift.
    by rewrite Hlast, Hbuf, peekAt_app. }
  split.
  - unfold canBeInverted, bind, gets. rewrite Hcur, Z.eqb_refl, Hpeek.
    simpl. by rewrite Z.eqb_refl.
  - eexists. split.
    + unfold rewindI32Eqz, bind, gets. rewrite Hpeek.
      unfold resizeByteCode, byteCode, bind, gets, lift.
      rewrite Hlast, Hbuf, truncateAt_app. reflexivity.
    + reflexivity.
Qed.

(** C1, as the code has it. When the last record of the buffer is an
    [i32.eqz] that is still the candidate of the fusion (no block or
    function has ended since it was emitted) and its destination is the
    condition on top of the shadow stack, [br_if] and [if] pop the
    condition, cut the buffer back to the start of the [i32.eqz], forget
    the candidate and go on with the source of the [i32.eqz] as condition
    and the polarity inverted. Inverted means: whatever the rest of the
    handler does from a state on the condition [src], the unfused handler
    does the same from that state, but for one record of the buffer, the
    conditional jump on [src], which is [JumpIfTrue] where the unfused
    branch emits [JumpIfFalse], and the other way round. *)
Theorem candidate_eqz_is_fused pre src dst s :
  eqzIsCandidate pre src dst s ->
  conditionIs dst s ->
  (forall depth,
     OnBrIfExpr depth s
     = (seenBranch ;; popVMStack ;; rewind pre ;; brIfTail true src depth) s)
  /\ (forall sigType,
        OnIfExpr sigType s
        = (popVMStack ;; rewind pre ;; ifTail true src sigType) s)
  /\ (forall depth s1 s',
        brIfTail true src depth s1 = Some (tt, s') ->
        condJumpAt (length (bufOf s1)) src s'
        /\ brIfTail false src depth s1
           = Some (tt, flipRecord (length (bufOf s1)) s'))
  /\ (forall sigType s1 s',
        ifTail true src sigType s1 = Some (tt, s') ->
        exists n,
          condJumpAt n src s'
          /\ ifTail false src sigType s1 = Some (tt, flipRecord n s')).
Proof.
  intros Hc Hpos.
  assert (forall s1 p s2 (k : bool -> Z -> M unit),
            eqzIsCandidate pre src dst s1 -> conditionIs dst s1 ->
            popVMStack s1 = Some (p, s2) ->
            (isInverted <- canBeInverted p ;;
             stackPos <- (if isInverted then rewindI32Eqz else ret p) ;;
             k isInverted stackPos) s2
            = (rewind pre ;; k true src) s2) as Hk.
  { intros s1 p s2 k Hc1 Hpos1 Hpop.
    destruct (popVMStack_candidate _ _ _ _ _ _ _ Hc1 Hpos1 Hpop) as [-> Hc2].
    destruct (canBeInverted_candidate _ _ _ _ Hc2) as (Hinv & s3 & Hrew & Hrew').
    unfold bind at 1. rewrite Hinv. unfold bind at 1. rewrite Hrew.
    unfold bind at 1. by rewrite Hrew'. }
  split.
  - intros depth. unfold OnBrIfExpr.
    eapply (bind_congr (fun s => eqzIsCandidate pre src dst s /\ conditionIs dst s));
      [apply seenBranch_candidate | done |].
    intros _ s1 [Hc1 Hpos1]. apply bind_congr_run. intros p s2 Hpop.
    by apply (Hk s1 p s2 (fun b pos => brIfTail b pos depth)).
  - split; [|split].
    + intros sigType. unfold OnIfExpr. apply bind_congr_run. intros p s2 Hpop.
      by apply (Hk s p s2 (fun b pos => ifTail b pos sigType)).
    + intros depth s1 s' H. exact (brIfTail_polarity true src depth s1 s' H).
    + intros sigType s1 s' H. exact (ifTail_polarity true src sigType s1 s' H).
Qed.

End FusedBranch.

(** The theorem at work: behind [local.get 0; i32.eqz] the [br_if 0] of a
    function of type [(i32) -> ()] is fused; what remains is a
    [JumpIfTrue] on the parameter, over the [end] that returns. *)
Lemma candidate_eqz_is_fused_witness :
  exists s,
    exec (@Decoder.walkPrefix Sample.layout Sample.sort 2 Inputs.eqzInBlock []
            1 7 Inputs.eqzBrIf_body)
         (@new Sample.layout Inputs.eqzBrIf_data Inputs.emptyResult) = Some s
    /\ bufOf <$> exec (@OnBrIfExpr Sample.layout 0) s
       = Some [ByteCode.JumpIfTrue 0 32; ByteCode.End_ []]
    /\ (forall depth,
          @OnBrIfExpr Sample.layout depth s
          = (seenBranch ;; popVMStack ;; @rewind Sample.layout [] ;;
             @brIfTail Sample.layout true 0 depth) s)
    /\ (forall sigType,
          @OnIfExpr Sample.layout sigType s
          = (popVMStack ;; @rewind Sample.layout [] ;;
             @ifTail Sample.layout true 0 sigType) s).
Proof.
  evar (s0 : t). exists s0.
  split; [unfold s0; vm_compute; reflexivity|].
  split; [vm_compute; reflexivity|].
  assert (@eqzIsCandidate Sample.layout [] 0 4 s0) as Hc.
  { split; [vm_compute; reflexivity|]. split; [vm_compute; reflexivity|].
    vm_compute. reflexivity. }
  assert (conditionIs 4 s0) as Hpos by (vm_compute; reflexivity).
  destruct (@candidate_eqz_is_fused Sample.layout [] 0 4 s0 Hc Hpos)
    as (Hbr & Hif & _).
  split; [exact Hbr | exact Hif].
Defined.

(** C1, as the spec words it, does not hold: in
    [block (result i32) local.get 0; i32.eqz; end; br_if 0] the [i32.eqz]
    is the last record of the buffer when the [br_if] arrives, and its
    destination, offset 4, is the condition of the branch; but the block
    has ended in between, and the branch is not fused: the [i32.eqz] stays,
    the condition is offset 4, and the jump is the [JumpIfFalse] of an
    unfused [br_if]. *)
Lemma eqz_before_block_end_is_not_fused :
  exists s s',
    exec (@Decoder.walkPrefix Sample.layout Sample.sort 4 Inputs.eqzInBlock []
            1 10 Inputs.eqzInBlock_body)
         (@new Sample.layout Inputs.eqzInBlock_data Inputs.emptyResult) = Some s
    /\ bufOf s = [ByteCode.UnaryOperation WASMOpcode.I32Eqz 0 4]
    /\ conditionIs 4 s
    /\ @OnBrIfExpr Sample.layout 0 s = Some (tt, s')
    /\ bufOf s'
       = [ByteCode.UnaryOperation WASMOpcode.I32Eqz 0 4;
          ByteCode.JumpIfFalse 4 32; ByteCode.End_ []].
Proof.
  eexists. eexists.
  split; [vm_compute; reflexivity|].
  split; [reflexivity|]. split; [reflexivity|].
  split; [vm_compute; reflexivity|]. reflexivity.
Qed.

End Fusion.

(** ** The constant pool *)

Module ConstantPool.

Import WASMBinaryReader MonadFacts HandlerFacts Pool.

#[local] Open Scope M_scope.

Lemma eqb_true a b : Value.eqb a b = true <-> a = b.
Proof. unfold Value.eqb. apply bool_decide_eq_true. Qed.

Lemma eqb_false a b : Value.eqb a b = false <-> a <> b.
Proof. unfold Value.eqb. apply bool_decide_eq_false. Qed.

(** The search loop of [addConstantData] counts one reference. *)
Lemma incrementFirst_counted v l :
  counted v l
    (let '(l', found) := incrementFirst v l in
     if found then l' else l' ++ [(v, 1)]).
Proof.
  assert (forall pre, v ∉ map fst pre ->
            counted v (pre ++ l)
              (pre ++ let '(l', found) := incrementFirst v l in
                      if found then l' else l' ++ [(v, 1)])) as H.
  { induction l as [|[w c] l IH]; intros pre Hpre; simpl.
    - rewrite app_nil_r. by apply counted_unseen.
    - destruct (Value.eqb w v) eqn:E.
      + apply eqb_true in E. subst w. by apply counted_seen.
      + apply eqb_false in E.
        specialize (IH (pre ++ [(w, c)])).
        destruct (incrementFirst v l) as [l' found].
        rewrite <- !app_assoc in IH. simpl in IH.
        assert (v ∉ map fst (pre ++ [(w, c)])) as Hw.
        { rewrite map_app. simpl. rewrite elem_of_app, list_elem_of_singleton.
          intros [?|?]; [done|]. by apply E. }
        destruct found; by apply IH. }
  apply (H []). simpl. apply not_elem_of_nil.
Qed.

Lemma counted_length v l l' :
  counted v l l' -> (length l <= length l' <= length l + 1)%nat.
Proof.
  destruct 1; rewrite ?length_app; simpl; lia.
Qed.

Lemma eraseBack_one {A} (l : list A) :
  l <> [] -> exists e, l = eraseBack (maxConstantData / 4) l ++ [e].
Proof.
  intros Hl. unfold eraseBack.
  change (Z.to_nat (maxConstantData / 4)) with 1%nat.
  destruct l as [|x l] using rev_ind; [done|]. exists x.
  rewrite length_app. simpl.
  replace (length l + 1 - 1)%nat with (length l) by lia.
  by rewrite take_app_length.
Qed.

Section Cut.

Context {L : Layout} {Srt : StdSort}.

(** What [addConstantData] does to the pool in the preprocess pass. *)
Lemma addConstantData_Some v s :
  PreprocessData.m_inPreprocess (m_preprocessData s) = true ->
  exists s' l2,
    addConstantData v s = Some (tt, s')
    /\ counted v (pool s) l2
    /\ pool s' = (if maxConstantData <? size l2
                  then eraseBack (maxConstantData / 4) (std_sort l2) else l2)
    /\ PreprocessData.m_inPreprocess (m_preprocessData s') = true.
Proof.
  intros HinP.
  pose proof (incrementFirst_counted v (pool s)) as Hc.
  unfold addConstantData, inPreprocess, bind, gets. rewrite HinP. simpl.
  unfold modifyPreprocessData, modify, organizeConstantData, bind, gets. simpl.
  unfold pool in *.
  destruct (incrementFirst v _) as [l' found]. simpl.
  set (l2 := if found then l' else l' ++ [(v, 1)]) in *.
  destruct (maxConstantData <? size l2) eqn:E; simpl.
  - eexists _, l2. split; [reflexivity|]. simpl. rewrite E.
    unfold modifyPreprocessData, modify. simpl. by rewrite HinP.
  - eexists _, l2. split; [reflexivity|]. simpl. by rewrite E, HinP.
Qed.

(** C5, as the code has it. In the preprocess pass a constant outside an
    initializer expression is counted: the count of its pool entry goes up
    by one, or an entry with count 1 is appended. When the pool then holds
    more than [K = 6] entries, that is [K + 1], it is sorted by descending
    count and its last [K / 4 = 1] entry is erased, which leaves [K]
    entries, none with a smaller count than the erased one. (The order
    among equal counts is whatever [std::sort] makes it.) No slot is pushed
    for the constant in this pass. *)
Theorem constant_counted_and_pool_cut v s :
  m_inInitExpr s = false ->
  PreprocessData.m_inPreprocess (m_preprocessData s) = true ->
  size (pool s) <= maxConstantData ->
  exists s' l2,
    processConstValue v s = Some (false, s')
    /\ counted v (pool s) l2
    /\ ((size l2 <= maxConstantData /\ pool s' = l2)
        \/ (size l2 = maxConstantData + 1
            /\ size (pool s') = maxConstantData
            /\ exists e, Permutation l2 (pool s' ++ [e])
                         /\ descending (pool s' ++ [e]))).
Proof.
  intros Hinit HinP Hsize.
  destruct (addConstantData_Some v s HinP) as (s' & l2 & Hrun & Hc & Hpool & HinP').
  exists s', l2. split.
  { unfold processConstValue, bind, gets. rewrite Hinit. simpl. rewrite Hrun.
    unfold inPreprocess, gets. by rewrite HinP'. }
  split; [exact Hc|].
  pose proof (counted_length _ _ _ Hc) as Hlen. unfold size in *.
  destruct (maxConstantData <? Z.of_nat (length l2)) eqn:E.
  - right. split; [lia|].
    pose proof (std_sort_perm l2) as Hperm.
    pose proof (std_sort_sorted l2) as Hsorted.
    destruct (eraseBack_one (std_sort l2)) as [e He].
    { intros Hnil. apply Permutation_length in Hperm. rewrite Hnil in Hperm.
      simpl in Hperm. lia. }
    rewrite <- Hpool in He. split.
    + apply Permutation_length in Hperm. rewrite He, length_app in Hperm.
      simpl in Hperm. lia.
    + exists e. rewrite <- He. by split.
  - left. split; [lia|exact Hpool].
Qed.

End Cut.

(** The theorem at work: a seventh constant arrives in a pool of six. *)
Lemma constant_counted_and_pool_cut_witness :
  exists s' l2,
    @processConstValue Sample.sort (Value.mk Value.I32 7)
      (@sixSeen Sample.layout) = Some (false, s')
    /\ counted (Value.mk Value.I32 7) (pool (@sixSeen Sample.layout)) l2
    /\ ((size l2 <= maxConstantData /\ pool s' = l2)
        \/ (size l2 = maxConstantData + 1
            /\ size (pool s') = maxConstantData
            /\ exists e, Permutation l2 (pool s' ++ [e])
                         /\ descending (pool s' ++ [e]))).
Proof.
  apply (@constant_counted_and_pool_cut Sample.sort).
  - reflexivity.
  - reflexivity.
  - vm_compute. intros H. discriminate H.
Defined.

(** C5, as the spec words it, is not what the code does: a seventh
    constant makes the code sort the pool and cut it to six entries, while
    a pool that is cut only when it exceeds [K + K/4 = 7] entries keeps all
    seven. *)
Lemma pool_is_cut_at_seven_entries :
  exists s',
    @processConstValue Sample.sort (Value.mk Value.I32 7)
      (@sixSeen Sample.layout) = Some (false, s')
    /\ length (pool s') = 6%nat
    /\ length (addConstantData_spec (Value.mk Value.I32 7)
                 (pool (@sixSeen Sample.layout))) = 7%nat.
Proof.
  eexists. split; [vm_compute; reflexivity|]. split; vm_compute; reflexivity.
Qed.

(** *** One entry and one position per constant *)

Lemma counted_keys v l l' :
  counted v l l' -> NoDup (map fst l) -> NoDup (map fst l').
Proof.
  destruct 1 as [pre c post Hpre | l Hl]; intros Hnd.
  - by rewrite map_app in *.
  - rewrite map_app. simpl. apply NoDup_app. split; [done|].
    split; [|apply NoDup_singleton].
    intros x Hx Hx'. apply list_elem_of_singleton in Hx'. by subst.
Qed.

Lemma counted_kinds v l l' :
  counted v l l' -> isConstKind (Value.type v) = true ->
  Forall (fun e => isConstKind (Value.type (fst e)) = true) l ->
  Forall (fun e => isConstKind (Value.type (fst e)) = true) l'.
Proof.
  destruct 1 as [pre c post Hpre | l Hl]; intros Hv Hall.
  - apply Forall_app in Hall as [H1 H2]. apply Forall_app. split; [done|].
    apply Forall_cons in H2 as [H2 H3]. by apply Forall_cons.
  - apply Forall_app. split; [done|]. by apply Forall_singleton.
Qed.

Lemma eraseBack_keys (n : Z) (l : list (Value.t * Z)) :
  NoDup (map fst l) -> NoDup (map fst (eraseBack n l)).
Proof.
  unfold eraseBack. intros H. rewrite <- (take_drop (length l - Z.to_nat n) l) in H.
  rewrite map_app in H. by apply NoDup_app in H as [H _].
Qed.

Lemma eraseBack_length {A} (l : list A) :
  length (eraseBack (maxConstantData / 4) l) = (length l - 1)%nat.
Proof.
  unfold eraseBack. change (Z.to_nat (maxConstantData / 4)) with 1%nat.
  rewrite length_take. lia.
Qed.

Section Dedup.

Context {L : Layout} {Srt : StdSort}.

Lemma addConstantData_poolOk v :
  isConstKind (Value.type v) = true -> Preserves poolOk (addConstantData v).
Proof.
  intros Hv s [] s' H (Hnd & Hsz & Hk & Hpos).
  destruct (PreprocessData.m_inPreprocess (m_preprocessData s)) eqn:HinP.
  - destruct (addConstantData_Some v s HinP)
      as (s1 & l2 & Hrun & Hc & Hpool & HinP').
    rewrite Hrun in H. inversion H; subst s1. clear H.
    pose proof (counted_keys _ _ _ Hc Hnd) as Hnd2.
    pose proof (counted_kinds _ _ _ Hc Hv Hk) as Hk2.
    pose proof (counted_length _ _ _ Hc) as Hlen.
    unfold poolOk. rewrite Hpool, HinP'. unfold size in *.
    destruct (maxConstantData <? Z.of_nat (length l2)) eqn:E.
    + pose proof (std_sort_perm l2) as Hperm.
      split; [|split; [|split; [|done]]].
      * apply eraseBack_keys. by rewrite <- (Permutation_map fst Hperm).
      * rewrite eraseBack_length. apply Permutation_length in Hperm. lia.
      * unfold eraseBack. apply Forall_take. by rewrite <- Hperm.
    + split; [done|]. split; [lia|]. by split.
  - unfold addConstantData in H. inv_run. rewrite HinP in H.
    unfold when in H. inv_run. unfold poolOk. rewrite HinP.
    exact (conj Hnd (conj Hsz (conj Hk Hpos))).
Qed.

#[local] Hint Extern 1 (Preserves poolOk (addConstantData _)) =>
  apply addConstantData_poolOk; reflexivity : pres.

Lemma OnStartPreprocess_poolOk : Preserves poolOk OnStartPreprocess.
Proof.
  intros s [] s' H _. unfold OnStartPreprocess, clear in H. inv_run.
  unfold poolOk, pool. cbn. repeat split; try constructor. done.
Qed.

Lemma poolWidth_bounds l :
  Forall (fun e => isConstKind (Value.type (fst e)) = true) l ->
  4 * size l <= poolWidth l <= 16 * size l.
Proof.
  unfold size. induction 1 as [|[v c] l Hv _ IH]; simpl; [lia|].
  destruct v as [[] bits]; simpl in *; try discriminate; lia.
Qed.

Lemma assignConstantPositions_keys initial l :
  map fst (assignConstantPositions initial l).1 = map fst l.
Proof.
  revert initial. induction l as [|e l IH]; intros initial; simpl; [done|].
  specialize (IH (u16 (initial + valueStackAllocatedSize (Value.type e.1)))).
  destruct (assignConstantPositions _ l) as [r' final]. simpl in *. by rewrite IH.
Qed.

(** Every assigned position is the start or lies a positive number of
    bytes, less than the width of the pool, behind it (modulo 2^16). *)
Lemma assignConstantPositions_in initial l p :
  Forall (fun e => isConstKind (Value.type (fst e)) = true) l ->
  p ∈ map snd (assignConstantPositions initial l).1 ->
  p = initial \/ exists d, 0 < d < poolWidth l /\ p = u16 (initial + d).
Proof.
  intros Hk. revert initial. induction Hk as [|e l He Hk IH]; intros initial; simpl.
  - intros H. by apply elem_of_nil in H.
  - specialize (IH (u16 (initial + valueStackAllocatedSize (Value.type e.1)))).
    destruct (assignConstantPositions _ l) as [r' final] eqn:E. simpl in *.
    intros H. apply elem_of_cons in H as [->|H]; [by left|]. right.
    assert (4 <= valueStackAllocatedSize (Value.type e.1)) as Hw.
    { destruct e as [[[] bits] c]; simpl in *; try discriminate; lia. }
    assert (0 < poolWidth l) as Hl.
    { pose proof (poolWidth_bounds l Hk) as Hb. unfold size in Hb.
      destruct l; [|cbn [length] in Hb; lia].
      simpl in E. inversion E; subst. by apply elem_of_nil in H. }
    destruct (IH H) as [->|(d & Hd & ->)].
    + exists (valueStackAllocatedSize (Value.type e.1)). split; [lia|done].
    + exists (valueStackAllocatedSize (Value.type e.1) + d). split; [lia|].
      rewrite u16_add_l. f_equal. lia.
Qed.

Lemma u16_shifted initial d : 0 < d < 2 ^ 16 -> initial <> u16 (initial + d).
Proof.
  intros Hd Heq. unfold u16 in Heq.
  pose proof (Z.mod_pos_bound (initial + d) (2 ^ 16) ltac:(lia)) as Hb.
  pose proof (Z.div_mod (initial + d) (2 ^ 16) ltac:(lia)) as Hdm.
  rewrite <- Heq in Hdm, Hb. lia.
Qed.

Lemma assignConstantPositions_NoDup initial l :
  Forall (fun e => isConstKind (Value.type (fst e)) = true) l ->
  poolWidth l <= 2 ^ 16 ->
  NoDup (map snd (assignConstantPositions initial l).1).
Proof.
  intros Hk. revert initial. induction Hk as [|e l He Hk IH]; intros initial Hw; simpl.
  - constructor.
  - pose proof (assignConstantPositions_in
                  (u16 (initial + valueStackAllocatedSize (Value.type e.1))) l) as Hin.
    specialize (IH (u16 (initial + valueStackAllocatedSize (Value.type e.1)))).
    destruct (assignConstantPositions _ l) as [r' final] eqn:E. simpl in *.
    assert (4 <= valueStackAllocatedSize (Value.type e.1) <= 16) as Hw'.
    { destruct e as [[[] bits] c]; simpl in *; try discriminate; lia. }
    pose proof (poolWidth_bounds l Hk) as Hb.
    constructor; [|apply IH; lia].
    intros Hp. destruct (Hin initial Hk Hp) as [H0|(d & Hd & H0)].
    + revert H0. apply u16_shifted. unfold size in Hb. lia.
    + rewrite u16_add_l in H0. revert H0.
      replace (initial + valueStackAllocatedSize (Value.type e.1) + d)
        with (initial + (valueStackAllocatedSize (Value.type e.1) + d)) by lia.
      apply u16_shifted. lia.
Qed.

Lemma forM_pushByteCode_preprocessData p (l : list (Value.t * Z)) :
  Preserves (InitFlag.preprocessDataIs p)
    (forM_ l (fun e => pushByteCode (constantInit e))).
Proof. apply pres_forM. intros e. apply pushByteCode_preprocessData. Qed.

(** [OnEndPreprocess] gives every entry a position of its own. *)
Lemma OnEndPreprocess_poolOk : Preserves poolOk OnEndPreprocess.
Proof.
  intros s [] s' H (Hnd & Hsz & Hk & _).
  unfold OnEndPreprocess, organizeData, organizeConstantData in H. inv_run.
  match goal with H : forM_ _ _ ?s1 = Some (_, _) |- _ =>
    pose proof (forM_pushByteCode_preprocessData _ _ _ _ _ H eq_refl) as Hp end.
  unfold InitFlag.preprocessDataIs in Hp. unfold poolOk, pool. rewrite Hp. cbn.
  pose proof (std_sort_perm (pool s)) as Hperm. unfold pool in *.
  set (sorted := std_sort _) in *.
  assert (Forall (fun e => isConstKind (Value.type e.1) = true) sorted) as Hk'
    by (by rewrite <- Hperm).
  pose proof (assignConstantPositions_keys (m_initialFunctionStackSize s) sorted)
    as Hkeys.
  pose proof (assignConstantPositions_NoDup (m_initialFunctionStackSize s) sorted Hk')
    as Hpos.
  destruct (assignConstantPositions _ sorted) as [consts final]. cbn in *.
  assert (length consts = length (PreprocessData.m_constantData (m_preprocessData s)))
    as Hlen.
  { rewrite <- (length_map fst consts) at 1. rewrite Hkeys, length_map.
    symmetry. by apply Permutation_length. }
  split; [|split; [|split]].
  - rewrite Hkeys. by rewrite <- (Permutation_map fst Hperm).
  - unfold size in *. lia.
  - assert (Forall (fun k => isConstKind (Value.type k) = true) (map fst sorted))
      as Hf by (apply Forall_fmap; exact Hk').
    rewrite <- Hkeys in Hf. apply Forall_fmap in Hf. exact Hf.
  - intros _. apply Hpos.
    pose proof (poolWidth_bounds sorted Hk') as Hb. unfold size in *.
    apply Permutation_length in Hperm. unfold maxConstantData in *. lia.
Qed.

#[local] Hint Resolve OnStartPreprocess_poolOk OnEndPreprocess_poolOk : pres.

Lemma pushByteCode_poolOk c : Preserves poolOk (pushByteCode c).
Proof. pres. Qed.

Lemma popVMStackInfo_poolOk : Preserves poolOk popVMStackInfo.
Proof. pres. Qed.

#[local] Hint Resolve pushByteCode_poolOk popVMStackInfo_poolOk : pres.

Lemma moveLoop_poolOk stack srcI dstI remainSize :
  Preserves poolOk (moveLoop stack srcI dstI remainSize).
Proof. apply moveLoop_pres. intros; pres. Qed.

Lemma popWhile_poolOk fuel dropSize : Preserves poolOk (popWhile fuel dropSize).
Proof. apply popWhile_pres; intros; pres. Qed.

Lemma harvestCatchInfo_poolOk depth snapshot catches :
  Preserves poolOk (harvestCatchInfo depth snapshot catches).
Proof. apply harvestCatchInfo_pres; intros; pres. Qed.

#[local] Hint Resolve moveLoop_poolOk popWhile_poolOk harvestCatchInfo_poolOk
  : pres.

(** Every handler keeps the pool in order. *)
Lemma handle_poolOk e : Preserves poolOk (Decoder.handle e).
Proof. destruct e; unfold Decoder.handle; pres. Qed.

Lemma run_poolOk es : Preserves poolOk (Decoder.run es).
Proof. unfold Decoder.run. apply pres_forM. apply handle_poolOk. Qed.

Lemma new_poolOk data result : poolOk (new data result).
Proof.
  unfold poolOk, pool. cbn. repeat split; try constructor. done.
Qed.

Lemma NoDup_map_inj {A B} (f : A -> B) (l : list A) x y :
  NoDup (map f l) -> x ∈ l -> y ∈ l -> f x = f y -> x = y.
Proof.
  induction l as [|a l IH]; simpl; intros Hnd Hx Hy Hf.
  - by apply elem_of_nil in Hx.
  - apply NoDup_cons in Hnd as [Ha Hnd].
    apply elem_of_cons in Hx as [->|Hx]; apply elem_of_cons in Hy as [->|Hy].
    + done.
    + exfalso. apply Ha. rewrite Hf. by apply (list_elem_of_fmap_2 f).
    + exfalso. apply Ha. rewrite <- Hf. by apply (list_elem_of_fmap_2 f).
    + by apply IH.
Qed.

(** The search loop of [processConstValue] finds the entry of a constant. *)
Lemma findConstant_elem_of v pos l :
  NoDup (map fst l) -> (v, pos) ∈ l -> findConstant v l = Some pos.
Proof.
  induction l as [|[w p] l IH]; simpl; intros Hnd Hin.
  - by apply elem_of_nil in Hin.
  - apply NoDup_cons in Hnd as [Hw Hnd].
    apply elem_of_cons in Hin as [Heq|Hin].
    + inversion Heq; subst. by rewrite (proj2 (eqb_true _ _) eq_refl).
    + destruct (Value.eqb w v) eqn:E; [|by apply IH].
      apply eqb_true in E. subst w. exfalso. apply Hw.
      by apply (list_elem_of_fmap_2 fst _ (v, pos)).
Qed.

(** In the emission pass a retained constant is answered with its slot. *)
Lemma processConstValue_retained v pos s :
  m_inInitExpr s = false ->
  PreprocessData.m_inPreprocess (m_preprocessData s) = false ->
  findConstant v (pool s) = Some pos ->
  exists s',
    processConstValue v s = Some (true, s')
    /\ m_vmStack s'
       = m_vmStack s
         ++ [VMStackInfo.mk (Value.type v) pos (m_functionStackSizeSoFar s) SIZE_MAX]
    /\ ModuleFunction.m_byteCode (m_currentFunction s')
       = ModuleFunction.m_byteCode (m_currentFunction s)
    /\ pool s' = pool s.
Proof.
  intros Hinit HinP Hfind. eexists.
  unfold processConstValue, addConstantData, inPreprocess, bind, gets.
  rewrite Hinit. cbn. rewrite HinP. cbn. rewrite HinP. cbn.
  unfold pool in Hfind. rewrite Hfind.
  unfold pushVMStack, bind, gets, when, modify, bumpRequiredStackSize. cbn.
  split; [reflexivity|]. by repeat split.
Qed.

(** C2. In the emission pass, outside initializer expressions, a
    [*.const] whose value is that of a retained constant is answered by
    pushing that constant's prelude offset on the shadow stack; no record
    is emitted and the pool stays as it is. A value has one entry in the
    pool, so one offset, and no offset belongs to two retained constants.
    This holds in every state the handlers can reach from a fresh
    reader. *)
Theorem retained_constant_pushes_its_slot es data result s e v pos :
  Decoder.run es (new data result) = Some (tt, s) ->
  m_inInitExpr s = false ->
  PreprocessData.m_inPreprocess (m_preprocessData s) = false ->
  constantOf e = Some v ->
  (v, pos) ∈ pool s ->
  (exists s',
     Decoder.handle e s = Some (tt, s')
     /\ m_vmStack s'
        = m_vmStack s
          ++ [VMStackInfo.mk (Value.type v) pos (m_functionStackSizeSoFar s) SIZE_MAX]
     /\ ModuleFunction.m_byteCode (m_currentFunction s')
        = ModuleFunction.m_byteCode (m_currentFunction s)
     /\ pool s' = pool s)
  /\ (forall pos', (v, pos') ∈ pool s -> pos' = pos)
  /\ (forall v1 v2 p, (v1, p) ∈ pool s -> (v2, p) ∈ pool s -> v1 = v2).
Proof.
  intros Hrun Hinit HinP He Hin.
  assert (poolOk s) as (Hnd & Hsz & Hk & Hpos).
  { eapply run_poolOk; [exact Hrun|apply new_poolOk]. }
  specialize (Hpos HinP).
  split; [|split].
  - pose proof (findConstant_elem_of v pos (pool s) Hnd Hin) as Hfind.
    destruct (processConstValue_retained v pos s Hinit HinP Hfind)
      as (s' & Hp & Hrest).
    exists s'. split; [|exact Hrest].
    destruct e; simpl in He; inversion He; subst v; simpl.
    all: unfold OnI32ConstExpr, OnI64ConstExpr, OnF32ConstExpr, OnF64ConstExpr,
           OnV128ConstExpr, bind; by rewrite Hp.
  - intros pos' Hin'.
    pose proof (NoDup_map_inj fst (pool s) (v, pos') (v, pos) Hnd Hin' Hin eq_refl)
      as Heq.
    by inversion Heq.
  - intros v1 v2 p H1 H2.
    pose proof (NoDup_map_inj snd (pool s) (v1, p) (v2, p) Hpos H1 H2 eq_refl)
      as Heq.
    by inversion Heq.
Qed.

End Dedup.

(** The theorem at work: the [i32.const 1] of scenario S1 in the emission
    pass. *)
Lemma retained_constant_pushes_its_slot_witness :
  exists s,
    @Decoder.run Sample.layout Sample.sort Inputs.S1_until_const
      (@new Sample.layout Inputs.S1_data Inputs.emptyResult) = Some (tt, s)
    /\ ((exists s',
           @Decoder.handle Sample.layout Sample.sort (Decoder.I32Const 1) s
           = Some (tt, s')
           /\ m_vmStack s'
              = m_vmStack s
                ++ [VMStackInfo.mk Value.I32 4 (m_functionStackSizeSoFar s) SIZE_MAX]
           /\ ModuleFunction.m_byteCode (m_currentFunction s')
              = ModuleFunction.m_byteCode (m_currentFunction s)
           /\ pool s' = pool s)
        /\ (forall pos', (Value.mk Value.I32 1, pos') ∈ pool s -> pos' = 4)
        /\ (forall v1 v2 p, (v1, p) ∈ pool s -> (v2, p) ∈ pool s -> v1 = v2)).
Proof.
  evar (s0 : t). exists s0.
  split; [unfold s0; vm_compute; reflexivity|].
  apply (@retained_constant_pushes_its_slot Sample.layout Sample.sort
           Inputs.S1_until_const Inputs.S1_data Inputs.emptyResult s0
           (Decoder.I32Const 1) (Value.mk Value.I32 1) 4).
  - vm_compute. reflexivity.
  - reflexivity.
  - reflexivity.
  - reflexivity.
  - vm_compute. constructor.
Defined.

End ConstantPool.

(** ** Scenario S1 *)

Module Scenario.

Import WASMBinaryReader.

(** C7, as the code has it. The function [(i32) -> i32] with the body
    [local.get 0; i32.const 1; i32.add] is translated to three records:
    the constant prelude [const32(dst=4, value=1)], the addition
    [i32.add(src0=0, src1=4, dst=8)] and the [end] of the function, which
    returns offset 8; the required stack size is 16 bytes. The [local.get]
    emits nothing: behind it the buffer still holds the prelude only, and
    the shadow stack refers to the parameter at offset 0. *)
Theorem S1_emits_prelude_add_end :
  Inputs.outcome <$>
    exec (@Decoder.compileFunction Sample.layout Sample.sort
            Inputs.S1 [] 1 7 Inputs.S1_body)
         (@new Sample.layout Inputs.S1_data Inputs.emptyResult)
  = Some ([ByteCode.Const32 4 1;
           ByteCode.BinaryOperation WASMOpcode.I32Add 0 4 8;
           ByteCode.End_ [8]], 16, Some 0)
  /\ (fun s => (ModuleFunction.m_byteCode (m_currentFunction s),
                VMStackInfo.position <$> m_vmStack s)) <$>
       exec (@Decoder.walkPrefix Sample.layout Sample.sort 1
               Inputs.S1 [] 1 7 Inputs.S1_body)
            (@new Sample.layout Inputs.S1_data Inputs.emptyResult)
     = Some ([ByteCode.Const32 4 1], [0]).
Proof. split; vm_compute; reflexivity. Qed.

(** C7, as the spec words it, is not what the code does: the translation
    of S1 is not the two records [const32(dst=4, value=1)] and
    [i32.add(src0=0, src1=4, dst=0)] with a required stack size of 8. *)
Lemma S1_is_not_two_records :
  Inputs.outcome <$>
    exec (@Decoder.compileFunction Sample.layout Sample.sort
            Inputs.S1 [] 1 7 Inputs.S1_body)
         (@new Sample.layout Inputs.S1_data Inputs.emptyResult)
  <> Some ([ByteCode.Const32 4 1;
            ByteCode.BinaryOperation WASMOpcode.I32Add 0 4 0], 8, Some 0).
Proof. vm_compute. intros H. discriminate H. Qed.

End Scenario.

(** ** The fixups of a block *)

Module Fixups.

Import WASMBinaryReader MonadFacts HandlerFacts Patch.

#[local] Open Scope M_scope.

Section Buffer.

Context {L : Layout}.

(** A write through [peekByteCode<T>(pos)] that keeps the size of the
    record: what a later read of a record finds. *)
Lemma peekAt_updateAt f buf pos buf' q :
  (forall c c', f c = Some c' -> getSize c' = getSize c) ->
  updateAt f buf pos = Some buf' ->
  peekAt buf' q = if q =? pos then peekAt buf pos ≫= f else peekAt buf q.
Proof.
  intros Hf. revert pos q buf'.
  induction buf as [|c r IH]; intros pos q buf' H; simpl in H; [discriminate|].
  destruct (pos =? 0) eqn:Ep.
  - apply Z.eqb_eq in Ep. subst pos.
    destruct (f c) as [c'|] eqn:Efc; simpl in H; [|discriminate].
    inversion H; subst buf'. simpl. rewrite (Hf _ _ Efc).
    destruct (q =? 0) eqn:Eq; [by rewrite Efc|done].
  - destruct (pos <? getSize c) eqn:Es; [discriminate|].
    destruct (updateAt f r (pos - getSize c)) as [r'|] eqn:Er; simpl in H;
      [|discriminate].
    inversion H; subst buf'. simpl. rewrite Ep, Es.
    destruct (q =? 0) eqn:Eq.
    + assert ((q =? pos) = false) as -> by lia. done.
    + destruct (q <? getSize c) eqn:Eqs.
      * assert ((q =? pos) = false) as -> by lia. done.
      * rewrite (IH _ (q - getSize c) _ Er).
        replace (q - getSize c =? pos - getSize c) with (q =? pos) by lia. done.
Qed.

Lemma byteSize_updateAt f buf pos buf' :
  (forall c c', f c = Some c' -> getSize c' = getSize c) ->
  updateAt f buf pos = Some buf' -> byteSize buf' = byteSize buf.
Proof.
  intros Hf. revert pos buf'.
  induction buf as [|c r IH]; intros pos buf' H; simpl in H; [discriminate|].
  destruct (pos =? 0).
  - destruct (f c) as [c'|] eqn:Efc; simpl in H; [|discriminate].
    inversion H; subst. simpl. by rewrite (Hf _ _ Efc).
  - destruct (pos <? getSize c); [discriminate|].
    destruct (updateAt f r (pos - getSize c)) as [r'|] eqn:Er; simpl in H;
      [|discriminate].
    inversion H; subst. simpl. by rewrite (IH _ _ Er).
Qed.

(** The same write, seen by a read inside a record, when the write does
    not change what [g] reads. *)
Lemma peekInside_updateAt {A} (g : Z -> ByteCode.t -> option A) f buf pos buf' q :
  (forall c c', f c = Some c' -> getSize c' = getSize c) ->
  (forall c c' off, f c = Some c' -> g off c' = g off c) ->
  updateAt f buf pos = Some buf' ->
  peekInside g buf' q = peekInside g buf q.
Proof.
  intros Hf Hg. revert pos q buf'.
  induction buf as [|c r IH]; intros pos q buf' H; simpl in H; [discriminate|].
  destruct (pos =? 0).
  - destruct (f c) as [c'|] eqn:Efc; simpl in H; [|discriminate].
    inversion H; subst. simpl. rewrite (Hf _ _ Efc).
    destruct ((0 <=? q) && (q <? getSize c)); [by apply Hg|done].
  - destruct (pos <? getSize c); [discriminate|].
    destruct (updateAt f r (pos - getSize c)) as [r'|] eqn:Er; simpl in H;
      [|discriminate].
    inversion H; subst. simpl.
    destruct ((0 <=? q) && (q <? getSize c)); [done|]. by eapply IH.
Qed.

(** A write inside a record that keeps its size: the length of the
    buffer and what a read of a record finds. *)
Lemma byteSize_updateInside f buf pos buf' :
  (forall off c c', f off c = Some c' -> getSize c' = getSize c) ->
  updateInside f buf pos = Some buf' -> byteSize buf' = byteSize buf.
Proof.
  intros Hf. revert pos buf'.
  induction buf as [|c r IH]; intros pos buf' H; simpl in H; [discriminate|].
  destruct ((0 <=? pos) && (pos <? getSize c)).
  - destruct (f pos c) as [c'|] eqn:Efc; simpl in H; [|discriminate].
    inversion H; subst. simpl. by rewrite (Hf _ _ _ Efc).
  - destruct (updateInside f r (pos - getSize c)) as [r'|] eqn:Er; simpl in H;
      [|discriminate].
    inversion H; subst. simpl. by rewrite (IH _ _ Er).
Qed.

Lemma peekAt_updateInside {A} (h : ByteCode.t -> option A) f buf pos buf' q :
  (forall off c c', f off c = Some c' -> getSize c' = getSize c) ->
  (forall off c c', f off c = Some c' -> h c' = h c) ->
  updateInside f buf pos = Some buf' ->
  peekAt buf' q ≫= h = peekAt buf q ≫= h.
Proof.
  intros Hf Hh. revert pos q buf'.
  induction buf as [|c r IH]; intros pos q buf' H; simpl in H; [discriminate|].
  destruct ((0 <=? pos) && (pos <? getSize c)).
  - destruct (f pos c) as [c'|] eqn:Efc; simpl in H; [|discriminate].
    inversion H; subst. simpl. rewrite (Hf _ _ _ Efc).
    destruct (q =? 0); [simpl; by eapply Hh|done].
  - destruct (updateInside f r (pos - getSize c)) as [r'|] eqn:Er; simpl in H;
      [|discriminate].
    inversion H; subst. simpl.
    destruct (q =? 0); [done|]. destruct (q <? getSize c); [done|]. by eapply IH.
Qed.

(** The same write, seen by a read inside a record. *)
Lemma peekInside_updateInside {A} (g : Z -> ByteCode.t -> option A) f buf pos buf' q :
  (forall off c c', f off c = Some c' -> getSize c' = getSize c) ->
  updateInside f buf pos = Some buf' ->
  q <> pos ->
  (forall off off' c c', f off c = Some c' -> off' <> off -> g off' c' = g off' c) ->
  peekInside g buf' q = peekInside g buf q.
Proof.
  intros Hf H Hq Hg. revert pos q buf' H Hq.
  induction buf as [|c r IH]; intros pos q buf' H Hq; simpl in H; [discriminate|].
  destruct ((0 <=? pos) && (pos <? getSize c)) eqn:Ep.
  - destruct (f pos c) as [c'|] eqn:Efc; simpl in H; [|discriminate].
    inversion H; subst. simpl. rewrite (Hf _ _ _ Efc).
    destruct ((0 <=? q) && (q <? getSize c)); [by eapply Hg|done].
  - destruct (updateInside f r (pos - getSize c)) as [r'|] eqn:Er; simpl in H;
      [|discriminate].
    inversion H; subst. simpl.
    destruct ((0 <=? q) && (q <? getSize c)); [done|].
    eapply IH; [exact Er|lia].
Qed.

Lemma peekInside_updateInside_same {A} (g : Z -> ByteCode.t -> option A)
    f buf pos buf' :
  (forall off c c', f off c = Some c' -> getSize c' = getSize c) ->
  updateInside f buf pos = Some buf' ->
  exists off c c',
    f off c = Some c' /\ peekInside g buf pos = g off c
    /\ peekInside g buf' pos = g off c'.
Proof.
  intros Hf. revert pos buf'.
  induction buf as [|c r IH]; intros pos buf' H; simpl in H; [discriminate|].
  destruct ((0 <=? pos) && (pos <? getSize c)) eqn:Ep.
  - destruct (f pos c) as [c'|] eqn:Efc; simpl in H; [|discriminate].
    inversion H; subst. exists pos, c, c'. simpl.
    rewrite (Hf _ _ _ Efc), Ep. done.
  - destruct (updateInside f r (pos - getSize c)) as [r'|] eqn:Er; simpl in H;
      [|discriminate].
    inversion H; subst. simpl. rewrite Ep. by eapply IH.
Qed.

(** The records a patch rewrites keep their size. *)
Lemma getSize_setJumpOffset v c c' : setJumpOffset v c = Some c' -> getSize c' = getSize c.
Proof. destruct c; simpl; intros H; inversion H; done. Qed.

Lemma getSize_setJumpIfOffset v c c' :
  setJumpIfOffset v c = Some c' -> getSize c' = getSize c.
Proof. destruct c; simpl; intros H; inversion H; done. Qed.

Lemma setBrTableEntry_Some g off c c' :
  setBrTableEntry g off c = Some c' ->
  getSize c' = getSize c
  /\ jumpOffset c' = jumpOffset c
  /\ jumpIfOffset c' = jumpIfOffset c
  /\ (exists old, brTableEntry off c = Some old
                  /\ brTableEntry off c' = Some (i32 (g old)))
  /\ (forall off', off' <> off -> brTableEntry off' c' = brTableEntry off' c).
Proof.
  destruct c; simpl; try discriminate.
  rename tableSize into n, jumpOffsets into js.
  destruct (off =? offsetOfDefault) eqn:Eo.
  - intros H. inversion H; subst c'. simpl. rewrite Eo.
    repeat split; try done; [by eexists|].
    intros off' Hne. assert ((off' =? offsetOfDefault) = false) as -> by lia. done.
  - set (k := off - sizeof ByteCode.BrTableOpcode).
    destruct ((0 <=? k) && (k mod 4 =? 0) && (k / 4 <? n)) eqn:Ek; [|discriminate].
    destruct (js !! Z.to_nat (k / 4)) as [old|] eqn:Eold; simpl; [|discriminate].
    intros H. inversion H; subst c'. simpl. rewrite Eo. fold k. rewrite Ek.
    split; [unfold getSize; simpl; by rewrite length_insert|].
    split; [done|]. split; [done|]. split.
    + exists old. split; [done|]. apply list_lookup_insert_eq.
      by eapply lookup_lt_Some.
    + intros off' Hne. destruct (off' =? offsetOfDefault); [done|].
      set (k' := off' - sizeof ByteCode.BrTableOpcode).
      destruct ((0 <=? k') && (k' mod 4 =? 0) && (k' / 4 <? n)) eqn:Ek'; [|done].
      apply list_lookup_insert_ne.
      assert (k <> k') by (unfold k, k'; lia).
      assert (k mod 4 = 0 /\ k' mod 4 = 0 /\ 0 <= k /\ 0 <= k') as (? & ? & ? & ?) by lia.
      pose proof (Z.div_mod k 4 ltac:(lia)). pose proof (Z.div_mod k' 4 ltac:(lia)).
      pose proof (Z.div_pos k 4 ltac:(lia) ltac:(lia)).
      pose proof (Z.div_pos k' 4 ltac:(lia) ltac:(lia)). lia.
Qed.

Lemma i32_usize a b c : i32 (usize (a + usize b - c)) = i32 (a + b - c).
Proof.
  unfold i32, usize. f_equal.
  pose proof (Z.div_mod b (2 ^ 64) ltac:(lia)) as Hb.
  pose proof (Z.div_mod (a + b mod 2 ^ 64 - c) (2 ^ 64) ltac:(lia)) as Hx.
  replace ((a + b mod 2 ^ 64 - c) mod 2 ^ 64 + 2 ^ 31)
    with (a + b - c + 2 ^ 31
          + (- (2 ^ 32 * (b / 2 ^ 64))
             - 2 ^ 32 * ((a + b mod 2 ^ 64 - c) / 2 ^ 64)) * 2 ^ 32) by lia.
  apply Z_mod_plus_full.
Qed.

Lemma updateAt_Some f buf pos buf' :
  updateAt f buf pos = Some buf' ->
  exists c c', peekAt buf pos = Some c /\ f c = Some c'.
Proof.
  revert pos buf'.
  induction buf as [|c r IH]; intros pos buf' H; simpl in *; [discriminate|].
  destruct (pos =? 0).
  - destruct (f c) as [c'|] eqn:Efc; [|discriminate]. by exists c, c'.
  - destruct (pos <? getSize c); [discriminate|].
    destruct (updateAt f r (pos - getSize c)) as [r'|] eqn:Er; [|discriminate].
    by eapply IH.
Qed.

(** A write of a jump offset at [site]: what the sites of a buffer hold
    afterwards. *)
Lemma offsetAt_updateAt f h ty0 buf site buf' v :
  (forall c c', f c = Some c' -> getSize c' = getSize c) ->
  (forall c c', f c = Some c' ->
     exists old, h c = Some old /\ h c' = Some v
                 /\ forall off, brTableEntry off c' = brTableEntry off c) ->
  (forall b q, offsetAt ty0 b q = peekAt b q ≫= h) ->
  updateAt f buf site = Some buf' ->
  byteSize buf' = byteSize buf
  /\ (exists old, offsetAt ty0 buf site = Some old /\ offsetAt ty0 buf' site = Some v)
  /\ (forall ty q, q <> site -> offsetAt ty buf' q = offsetAt ty buf q).
Proof.
  intros Hsz Hf Hty Hu.
  pose proof (peekAt_updateAt _ _ _ _ site Hsz Hu) as Hp.
  rewrite Z.eqb_refl in Hp.
  destruct (updateAt_Some _ _ _ _ Hu) as (c & c' & Hc & Hfc).
  destruct (Hf _ _ Hfc) as (old & Hold & Hnew & Hbr).
  split; [by eapply byteSize_updateAt|]. split.
  - exists old. rewrite !Hty, Hp, Hc. simpl. by rewrite Hfc.
  - intros ty q Hq.
    pose proof (peekAt_updateAt _ _ _ _ q Hsz Hu) as Hpq.
    assert ((q =? site) = false) as E by lia. rewrite E in Hpq.
    destruct ty; simpl; rewrite ?Hpq; try done.
    eapply peekInside_updateAt; [exact Hsz| |exact Hu].
    intros c0 c0' off Hc0. destruct (Hf _ _ Hc0) as (_ & _ & _ & Hb). apply Hb.
Qed.

(** One round of the patch loop. *)
Lemma patchJumpToEnd_Some j s s' :
  patchJumpToEnd j s = Some (tt, s') ->
  currentByteCodeSize s' = currentByteCodeSize s
  /\ fixupPatched (bufOf s) (bufOf s') (currentByteCodeSize s) j
  /\ (forall ty q, q <> JumpToEndBrInfo.m_position j ->
        offsetAt ty (bufOf s') q = offsetAt ty (bufOf s) q).
Proof.
  unfold patchJumpToEnd, fixupPatched, currentByteCodeSize, bufOf.
  destruct j as [ty site]. simpl. intros H. inv_run.
  destruct ty; unfold setOffsetAt in H; inv_run; cbn.
  - match goal with H : updateAt _ _ _ = Some _ |- _ => rename H into Hu end.
    eapply (offsetAt_updateAt _ jumpOffset JumpToEndBrInfo.IsJump) in Hu;
      [exact Hu| | |done].
    + apply getSize_setJumpOffset.
    + intros c c' Hc. destruct c; simpl in Hc; inversion Hc. by eexists.
  - match goal with H : updateAt _ _ _ = Some _ |- _ => rename H into Hu end.
    eapply (offsetAt_updateAt _ jumpIfOffset JumpToEndBrInfo.IsJumpIf) in Hu;
      [exact Hu| | |done].
    + apply getSize_setJumpIfOffset.
    + intros c c' Hc. destruct c; simpl in Hc; inversion Hc; by eexists.
  - match goal with H : updateInside _ _ _ = Some _ |- _ => rename H into Hu end.
    assert (forall off c c',
              setBrTableEntry
                (fun old => usize (byteSize (ModuleFunction.m_byteCode
                                               (m_currentFunction s))
                                   + usize old - site)) off c = Some c' ->
              getSize c' = getSize c) as Hsz.
    { intros off c c' Hc. by apply setBrTableEntry_Some in Hc as (? & _). }
    split; [by eapply byteSize_updateInside|]. split.
    + destruct (peekInside_updateInside_same brTableEntry _ _ _ _ Hsz Hu)
        as (off & c & c' & Hc & Hold & Hnew).
      apply setBrTableEntry_Some in Hc as (_ & _ & _ & (old & Ho & Hn) & _).
      exists old. simpl. rewrite Hold, Hnew, Ho, Hn. by rewrite i32_usize.
    + intros ty q Hq. destruct ty; simpl.
      * eapply peekAt_updateInside; [exact Hsz| |exact Hu].
        intros off c c' Hc. by apply setBrTableEntry_Some in Hc as (_ & ? & _).
      * eapply peekAt_updateInside; [exact Hsz| |exact Hu].
        intros off c c' Hc. by apply setBrTableEntry_Some in Hc as (_ & _ & ? & _).
      * eapply peekInside_updateInside; [exact Hsz|exact Hu|exact Hq|].
        intros off off' c c' Hc Hne.
        apply setBrTableEntry_Some in Hc as (_ & _ & _ & _ & Hc). by apply Hc.
Qed.

(** The patch loop: every site is written once, and the writes do not
    disturb each other. *)
Lemma patch_loop fixups s s' :
  NoDup (map JumpToEndBrInfo.m_position fixups) ->
  forM_ fixups patchJumpToEnd s = Some (tt, s') ->
  currentByteCodeSize s' = currentByteCodeSize s
  /\ Forall (fixupPatched (bufOf s) (bufOf s') (currentByteCodeSize s)) fixups
  /\ (forall ty q, q ∉ map JumpToEndBrInfo.m_position fixups ->
        offsetAt ty (bufOf s') q = offsetAt ty (bufOf s) q).
Proof.
  revert s. induction fixups as [|j rest IH]; intros s Hnd H; simpl in H.
  - inv_run. by repeat split.
  - simpl in Hnd. apply NoDup_cons in Hnd as [Hj Hnd]. inv_run.
    match goal with H : patchJumpToEnd _ _ = Some _ |- _ =>
      apply patchJumpToEnd_Some in H as (Hsz1 & (old & Hold & Hnew) & Hoth1) end.
    destruct (IH _ Hnd H) as (Hsz & Hall & Hoth).
    split; [congruence|]. split.
    + constructor.
      * exists old. split; [exact Hold|]. by rewrite (Hoth _ _ Hj).
      * rewrite Hsz1 in Hall. apply Forall_forall. intros j' Hj'.
        rewrite Forall_forall in Hall.
        destruct (Hall j' Hj') as (old' & Hold' & Hnew').
        exists old'. split; [|exact Hnew'].
        rewrite <- Hold'. symmetry. apply Hoth1.
        intros Heq. apply Hj. rewrite <- Heq.
        by apply (list_elem_of_fmap_2 JumpToEndBrInfo.m_position).
    + intros ty q Hq. simpl in Hq. apply not_elem_of_cons in Hq as [Hq1 Hq2].
      rewrite (Hoth _ _ Hq2). by apply Hoth1.
Qed.

End Buffer.

Section Block.

Context {L : Layout} {Srt : StdSort}.

Lemma pushByteCode_extends buf0 c : Preserves (extends buf0) (pushByteCode c).
Proof.
  unfold pushByteCode. apply pres_bind; [pres|]. intros _.
  unfold modifyFunction. apply pres_modify. intros s [extra H].
  exists (extra ++ [c]). unfold bufOf in *. cbn. rewrite H. by rewrite app_assoc.
Qed.

Lemma popVMStackInfo_extends buf0 : Preserves (extends buf0) popVMStackInfo.
Proof. pres. Qed.

#[local] Hint Resolve pushByteCode_extends popVMStackInfo_extends : pres.

Lemma harvestCatchInfo_extends buf0 depth snapshot catches :
  Preserves (extends buf0) (harvestCatchInfo depth snapshot catches).
Proof. apply harvestCatchInfo_pres; intros; pres. Qed.

#[local] Hint Resolve harvestCatchInfo_extends : pres.

Lemma modifyBlockInfo_blockCount n i f : Preserves (blockCount n) (modifyBlockInfo i f).
Proof.
  intros s [] s' H Hn. unfold modifyBlockInfo in H. inv_run.
  case_decide; inv_run. unfold blockCount in *. cbn. by rewrite length_alter.
Qed.

Lemma pushByteCode_blockCount n c : Preserves (blockCount n) (pushByteCode c).
Proof. pres. Qed.

Lemma popVMStackInfo_blockCount n : Preserves (blockCount n) popVMStackInfo.
Proof. pres. Qed.

#[local] Hint Resolve modifyBlockInfo_blockCount pushByteCode_blockCount
  popVMStackInfo_blockCount : pres.

Lemma harvestCatchInfo_blockCount n depth snapshot catches :
  Preserves (blockCount n) (harvestCatchInfo depth snapshot catches).
Proof. apply harvestCatchInfo_pres; intros; pres. Qed.

#[local] Hint Resolve harvestCatchInfo_blockCount : pres.

(** The rounds of the patch loop leave the block stack alone. *)
Lemma patchJumpToEnd_blockCount n j : Preserves (blockCount n) (patchJumpToEnd j).
Proof. pres. Qed.

(** [OnEndExpr] behind the pop of the block: up to the patch loop the
    buffer only grows and the block stack keeps its height. *)
Lemma OnEndExpr_tail blockInfo dropSize buf0 n s s' :
  (if BlockInfo.m_byteCodeGenerationStopped blockInfo
      && (size (BlockInfo.m_jumpToEndBrInfo blockInfo) =? 0)
   then stopToGenerateByteCodeWhileBlockEnd
   else
     keepBlockResultsIfNeeds2 blockInfo dropSize ;;
     when (BlockInfo.m_shouldRestoreVMStackAtEnd blockInfo) (
       restoreVMStackBy blockInfo ;;
       if Type_.IsIndex (BlockInfo.m_returnValueType blockInfo) then
         ft <- functionTypeOf (BlockInfo.m_returnValueType blockInfo) ;;
         repeatM (length (FunctionType.param ft)) (popVMStack ;; ret tt) ;;
         forM_ (FunctionType.result ft) (fun ty => pushVMStack1 ty ;; ret tt)
       else if negb (Type_.isVoid (BlockInfo.m_returnValueType blockInfo)) then
         ty <- lift (toValueKind (BlockInfo.m_returnValueType blockInfo)) ;;
         pushVMStack1 ty ;; ret tt
       else ret tt) ;;
     forM_ (BlockInfo.m_jumpToEndBrInfo blockInfo) patchJumpToEnd) s
  = Some (tt, s') ->
  extends buf0 s -> blockCount n s ->
  blockCount n s'
  /\ exists s1,
       extends buf0 s1
       /\ (BlockInfo.m_jumpToEndBrInfo blockInfo = [] /\ bufOf s' = bufOf s1
           \/ forM_ (BlockInfo.m_jumpToEndBrInfo blockInfo) patchJumpToEnd s1
              = Some (tt, s')).
Proof.
  intros H Hext Hcnt.
  destruct (BlockInfo.m_byteCodeGenerationStopped blockInfo
            && (size (BlockInfo.m_jumpToEndBrInfo blockInfo) =? 0)) eqn:E.
  - apply andb_prop in E as [_ E].
    assert (BlockInfo.m_jumpToEndBrInfo blockInfo = []) as Hnil.
    { destruct (BlockInfo.m_jumpToEndBrInfo blockInfo); [done|].
      unfold size in E. simpl in E. lia. }
    split.
    + assert (Preserves (blockCount n) stopToGenerateByteCodeWhileBlockEnd) as Hp
        by pres.
      exact (Hp _ _ _ H Hcnt).
    + exists s'. split; [|by left].
      assert (Preserves (extends buf0) stopToGenerateByteCodeWhileBlockEnd) as Hp
        by pres.
      exact (Hp _ _ _ H Hext).
  - apply bind_Some in H as ([] & s1 & H1 & H).
    apply bind_Some in H as ([] & s2 & H2 & H).
    assert (Preserves (extends buf0) (keepBlockResultsIfNeeds2 blockInfo dropSize))
      as Hk by pres.
    assert (Preserves (blockCount n) (keepBlockResultsIfNeeds2 blockInfo dropSize))
      as Hk' by pres.
    pose proof (Hk _ _ _ H1 Hext) as Hext1.
    pose proof (Hk' _ _ _ H1 Hcnt) as Hcnt1.
    match type of H2 with ?m _ = _ =>
      assert (Preserves (extends buf0) m) as Hr by pres;
      assert (Preserves (blockCount n) m) as Hr' by pres
    end.
    pose proof (Hr _ _ _ H2 Hext1) as Hext2.
    pose proof (Hr' _ _ _ H2 Hcnt1) as Hcnt2.
    split.
    + assert (Preserves (blockCount n)
                (forM_ (BlockInfo.m_jumpToEndBrInfo blockInfo) patchJumpToEnd)) as Hl.
      { apply pres_forM. intros j. apply patchJumpToEnd_blockCount. }
      exact (Hl _ _ _ H Hcnt2).
    + exists s2. split; [exact Hext2|by right].
Qed.

(** [OnEndExpr] on an open block: the block is popped, the buffer only
    grows up to the patch loop, and the patch loop runs over the fixups
    of the popped block (or the block had none). *)
Lemma OnEndExpr_patches s s' blockInfo :
  last (m_blockInfo s) = Some blockInfo ->
  OnEndExpr s = Some (tt, s') ->
  length (m_blockInfo s') = (length (m_blockInfo s) - 1)%nat
  /\ exists s1,
       extends (bufOf s) s1
       /\ (BlockInfo.m_jumpToEndBrInfo blockInfo = [] /\ bufOf s' = bufOf s1
           \/ forM_ (BlockInfo.m_jumpToEndBrInfo blockInfo) patchJumpToEnd s1
              = Some (tt, s')).
Proof.
  intros Hlast H. unfold OnEndExpr in H.
  apply bind_Some in H as ([] & s0 & H0 & H). apply modify_Some in H0. subst s0.
  apply bind_Some in H as (blocks & s0 & H0 & H). apply gets_Some in H0 as [-> ->].
  cbn [m_blockInfo set_m_lastI32EqzPos] in H. rewrite Hlast in H.
  apply bind_Some in H as (dropSize & s1 & H1 & H).
  apply bind_Some in H as ([] & s2 & H2 & H). apply modify_Some in H2. subst s2.
  apply bind_Some in H as ([] & s3 & H3 & H).
  set (sa := set_m_lastI32EqzPos s_noI32Eqz s) in *.
  set (n := (length (m_blockInfo s) - 1)%nat).
  assert (extends (bufOf s) sa) as Hext0 by (exists []; by rewrite app_nil_r).
  assert (extends (bufOf s) s1) as Hext1.
  { assert (Preserves (extends (bufOf s)) (dropStackValuesBeforeBrIfNeeds 0)) as Hp
      by pres.
    exact (Hp _ _ _ H1 Hext0). }
  match type of H3 with _ ?s2 = _ =>
    assert (extends (bufOf s) s2) as Hext2 by exact Hext1;
    assert (blockCount n s2) as Hcnt2
  end.
  { unfold blockCount, n. cbn. rewrite removelast_firstn_len, length_take. lia. }
  match type of H3 with ?m _ = _ =>
    assert (Preserves (extends (bufOf s)) m) as Hp by pres;
    assert (Preserves (blockCount n) m) as Hp' by pres
  end.
  pose proof (Hp _ _ _ H3 Hext2) as Hext3.
  pose proof (Hp' _ _ _ H3 Hcnt2) as Hcnt3.
  destruct (OnEndExpr_tail _ _ _ _ _ _ H Hext3 Hcnt3) as (Hcnt & s4 & Hext4 & Hcase).
  split; [exact Hcnt|]. by exists s4.
Qed.

End Block.

(** C4, as the spec words it, does not hold for the entries of a
    [br_table]: in that function the [br_table] record starts at byte 0,
    its default entry is the fixup at byte 12, and the buffer ends at byte
    16 when the block ends. The entry is patched to 16, the distance from
    the start of the record, and not to 16 - 12 = 4. *)
Lemma br_table_entry_counts_from_its_record :
  exists s s',
    @Decoder.run Sample.layout Sample.sort Inputs.brTableInBlock_until_end
      (@new Sample.layout Inputs.brTableInBlock_data Inputs.emptyResult)
    = Some (tt, s)
    /\ @OnEndExpr Sample.layout s = Some (tt, s')
    /\ BlockInfo.m_jumpToEndBrInfo <$> last (m_blockInfo s)
       = Some [JumpToEndBrInfo.mk JumpToEndBrInfo.IsBrTable 12]
    /\ @currentByteCodeSize Sample.layout s' = 16
    /\ @offsetAt Sample.layout JumpToEndBrInfo.IsBrTable (bufOf s') 12 = Some 16
    /\ ~ @fixupPatched_spec Sample.layout (bufOf s')
           (@currentByteCodeSize Sample.layout s')
           (JumpToEndBrInfo.mk JumpToEndBrInfo.IsBrTable 12).
Proof.
  eexists. eexists.
  split; [vm_compute; reflexivity|].
  split; [vm_compute; reflexivity|].
  split; [reflexivity|]. split; [reflexivity|]. split; [reflexivity|].
  vm_compute. intros H. discriminate H.
Qed.

End Fixups.

(** ** The slot allocator *)

Module Slots.

Import Allocator.

(** The bytes [allocateLocal] takes for a kind when it makes new
    elements. *)
Lemma allocateLocal_fresh h r off :
  type r <> Value.Void ->
  exists h' r' off',
    call allocateLocal h r off nullptr nullptr nullptr = Some (h', r', off')
    /\ rangePos r' = off
    /\ assignedPosition r' = slot (length (slots h))
    /\ (length (slots h) < length (slots h'))%nat.
Proof.
  intros Hty. destruct r as [op ni ty st en rp ap]. simpl in Hty.
  destruct h as [sl un].
  assert (forall e (l : list stackElement), (sl ++ e :: l) !! length sl = Some e)
    as Hlook by (intros; apply list_lookup_middle; done).
  assert (isNull nullptr = true) as Hnull by reflexivity.
  unfold call, allocateLocal, abind, aget.
  destruct ty; try done; cbn; rewrite ?Hnull; cbn.
  all: unfold newElement, assign, getPos, load, setRange, abind, aget, amod, aret; cbn.
  all: rewrite <- ?app_assoc; cbn; rewrite ?Hlook; cbn.
  all: do 3 eexists; (split; [reflexivity|]); cbn; rewrite ?length_app; simpl.
  all: repeat split; lia.
Qed.

(** C3. The two i32 locals of [Inputs.twoLocals] have live ranges that do
    not overlap: local 0 lives in bytes 0 to 16 of the emitted records,
    local 1 in bytes 32 to 48. The allocation loop passes its three list
    heads, which stay [nullptr], by value; so [deallocateLocal] cannot hand
    the slot of local 0 back, and [allocateLocal] makes a new element for
    local 1. The locals end at the offsets 0 and 4, not at a shared one,
    and the frame takes 8 bytes. *)
Theorem disjoint_locals_get_separate_slots :
  Patch.bufOf <$>
    WASMBinaryReader.exec
      (@Decoder.walkFunction Sample.layout Sample.sort Inputs.twoLocals
         Inputs.twoLocals_decls 3 20 Inputs.twoLocals_body)
      (@WASMBinaryReader.new Sample.layout Inputs.twoLocals_data
         Inputs.twoLocals_result)
  = Some Inputs.twoLocals_buf
  /\ map (fun kr => (type (snd kr), start (snd kr), end_ (snd kr)))
       Inputs.twoLocals_ranges
     = [(Value.I32, 0, 16); (Value.I32, 32, 48)]
  /\ (fun st => (map (fun kr => rangePos (snd kr)) (variableRange st),
                 loopOffset st)) <$>
       @assignSlots Sample.layout [] 0 Inputs.twoLocals_ranges Inputs.twoLocals_buf
     = Some ([0; 4], 8).
Proof. repeat split; vm_compute; reflexivity. Qed.

End Slots.

(** ** The layout of parameters and declared locals *)

Module Locals.

Import WASMBinaryReader MonadFacts HandlerFacts LocalsLayout.

#[local] Open Scope M_scope.

Section Layout.

Context {L : Layout}.

Lemma width_app a b : width (a ++ b) = width a + width b.
Proof. unfold width. induction a; simpl; lia. Qed.

Lemma width_nonneg a : 0 <= width a.
Proof. unfold width. induction a as [|ty a IH]; simpl; [lia|]. destruct ty; simpl; lia. Qed.

Lemma width_snoc a ty : width (a ++ [ty]) = width a + valueStackAllocatedSize ty.
Proof. rewrite width_app. unfold width at 2. simpl. lia. Qed.

Lemma paramLocalInfo_app pos a b :
  paramLocalInfo pos (a ++ b) = paramLocalInfo pos a ++ paramLocalInfo (pos + width a) b.
Proof.
  revert pos. induction a as [|ty a IH]; intros pos; simpl.
  - f_equal. unfold width. simpl. lia.
  - rewrite IH. do 3 f_equal. unfold width. simpl. lia.
Qed.

Lemma declareOne_laidOut tys declared ty n s :
  laidOut tys declared s ->
  width tys + Z.of_nat n * valueStackAllocatedSize ty < 2 ^ 16 ->
  exists s',
    repeatM n (
        wType <- lift (Some ty) ;;
        modifyFunction (fun f =>
          ModuleFunction.set_m_local (ModuleFunction.m_local f ++ [wType]) f) ;;
        modify (fun s =>
          set_m_localInfo
            (m_localInfo s ++ [LocalInfo.mk wType (m_functionStackSizeSoFar s)]) s) ;;
        let sz := valueStackAllocatedSize wType in
        modify (fun s =>
          set_m_initialFunctionStackSize (u16 (m_initialFunctionStackSize s + sz)) s) ;;
        modify (fun s =>
          set_m_functionStackSizeSoFar (u16 (m_functionStackSizeSoFar s + sz)) s)) s
    = Some (tt, s')
    /\ laidOut (tys ++ replicate n ty) (declared ++ replicate n ty) s'
    /\ ModuleFunction.m_requiredStackSize (m_currentFunction s')
       = ModuleFunction.m_requiredStackSize (m_currentFunction s).
Proof.
  revert tys declared s. induction n as [|n IH]; intros tys declared s Hl Hb.
  - exists s. simpl. rewrite !app_nil_r. done.
  - destruct Hl as (Hi & Hf & Hin & Hd).
    pose proof (width_nonneg tys) as Hw.
    assert (0 <= valueStackAllocatedSize ty) as Hty by (destruct ty; simpl; lia).
    cbn [repeatM]. unfold bind at 1. unfold bind at 1. cbn [lift].
    unfold bind at 1. unfold modifyFunction at 1. cbn [modify].
    unfold bind at 1. cbn [modify]. unfold bind at 1. cbn [modify].
    match goal with |- context [repeatM n ?b ?s1] =>
      destruct (IH (tys ++ [ty]) (declared ++ [ty]) s1) as (s' & E & Hl' & Hr) end.
    + assert (0 <= Z.of_nat n * valueStackAllocatedSize ty) by nia.
      repeat split; cbn.
      * rewrite Hi, Hf, paramLocalInfo_app. simpl. repeat (f_equal; try lia).
      * rewrite Hf, width_snoc, u16_small; lia.
      * rewrite Hin, width_snoc, u16_small; lia.
      * by rewrite Hd.
    + rewrite width_snoc. lia.
    + exists s'. split; [exact E|].
      rewrite <- !app_assoc in Hl'. simpl in Hl'. split; [exact Hl'|].
      rewrite Hr. reflexivity.
Qed.

Lemma OnLocalDecl_laidOut tys declared ty n type s :
  laidOut tys declared s ->
  (n <> 0%nat -> toValueKind type = Some ty) ->
  width tys + Z.of_nat n * valueStackAllocatedSize ty < 2 ^ 16 ->
  exists s',
    OnLocalDecl n type s = Some (tt, s')
    /\ laidOut (tys ++ replicate n ty) (declared ++ replicate n ty) s'
    /\ ModuleFunction.m_requiredStackSize (m_currentFunction s')
       = Z.max (ModuleFunction.m_requiredStackSize (m_currentFunction s))
               (width (tys ++ replicate n ty)).
Proof.
  intros Hl Hty Hb. unfold OnLocalDecl.
  destruct (declareOne_laidOut tys declared ty n s Hl Hb) as (s1 & E & Hl1 & Hr).
  assert (repeatM n
            (wType <- lift (toValueKind type) ;;
             modifyFunction (fun f =>
               ModuleFunction.set_m_local (ModuleFunction.m_local f ++ [wType]) f) ;;
             modify (fun s =>
               set_m_localInfo
                 (m_localInfo s ++ [LocalInfo.mk wType (m_functionStackSizeSoFar s)]) s) ;;
             let sz := valueStackAllocatedSize wType in
             modify (fun s =>
               set_m_initialFunctionStackSize (u16 (m_initialFunctionStackSize s + sz)) s) ;;
             modify (fun s =>
               set_m_functionStackSizeSoFar (u16 (m_functionStackSizeSoFar s + sz)) s)) s
          = Some (tt, s1)) as E'.
  { destruct n as [|n]; [exact E|]. rewrite Hty by done. exact E. }
  destruct Hl1 as (Hi & Hf & Hin & Hd).
  eexists. split.
  { apply bind_Some. eexists tt, s1. split; [exact E'|].
    unfold bumpRequiredStackSize, modify. reflexivity. }
  split; [by repeat split|]. cbn. by rewrite Hr, Hf.
Qed.

Lemma declarations_laidOut decls : forall tys0 declared tys s,
  laidOut tys0 declared s ->
  declaredKinds decls = Some tys ->
  width (tys0 ++ tys) < 2 ^ 16 ->
  exists s',
    forM_ decls (fun d => OnLocalDecl (fst d) (snd d)) s = Some (tt, s')
    /\ laidOut (tys0 ++ tys) (declared ++ tys) s'
    /\ ModuleFunction.m_requiredStackSize (m_currentFunction s)
       <= ModuleFunction.m_requiredStackSize (m_currentFunction s')
    /\ (decls <> [] ->
        width (tys0 ++ tys)
        <= ModuleFunction.m_requiredStackSize (m_currentFunction s')).
Proof.
  induction decls as [|[n type] decls IH]; intros tys0 declared tys s Hl Hk Hb.
  - inversion Hk; subst. exists s. rewrite !app_nil_r. simpl.
    split; [done|]. split; [done|]. split; [lia|done].
  - simpl in Hk. destruct (declaredKinds decls) as [rest|] eqn:Hrest; [|discriminate].
    simpl in Hk.
    assert (exists ty, (n <> 0%nat -> toValueKind type = Some ty)
                       /\ tys = replicate n ty ++ rest) as (ty & Hty & ->).
    { destruct n as [|n].
      - inversion Hk; subst. exists Value.I32. split; [done|reflexivity].
      - destruct (toValueKind type) as [ty|]; [|discriminate].
        inversion Hk; subst. exists ty. split; [done|reflexivity]. }
    assert (width (replicate n ty) = Z.of_nat n * valueStackAllocatedSize ty) as Hrep.
    { clear. induction n as [|n IHn]; [reflexivity|].
      change (replicate (S n) ty) with ([ty] ++ replicate n ty).
      rewrite width_app, IHn. unfold width. simpl. lia. }
    pose proof (width_nonneg rest) as Hr0.
    rewrite !width_app, Hrep in Hb.
    destruct (OnLocalDecl_laidOut tys0 declared ty n type s Hl Hty) as (s1 & E1 & Hl1 & Hr1);
      [lia|].
    destruct (IH (tys0 ++ replicate n ty) (declared ++ replicate n ty) rest s1 Hl1 eq_refl)
      as (s' & E & Hl' & Hr' & Hc').
    { rewrite !width_app, Hrep. lia. }
    exists s'. cbn [forM_ fst snd].
    split; [apply bind_Some; eexists tt, s1; split; [exact E1 | exact E]|]. rewrite <- !app_assoc in Hl'. split; [exact Hl'|].
    split; [lia|]. intros _.
    destruct decls as [|d decls].
    + inversion Hrest; subst. simpl in E. inversion E; subst.
      rewrite Hr1, app_nil_r. lia.
    + rewrite app_assoc. apply Hc'. done.
Qed.

Lemma beginFunction_laidOut mf inInit s :
  width (FunctionType.param (ModuleFunction.m_functionType mf)) < 2 ^ 16 ->
  exists s',
    beginFunction mf inInit s = Some (tt, s')
    /\ laidOut (FunctionType.param (ModuleFunction.m_functionType mf))
         (ModuleFunction.m_local mf) s'
    /\ width (FunctionType.param (ModuleFunction.m_functionType mf))
       <= ModuleFunction.m_requiredStackSize (m_currentFunction s').
Proof.
  intros Hb. eexists.
  split; [cbv [beginFunction bind modify bumpRequiredStackSize]; reflexivity|].
  pose proof (width_nonneg (FunctionType.param (ModuleFunction.m_functionType mf))).
  assert (u16 (FunctionType.paramStackSize (ModuleFunction.m_functionType mf))
          = width (FunctionType.param (ModuleFunction.m_functionType mf))) as E.
  { apply u16_small. unfold FunctionType.paramStackSize. fold (width (FunctionType.param (ModuleFunction.m_functionType mf))). lia. }
  cbn. rewrite E. split; [by repeat split|]. lia.
Qed.

(** The run of a function's head: its parameters, then its declarations. *)
Lemma head_laidOut mf decls tys s :
  declaredKinds decls = Some tys ->
  width (FunctionType.param (ModuleFunction.m_functionType mf) ++ tys) < 2 ^ 16 ->
  exists s',
    (beginFunction mf false ;; forM_ decls (fun d => OnLocalDecl (fst d) (snd d))) s
    = Some (tt, s')
    /\ laidOut (FunctionType.param (ModuleFunction.m_functionType mf) ++ tys)
         (ModuleFunction.m_local mf ++ tys) s'
    /\ width (FunctionType.param (ModuleFunction.m_functionType mf) ++ tys)
       <= ModuleFunction.m_requiredStackSize (m_currentFunction s').
Proof.
  intros Hk Hb.
  pose proof (width_nonneg tys) as Ht.
  pose proof Hb as Hb'. rewrite width_app in Hb'.
  destruct (beginFunction_laidOut mf false s) as (s1 & E1 & Hl1 & Hr1); [lia|].
  destruct (declarations_laidOut decls _ _ tys s1 Hl1 Hk Hb) as (s' & E & Hl' & Hr' & Hc').
  exists s'. split; [apply bind_Some; eexists tt, s1; split; [exact E1 | exact E]|].
  split; [exact Hl'|].
  destruct decls as [|d decls].
  - inversion Hk; subst. simpl in E. inversion E; subst. rewrite app_nil_r. exact Hr1.
  - apply Hc'. done.
Qed.

Lemma paramLocalInfo_lookup tys : forall pos i a,
  paramLocalInfo pos tys !! i = Some a ->
  pos <= LocalInfo.m_position a
  /\ LocalInfo.m_position a + valueStackAllocatedSize (LocalInfo.m_valueType a)
     <= pos + width tys.
Proof.
  induction tys as [|ty tys IH]; intros pos i a H; [done|].
  pose proof (width_nonneg tys) as Hw.
  assert (0 <= valueStackAllocatedSize ty) as Hty by (destruct ty; simpl; lia).
  change (width (ty :: tys)) with (valueStackAllocatedSize ty + width tys).
  destruct i as [|i]; simpl in H.
  - inversion H; subst. simpl. lia.
  - apply IH in H. lia.
Qed.

Lemma paramLocalInfo_before tys : forall pos i j a b,
  (i < j)%nat ->
  paramLocalInfo pos tys !! i = Some a ->
  paramLocalInfo pos tys !! j = Some b ->
  before a b.
Proof.
  induction tys as [|ty tys IH]; intros pos i j a b Hij Ha Hb; [done|].
  destruct j as [|j]; [lia|]. simpl in Hb.
  destruct i as [|i]; simpl in Ha.
  - inversion Ha; subst. apply paramLocalInfo_lookup in Hb. unfold before. simpl. lia.
  - eapply IH; [|exact Ha|exact Hb]. lia.
Qed.

(** X1. A function whose parameters and declared locals take fewer than
    2^16 bytes: [beginFunction] followed by the declarations succeeds and
    lays the declared locals out behind the parameters, each local at the
    sum of the widths of those before it. Both counters stand behind the
    last local, the function records the declared kinds in order, and the
    required stack size covers them all. *)
Theorem locals_follow_parameters mf decls tys s :
  declaredKinds decls = Some tys ->
  width (FunctionType.param (ModuleFunction.m_functionType mf) ++ tys) < 2 ^ 16 ->
  exists s',
    (beginFunction mf false ;; forM_ decls (fun d => OnLocalDecl (fst d) (snd d))) s
    = Some (tt, s')
    /\ m_localInfo s'
       = paramLocalInfo 0 (FunctionType.param (ModuleFunction.m_functionType mf) ++ tys)
    /\ m_functionStackSizeSoFar s'
       = width (FunctionType.param (ModuleFunction.m_functionType mf) ++ tys)
    /\ m_initialFunctionStackSize s' = m_functionStackSizeSoFar s'
    /\ ModuleFunction.m_local (m_currentFunction s') = ModuleFunction.m_local mf ++ tys
    /\ m_functionStackSizeSoFar s'
       <= ModuleFunction.m_requiredStackSize (m_currentFunction s').
Proof.
  intros Hk Hb.
  destruct (head_laidOut mf decls tys s Hk Hb) as (s' & E & (Hi & Hf & Hin & Hd) & Hr).
  exists s'. rewrite Hin, Hf. done.
Qed.

(** X2. In such a function no two locals overlap: of two locals, the one
    with the smaller index ends where the other starts or before, and
    every local lies within the initial stack size of the function. *)
Theorem locals_do_not_overlap mf decls tys s s' i j a b :
  declaredKinds decls = Some tys ->
  width (FunctionType.param (ModuleFunction.m_functionType mf) ++ tys) < 2 ^ 16 ->
  (beginFunction mf false ;; forM_ decls (fun d => OnLocalDecl (fst d) (snd d))) s
  = Some (tt, s') ->
  (i < j)%nat ->
  m_localInfo s' !! i = Some a ->
  m_localInfo s' !! j = Some b ->
  0 <= LocalInfo.m_position a
  /\ before a b
  /\ LocalInfo.m_position b + valueStackAllocatedSize (LocalInfo.m_valueType b)
     <= m_initialFunctionStackSize s'.
Proof.
  intros Hk Hb E Hij Ha Hb'.
  destruct (head_laidOut mf decls tys s Hk Hb) as (s1 & E1 & (Hi & Hf & Hin & Hd) & Hr).
  rewrite E in E1. inversion E1; subst s1. rewrite Hi in Ha, Hb'. rewrite Hin.
  split; [apply paramLocalInfo_lookup in Ha; lia|].
  split; [exact (paramLocalInfo_before _ _ _ _ _ _ Hij Ha Hb')|].
  apply paramLocalInfo_lookup in Hb'. lia.
Qed.

End Layout.

(** The theorem at work: two i32 parameters and the declarations
    [2 x i64; 0 x (no value type); 1 x v128]. *)
Lemma locals_follow_parameters_witness :
  exists s',
    (beginFunction (ModuleFunction.new (FunctionType.mk [Value.I32; Value.I32] [])) false ;;
     forM_ [(2%nat, Type_.I64); (0%nat, Type_.Void); (1%nat, Type_.V128)]
       (fun d => OnLocalDecl (fst d) (snd d)))
      (@new Sample.layout [] Inputs.emptyResult) = Some (tt, s')
    /\ map LocalInfo.m_position (m_localInfo s') = [0; 4; 8; 16; 24]
    /\ m_functionStackSizeSoFar s' = 40.
Proof.
  destruct (locals_follow_parameters
              (ModuleFunction.new (FunctionType.mk [Value.I32; Value.I32] []))
              [(2%nat, Type_.I64); (0%nat, Type_.Void); (1%nat, Type_.V128)]
              [Value.I64; Value.I64; Value.V128]
              (@new Sample.layout [] Inputs.emptyResult))
    as (s' & E & Hi & Hf & _); [reflexivity | vm_compute; reflexivity |].
  exists s'. split; [exact E|]. rewrite Hi, Hf. split; reflexivity.
Defined.

Lemma locals_do_not_overlap_witness :
  exists s',
    (beginFunction (ModuleFunction.new (FunctionType.mk [Value.I32; Value.I32] [])) false ;;
     forM_ [(2%nat, Type_.I64); (0%nat, Type_.Void); (1%nat, Type_.V128)]
       (fun d => OnLocalDecl (fst d) (snd d)))
      (@new Sample.layout [] Inputs.emptyResult) = Some (tt, s')
    /\ m_localInfo s' !! 1%nat = Some (LocalInfo.mk Value.I32 4)
    /\ m_localInfo s' !! 3%nat = Some (LocalInfo.mk Value.I64 16)
    /\ before (LocalInfo.mk Value.I32 4) (LocalInfo.mk Value.I64 16)
    /\ 16 + 8 <= m_initialFunctionStackSize s'.
Proof.
  evar (s0 : t). exists s0.
  split; [unfold s0; vm_compute; reflexivity|].
  split; [vm_compute; reflexivity|].
  split; [vm_compute; reflexivity|].
  apply (locals_do_not_overlap
           (ModuleFunction.new (FunctionType.mk [Value.I32; Value.I32] []))
           [(2%nat, Type_.I64); (0%nat, Type_.Void); (1%nat, Type_.V128)]
           [Value.I64; Value.I64; Value.V128]
           (@new Sample.layout [] Inputs.emptyResult) s0 1 3
           (LocalInfo.mk Value.I32 4) (LocalInfo.mk Value.I64 16));
    [reflexivity | vm_compute; reflexivity | vm_compute; reflexivity | lia
    | vm_compute; reflexivity | vm_compute; reflexivity].
Defined.

End Locals.

(** ** What the handlers of instructions leave alone *)

Module Frame.

Import WASMBinaryReader MonadFacts HandlerFacts Events.

#[local] Open Scope M_scope.

Section Kept.
Context {L : Layout} {Srt : StdSort}.
Variables (x : Fixed) (r : Z).

Lemma pushByteCode_framed c : Preserves (framed x r) (pushByteCode c).
Proof. pres. Qed.

Lemma bumpRequiredStackSize_framed : Preserves (framed x r) bumpRequiredStackSize.
Proof.
  unfold bumpRequiredStackSize. apply pres_modify. intros s [H1 H2].
  split; [exact H1|]. unfold required in *. cbn. lia.
Qed.

#[local] Hint Resolve pushByteCode_framed bumpRequiredStackSize_framed : pres.

Lemma popVMStackInfo_framed : Preserves (framed x r) popVMStackInfo.
Proof. pres. Qed.

#[local] Hint Resolve popVMStackInfo_framed : pres.

Lemma moveLoop_framed stack srcI dstI remainSize :
  Preserves (framed x r) (moveLoop stack srcI dstI remainSize).
Proof. apply moveLoop_pres. intros; pres. Qed.

Lemma popWhile_framed fuel dropSize : Preserves (framed x r) (popWhile fuel dropSize).
Proof. apply popWhile_pres; intros; pres. Qed.

Lemma harvestCatchInfo_framed depth snapshot catches :
  Preserves (framed x r) (harvestCatchInfo depth snapshot catches).
Proof. apply harvestCatchInfo_pres; intros; pres. Qed.

#[local] Hint Resolve moveLoop_framed popWhile_framed harvestCatchInfo_framed : pres.

Lemma handle_framed e :
  isInstruction e = true -> Preserves (framed x r) (Decoder.handle e).
Proof.
  intros He. destruct e; try discriminate He; unfold Decoder.handle.
  all: pres.
Qed.

Lemma run_framed es :
  Forall (fun e => isInstruction e = true) es ->
  Preserves (framed x r) (Decoder.run es).
Proof.
  unfold Decoder.run. induction 1 as [|e es He _ IH]; simpl.
  - apply pres_ret.
  - apply pres_bind; [by apply handle_framed | intros _; exact IH].
Qed.

End Kept.

Section Head.

Context {L : Layout} {Srt : StdSort}.

(** X3. No run of instructions changes what the head of the function has
    fixed: the layout of the locals, the initial stack size, the type of
    the function and its declared locals, the tables of the module, the
    bytes being read, the end of the body and the initializer flag. And
    none lowers the required stack size. *)
Theorem instructions_keep_the_head es s s' :
  Forall (fun e => isInstruction e = true) es ->
  Decoder.run es s = Some (tt, s') ->
  fixedOf s' = fixedOf s /\ required s <= required s'.
Proof.
  intros Hes H.
  apply (run_framed (fixedOf s) (required s) es Hes _ _ _ H).
  split; [reflexivity|lia].
Qed.

End Head.

(** The theorem at work: [i32.const 7; drop] in a fresh reader. *)
Lemma instructions_keep_the_head_witness :
  exists s',
    @Decoder.run Sample.layout Sample.sort [Decoder.I32Const 7; Decoder.Drop]
      (@new Sample.layout [] Inputs.emptyResult) = Some (tt, s')
    /\ fixedOf s' = fixedOf (@new Sample.layout [] Inputs.emptyResult)
    /\ required (@new Sample.layout [] Inputs.emptyResult) <= required s'
    /\ required s' = 4.
Proof.
  evar (s0 : t). exists s0.
  split; [unfold s0; vm_compute; reflexivity|].
  destruct (@instructions_keep_the_head Sample.layout Sample.sort
              [Decoder.I32Const 7; Decoder.Drop]
              (@new Sample.layout [] Inputs.emptyResult) s0) as [H1 H2].
  - repeat constructor.
  - vm_compute. reflexivity.
  - split; [exact H1|]. split; [exact H2|]. vm_compute. reflexivity.
Defined.

End Frame.

(** ** The emission pass reads the collector, and no more *)

Module Frozen.

Import WASMBinaryReader MonadFacts HandlerFacts Events InitFlag.

#[local] Open Scope M_scope.

Section Kept.
Context {L : Layout} {Srt : StdSort}.
Variable p : PreprocessData.t.
Hypothesis emission : PreprocessData.m_inPreprocess p = false.

(** In the emission pass a test of [m_inPreprocess] fails. *)
Lemma pres_inPreprocess {A} (k : bool -> M A) :
  Preserves (preprocessDataIs p) (k false) ->
  Preserves (preprocessDataIs p) (bind inPreprocess k).
Proof.
  intros Hk s a s' H Hp. apply bind_Some in H as (b & s1 & H1 & H).
  unfold inPreprocess in H1. apply gets_Some in H1 as [-> ->].
  unfold preprocessDataIs in Hp. rewrite Hp, emission in H. by eapply Hk.
Qed.

Ltac frozen :=
  repeat first
    [ apply pres_inPreprocess; cbn [when negb andb]
    | pres_step
    | solve [eauto 2 with pres nocore]
    | lazymatch goal with |- Preserves _ (modify _) => pres_modify end
    | pres_unfold ].

Lemma pushByteCode_frozen c : Preserves (preprocessDataIs p) (pushByteCode c).
Proof. pres. Qed.

#[local] Hint Resolve pushByteCode_frozen : pres.

Lemma popVMStackInfo_frozen : Preserves (preprocessDataIs p) popVMStackInfo.
Proof. frozen. Qed.

#[local] Hint Resolve popVMStackInfo_frozen : pres.

Lemma moveLoop_frozen stack srcI dstI remainSize :
  Preserves (preprocessDataIs p) (moveLoop stack srcI dstI remainSize).
Proof. apply moveLoop_pres. intros; pres. Qed.

Lemma popWhile_frozen fuel dropSize : Preserves (preprocessDataIs p) (popWhile fuel dropSize).
Proof. apply popWhile_pres; intros; pres. Qed.

Lemma harvestCatchInfo_frozen depth snapshot catches :
  Preserves (preprocessDataIs p) (harvestCatchInfo depth snapshot catches).
Proof. apply harvestCatchInfo_pres; intros; pres. Qed.

#[local] Hint Resolve moveLoop_frozen popWhile_frozen harvestCatchInfo_frozen : pres.

Lemma handle_frozen e :
  isInstruction e = true -> Preserves (preprocessDataIs p) (Decoder.handle e).
Proof.
  intros He. destruct e; try discriminate He; unfold Decoder.handle.
  all: frozen.
Qed.

Lemma run_frozen es :
  Forall (fun e => isInstruction e = true) es ->
  Preserves (preprocessDataIs p) (Decoder.run es).
Proof.
  unfold Decoder.run. induction 1 as [|e es He _ IH]; simpl.
  - apply pres_ret.
  - apply pres_bind; [by apply handle_frozen | intros _; exact IH].
Qed.

End Kept.

Section Emission.

Context {L : Layout} {Srt : StdSort}.

(** X4. In the emission pass, where [m_inPreprocess] is false, no run of
    instructions changes the data of the preprocess collector: the usage
    intervals and write places of the locals, the needs-init flags and the
    constant pool stay as the first pass has left them. *)
Theorem emission_leaves_collector es s s' :
  PreprocessData.m_inPreprocess (m_preprocessData s) = false ->
  Forall (fun e => isInstruction e = true) es ->
  Decoder.run es s = Some (tt, s') ->
  m_preprocessData s' = m_preprocessData s.
Proof.
  intros Hp Hes H.
  exact (run_frozen (m_preprocessData s) Hp es Hes _ _ _ H eq_refl).
Qed.

End Emission.

(** The theorem at work: the emission pass of S1 up to its [i32.const],
    then [i32.const 1; i32.add]. *)
Lemma emission_leaves_collector_witness :
  exists s s',
    exec (@Decoder.run Sample.layout Sample.sort Inputs.S1_until_const)
         (@new Sample.layout Inputs.S1_data Inputs.emptyResult) = Some s
    /\ @Decoder.run Sample.layout Sample.sort
         [Decoder.I32Const 1; Decoder.Binary WASMOpcode.I32Add] s = Some (tt, s')
    /\ m_preprocessData s' = m_preprocessData s
    /\ Pool.pool s' = [(Value.mk Value.I32 1, 4)].
Proof.
  evar (s0 : t). evar (s1 : t). exists s0, s1.
  split; [unfold s0; vm_compute; reflexivity|].
  split; [unfold s1; vm_compute; reflexivity|].
  split; [|vm_compute; reflexivity].
  apply (@emission_leaves_collector Sample.layout Sample.sort
           [Decoder.I32Const 1; Decoder.Binary WASMOpcode.I32Add] s0 s1).
  - vm_compute. reflexivity.
  - repeat constructor.
  - vm_compute. reflexivity.
Defined.

End Frozen.

(** ** The block stack follows the nesting of the body *)

Module Nesting.

Import WASMBinaryReader MonadFacts HandlerFacts Events Patch.

#[local] Open Scope M_scope.

Section Depth.
Context {L : Layout} {Srt : StdSort}.

Lemma modifyBlockInfo_depth n i f : Preserves (blockCount n) (modifyBlockInfo i f).
Proof.
  intros s [] s' H Hn. unfold modifyBlockInfo in H. inv_run.
  case_decide; inv_run. unfold blockCount in *. cbn. by rewrite length_alter.
Qed.

Lemma seenBranch_depth n : Preserves (blockCount n) seenBranch.
Proof.
  unfold seenBranch. pres.
  unfold blockCount in *. case_match; cbn; [by rewrite length_alter|done].
Qed.

Lemma pushByteCode_depth n c : Preserves (blockCount n) (pushByteCode c).
Proof. pres. Qed.

Lemma popVMStackInfo_depth n : Preserves (blockCount n) popVMStackInfo.
Proof. pres. Qed.

#[local] Hint Resolve modifyBlockInfo_depth seenBranch_depth pushByteCode_depth
  popVMStackInfo_depth : pres.

Lemma moveLoop_depth n stack srcI dstI remainSize :
  Preserves (blockCount n) (moveLoop stack srcI dstI remainSize).
Proof. apply moveLoop_pres. intros; pres. Qed.

Lemma popWhile_depth n fuel dropSize : Preserves (blockCount n) (popWhile fuel dropSize).
Proof. apply popWhile_pres; intros; pres. Qed.

Lemma harvestCatchInfo_depth n depth snapshot catches :
  Preserves (blockCount n) (harvestCatchInfo depth snapshot catches).
Proof. apply harvestCatchInfo_pres; intros; pres. Qed.

#[local] Hint Resolve moveLoop_depth popWhile_depth harvestCatchInfo_depth : pres.

Lemma BlockInfo_new_depth n ty sig : Preserves (blockCount n) (BlockInfo_new ty sig).
Proof. pres. Qed.

Lemma pushBlockInfo_depth n b s s' :
  pushBlockInfo b s = Some (tt, s') -> blockCount n s -> blockCount (S n) s'.
Proof.
  unfold pushBlockInfo, blockCount. intros H Hn. inv_run. cbn.
  rewrite length_app. simpl. lia.
Qed.

(** One step of a run that keeps the height. *)
Ltac keep H Hn :=
  let a := fresh "a" in
  let s1 := fresh "s" in
  let H1 := fresh "H" in
  let Hp := fresh "Hp" in
  apply bind_Some in H as (a & s1 & H1 & H);
  lazymatch type of Hn with
  | blockCount ?n _ =>
      lazymatch type of H1 with
      | ?m _ = _ =>
          assert (Preserves (blockCount n) m) as Hp by pres;
          apply (Hp _ _ _ H1) in Hn; clear Hp H1
      end
  end.

Ltac kept H Hn :=
  lazymatch type of Hn with
  | blockCount ?n _ =>
      lazymatch type of H with
      | ?m _ = _ =>
          let Hp := fresh "Hp" in
          assert (Preserves (blockCount n) m) as Hp by pres;
          exact (Hp _ _ _ H Hn)
      end
  end.

Lemma open_depth ty sig n s s' :
  (b <- BlockInfo_new ty sig ;; pushBlockInfo b) s = Some (tt, s') ->
  blockCount n s -> blockCount (S n) s'.
Proof.
  intros H Hn. keep H Hn. by eapply pushBlockInfo_depth.
Qed.

Lemma handle_depth e n s s' :
  isInstruction e = true ->
  Decoder.handle e s = Some (tt, s') ->
  blockCount n s -> blockCount (depthAfter e n) s'.
Proof.
  intros He H Hn.
  destruct e; try discriminate He; unfold Decoder.handle in H; cbn [depthAfter].
  all: try (revert H; match goal with |- ?m _ = _ -> _ =>
         assert (Preserves (blockCount n) m) as Hp by pres;
         intros H; exact (Hp _ _ _ H Hn) end).
  - (* if *)
    unfold OnIfExpr in H. keep H Hn. keep H Hn. keep H Hn.
    unfold ifTail in H. keep H Hn.
    apply bind_Some in H as ([] & s4 & H4 & H).
    apply (pushBlockInfo_depth n) in H4; [|done]. kept H H4.
  - (* loop *) by eapply open_depth.
  - (* block *) by eapply open_depth.
  - (* end *)
    unfold OnEndExpr in H. keep H Hn.
    apply bind_Some in H as (blocks & s2 & H2 & H).
    apply gets_Some in H2 as [-> ->].
    match type of Hn with blockCount _ ?st =>
      destruct (last (m_blockInfo st)) as [blockInfo|] eqn:El;
      pose proof Hn as Hn0; unfold blockCount in Hn0;
      destruct (m_blockInfo st) as [|b l _] using rev_ind end.
    + done.
    + rewrite last_snoc in El. inversion El; subst b. rewrite removelast_last in H.
      rewrite length_app in Hn0. simpl in Hn0.
      keep H Hn.
      apply bind_Some in H as ([] & s4 & H4 & H).
      apply modify_Some in H4.
      assert (blockCount (pred n) s4) as Hn4.
      { subst s4. unfold blockCount. cbn. lia. }
      kept H Hn4.
    + simpl in Hn0. subst n. kept H Hn.
    + by rewrite last_snoc in El.
  - (* try *)
    unfold OnTryExpr in H. keep H Hn.
    apply bind_Some in H as ([] & s4 & H4 & H).
    apply (pushBlockInfo_depth n) in H4; [|done]. kept H H4.
Qed.
(** X5. The block stack follows the nesting: [block], [loop], [if] and
    [try] push one block, [end] pops one when there is one (the [end] of
    the function body finds none), and every other instruction leaves the
    height of the block stack as it is. *)
Theorem block_stack_follows_nesting e s s' :
  isInstruction e = true ->
  Decoder.handle e s = Some (tt, s') ->
  length (m_blockInfo s') = depthAfter e (length (m_blockInfo s)).
Proof.
  intros He H. by apply (handle_depth e (length (m_blockInfo s)) s s').
Qed.

End Depth.

(** The theorem at work: a [block] in a fresh reader. *)
Lemma block_stack_follows_nesting_witness :
  exists s',
    @Decoder.handle Sample.layout Sample.sort (Decoder.Block Type_.Void)
      (@new Sample.layout [] Inputs.emptyResult) = Some (tt, s')
    /\ length (m_blockInfo s') = 1%nat.
Proof.
  evar (s0 : t). exists s0.
  split; [unfold s0; vm_compute; reflexivity|].
  apply (@block_stack_follows_nesting Sample.layout Sample.sort
           (Decoder.Block Type_.Void) (@new Sample.layout [] Inputs.emptyResult) s0).
  - reflexivity.
  - vm_compute. reflexivity.
Defined.

End Nesting.

(** ** The tracker across all handlers *)

Module TrackerInvariant.

Import WASMBinaryReader MonadFacts HandlerFacts TrackerOps Events Tracked.

#[local] Open Scope M_scope.

Section Kept.
Context {L : Layout} {Srt : StdSort}.

Lemma stackWidth_app a b : stackWidth (a ++ b) = stackWidth a + stackWidth b.
Proof. unfold stackWidth. induction a; simpl; lia. Qed.

Lemma covered_mono i r r' stack : r <= r' -> covered i r stack -> covered i r' stack.
Proof. intros Hr H k. specialize (H k). lia. Qed.

Lemma snapshotOk_mono i r r' b : r <= r' -> snapshotOk i r b -> snapshotOk i r' b.
Proof. intros Hr [H1 H2]. split; [done|]. by eapply covered_mono. Qed.

Lemma covered_all i r stack : covered i r stack -> u16 (i + stackWidth stack) <= r.
Proof. intros H. specialize (H (length stack)). by rewrite firstn_all in H. Qed.

Lemma covered_removelast i r stack : covered i r stack -> covered i r (removelast stack).
Proof.
  intros H k. destruct stack as [|e stack _] using rev_ind; [apply H|].
  rewrite removelast_last. specialize (H (min k (length stack))).
  rewrite take_app_le in H by lia.
  destruct (decide (k <= length stack)%nat).
  - by rewrite Nat.min_l in H by lia.
  - rewrite Nat.min_r in H by lia. rewrite firstn_all in H.
    by rewrite take_ge by lia.
Qed.

Lemma covered_snoc i r stack e :
  covered i r stack ->
  u16 (i + stackWidth (stack ++ [e])) <= r ->
  covered i r (stack ++ [e]).
Proof.
  intros H He k. destruct (decide (k <= length stack)%nat).
  - rewrite take_app_le by lia. apply H.
  - rewrite take_ge by (rewrite length_app; simpl; lia). exact He.
Qed.

Lemma pushVMStack_blocks bl ty pos li :
  Preserves (fun s => m_blockInfo s = bl) (pushVMStack ty pos li).
Proof. pres. Qed.

Lemma popVMStackInfo_blocks bl :
  Preserves (fun s => m_blockInfo s = bl) popVMStackInfo.
Proof. pres. Qed.

Lemma pushVMStack_tracked B ty pos li :
  Preserves (trackedWith B) (pushVMStack ty pos li).
Proof.
  intros s [] s' H (Hs & Hc & Hb).
  pose proof (pushVMStack_blocks _ _ _ _ _ _ _ H eq_refl) as Hbl.
  apply pushVMStack_Some in H as (Hst & Hf & Hi & Hr).
  unfold trackedWith, sizeInvariant, required in *.
  rewrite Hbl, Hst, Hi, Hr, Hf, Hs, u16_add_l, Tracker.stackWidth_snoc.
  assert (VMStackInfo.stackAllocatedSize
            (VMStackInfo.mk ty pos
               (u16 (m_initialFunctionStackSize s + stackWidth (m_vmStack s))) li)
          = valueStackAllocatedSize ty) as Hw by reflexivity.
  rewrite Hw, Z.add_assoc.
  split; [done|]. split.
  - apply covered_snoc; [eapply covered_mono; [|exact Hc]; lia|].
    rewrite Tracker.stackWidth_snoc, Hw, Z.add_assoc. lia.
  - eapply Forall_impl; [exact Hb|]. intros b. apply snapshotOk_mono. lia.
Qed.

Lemma popVMStackInfo_tracked B : Preserves (trackedWith B) popVMStackInfo.
Proof.
  intros s info s' H (Hs & Hc & Hb).
  pose proof (popVMStackInfo_blocks _ _ _ _ H eq_refl) as Hbl.
  apply popVMStackInfo_Some in H as (Hl & Hst & Hf & Hi & Hcf).
  unfold trackedWith, sizeInvariant, required in *.
  rewrite Hbl, Hst, Hf, Hi, Hcf, Hs.
  split; [|split; [by apply covered_removelast | done]].
  apply last_Some_removelast in Hl. rewrite Hl at 1.
  rewrite Tracker.stackWidth_snoc, u16_sub_add. f_equal. lia.
Qed.

Lemma pushByteCode_tracked B c : Preserves (trackedWith B) (pushByteCode c).
Proof. pres. Qed.

#[local] Hint Resolve pushVMStack_tracked popVMStackInfo_tracked pushByteCode_tracked
  : pres.

Lemma stackWidth_alter f i stack :
  (forall e, VMStackInfo.m_valueType (f e) = VMStackInfo.m_valueType e) ->
  forall k, stackWidth (take k (alter f i stack)) = stackWidth (take k stack).
Proof.
  intros Hf. revert i. induction stack as [|e stack IH]; intros i k.
  - by destruct i.
  - destruct k as [|k]; [by destruct i|].
    destruct i as [|i]; simpl.
    + unfold VMStackInfo.stackAllocatedSize. by rewrite Hf.
    + change (list_alter f i stack) with (alter f i stack).
      unfold stackWidth in IH. by rewrite IH.
Qed.

Lemma modifyStackFromBack_tracked B i f :
  (forall e, VMStackInfo.m_valueType (f e) = VMStackInfo.m_valueType e) ->
  Preserves (trackedWith B) (modifyStackFromBack i f).
Proof.
  intros Hf s [] s' H (Hs & Hc & Hb). unfold modifyStackFromBack in H. inv_run.
  match goal with H : alterFromBack _ _ _ = Some _ |- _ =>
    unfold alterFromBack in H; case_decide; [|discriminate H];
    inversion H; subst; clear H end.
  unfold trackedWith, sizeInvariant, required, covered in *.
  cbn [m_vmStack set_m_vmStack m_functionStackSizeSoFar m_initialFunctionStackSize
       m_currentFunction m_blockInfo].
  split; [|split; [|done]].
  - rewrite Hs.
    match goal with |- context [alter f ?j ?st] =>
      pose proof (stackWidth_alter f j st Hf (length st)) as E end.
    rewrite firstn_all in E.
    rewrite take_ge in E by (rewrite length_alter; lia). by rewrite E.
  - intros k. rewrite stackWidth_alter by done. apply Hc.
Qed.

Lemma modifyBlockInfo_tracked B i f :
  (forall b, BlockInfo.m_vmStack (f b) = BlockInfo.m_vmStack b
             /\ BlockInfo.m_functionStackSizeSoFar (f b)
                = BlockInfo.m_functionStackSizeSoFar b) ->
  Preserves (trackedWith B) (modifyBlockInfo i f).
Proof.
  intros Hf s [] s' H (Hs & Hc & Hb). unfold modifyBlockInfo in H. inv_run.
  case_decide; inv_run.
  unfold trackedWith. split; [done|]. split; [done|]. cbn.
  apply Forall_app in Hb as [Hb1 Hb2]. apply Forall_app. split; [|done].
  apply Forall_alter; [done|]. intros b _ [H1 H2].
  destruct (Hf b) as [E1 E2]. unfold snapshotOk. by rewrite E1, E2.
Qed.

Lemma seenBranch_tracked B : Preserves (trackedWith B) seenBranch.
Proof.
  unfold seenBranch. pres.
  match goal with H : trackedWith _ _ |- _ => destruct H as (Hs & Hc & Hb) end.
  case_match; [|done]. unfold trackedWith. split; [done|]. split; [done|]. cbn.
  apply Forall_app in Hb as [Hb1 Hb2]. apply Forall_app. split; [|done].
  apply Forall_alter; [done|]. by intros b _ [H1 H2].
Qed.

#[local] Hint Resolve seenBranch_tracked : pres.
#[local] Hint Extern 1 (Preserves (trackedWith _) (modifyStackFromBack _ _)) =>
  apply modifyStackFromBack_tracked; intros; reflexivity : pres.
#[local] Hint Extern 1 (Preserves (trackedWith _) (modifyBlockInfo _ _)) =>
  apply modifyBlockInfo_tracked; intros; split; reflexivity : pres.

Lemma moveLoop_tracked B stack srcI dstI remainSize :
  Preserves (trackedWith B) (moveLoop stack srcI dstI remainSize).
Proof. apply moveLoop_pres. intros; pres. Qed.

Lemma popWhile_tracked B fuel dropSize :
  Preserves (trackedWith B) (popWhile fuel dropSize).
Proof. apply popWhile_pres; intros; pres. Qed.

Lemma harvestCatchInfo_tracked B depth snapshot catches :
  Preserves (trackedWith B) (harvestCatchInfo depth snapshot catches).
Proof. apply harvestCatchInfo_pres; intros; pres. Qed.

#[local] Hint Resolve moveLoop_tracked popWhile_tracked harvestCatchInfo_tracked : pres.

(** A snapshot that is held can be restored. *)
Lemma restoreVMStackBy_tracked B b :
  b ∈ B -> Preserves (trackedWith B) (restoreVMStackBy b).
Proof.
  intros Hin. unfold restoreVMStackBy.
  apply pres_bind; [pres|]. intros stack.
  apply pres_bind; [pres|]. intros [].
  intros s [] s' H (Hs & Hc & Hb). inv_run.
  pose proof Hb as Hb'. rewrite Forall_app in Hb'. destruct Hb' as [_ Hb'].
  destruct (proj1 (Forall_forall _ _) Hb' b Hin) as [Hb1 Hb2].
  unfold trackedWith, sizeInvariant. cbn. split; [|split; [exact Hb2|exact Hb]].
  rewrite Hb1. unfold u16. by rewrite Zmod_mod.
Qed.

(** Reading the innermost block: its snapshot is held from there on. *)
Lemma pres_backBlockInfo {A} B (k : BlockInfo.t -> M A) :
  (forall b, Preserves (trackedWith (b :: B)) (k b)) ->
  Preserves (trackedWith B) (bind backBlockInfo k).
Proof.
  intros Hk s a s' H (Hs & Hc & Hb).
  apply bind_Some in H as (b & s1 & H1 & H). unfold backBlockInfo in H1.
  apply bind_Some in H1 as (bl & s2 & G1 & G2).
  apply gets_Some in G1 as [-> ->]. apply lift_Some in G2 as [Hl ->].
  apply last_Some_removelast in Hl.
  assert (trackedWith (b :: B) s) as Ht.
  { split; [done|]. split; [done|].
    rewrite Forall_app in Hb |- *. destruct Hb as [Hb1 Hb2]. split; [done|].
    constructor; [|done]. rewrite Forall_forall in Hb1. apply Hb1.
    rewrite Hl. apply elem_of_app. right. by apply list_elem_of_singleton. }
  destruct (Hk b _ _ _ H Ht) as (Hs' & Hc' & Hb').
  split; [done|]. split; [done|].
  rewrite Forall_app in Hb' |- *. destruct Hb' as [Hb1 Hb2]. split; [done|].
  by inversion Hb2.
Qed.

Ltac tracked :=
  repeat first
    [ apply pres_backBlockInfo; intros ?
    | pres_step
    | solve [eauto 2 with pres nocore]
    | lazymatch goal with
      | |- Preserves _ (restoreVMStackBy _) =>
          apply restoreVMStackBy_tracked; by repeat constructor
      end
    | lazymatch goal with |- Preserves _ (modify _) => pres_modify end
    | pres_unfold ].

Lemma trackedWith_drop b B s : trackedWith (b :: B) s -> trackedWith B s.
Proof.
  intros (Hs & Hc & Hb). split; [done|]. split; [done|].
  rewrite Forall_app in Hb |- *. destruct Hb as [Hb1 Hb2]. split; [done|].
  by inversion Hb2.
Qed.

(** A new block takes a snapshot that agrees with the tracker. *)
Lemma open_tracked B ty sig f :
  (forall b, BlockInfo.m_vmStack (f b) = BlockInfo.m_vmStack b
             /\ BlockInfo.m_functionStackSizeSoFar (f b)
                = BlockInfo.m_functionStackSizeSoFar b) ->
  Preserves (trackedWith B) (b <- BlockInfo_new ty sig ;; pushBlockInfo (f b)).
Proof.
  intros Hf s [] s' H Ht.
  apply bind_Some in H as (b & s3 & H1 & H).
  unfold BlockInfo_new in H1.
  apply bind_Some in H1 as (sofar & s0 & G0 & H1). apply gets_Some in G0 as [-> ->].
  apply bind_Some in H1 as (shouldRestore & s1 & G1 & H1).
  apply bind_Some in H1 as ([] & s2 & G2 & H1).
  assert (trackedWith B s2 /\ m_functionStackSizeSoFar s2 = m_functionStackSizeSoFar s)
    as [Ht2 Hf2].
  { split.
    - revert G2. match goal with |- ?m _ = _ -> _ =>
        assert (Preserves (trackedWith B) m) as Hp by tracked;
        intros G2; apply (Hp _ _ _ G2) end.
      revert G1. match goal with |- ?m _ = _ -> _ =>
        assert (Preserves (trackedWith B) m) as Hp1 by tracked;
        intros G1; exact (Hp1 _ _ _ G1 Ht) end.
    - revert G2. match goal with |- ?m _ = _ -> _ =>
        assert (Preserves (fun st => m_functionStackSizeSoFar st
                                     = m_functionStackSizeSoFar s) m) as Hp by pres;
        intros G2; apply (Hp _ _ _ G2) end.
      revert G1. match goal with |- ?m _ = _ -> _ =>
        assert (Preserves (fun st => m_functionStackSizeSoFar st
                                     = m_functionStackSizeSoFar s) m) as Hp1 by pres;
        intros G1; exact (Hp1 _ _ _ G1 eq_refl) end. }
  inv_run.
  destruct Ht2 as (Hs & Hc & Hb).
  split; [done|]. split; [done|]. cbn.
  rewrite <- app_assoc. rewrite Forall_app in Hb |- *. destruct Hb as [Hb1 Hb2].
  split; [done|]. constructor; [|done].
  destruct (Hf (BlockInfo.mk ty sig (currentByteCodeSize s2) (m_vmStack s2)
                  (m_functionStackSizeSoFar s) shouldRestore false false []))
    as [E1 E2].
  split; [rewrite E1, E2; cbn; by rewrite <- Hf2 | by rewrite E1].
Qed.

Lemma handle_tracked e :
  isInstruction e = true -> Preserves (trackedWith []) (Decoder.handle e).
Proof.
  intros He. destruct e; try discriminate He; unfold Decoder.handle.
  all: try (solve [tracked]).
  - (* if *)
    unfold OnIfExpr, ifTail.
    do 3 (apply pres_bind; [tracked|intros ?]).
    intros s [] s' H Ht.
    apply bind_Some in H as (b & s1 & H1 & H).
    apply bind_Some in H as ([] & s2 & H2 & H).
    assert (trackedWith [] s2) as Ht2.
    { eapply (open_tracked [] BlockInfo.IfElse sig
                (fun b => BlockInfo.set_m_jumpToEndBrInfo
                   [JumpToEndBrInfo.mk JumpToEndBrInfo.IsJumpIf (BlockInfo.m_position b)] b));
        [by intros | | exact Ht].
      apply bind_Some. eexists b, s1. split; [exact H1 | exact H2]. }
    revert H. match goal with |- ?m _ = _ -> _ =>
      assert (Preserves (trackedWith []) m) as Hp by tracked;
      intros H; exact (Hp _ _ _ H Ht2) end.
  - (* loop *) apply (open_tracked [] BlockInfo.Loop sig (fun b => b)). by intros.
  - (* block *) apply (open_tracked [] BlockInfo.Block sig (fun b => b)). by intros.
  - (* end *)
    unfold OnEndExpr. apply pres_bind; [tracked|intros _].
    intros s [] s' H Ht.
    apply bind_Some in H as (blocks & s1 & H1 & H). apply gets_Some in H1 as [-> ->].
    destruct (last (m_blockInfo s)) as [blockInfo|] eqn:El.
    + apply last_Some_removelast in El.
      apply bind_Some in H as (dropSize & s1 & H1 & H).
      assert (s1 = s) as ->.
      { revert H1. match goal with |- ?m _ = _ -> _ =>
          assert (Preserves (fun st => st = s) m) as Hp by pres;
          intros H1; exact (Hp _ _ _ H1 eq_refl) end. }
      apply bind_Some in H as ([] & s2 & H2 & H). apply modify_Some in H2.
      assert (trackedWith [blockInfo] s2) as Ht2.
      { subst s2. destruct Ht as (Hs & Hc & Hb). split; [done|]. split; [done|].
        cbn. rewrite app_nil_r in Hb. by rewrite <- El. }
      apply (trackedWith_drop blockInfo).
      revert H. match goal with |- ?m _ = _ -> _ =>
        assert (Preserves (trackedWith [blockInfo]) m) as Hp by tracked;
        intros H; exact (Hp _ _ _ H Ht2) end.
    + revert H. match goal with |- ?m _ = _ -> _ =>
        assert (Preserves (trackedWith []) m) as Hp by tracked;
        intros H; exact (Hp _ _ _ H Ht) end.
  - (* try *)
    unfold OnTryExpr.
    intros s [] s' H Ht.
    apply bind_Some in H as (b & s1 & H1 & H).
    apply bind_Some in H as ([] & s2 & H2 & H).
    assert (trackedWith [] s2) as Ht2.
    { eapply (open_tracked [] BlockInfo.TryCatch sig (fun b => b));
        [by intros | | exact Ht].
      apply bind_Some. eexists b, s1. split; [exact H1 | exact H2]. }
    revert H. match goal with |- ?m _ = _ -> _ =>
      assert (Preserves (trackedWith []) m) as Hp by tracked;
      intros H; exact (Hp _ _ _ H Ht2) end.
Qed.

Lemma run_tracked es :
  Forall (fun e => isInstruction e = true) es ->
  Preserves tracked (Decoder.run es).
Proof.
  unfold Decoder.run, tracked. induction 1 as [|e es He _ IH]; simpl.
  - apply pres_ret.
  - apply pres_bind; [by apply handle_tracked | intros _; exact IH].
Qed.

(** X6. Every run of instructions keeps the tracker consistent, in both
    passes and through blocks, branches and catches: the running stack
    size is the initial size plus the widths on the shadow stack (as a
    16-bit value), the snapshot of every open block agrees with the stack
    it has saved, and the required stack size is at least the running
    size. *)
Theorem instructions_keep_tracker es s s' :
  Forall (fun e => isInstruction e = true) es ->
  tracked s ->
  Decoder.run es s = Some (tt, s') ->
  tracked s' /\ m_functionStackSizeSoFar s' <= required s'.
Proof.
  intros Hes Ht H.
  pose proof (run_tracked es Hes _ _ _ H Ht) as Ht'.
  split; [exact Ht'|].
  destruct Ht' as (Hs & Hc & _). rewrite Hs. by apply covered_all.
Qed.

End Kept.

(** The theorem at work: [block (result i32); i32.const 7; end; drop] in a
    fresh reader. *)
Lemma instructions_keep_tracker_witness :
  exists s',
    @Decoder.run Sample.layout Sample.sort
      [Decoder.Block Type_.I32; Decoder.I32Const 7; Decoder.End_; Decoder.Drop]
      (@new Sample.layout [] Inputs.emptyResult) = Some (tt, s')
    /\ tracked s'
    /\ m_functionStackSizeSoFar s' <= required s'
    /\ (m_functionStackSizeSoFar s', required s') = (0, 4).
Proof.
  evar (s0 : t). exists s0.
  split; [unfold s0; vm_compute; reflexivity|].
  destruct (@instructions_keep_tracker Sample.layout Sample.sort
              [Decoder.Block Type_.I32; Decoder.I32Const 7; Decoder.End_; Decoder.Drop]
              (@new Sample.layout [] Inputs.emptyResult) s0) as [H1 H2].
  - repeat constructor.
  - split; [reflexivity|]. split; [|constructor].
    intros k. destruct k; vm_compute; discriminate.
  - vm_compute. reflexivity.
  - split; [exact H1|]. split; [exact H2|]. vm_compute. reflexivity.
Defined.

End TrackerInvariant.

(** ** The end of the preprocess pass *)

Module Prelude.

Import WASMBinaryReader MonadFacts HandlerFacts TrackerOps Events Tracked Pool Patch
  Candidate.

#[local] Open Scope M_scope.

#[local] Arguments poolWidth : simpl never.

Section Reset.
Context {L : Layout} {Srt : StdSort}.

Lemma pushByteCode_plain c s :
  isI32Eqz c = false ->
  pushByteCode c s
  = Some (tt, set_m_currentFunction
                (ModuleFunction.set_m_byteCode (bufOf s ++ [c]) (m_currentFunction s)) s).
Proof.
  intros Hc. unfold pushByteCode.
  destruct c; try reflexivity. destruct op; try reflexivity. discriminate.
Qed.

Lemma push_all {A} (f : A -> ByteCode.t) l : forall s,
  (forall e, isI32Eqz (f e) = false) ->
  exists s',
    forM_ l (fun e => pushByteCode (f e)) s = Some (tt, s')
    /\ s' = set_m_currentFunction
              (ModuleFunction.set_m_byteCode (bufOf s ++ map f l) (m_currentFunction s)) s.
Proof.
  induction l as [|e l IH]; intros s Hf.
  - exists s. split; [reflexivity|]. rewrite app_nil_r.
    destruct s as [? ? ? ? ? f0 ? ? ? ? ? ? ? ? ? ? ? ? ?]. by destruct f0.
  - cbn [forM_ map]. 
    destruct (IH (set_m_currentFunction
                (ModuleFunction.set_m_byteCode (bufOf s ++ [f e]) (m_currentFunction s)) s) Hf)
      as (s' & E & ->).
    eexists. split.
    + apply bind_Some. eexists tt, _. split; [by apply pushByteCode_plain | exact E].
    + unfold bufOf. cbn. by rewrite <- app_assoc.
Qed.

Lemma assignConstantPositions_range l : forall i,
  0 <= i < 2 ^ 16 -> 0 <= snd (assignConstantPositions i l) < 2 ^ 16.
Proof.
  induction l as [|e l IH]; intros i Hi; [done|]. simpl.
  specialize (IH (u16 (i + valueStackAllocatedSize (Value.type (fst e))))
                 (u16_range _)).
  destruct (assignConstantPositions _ l). exact IH.
Qed.

Lemma assignConstantPositions_final l : forall i,
  snd (assignConstantPositions i l) = u16 (i + poolWidth l) \/ l = [].
Proof.
  induction l as [|e l IH]; intros i; [by right|]. left.
  change (poolWidth (e :: l))
    with (valueStackAllocatedSize (Value.type (fst e)) + poolWidth l).
  cbn [assignConstantPositions].
  specialize (IH (u16 (i + valueStackAllocatedSize (Value.type (fst e))))).
  destruct l as [|e' l].
  - cbn. f_equal. unfold poolWidth. simpl. lia.
  - destruct (assignConstantPositions _ (e' :: l)) as [r' final]. cbn [snd] in *.
    destruct IH as [-> | ?]; [|done]. rewrite u16_add_l. f_equal. lia.
Qed.

Lemma poolWidth_keys l : forall l',
  map fst l = map fst l' -> poolWidth l = poolWidth l'.
Proof.
  unfold poolWidth.
  induction l as [|c l IH]; intros [|d l'] Hk; try discriminate; [done|].
  simpl in *. inversion Hk as [[H1 H2]]. rewrite H1. f_equal. by apply IH.
Qed.


End Reset.


End Prelude.

(** ** Handlers in sequence *)

Module Compose.

Import WASMBinaryReader MonadFacts HandlerFacts Events Patch Candidate Fused.

#[local] Open Scope M_scope.

Section Pairs.
Context {L : Layout} {Srt : StdSort}.

Lemma eta_function s :
  set_m_currentFunction
    (ModuleFunction.set_m_byteCode (bufOf s) (m_currentFunction s)) s = s.
Proof.
  destruct s as [? ? ? ? ? f0 ? ? ? ? ? ? ? ? ? ? ? ? ?]. by destruct f0.
Qed.

(** With the candidate at the end of the buffer the test compares the
    destination of the [i32.eqz] with the position asked for. *)
Lemma canBeInverted_at pre src dst p s :
  eqzIsCandidate pre src dst s -> canBeInverted p s = Some (dst =? p, s).
Proof.
  intros (Hbuf & Hlast & Hsz). unfold bufOf in *.
  assert (usize (m_lastI32EqzPos s + sizeof (ByteCode.UnaryOpcode WASMOpcode.I32Eqz))
          = currentByteCodeSize s) as Hcur.
  { assert (byteSize (pre ++ [ByteCode.UnaryOperation WASMOpcode.I32Eqz src dst])
            = byteSize pre + sizeof (ByteCode.UnaryOpcode WASMOpcode.I32Eqz)) as Hb.
    { rewrite Fusion.byteSize_app. simpl. unfold getSize. simpl. lia. }
    unfold currentByteCodeSize. rewrite Hlast, Hbuf, Hb.
    unfold usize. apply Z.mod_small.
    rewrite Hbuf, Hb in Hsz. pose proof (Fusion.byteSize_nonneg pre).
    pose proof (sizeof_pos (ByteCode.UnaryOpcode WASMOpcode.I32Eqz)). lia. }
  assert (peekUnaryOperation (m_lastI32EqzPos s) s = Some ((src, dst), s)) as Hpeek.
  { unfold peekUnaryOperation, byteCode, bind, gets, lift.
    by rewrite Hlast, Hbuf, Fusion.peekAt_app. }
  unfold canBeInverted, bind, gets. by rewrite Hcur, Z.eqb_refl, Hpeek.
Qed.

(** X8. Emitting an [i32.eqz] and asking at once whether a branch on
    position [p] can be fused: the answer is yes exactly when [p] is the
    destination of the [i32.eqz], and then the rewinding gives its source
    and leaves the emitter as it was before the [i32.eqz], the buffer
    included, with no candidate. Otherwise the record stays, designated as
    the candidate. *)
Theorem eqz_push_then_rewind src dst p s :
  byteSize (bufOf s) + sizeof (ByteCode.UnaryOpcode WASMOpcode.I32Eqz) < 2 ^ 64 ->
  (pushByteCode (ByteCode.UnaryOperation WASMOpcode.I32Eqz src dst) ;;
   inverted <- canBeInverted p ;;
   if inverted then pos <- rewindI32Eqz ;; ret (Some pos) else ret None) s
  = if p =? dst then Some (Some src, set_m_lastI32EqzPos s_noI32Eqz s)
    else Some (None,
               set_m_lastI32EqzPos (currentByteCodeSize s)
                 (set_m_currentFunction
                    (ModuleFunction.set_m_byteCode
                       (bufOf s ++ [ByteCode.UnaryOperation WASMOpcode.I32Eqz src dst])
                       (m_currentFunction s)) s)).
Proof.
  intros Hb.
  set (s1 := set_m_currentFunction
               (ModuleFunction.set_m_byteCode
                  (bufOf s ++ [ByteCode.UnaryOperation WASMOpcode.I32Eqz src dst])
                  (m_currentFunction s))
               (set_m_lastI32EqzPos (currentByteCodeSize s) s)).
  assert (pushByteCode (ByteCode.UnaryOperation WASMOpcode.I32Eqz src dst) s
          = Some (tt, s1)) as E1 by reflexivity.
  unfold bind at 1. rewrite E1.
  assert (eqzIsCandidate (bufOf s) src dst s1) as Hc.
  { split; [reflexivity|]. split; [reflexivity|].
    unfold s1, bufOf. cbn. rewrite Fusion.byteSize_app. simpl.
    unfold getSize. simpl. unfold bufOf in Hb. lia. }
  destruct (p =? dst) eqn:Ep.
  - apply Z.eqb_eq in Ep. subst p.
    destruct (Fusion.canBeInverted_candidate _ _ _ _ Hc) as (Hinv & s' & Hrew & Hrew').
    assert (s' = set_m_lastI32EqzPos s_noI32Eqz s) as ->.
    { unfold rewind, setByteCode, modifyFunction, bind, modify in Hrew'.
      inversion Hrew'. unfold s1. clear.
      destruct s as [? ? ? ? ? f0 ? ? ? ? ? ? ? ? ? ? ? ? ?]. by destruct f0. }
    unfold bind at 1. rewrite Hinv. unfold bind at 1. by rewrite Hrew.
  - unfold bind at 1.
    rewrite (canBeInverted_at _ _ _ p _ Hc), Z.eqb_sym, Ep.
    unfold ret, s1. clear.
    destruct s as [? ? ? ? ? f0 ? ? ? ? ? ? ? ? ? ? ? ? ?]. by destruct f0.
Qed.

(** X9. An empty block of type void leaves no trace: [block] followed at
    once by [end] always succeeds, emits nothing and leaves the emitter as
    it was (shadow stack, block stack, counters, fixups), except that the
    [end] forgets the candidate of the eqz/branch fusion. *)
Theorem empty_void_block_leaves_no_trace s :
  (OnBlockExpr Type_.Void ;; OnEndExpr) s
  = Some (tt, set_m_lastI32EqzPos s_noI32Eqz s).
Proof.
  unfold OnBlockExpr, OnEndExpr, BlockInfo_new, pushBlockInfo.
  cbn [Type_.IsIndex Type_.isVoid negb].
  cbv [bind gets modify ret].
  cbn [m_blockInfo set_m_blockInfo set_m_lastI32EqzPos].
  rewrite last_snoc, removelast_last.
  unfold dropStackValuesBeforeBrIfNeeds.
  cbv [bind gets modify ret lift].
  cbn [m_blockInfo set_m_blockInfo set_m_lastI32EqzPos m_vmStack].
  assert ((0 <? size (m_blockInfo s ++
            [BlockInfo.mk BlockInfo.Block Type_.Void (currentByteCodeSize s)
               (m_vmStack s) (m_functionStackSizeSoFar s) false false false []])) = true)
    as -> by (apply Z.ltb_lt; unfold size; rewrite length_app; simpl; lia).
  unfold fromBack. rewrite decide_True by (rewrite length_app; simpl; lia).
  replace (length (m_blockInfo s ++ _) - 1 - Z.to_nat 0)%nat with
    (length (m_blockInfo s)) by (rewrite length_app; simpl; lia).
  rewrite list_lookup_middle by done.
  cbn [BlockInfo.m_vmStack BlockInfo.m_blockType BlockInfo.m_byteCodeGenerationStopped
       BlockInfo.m_jumpToEndBrInfo BlockInfo.m_shouldRestoreVMStackAtEnd
       BlockInfo.m_returnValueType].
  rewrite Z.ltb_irrefl.
  cbn. destruct s. reflexivity.
Qed.

Lemma pops_shorten n : forall s s',
  repeatM n (popVMStack ;; ret tt) s = Some (tt, s') ->
  length (m_vmStack s') = (length (m_vmStack s) - n)%nat.
Proof.
  induction n as [|n IH]; intros s s' H; simpl in H.
  - inv_run. lia.
  - apply bind_Some in H as ([] & s1 & H1 & H). apply IH in H. rewrite H.
    unfold popVMStack in H1. inv_run.
    match goal with H : popVMStackInfo _ = Some _ |- _ =>
      apply popVMStackInfo_Some in H as (Hl & Hs & _) end.
    rewrite Hs. apply last_Some_removelast in Hl. rewrite Hl at 2.
    rewrite length_app. simpl. lia.
Qed.

(** X10. Stopping the generation twice is stopping it once:
    [stopToGenerateByteCodeWhileBlockEnd] run a second time changes nothing
    (inside a block it finds the resume counter set and returns; at
    function level it finds the shadow stack already empty), and it fails
    only where the first run fails. *)
Theorem stopping_twice_is_stopping_once s :
  (stopToGenerateByteCodeWhileBlockEnd ;; stopToGenerateByteCodeWhileBlockEnd) s
  = stopToGenerateByteCodeWhileBlockEnd s.
Proof.
  unfold bind at 1.
  destruct (stopToGenerateByteCodeWhileBlockEnd s) as [[[] s1]|] eqn:E; [|done].
  unfold stopToGenerateByteCodeWhileBlockEnd in E.
  apply bind_Some in E as (resume & s0 & E0 & E). apply gets_Some in E0 as [-> ->].
  destruct (m_resumeGenerateByteCodeAfterNBlockEnd s =? 0) eqn:Er; simpl in E.
  - apply bind_Some in E as (blocks & s0 & E0 & E). apply gets_Some in E0 as [-> ->].
    apply bind_Some in E as ([] & s2 & E2 & E). apply modify_Some in E. subst s1.
    destruct (0 <? size (m_blockInfo s)) eqn:Eb.
    + (* inside a block: the second call finds the counter set *)
      assert (m_resumeGenerateByteCodeAfterNBlockEnd s2 = 1) as Hr.
      { apply bind_Some in E2 as ([] & s3 & E3 & E2). apply modify_Some in E3. subst s3.
        revert E2. match goal with |- ?m ?s3 = _ -> _ =>
          assert (Preserves (fun st => m_resumeGenerateByteCodeAfterNBlockEnd st = 1) m)
            as Hp by pres;
          intros E2; exact (Hp _ _ _ E2 eq_refl) end. }
      unfold stopToGenerateByteCodeWhileBlockEnd, bind, gets. cbn. by rewrite Hr.
    + (* at function level: the second call finds the stack empty *)
      apply bind_Some in E2 as (stack & s0 & E0 & E2). apply gets_Some in E0 as [-> ->].
      pose proof (pops_shorten _ _ _ E2) as Hlen.
      assert (m_vmStack s2 = []) as Hnil by (apply length_zero_iff_nil; lia).
      assert (m_resumeGenerateByteCodeAfterNBlockEnd s2 = 0
              /\ m_blockInfo s2 = m_blockInfo s) as [Hr Hbl].
      { split.
        - assert (Preserves (fun st => m_resumeGenerateByteCodeAfterNBlockEnd st
                                       = m_resumeGenerateByteCodeAfterNBlockEnd s)
                    (repeatM (length (m_vmStack s)) (popVMStack ;; ret tt))) as Hp by pres.
          rewrite (Hp _ _ _ E2 eq_refl). by apply Z.eqb_eq.
        - assert (Preserves (fun st => m_blockInfo st = m_blockInfo s)
                    (repeatM (length (m_vmStack s)) (popVMStack ;; ret tt))) as Hp by pres.
          exact (Hp _ _ _ E2 eq_refl). }
      unfold stopToGenerateByteCodeWhileBlockEnd, bind, gets. cbn.
      rewrite Hr. cbn. rewrite Hbl, Eb. cbn. rewrite Hnil. reflexivity.
  - inv_run. unfold stopToGenerateByteCodeWhileBlockEnd, bind, gets. by rewrite Er.
Qed.

End Pairs.

(** The theorem at work: behind the [local.get 0] of a function of type
    [(i32) -> ()], an [i32.eqz] from offset 0 to offset 4 and a branch on
    offset 4. *)
Lemma eqz_push_then_rewind_witness :
  exists s,
    exec (@Decoder.walkPrefix Sample.layout Sample.sort 1 Inputs.eqzInBlock []
            1 7 Inputs.eqzBrIf_body)
         (@new Sample.layout Inputs.eqzBrIf_data Inputs.emptyResult) = Some s
    /\ (@pushByteCode Sample.layout (ByteCode.UnaryOperation WASMOpcode.I32Eqz 0 4) ;;
        inverted <- @canBeInverted Sample.layout 4 ;;
        if inverted then pos <- @rewindI32Eqz Sample.layout ;; ret (Some pos)
        else ret None) s
       = Some (Some 0, set_m_lastI32EqzPos (@s_noI32Eqz Sample.layout) s).
Proof.
  evar (s0 : t). exists s0.
  split; [unfold s0; vm_compute; reflexivity|].
  apply (@eqz_push_then_rewind Sample.layout 0 4 4 s0).
  vm_compute. reflexivity.
Defined.

End Compose.

(** ** Writes and the needs-init flag *)

Module Shield.

Import WASMBinaryReader MonadFacts HandlerFacts InitFlag.

#[local] Open Scope M_scope.

#[local] Arguments flagOf : simpl never.

Section Writes.
Context {L : Layout} {Srt : StdSort}.

Lemma modifyLocalVariableInfo_flag li v i f :
  (forall info, LocalVariableInfo.m_needsExplicitInitOnStartup (f info)
                = LocalVariableInfo.m_needsExplicitInitOnStartup info) ->
  Preserves (fun s => needsExplicitInit s li = v) (modifyLocalVariableInfo i f).
Proof.
  intros Hf s a s' H HP. unfold modifyLocalVariableInfo in H. inv_run.
  unfold needsExplicitInit, flagOf in *. cbn.
  erewrite at_alterAt by eassumption.
  destruct decide; [|done]. subst.
  destruct (at_ _ i) as [info|]; [|done]. simpl in *. by rewrite Hf.
Qed.

#[local] Hint Extern 1 (Preserves _ (modifyLocalVariableInfo _ _)) =>
  apply modifyLocalVariableInfo_flag; intros; reflexivity : pres.

Lemma popVMStackInfo_flag li v :
  Preserves (fun s => needsExplicitInit s li = v) popVMStackInfo.
Proof. pres. Qed.

Lemma pushByteCode_flag li v c :
  Preserves (fun s => needsExplicitInit s li = v) (pushByteCode c).
Proof. pres. Qed.

Lemma popVMStackInfo_inPreprocess b :
  Preserves (fun s => PreprocessData.m_inPreprocess (m_preprocessData s) = b)
    popVMStackInfo.
Proof. pres. Qed.

Lemma alterAt_at {A} (f : A -> A) i (l l' : list A) :
  alterAt f i l = Some l' -> exists x, at_ l i = Some x.
Proof.
  unfold alterAt, at_. destruct ((0 <=? i) && (i <? Z.of_nat (length l))) eqn:E;
    [|discriminate].
  intros _. apply andb_prop in E as [E1 E2].
  apply lookup_lt_is_Some. lia.
Qed.

(** A write leaves the flag of the local alone and records a write place
    since the last branch. *)
Lemma addLocalVariableWrite_Some li s s' :
  PreprocessData.m_inPreprocess (m_preprocessData s) = true ->
  addLocalVariableWrite li s = Some (tt, s') ->
  exists info,
    at_ (PreprocessData.m_localVariableInfo (m_preprocessData s')) li = Some info
    /\ (forall pos, unwrittenAt pos info = false)
    /\ needsExplicitInit s' li = needsExplicitInit s li
    /\ PreprocessData.m_inPreprocess (m_preprocessData s') = true
    /\ m_localInfo s' = m_localInfo s.
Proof.
  intros HinP H. unfold addLocalVariableWrite in H. inv_run.
  rewrite HinP in H. unfold when, modifyLocalVariableInfo in H. inv_run.
  match goal with H : alterAt _ _ _ = Some _ |- _ => rename H into Ha end.
  pose proof (at_alterAt _ _ li _ _ Ha) as Hat. rewrite decide_True in Hat by done.
  destruct (alterAt_at _ _ _ _ Ha) as (info0 & E0). rewrite E0 in Hat.
  match type of Ha with alterAt ?f _ _ = _ => set (f0 := f) in * end.
  exists (f0 info0). split; [exact Hat|].
  split.
  { intros pos. unfold unwrittenAt, f0.
    cbn [LocalVariableInfo.m_writePlacesBetweenBranches
         LocalVariableInfo.set_m_writePlacesBetweenBranches].
    match goal with |- (size (?l ++ [?x]) =? 0) && _ = false =>
      assert ((size (l ++ [x]) =? 0) = false) as ->
        by (apply Z.eqb_neq; unfold size; rewrite length_app; simpl; lia) end.
    reflexivity. }
  split.
  { unfold needsExplicitInit, flagOf.
    cbn [m_preprocessData set_m_preprocessData PreprocessData.m_localVariableInfo
         PreprocessData.set_m_localVariableInfo].
    rewrite Hat, E0. unfold f0. cbn. by case_match. }
  split; [exact HinP | reflexivity].
Qed.

(** X11. In the preprocess pass a [local.set] shields the reads that follow
    it: a [local.get] of the same local delivered next, at whatever read
    offset, leaves the needs-init flag of the local as it was before the
    write, because the write is recorded in the write places since the
    last branch. *)
Theorem write_shields_later_reads li o s s1 s2 :
  0 <= li < 2 ^ 32 ->
  PreprocessData.m_inPreprocess (m_preprocessData s) = true ->
  OnLocalSetExpr li s = Some (tt, s1) ->
  OnLocalGetExpr li (set_readerOffset o s1) = Some (tt, s2) ->
  needsExplicitInit s2 li = needsExplicitInit s li.
Proof.
  intros Hli HinP Hset Hget.
  assert (li <> SIZE_MAX) as Hmax by (unfold SIZE_MAX; lia).
(* the write *)
unfold OnLocalSetExpr in Hset.
apply bind_Some in Hset as (linfo & s0 & G0 & Hset).
unfold localInfo in G0.
apply bind_Some in G0 as (linfos & s00 & G00 & G0).
apply gets_Some in G00 as [-> ->]. apply lift_Some in G0 as [_ ->].
apply bind_Some in Hset as (src & sa & Ga & Hset).
apply bind_Some in Hset as ([] & sb & Gb & Hset).
assert (needsExplicitInit sb li = needsExplicitInit s li
        /\ PreprocessData.m_inPreprocess (m_preprocessData sb) = true) as [Hfb Hpb].
{ split.
  - assert (Preserves (fun st => needsExplicitInit st li = needsExplicitInit s li)
              (generateMoveCodeIfNeeds (VMStackInfo.position src)
                 (LocalInfo.m_position linfo) (VMStackInfo.valueType src))) as Hp
      by pres.
    apply (Hp _ _ _ Gb).
    exact (popVMStackInfo_flag li _ _ _ _ Ga eq_refl).
  - assert (Preserves
              (fun st => PreprocessData.m_inPreprocess (m_preprocessData st) = true)
              (generateMoveCodeIfNeeds (VMStackInfo.position src)
                 (LocalInfo.m_position linfo) (VMStackInfo.valueType src))) as Hp
      by pres.
    apply (Hp _ _ _ Gb).
    exact (popVMStackInfo_inPreprocess true _ _ _ Ga HinP). }
destruct (addLocalVariableWrite_Some li sb s1 Hpb Hset)
  as (info1 & Hat1 & Hw1 & Hf1 & Hp1 & _).
rewrite <- Hfb, <- Hf1.
(* the read *)
set (s1' := set_readerOffset o s1) in *.
assert (exists s3, addLocalVariableUsage li s1' = Some (tt, s3)
                   /\ m_preprocessData s2 = m_preprocessData s3)
  as (s3 & H3 & Hp3).
{ unfold OnLocalGetExpr in Hget. inv_run. case_match.
  - by eapply Collector.pushVMStack_local.
  - inv_run.
    match goal with H : pushVMStack _ _ _ _ = Some _ |- _ =>
      apply Collector.pushVMStack_local in H as (s4 & Hu & Hp); [|done] end.
    exists s4. split; [exact Hu|]. rewrite <- Hp.
    by eapply generateMoveCodeIfNeeds_preprocessData. }
destruct (Collector.addLocalVariableUsage_Some li s1' s3 info1 Hp1 Hat1 H3)
  as [Hflag _].
unfold needsExplicitInit in *. rewrite Hp3, Hflag, Hw1, orb_false_r.
unfold flagOf. cbn. by rewrite Hat1.
Qed.

End Writes.

(** The theorem at work: in the preprocess pass of a function of type
    [() -> ()] with one i32 local, [i32.const 7; local.set 0; local.get 0]:
    the flag of local 0 stays clear. *)
Lemma write_shields_later_reads_witness :
  exists s s1 s2,
    exec (WASMBinaryReader.BeginFunctionBody (ModuleFunction.new (FunctionType.mk [] [])) ;;
          OnLocalDecl 1 Type_.I32 ;;
          OnStartPreprocess ;;
          modify (set_readerOffset 5) ;;
          @OnI32ConstExpr Sample.layout Sample.sort 7 ;;
          modify (set_readerOffset 7))
         (@new Sample.layout [1; 1; 127; 65; 7; 33; 0; 32; 0; 26; 11] Inputs.emptyResult)
    = Some s
    /\ @OnLocalSetExpr Sample.layout 0 s = Some (tt, s1)
    /\ @OnLocalGetExpr Sample.layout 0 (set_readerOffset 9 s1) = Some (tt, s2)
    /\ needsExplicitInit s 0 = Some false
    /\ needsExplicitInit s2 0 = needsExplicitInit s 0.
Proof.
  evar (s0 : t). evar (s1 : t). evar (s2 : t). exists s0, s1, s2.
  split; [unfold s0; vm_compute; reflexivity|].
  split; [unfold s1; vm_compute; reflexivity|].
  split; [unfold s2; vm_compute; reflexivity|].
  split; [reflexivity|].
  apply (@write_shields_later_reads Sample.layout 0 9 s0 s1 s2).
  - lia.
  - reflexivity.
  - vm_compute. reflexivity.
  - vm_compute. reflexivity.
Defined.

End Shield.

(** ** The shell *)

Module ShellFacts.

Import Ascii Shell Decimal.

#[local] Open Scope char_scope.

(** X12. [endsWith] holds exactly when the string is some front part
    followed by the suffix; in particular every string ends with the empty
    suffix and with itself, and no string ends with a longer one. *)
Theorem endsWith_iff_suffix (str suffix : Shell.string) :
  endsWith str suffix = true <-> exists front, str = front ++ suffix.
Proof.
  unfold endsWith, compareAt. rewrite andb_true_iff, !bool_decide_eq_true. split.
  - intros [Hlen Heq].
    exists (take (length str - length suffix) str).
    rewrite take_ge in Heq by (rewrite length_drop; lia).
    transitivity (take (length str - length suffix) str
                  ++ drop (length str - length suffix) str);
      [by rewrite take_drop | by rewrite Heq].
  - intros [front ->]. rewrite length_app. split; [lia|].
    replace (length front + length suffix - length suffix)%nat with (length front) by lia.
    rewrite drop_app_length. by rewrite firstn_all.
Qed.

Lemma find_None c s : find c s = None <-> c ∉ s.
Proof.
  induction s as [|d s IH]; simpl.
  - split; [intros _; apply not_elem_of_nil | done].
  - case_bool_decide as E.
    + subst. split; [done|]. intros H. exfalso. apply H. by left.
    + rewrite not_elem_of_cons. destruct (find c s); simpl.
      * split; [done|]. intros [_ H]. by apply IH in H.
      * split; [|done]. intros _. split; [congruence|]. by apply IH.
Qed.

Lemma find_Some c s pos :
  find c s = Some pos -> s = take pos s ++ c :: drop (S pos) s /\ c ∉ take pos s.
Proof.
  revert pos. induction s as [|d s IH]; intros pos; simpl; [done|].
  case_bool_decide as E.
  - intros H. inversion H; subst. simpl. rewrite drop_0. split; [done|]. apply not_elem_of_nil.
  - destruct (find c s) as [p|] eqn:Ef; [|done]. simpl. intros H. inversion H; subst.
    destruct (IH p eq_refl) as [IH1 IH2]. simpl. split; [by rewrite <- IH1|].
    rewrite not_elem_of_cons. split; [congruence|done].
Qed.

Lemma find_app_notin c front back :
  c ∉ front -> find c (front ++ back) = (fun n => (length front + n)%nat) <$> find c back.
Proof.
  induction front as [|d front IH]; intros Hn; simpl.
  - by destruct (find c back).
  - apply not_elem_of_cons in Hn as [Hne Hn]. rewrite bool_decide_false by congruence.
    rewrite IH by done. by destruct (find c back).
Qed.

Lemma dropZeros_zeros t : forall k fuel,
  find "." t <> None -> last t <> Some "0" -> (k <= fuel)%nat ->
  dropZeros fuel (t ++ replicate k "0") = t.
Proof.
  induction k as [|k IH]; intros fuel Hdot Hlast Hk; simpl.
  - rewrite app_nil_r. destruct fuel as [|fuel]; [done|]. simpl.
    rewrite (bool_decide_false (last t = Some "0")) by done.
    by rewrite andb_false_r.
  - destruct fuel as [|fuel]; [lia|].
    change ("0" :: replicate k "0") with (replicate (S k) "0").
    rewrite replicate_S_end, app_assoc. cbn [dropZeros].
    rewrite last_snoc, removelast_last.
    rewrite (bool_decide_true (Some "0" = Some "0")) by done. rewrite andb_true_r.
    rewrite bool_decide_true.
    + apply IH; [done|done|lia].
    + rewrite <- app_assoc.
      destruct (find "." t) as [p|] eqn:E; [|done].
      apply find_Some in E as [E _]. rewrite E. rewrite <- !app_assoc. simpl.
      intros Hn. apply find_None in Hn. apply Hn.
      apply elem_of_app. right. by left.
Qed.

Lemma group_shift r : forall cnt, group (cnt + 3) r = group cnt r.
Proof.
  induction r as [|c r IH]; intros cnt; [done|]. cbn [group].
  replace (S (cnt + 3)) with (S cnt + 3)%nat by lia.
  rewrite IH.
  replace ((S cnt + 3) mod 3)%nat with (S cnt mod 3)%nat; [done|].
  rewrite Nat.Div0.add_mod. rewrite Nat.Div0.mod_same, Nat.add_0_r.
  by rewrite Nat.Div0.mod_mod.
Qed.

Lemma group_groupsOfThree n : forall digits,
  (length digits <= n)%nat -> group 0 digits = groupsOfThree digits.
Proof.
  induction n as [|n IH]; intros digits Hn.
  - destruct digits; [done | simpl in Hn; lia].
  - destruct digits as [|a [|b [|c rest]]]; try done.
    simpl in Hn. destruct rest as [|d rest]; [done|].
    change (group 0 (a :: b :: c :: d :: rest))
      with (a :: b :: c :: "_" :: group (0 + 3) (d :: rest)).
    rewrite group_shift. rewrite IH by (simpl in *; lia). reflexivity.
Qed.

(** X13. What [formatDecmialString] makes of a decimal string: the zeros at
    the end of the fraction go; if no digit is left behind the point, the
    point goes too and the integer part is the result; otherwise the
    integer part and the point stay and the digits of the fraction come in
    groups of three separated by ['_'], with no separator at the end. *)
Theorem formatDecmialString_decimal (int frac : Shell.string) (k : nat) :
  "." ∉ int -> "." ∉ frac -> last frac <> Some "0" ->
  formatDecmialString (int ++ "." :: frac ++ replicate k "0")
  = if bool_decide (frac = []) then int else int ++ "." :: groupsOfThree frac.
Proof.
  intros Hint Hfrac Hlast. unfold formatDecmialString.
  assert (find "." (int ++ "." :: frac) = Some (length int)) as Hfind.
  { rewrite find_app_notin by done. cbn [find]. rewrite bool_decide_true by done.
    simpl. f_equal. lia. }
  replace (int ++ "." :: frac ++ replicate k "0")
    with ((int ++ "." :: frac) ++ replicate k "0") by (by rewrite <- app_assoc).
  rewrite dropZeros_zeros.
  - destruct (decide (frac = [])) as [->|Ef].
    + rewrite (bool_decide_true (@nil ascii = [])) by done.
      rewrite last_snoc, bool_decide_true by done.
      rewrite removelast_last.
      by rewrite (proj2 (find_None "." int) Hint).
    + rewrite (bool_decide_false (frac = [])) by done.
      assert (last (int ++ "." :: frac) = last frac) as El.
      { destruct frac as [|c frac] using rev_ind; [done|].
        change (int ++ "." :: frac ++ [c]) with (int ++ ("." :: frac) ++ [c]).
        by rewrite app_assoc, !last_snoc. }
      rewrite bool_decide_false.
      * rewrite Hfind. rewrite take_app_length.
        replace (S (length int)) with (length (int ++ ["."])) by (rewrite length_app; simpl; lia).
        replace (int ++ "." :: frac) with ((int ++ ["."]) ++ frac) by (by rewrite <- app_assoc).
        rewrite drop_app_length.
        by rewrite (group_groupsOfThree (length frac)).
      * rewrite El. intros H. destruct frac as [|c frac] using rev_ind; [done|].
        rewrite last_snoc in H. inversion H; subst.
        apply Hfrac. apply elem_of_app. right. by left.
  - by rewrite Hfind.
  - destruct frac as [|c frac] using rev_ind.
    + by rewrite last_snoc.
    + change (int ++ "." :: frac ++ [c]) with (int ++ ("." :: frac) ++ [c]).
      rewrite app_assoc, last_snoc. by rewrite last_snoc in Hlast.
  - rewrite length_app, length_replicate. lia.
Qed.

(** X14. A string without a point, such as [inf], [nan] or an integer
    (even one that ends in zeros), is returned as it is. *)
Theorem formatDecmialString_without_point (s : Shell.string) :
  "." ∉ s -> formatDecmialString s = s.
Proof.
  intros Hs. unfold formatDecmialString.
  assert (dropZeros (length s) s = s) as ->.
  { destruct (length s); [done|]. simpl.
    rewrite (proj2 (find_None "." s) Hs).
    by rewrite bool_decide_false by (intros H; by apply H). }
  rewrite bool_decide_false.
  - by rewrite (proj2 (find_None "." s) Hs).
  - intros Hl. apply Hs. destruct s as [|c s] using rev_ind; [done|].
    rewrite last_snoc in Hl. inversion Hl. apply elem_of_app. right. by left.
Qed.

#[local] Open Scope Z_scope.

Lemma land_mask s m e : Z.land s m = m -> Z.land m e = e -> Z.land s e = e.
Proof. intros Hm He. by rewrite <- He, Z.land_assoc, Hm. Qed.

(** X15. On the bits of a float or a double: every canonical NaN is an
    arithmetic NaN, and whatever [isArithmeticNan] accepts is a NaN (all
    exponent bits set, mantissa not zero) whose quiet bit is set. *)
Theorem arithmetic_nan_is_a_quiet_nan (s : Z) :
  (isCanonicalNan32 s = true -> isArithmeticNan32 s = true)
  /\ (isArithmeticNan32 s = true ->
      Z.land s 0x7f800000 = 0x7f800000 /\ Z.land s 0x007fffff <> 0
      /\ Z.testbit s 22 = true)
  /\ (isCanonicalNan64 s = true -> isArithmeticNan64 s = true)
  /\ (isArithmeticNan64 s = true ->
      Z.land s 0x7ff0000000000000 = 0x7ff0000000000000
      /\ Z.land s 0x000fffffffffffff <> 0
      /\ Z.testbit s 51 = true).
Proof.
  unfold isCanonicalNan32, isArithmeticNan32, isCanonicalNan64, isArithmeticNan64.
  repeat split.
  - intros H. apply orb_prop in H as [H|H]; apply Z.eqb_eq in H; by subst.
  - apply Z.eqb_eq in H. by apply (land_mask s _ _ H).
  - apply Z.eqb_eq in H. intros H0.
    pose proof (land_mask s _ 0x400000 H eq_refl) as Hq.
    assert (Z.land (Z.land s 0x007fffff) 0x400000 = 0x400000) as Hc
      by (by rewrite <- Z.land_assoc).
    rewrite H0 in Hc. discriminate Hc.
  - apply Z.eqb_eq in H.
    pose proof (land_mask s _ 0x400000 H eq_refl) as Hq.
    assert (Z.testbit (Z.land s 0x400000) 22 = true) as Hb by (by rewrite Hq).
    rewrite Z.land_spec in Hb. by apply andb_prop in Hb as [Hb _].
  - intros H. apply orb_prop in H as [H|H]; apply Z.eqb_eq in H; by subst.
  - apply Z.eqb_eq in H. by apply (land_mask s _ _ H).
  - apply Z.eqb_eq in H. intros H0.
    pose proof (land_mask s _ 0x8000000000000 H eq_refl) as Hq.
    assert (Z.land (Z.land s 0x000fffffffffffff) 0x8000000000000 = 0x8000000000000) as Hc
      by (by rewrite <- Z.land_assoc).
    rewrite H0 in Hc. discriminate Hc.
  - apply Z.eqb_eq in H.
    pose proof (land_mask s _ 0x8000000000000 H eq_refl) as Hq.
    assert (Z.testbit (Z.land s 0x8000000000000) 51 = true) as Hb by (by rewrite Hq).
    rewrite Z.land_spec in Hb. by apply andb_prop in Hb as [Hb _].
Qed.

#[local] Close Scope Z_scope.

Lemma parseLoop_in_range n : forall back rest p,
  (length rest <= n)%nat ->
  (rest <> [] -> last rest = Some back) ->
  parseLoop back rest p <> PastTheEnd.
Proof.
  induction n as [|n IH]; intros back rest p Hn Hback.
  - destruct rest; [done | simpl in Hn; lia].
  - destruct rest as [|arg rest]; [done|]. simpl in Hn. cbn [parseLoop].
    case_bool_decide as Eopt.
    + case_bool_decide as Eback; [done|].
      destruct rest as [|value rest].
      * exfalso. apply Eback. specialize (Hback ltac:(done)). by inversion Hback.
      * apply IH; [simpl in Hn; lia|]. intros Hne. specialize (Hback ltac:(done)).
        destruct rest as [|x rest]; [done|]. exact Hback.
    + destruct (isSourceFile arg); [|done].
      apply IH; [lia|]. intros Hne. specialize (Hback ltac:(done)).
      destruct rest as [|x rest]; [done|]. exact Hback.
Qed.

(** X16. [parseArguments] never moves its iterator behind the last
    argument: the test [*it == args.back()] before [std::advance] is
    enough, whatever the arguments are. *)
Theorem parseArguments_stays_in_range args p :
  parseArguments args p <> PastTheEnd.
Proof.
  unfold parseArguments.
  pose proof (parseLoop_in_range (length args) (default [] (last args)) args p
                ltac:(lia)) as H.
  destruct (parseLoop _ args p) eqn:E; try done.
  - by case_bool_decide.
  - exfalso. apply H; [|done]. intros Hne.
    destruct args as [|a args] using rev_ind; [done|]. by rewrite last_snoc.
Qed.

Lemma parseLoop_Parsed n : forall back rest p0 p,
  (length rest <= n)%nat ->
  parseLoop back rest p0 = Parsed p ->
  exists files,
    fileNames p = fileNames p0 ++ files
    /\ files `sublist_of` rest
    /\ Forall (fun f => isSourceFile f = true) files
    /\ (exportToRun p = exportToRun p0
        \/ exists front tail,
             rest = front ++ runExportOption :: exportToRun p :: tail).
Proof.
  induction n as [|n IH]; intros back rest p0 p Hn H.
  - destruct rest; [|simpl in Hn; lia]. inversion H; subst.
    exists []. rewrite app_nil_r. repeat split; [constructor | constructor | by left].
  - destruct rest as [|arg rest].
    { inversion H; subst. exists []. rewrite app_nil_r.
      repeat split; [constructor | constructor | by left]. }
    simpl in Hn. cbn [parseLoop] in H.
    case_bool_decide as Eopt.
    + case_bool_decide as Eback; [done|].
      destruct rest as [|value rest]; [done|].
      apply IH in H as (files & Hf & Hsub & Hall & Hexp); [|simpl in Hn; lia].
      exists files. split; [exact Hf|]. split; [by do 2 apply sublist_cons|].
      split; [exact Hall|]. right. destruct Hexp as [Hexp | (front & tail & ->)].
      * simpl in Hexp. exists [], rest. subst arg. by rewrite Hexp.
      * exists (arg :: value :: front), tail. reflexivity.
    + destruct (isSourceFile arg) eqn:Esrc; [|done].
      apply IH in H as (files & Hf & Hsub & Hall & Hexp); [|lia].
      exists (arg :: files). simpl in Hf. rewrite <- app_assoc in Hf.
      split; [exact Hf|]. split; [by apply sublist_skip|].
      split; [by constructor|].
      destruct Hexp as [Hexp | (front & tail & ->)]; [by left|].
      right. exists (arg :: front), tail. reflexivity.
Qed.

(** X17. When [parseArguments] returns (instead of leaving through
    [exit(1)]), started on an empty [ArgParser]: there is at least one file
    name; the file names are arguments, in the order given; each ends in
    [wat], [wast] or [wasm]; and the export to run is empty or the
    argument that follows a [--run-export]. *)
Theorem parseArguments_accepts args p :
  parseArguments args (mkArgParser [] []) = Parsed p ->
  fileNames p <> []
  /\ fileNames p `sublist_of` args
  /\ Forall (fun f => isSourceFile f = true) (fileNames p)
  /\ (exportToRun p = []
      \/ exists front tail, args = front ++ runExportOption :: exportToRun p :: tail).
Proof.
  unfold parseArguments. intros H.
  destruct (parseLoop _ args _) as [q| | | |] eqn:E; try done.
  case_bool_decide as Ef; [done|]. inversion H; subst q.
  apply (parseLoop_Parsed (length args)) in E as (files & Hf & Hsub & Hall & Hexp);
    [|lia].
  simpl in Hf. subst files. done.
Qed.

(** The theorems at work. *)
Lemma formatDecmialString_decimal_witness :
  formatDecmialString ["3"; "."; "1"; "4"; "1"; "5"; "9"; "0"; "0"; "0"]
  = ["3"; "."; "1"; "4"; "1"; "_"; "5"; "9"].
Proof.
  apply (formatDecmialString_decimal ["3"] ["1"; "4"; "1"; "5"; "9"] 3).
  - by apply (proj1 (find_None _ _)).
  - by apply (proj1 (find_None _ _)).
  - discriminate.
Defined.

Lemma formatDecmialString_without_point_witness :
  formatDecmialString ["i"; "n"; "f"] = ["i"; "n"; "f"].
Proof.
  apply formatDecmialString_without_point. by apply (proj1 (find_None _ _)).
Defined.

Lemma arithmetic_nan_is_a_quiet_nan_witness :
  isArithmeticNan32 0xffc00000 = true.
Proof.
  apply (proj1 (arithmetic_nan_is_a_quiet_nan 0xffc00000)). reflexivity.
Defined.

Lemma parseArguments_accepts_witness :
  exists p,
    parseArguments
      [runExportOption; ["m"; "a"; "i"; "n"]; ["a"; "."; "w"; "a"; "s"; "m"]]
      (mkArgParser [] []) = Parsed p
    /\ fileNames p <> []
    /\ Forall (fun f => isSourceFile f = true) (fileNames p).
Proof.
  eexists. split; [vm_compute; reflexivity|].
  match goal with |- fileNames ?p <> [] /\ _ =>
    destruct (parseArguments_accepts
                [runExportOption; ["m"; "a"; "i"; "n"]; ["a"; "."; "w"; "a"; "s"; "m"]] p)
      as (H1 & _ & H3 & _); [vm_compute; reflexivity|] end.
  split; [exact H1 | exact H3].
Defined.

End ShellFacts.


(** ** The slot allocator *)

Module InPlace.

Import Allocator Elements.

#[local] Open Scope A_scope.

Lemma settled_refl h : settled h h.
Proof. split; [reflexivity | done]. Qed.

Lemma settled_trans h1 h2 h3 : settled h1 h2 -> settled h2 h3 -> settled h1 h3.
Proof. intros [P1 I1] [P2 I2]. split; [by etrans | auto]. Qed.

Lemma steady_ret {T} (x : T) : Steady (aret x).
Proof. intros f y f' H. injection H as <- <-. apply settled_refl. Qed.

Lemma steady_get {T} (g : Frame -> T) : Steady (aget g).
Proof. intros f y f' H. injection H as <- <-. apply settled_refl. Qed.

Lemma steady_undefined {T} : Steady (@undefined T).
Proof. intros f y f' H. discriminate H. Qed.

Lemma steady_bind {T U} (m : A T) (k : T -> A U) :
  Steady m -> (forall x, Steady (k x)) -> Steady (abind m k).
Proof.
  intros Hm Hk f y f' H. unfold abind in H.
  destruct (m f) as [[x f1]|] eqn:E; [|done].
  eapply settled_trans; [by eapply Hm | by eapply Hk].
Qed.

Lemma steady_amod g :
  (forall f, settled (heap f) (heap (g f))) -> Steady (amod g).
Proof. intros Hg f y f' H. injection H as <- <-. apply Hg. Qed.

Lemma steady_awhen b m : Steady m -> Steady (awhen b m).
Proof. intros Hm. destruct b; [exact Hm | apply steady_ret]. Qed.

Lemma steady_load p : Steady (load p).
Proof.
  unfold load. apply steady_bind; [apply steady_get|]. intros h.
  destruct p; try apply steady_undefined; [|apply steady_ret].
  destruct (slots h !! i); [apply steady_ret | apply steady_undefined].
Qed.

Lemma map_alter_same {X Y} (k : X -> Y) (g : X -> X) i l :
  (forall e, k (g e) = k e) -> map k (alter g i l) = map k l.
Proof.
  intros Hg. revert i. induction l as [|e l IH]; intros [|i]; simpl; try done.
  - by rewrite Hg.
  - f_equal. apply IH.
Qed.

Lemma settled_alter g i sl un :
  (forall e, placeOf (g e) = placeOf e) ->
  settled (mkHeap sl un) (mkHeap (alter g i sl) un).
Proof.
  intros Hg. split.
  - unfold places. simpl. by rewrite map_alter_same.
  - unfold indexed. simpl. intros HI j e Hj.
    destruct (decide (i = j)) as [->|Hne].
    + rewrite list_lookup_alter_eq in Hj.
      destruct (sl !! j) as [e0|] eqn:E; [|done].
      simpl in Hj. injection Hj as <-.
      specialize (Hg e0). unfold placeOf in Hg. injection Hg as _ ->. by apply HI.
    + rewrite list_lookup_alter_ne in Hj by done. by apply HI.
Qed.

Lemma steady_store p g :
  (forall e, placeOf (g e) = placeOf e) -> Steady (store p g).
Proof.
  intros Hg f y f' H. unfold store, abind, aget, amod, undefined in H.
  destruct f as [[sl un] r off f32 f64 f128]. simpl in *.
  destruct p; try discriminate H.
  - destruct (sl !! i); [|discriminate H]. injection H as <- <-. simpl.
    by apply settled_alter.
  - injection H as <- <-. simpl. split; [reflexivity | done].
Qed.

Lemma steady_setNext p q : Steady (setNext p q).
Proof. by apply steady_store. Qed.

Lemma steady_setPrev p q : Steady (setPrev p q).
Proof. by apply steady_store. Qed.

Lemma steady_slotsSize : Steady slotsSize.
Proof.
  apply steady_bind; [apply steady_get | intros; apply steady_ret].
Qed.

Lemma steady_slotAt k : Steady (slotAt k).
Proof.
  apply steady_bind; [apply steady_slotsSize|]. intros n.
  destruct (_ && _); [apply steady_ret | apply steady_undefined].
Qed.

Lemma steady_getNext p : Steady (getNext p).
Proof. apply steady_bind; [apply steady_load | intros; apply steady_ret]. Qed.

Lemma steady_getPrev p : Steady (getPrev p).
Proof. apply steady_bind; [apply steady_load | intros; apply steady_ret]. Qed.

Lemma steady_getPos p : Steady (getPos p).
Proof. apply steady_bind; [apply steady_load | intros; apply steady_ret]. Qed.

Lemma steady_getIdx p : Steady (getIdx p).
Proof. apply steady_bind; [apply steady_load | intros; apply steady_ret]. Qed.

Lemma steady_setFree32 p : Steady (setFree32 p).
Proof. apply steady_amod. intros; apply settled_refl. Qed.

Lemma steady_setFree64 p : Steady (setFree64 p).
Proof. apply steady_amod. intros; apply settled_refl. Qed.

Lemma steady_setFree128 p : Steady (setFree128 p).
Proof. apply steady_amod. intros; apply settled_refl. Qed.

Lemma steady_setRange g : Steady (setRange g).
Proof. apply steady_amod. intros; apply settled_refl. Qed.

Create HintDb steady discriminated.

#[local] Hint Resolve steady_ret steady_get steady_undefined steady_load
  steady_setNext steady_setPrev steady_slotsSize steady_slotAt steady_getNext
  steady_getPrev steady_getPos steady_getIdx steady_setFree32 steady_setFree64
  steady_setFree128 steady_setRange : steady.

Ltac steady_step :=
  lazymatch goal with
  | |- Steady (abind _ _) => apply steady_bind; [|intros ?]
  | |- Steady (awhen _ _) => apply steady_awhen
  | |- Steady (if ?b then _ else _) => destruct b
  | |- Steady (match ?x with _ => _ end) => destruct x
  end.

Ltac steady := repeat first [solve [eauto 2 with steady nocore] | steady_step].

Lemma steady_markSlots k is_ q : Steady (markSlots k is_ q).
Proof. induction is_ as [|i r IH]; simpl; steady. Qed.

Lemma steady_pushFree128 p : Steady (pushFree128 p).
Proof. unfold pushFree128. steady. Qed.

Lemma steady_pushFree32 p : Steady (pushFree32 p).
Proof. unfold pushFree32. steady. Qed.

Lemma steady_unlink a b c : Steady (unlink a b c).
Proof. unfold unlink. steady. Qed.

Lemma steady_assign p : Steady (assign p).
Proof. unfold assign. steady. Qed.

Lemma steady_newElement : Steady newElement.
Proof.
  intros f y f' H. unfold newElement, abind, aget, amod, aret in H.
  injection H as <- <-. simpl. split.
  - unfold places. simpl. rewrite map_app. by apply prefix_app_r.
  - unfold indexed. simpl. intros HI i e Hi.
    destruct (decide (i < length (slots (heap f)))%nat) as [Hlt|Hge].
    + rewrite lookup_app_l in Hi by done. by apply HI.
    + rewrite lookup_app_r in Hi by lia.
      destruct (i - length (slots (heap f)))%nat eqn:E; [|by destruct n].
      simpl in Hi. injection Hi as <-. simpl. f_equal. lia.
Qed.

#[local] Hint Resolve steady_markSlots steady_pushFree128 steady_pushFree32
  steady_unlink steady_assign steady_newElement : steady.

Lemma steady_deallocateLocal : Steady deallocateLocal.
Proof. unfold deallocateLocal. steady. Qed.

Lemma steady_allocateLocal : Steady allocateLocal.
Proof. unfold allocateLocal. steady. Qed.


Lemma call_settled callee h r off a b c h' r' off' :
  Steady callee ->
  call callee h r off a b c = Some (h', r', off') -> settled h h'.
Proof.
  intros Hc H. unfold call in H.
  destruct (callee _) as [[[] f]|] eqn:E; [|done].
  injection H as <- <- <-. by apply Hc in E.
Qed.

Lemma visit_settled i h off kr h' off' kr' :
  visit i (h, off) kr = Some (h', off', kr') -> settled h h'.
Proof.
  unfold visit. destruct (_ =? _).
  { intros H. injection H as <- <- <-. apply settled_refl. }
  intros H.
  apply bind_Some in H as ([[h1 r1] off1] & H1 & H).
  apply bind_Some in H as ([[h2 r2] off2] & H2 & H).
  injection H as <- <- <-.
  eapply settled_trans.
  - destruct (_ =? _) in H1.
    + eapply call_settled; [apply steady_deallocateLocal | exact H1].
    + injection H1 as <- <- <-. apply settled_refl.
  - destruct (_ && _) in H2.
    + eapply call_settled; [apply steady_allocateLocal | exact H2].
    + injection H2 as <- <- <-. apply settled_refl.
Qed.

Lemma visitAll_settled i vr h off h' off' vr' :
  visitAll i (h, off) vr = Some (h', off', vr') -> settled h h'.
Proof.
  revert h off h' off' vr'.
  induction vr as [|kr vr IH]; intros h off h' off' vr' H; simpl in H.
  - injection H as <- <- <-. apply settled_refl.
  - apply bind_Some in H as ([[h1 off1] kr1] & H1 & H).
    apply bind_Some in H as ([[h2 off2] vr2] & H2 & H).
    injection H as <- <- <-.
    eapply settled_trans; [by eapply visit_settled | by eapply IH].
Qed.

Section Loop.

Context {L : Layout}.

Lemma allocationLoop_settled i buf st st' :
  allocationLoop i buf st = Some st' -> settled (loopHeap st) (loopHeap st').
Proof.
  revert i st. induction buf as [|c buf IH]; intros i st H; simpl in H.
  - injection H as <-. apply settled_refl.
  - apply bind_Some in H as ([[h off] vr] & H1 & H).
    eapply settled_trans; [by eapply visitAll_settled|].
    apply IH in H. exact H.
Qed.

End Loop.

Lemma settled_lookup h h' j e :
  settled h h' -> slots h !! j = Some e ->
  exists e', slots h' !! j = Some e' /\ pos e' = pos e /\ idx e' = idx e.
Proof.
  intros [[k Hk] _] Hj. unfold places in Hk.
  assert ((map placeOf (slots h')) !! j = Some (placeOf e)) as Hp.
  { rewrite Hk. apply lookup_app_l_Some. by rewrite list_lookup_fmap, Hj. }
  rewrite list_lookup_fmap in Hp.
  destruct (slots h' !! j) as [e'|]; [|done].
  simpl in Hp. injection Hp as Hpos Hidx. by exists e'.
Qed.

Lemma preallocateParameters_places params st st' :
  preallocateParameters params st = Some st' ->
  map pos (slots (loopHeap st'))
  = map pos (slots (loopHeap st)) ++ map (fun p => u16 (LocalInfo.m_position p)) params
  /\ (indexed (loopHeap st) -> indexed (loopHeap st')).
Proof.
  revert st. induction params as [|p params IH]; intros st H; simpl in H.
  - injection H as <-. by rewrite app_nil_r.
  - destruct (existsb _ _); [|done].
    apply IH in H as [Hpos Hidx]. simpl in Hpos.
    set (sl := slots (loopHeap st)) in *.
    assert (forall (l : list stackElement) (e : stackElement),
              map pos (l ++ [e]) = map pos l ++ [pos e]) as Hsnoc
      by (intros; by rewrite map_app).
    split.
    + rewrite Hpos. destruct (length sl =? 0)%nat.
      * rewrite Hsnoc, <- app_assoc. reflexivity.
      * rewrite Hsnoc, map_alter_same by done. rewrite <- app_assoc. reflexivity.
    + intros HI. apply Hidx. clear Hidx Hpos IH.
      unfold indexed in *. simpl. fold sl in HI. intros j e Hj.
      assert (forall (l : list stackElement),
                length l = length sl ->
                (forall i x, l !! i = Some x -> idx x = Z.of_nat i) ->
                (l ++ [mkElement (if (length sl =? 0)%nat then nullptr
                                  else slot (length sl - 1)) nullptr
                         (u16 (LocalInfo.m_position p)) (Z.of_nat (length sl))])
                  !! j = Some e -> idx e = Z.of_nat j) as Hgen.
      { intros l Hlen Hl Hlook.
        destruct (decide (j < length l)%nat) as [Hlt|Hge].
        - rewrite lookup_app_l in Hlook by done. by apply Hl.
        - rewrite lookup_app_r in Hlook by lia.
          destruct (j - length l)%nat eqn:E; [|by destruct n].
          simpl in Hlook. injection Hlook as <-. simpl. f_equal. lia. }
      destruct (length sl =? 0)%nat eqn:E0.
      * by apply (Hgen sl).
      * eapply Hgen; [| |exact Hj].
        -- by rewrite length_alter.
        -- intros i x Hi.
           pose proof (settled_alter
                         (fun l => mkElement (prev l) (slot (length sl)) (pos l) (idx l))
                         (length sl - 1) sl (unusedVariableElem (loopHeap st))
                         (fun _ => eq_refl)) as [_ Halt].
           apply (Halt HI i x Hi).
Qed.

Section Assign.

Context {L : Layout}.

Lemma assignSlots_settled params paramStackSize vr buf st :
  assignSlots params paramStackSize vr buf = Some st ->
  exists h0,
    map pos (slots h0) = map (fun p => u16 (LocalInfo.m_position p)) params
    /\ indexed h0
    /\ settled h0 (loopHeap st).
Proof.
  unfold assignSlots. intros H.
  apply bind_Some in H as (st0 & H0 & H).
  apply preallocateParameters_places in H0 as [Hpos Hidx]. simpl in Hpos.
  destruct (assignUnused _ _ _ _ _) as [[vr' o] w].
  apply allocationLoop_settled in H. simpl in H.
  eexists. split; [|split; [|exact H]].
  - exact Hpos.
  - unfold indexed. simpl. apply Hidx. intros i e Hi. done.
Qed.

End Assign.

End InPlace.

Module AllocatorFacts.

Import Allocator Elements InPlace MonadFacts.

(** X19. Called with empty free lists, as the allocation loop of
    [optimizeLocals] calls it, [allocateLocal] always succeeds on a range
    of a kind other than void and takes fresh space: the range is placed
    at the current offset, in the element [slots.size()], one new element
    is appended to [slots] for an i32 or f32, two for an i64, f64 or
    reference, four for a v128, each 4 bytes behind the one before and
    marked reserved (offsets as 16-bit values), the offset is advanced by 4
    bytes for each of them, and the kind and the live range of the range
    are left alone. *)
Theorem allocateLocal_takes_fresh_space h r off :
  type r <> Value.Void ->
  0 <= off < 2 ^ 16 ->
  exists h' r' off',
    call allocateLocal h r off nullptr nullptr nullptr = Some (h', r', off')
    /\ rangePos r' = off
    /\ assignedPosition r' = slot (length (slots h))
    /\ off' = u16 (off + 4 * Z.of_nat (elementsOf (type r)))
    /\ slots h'
       = slots h
         ++ map (fun j => mkElement reserved reserved (u16 (off + 4 * Z.of_nat j))
                            (Z.of_nat (length (slots h) + j)))
                (seq 0 (elementsOf (type r)))
    /\ type r' = type r /\ start r' = start r /\ end_ r' = end_ r.
Proof.
  intros Hty Hoff. destruct r as [op ni ty st en rp ap]. simpl in Hty.
  destruct h as [sl un].
  assert (forall e (l : list stackElement), (sl ++ e :: l) !! length sl = Some e)
    as Hlook by (intros; apply list_lookup_middle; done).
  assert (isNull nullptr = true) as Hnull by reflexivity.
  unfold call, allocateLocal, abind, aget.
  destruct ty; try done; cbn; rewrite ?Hnull; cbn.
  all: unfold newElement, assign, getPos, load, setRange, abind, aget, amod, aret; cbn.
  all: rewrite <- ?app_assoc; cbn; rewrite ?Hlook; cbn.
  all: do 3 eexists; (split; [reflexivity|]); cbn; rewrite ?length_app; simpl.
  all: rewrite ?Z.add_0_r, ?Nat.add_0_r.
  all: repeat first [rewrite u16_add_l | rewrite <- Z.add_assoc; rewrite u16_add_l].
  all: rewrite ?(u16_small off) by lia.
  all: repeat split; try lia.
  all: rewrite <- ?app_assoc; cbn [app].
  all: try (apply (f_equal u16); lia).
  all: apply (f_equal (app sl)).
  all: repeat match goal with
       | |- _ :: _ = _ :: _ => apply (f_equal2 cons)
       | |- mkElement _ _ _ _ = mkElement _ _ _ _ =>
           apply (f_equal2 (mkElement reserved reserved))
       | |- u16 _ = u16 _ => apply (f_equal u16)
       | |- Z.of_nat _ = Z.of_nat _ => apply (f_equal Z.of_nat)
       | |- [] = [] => reflexivity
       end; try lia.
Qed.

(** The theorem at work: an i64 range, behind one element, at offset 4. *)
Lemma allocateLocal_takes_fresh_space_witness :
  exists h' r' off',
    call allocateLocal
      (mkHeap [mkElement nullptr nullptr 0 0] (mkElement nullptr nullptr 4 0))
      (mkRange 8 false Value.I64 16 32 0 nullptr) 4 nullptr nullptr nullptr
    = Some (h', r', off')
    /\ rangePos r' = 4
    /\ assignedPosition r' = slot 1
    /\ off' = 12
    /\ map pos (slots h') = [0; 4; 8].
Proof.
  destruct (allocateLocal_takes_fresh_space
              (mkHeap [mkElement nullptr nullptr 0 0] (mkElement nullptr nullptr 4 0))
              (mkRange 8 false Value.I64 16 32 0 nullptr) 4)
    as (h' & r' & off' & Hc & Hp & Ha & Ho & Hs & _).
  - simpl. discriminate.
  - lia.
  - exists h', r', off'. split; [exact Hc|]. split; [exact Hp|].
    split; [exact Ha|]. split; [by rewrite Ho|]. by rewrite Hs.
Defined.

(** X20. Whatever the free lists hold, neither [allocateLocal] nor
    [deallocateLocal] moves or removes an element: an element that was at
    index [j] of [slots] before the call is at index [j] after it, with the
    frame offset and the index it had. The calls change the links of
    elements and append new elements, nothing else. *)
Theorem calls_leave_elements_in_place f f' j e :
  allocateLocal f = Some (tt, f') \/ deallocateLocal f = Some (tt, f') ->
  slots (heap f) !! j = Some e ->
  exists e', slots (heap f') !! j = Some e' /\ pos e' = pos e /\ idx e' = idx e.
Proof.
  intros [H|H] Hj.
  - apply steady_allocateLocal in H. by eapply settled_lookup.
  - apply steady_deallocateLocal in H. by eapply settled_lookup.
Qed.

(** The theorem at work: an i32 range takes the element at the end of the
    list of free 32-bit slots. *)
Lemma calls_leave_elements_in_place_witness :
  exists f',
    allocateLocal
      (mkFrame (mkHeap [mkElement nullptr nullptr 8 0] (mkElement nullptr nullptr 12 0))
         (mkRange 8 false Value.I32 0 16 0 nullptr) 16 (slot 0) nullptr nullptr)
    = Some (tt, f')
    /\ assignedPosition (range f') = slot 0
    /\ exists e', slots (heap f') !! 0%nat = Some e' /\ pos e' = 8 /\ idx e' = 0.
Proof.
  evar (f1 : Frame). exists f1.
  split; [unfold f1; vm_compute; reflexivity|]. split; [reflexivity|].
  apply (calls_leave_elements_in_place
           (mkFrame (mkHeap [mkElement nullptr nullptr 8 0]
                       (mkElement nullptr nullptr 12 0))
              (mkRange 8 false Value.I32 0 16 0 nullptr) 16 (slot 0) nullptr nullptr)
           f1 0%nat (mkElement nullptr nullptr 8 0)).
  - left. vm_compute. reflexivity.
  - reflexivity.
Defined.

Section Assign.

Context {L : Layout}.

(** X21. After the slot assignment of [optimizeLocals] (the parameters
    preallocated, the shared slot of the unused entities set up, the
    allocation loop run over the records), every element of [slots] holds
    its own index: [slots[e->idx] == e], which is what the merging of
    neighbouring slots in [deallocateLocal] and the splitting in
    [allocateLocal] rely on when they go from an element to
    [slots[idx + 1]]. *)
Theorem slots_are_indexed params paramStackSize vr buf st j e :
  assignSlots params paramStackSize vr buf = Some st ->
  slots (loopHeap st) !! j = Some e ->
  idx e = Z.of_nat j.
Proof.
  intros H Hj. apply assignSlots_settled in H as (h0 & _ & HI & [_ Hs]).
  by apply (Hs HI).
Qed.

(** X22. After the slot assignment of [optimizeLocals], the element of
    parameter [j] is still [slots[j]] and still sits at the offset the
    parameter was given when the function began (as a 16-bit value): the
    allocation loop never moves a parameter. *)
Theorem parameters_keep_their_offsets params paramStackSize vr buf st j p :
  assignSlots params paramStackSize vr buf = Some st ->
  params !! j = Some p ->
  exists e, slots (loopHeap st) !! j = Some e
            /\ pos e = u16 (LocalInfo.m_position p).
Proof.
  intros H Hj. apply assignSlots_settled in H as (h0 & Hpos & _ & Hs).
  assert (exists e0, slots h0 !! j = Some e0 /\ pos e0 = u16 (LocalInfo.m_position p))
    as (e0 & He0 & Hp0).
  { assert (map pos (slots h0) !! j = Some (u16 (LocalInfo.m_position p))) as Hm
      by (by rewrite Hpos, list_lookup_fmap, Hj).
    rewrite list_lookup_fmap in Hm.
    destruct (slots h0 !! j) as [e0|]; [|done].
    injection Hm as Hm. by exists e0. }
  destruct (settled_lookup _ _ _ _ Hs He0) as (e' & He' & Hp' & _).
  exists e'. split; [done | congruence].
Qed.

End Assign.

(** The theorem at work: a parameter at offset 0 and a local at offset 4,
    with the records and live ranges of [Inputs.twoLocals]. *)
Lemma slots_are_indexed_witness :
  exists st e,
    @assignSlots Sample.layout [LocalInfo.mk Value.I32 0] 4
      Inputs.twoLocals_ranges Inputs.twoLocals_buf = Some st
    /\ slots (loopHeap st) !! 1%nat = Some e
    /\ idx e = 1.
Proof.
  evar (st1 : Loop). evar (e1 : stackElement). exists st1, e1.
  split; [unfold st1; vm_compute; reflexivity|].
  split; [unfold e1; reflexivity|].
  apply (@slots_are_indexed Sample.layout [LocalInfo.mk Value.I32 0] 4
           Inputs.twoLocals_ranges Inputs.twoLocals_buf st1 1%nat e1).
  - vm_compute. reflexivity.
  - reflexivity.
Defined.

(** The theorem at work, on the same function. *)
Lemma parameters_keep_their_offsets_witness :
  exists st,
    @assignSlots Sample.layout [LocalInfo.mk Value.I32 0] 4
      Inputs.twoLocals_ranges Inputs.twoLocals_buf = Some st
    /\ exists e, slots (loopHeap st) !! 0%nat = Some e
                 /\ pos e = u16 (LocalInfo.m_position (LocalInfo.mk Value.I32 0)).
Proof.
  evar (st1 : Loop). exists st1.
  split; [unfold st1; vm_compute; reflexivity|].
  apply (@parameters_keep_their_offsets Sample.layout [LocalInfo.mk Value.I32 0] 4
           Inputs.twoLocals_ranges Inputs.twoLocals_buf st1 0%nat
           (LocalInfo.mk Value.I32 0)).
  - vm_compute. reflexivity.
  - reflexivity.
Defined.

End AllocatorFacts.

(** ** Branches and the else of an if *)

Module Jumps.

Import WASMBinaryReader MonadFacts HandlerFacts Patch.

#[local] Open Scope M_scope.

Section Wiring.

Context {L : Layout} {Srt : StdSort}.

Lemma run_bind {A B} (m : M A) (k : A -> M B) s x s1 :
  m s = Some (x, s1) -> bind m k s = k x s1.
Proof. intros H. unfold bind. by rewrite H. Qed.

Lemma seenBranch_emission s :
  PreprocessData.m_inPreprocess (m_preprocessData s) = false ->
  seenBranch s = Some (tt, s).
Proof. intros H. unfold seenBranch, inPreprocess, bind, gets. by rewrite H. Qed.

Lemma map_alter_fixups f i (blocks : list BlockInfo.t) :
  (forall b, BlockInfo.m_jumpToEndBrInfo (f b) = BlockInfo.m_jumpToEndBrInfo b) ->
  map BlockInfo.m_jumpToEndBrInfo (alter f i blocks)
  = map BlockInfo.m_jumpToEndBrInfo blocks.
Proof.
  intros Hf. revert i. induction blocks as [|b l IH]; intros [|i]; simpl; try done.
  - by rewrite Hf.
  - f_equal. apply IH.
Qed.

Lemma stopToGenerateByteCodeWhileBlockEnd_blocks s :
  0 < size (m_blockInfo s) ->
  exists s',
    stopToGenerateByteCodeWhileBlockEnd s = Some (tt, s')
    /\ bufOf s' = bufOf s
    /\ map BlockInfo.m_jumpToEndBrInfo (m_blockInfo s')
       = map BlockInfo.m_jumpToEndBrInfo (m_blockInfo s)
    /\ m_vmStack s' = m_vmStack s.
Proof.
  intros Hn. unfold stopToGenerateByteCodeWhileBlockEnd, bind, gets.
  destruct (negb _); [by exists s|].
  assert ((0 <? size (m_blockInfo s)) = true) as -> by by apply Z.ltb_lt.
  unfold modify, modifyBackBlockInfo, modifyBlockInfo, bind, gets, modify. cbn.
  destruct decide as [|Hx]; [|unfold size in Hn; exfalso; lia].
  eexists. split; [reflexivity|]. cbn. split; [done|]. split; [|done].
  by apply map_alter_fixups.
Qed.


Lemma pushJumpToEnd_fixups i ty p s :
  (i < length (m_blockInfo s))%nat ->
  exists s',
    pushJumpToEnd i ty p s = Some (tt, s')
    /\ bufOf s' = bufOf s
    /\ m_vmStack s' = m_vmStack s
    /\ m_resumeGenerateByteCodeAfterNBlockEnd s' = m_resumeGenerateByteCodeAfterNBlockEnd s
    /\ map BlockInfo.m_jumpToEndBrInfo (m_blockInfo s')
       = alter (fun l => l ++ [JumpToEndBrInfo.mk ty p]) i
           (map BlockInfo.m_jumpToEndBrInfo (m_blockInfo s)).
Proof.
  intros Hi. unfold pushJumpToEnd, modifyBlockInfo, bind, gets, modify.
  destruct decide; [|done]. eexists. split; [reflexivity|]. cbn.
  repeat split. generalize (m_blockInfo s). clear. intros l. revert i.
  induction l as [|b l IH]; intros [|i]; simpl; try done. f_equal. apply IH.
Qed.

(** A [br] out of a stack that is no higher than the target left it, to a
    target that is not a loop with a signature. *)
Lemma OnBrExpr_level depth s blockInfo :
  PreprocessData.m_inPreprocess (m_preprocessData s) = false ->
  0 <= depth ->
  fromBack (m_blockInfo s) (Z.to_nat depth) = Some blockInfo ->
  (BlockInfo.m_blockType blockInfo = BlockInfo.Loop ->
   Type_.IsIndex (BlockInfo.m_returnValueType blockInfo) = false) ->
  (length (m_vmStack s) <= length (BlockInfo.m_vmStack blockInfo))%nat ->
  exists s',
    OnBrExpr depth s = Some (tt, s')
    /\ bufOf s'
       = bufOf s ++ [ByteCode.Jump (i32 (BlockInfo.m_position blockInfo
                                         - currentByteCodeSize s))]
    /\ m_vmStack s' = m_vmStack s
    /\ map BlockInfo.m_jumpToEndBrInfo (m_blockInfo s')
       = if decide (BlockInfo.m_blockType blockInfo = BlockInfo.Loop)
         then map BlockInfo.m_jumpToEndBrInfo (m_blockInfo s)
         else alter (fun l => l ++ [JumpToEndBrInfo.mk JumpToEndBrInfo.IsJump
                                      (currentByteCodeSize s)])
                (length (m_blockInfo s) - 1 - Z.to_nat depth)%nat
                (map BlockInfo.m_jumpToEndBrInfo (m_blockInfo s)).
Proof.
  intros Hem Hd Hfb Hidx Hst.
  assert (Z.to_nat depth < length (m_blockInfo s))%nat as Hlt.
  { unfold fromBack in Hfb. by destruct decide. }
  assert (depth < size (m_blockInfo s)) as Hlt' by (unfold size; lia).
  unfold OnBrExpr.
  rewrite (run_bind _ _ _ _ _ (seenBranch_emission s Hem)).
  unfold bind at 1, gets at 1.
  assert ((size (m_blockInfo s) =? depth) = false) as -> by lia.
  assert (findBlockInfoInBr depth s
          = Some ((length (m_blockInfo s) - 1 - Z.to_nat depth)%nat, s)) as Hfind.
  { unfold findBlockInfoInBr, bind, gets.
    assert ((0 <=? depth) && (depth <? size (m_blockInfo s)) = true) as ->; [|done].
    apply andb_true_iff. split; lia. }
  rewrite (run_bind _ _ _ _ _ Hfind).
  assert (blockInfoAt (length (m_blockInfo s) - 1 - Z.to_nat depth)%nat s
          = Some (blockInfo, s)) as Hat.
  { unfold blockInfoAt, bind, gets, lift. unfold fromBack in Hfb.
    destruct decide; [|done]. by rewrite Hfb. }
  rewrite (run_bind _ _ _ _ _ Hat).
  unfold bind at 1, gets at 1.
  assert (dropStackValuesBeforeBrIfNeeds depth s = Some ((0, 0), s)) as Hdrop.
  { unfold dropStackValuesBeforeBrIfNeeds, bind, gets, lift.
    assert ((depth <? size (m_blockInfo s)) = true) as -> by lia.
    rewrite Hfb.
    assert ((size (BlockInfo.m_vmStack blockInfo) <? size (m_vmStack s)) = false)
      as -> by (unfold size; lia).
    done. }
  rewrite (run_bind _ _ _ _ _ Hdrop). cbn [snd negb Z.eqb].
  assert (isLoopWithParams blockInfo s = Some (None, s)) as Hlp.
  { unfold isLoopWithParams. case_bool_decide as Hl; [|done].
    by rewrite (Hidx Hl). }
  rewrite (run_bind _ _ _ _ _ (run_bind _ _ _ _ _ Hlp)).
  set (c := ByteCode.Jump _).
  assert (forall s0, exists s1,
            pushByteCode c s0 = Some (tt, s1)
            /\ bufOf s1 = bufOf s0 ++ [c]
            /\ m_blockInfo s1 = m_blockInfo s0
            /\ m_vmStack s1 = m_vmStack s0) as Hpush.
  { intros s0. eexists. split; [reflexivity|]. done. }
  destruct (decide (BlockInfo.m_blockType blockInfo = BlockInfo.Loop)) as [Hl|Hl].
  - rewrite bool_decide_true by done. cbn [negb when].
    rewrite (run_bind (ret tt) _ s tt s eq_refl).
    destruct (Hpush s) as (s1 & Hp & Hb1 & Hbl1 & Hv1).
    rewrite (run_bind _ _ _ _ _ Hp).
    destruct (stopToGenerateByteCodeWhileBlockEnd_blocks s1)
      as (s' & Hs & Hb' & Hbl' & Hv'); [rewrite Hbl1; lia|].
    exists s'. split; [exact Hs|]. by rewrite Hb', Hbl', Hv', Hb1, Hbl1, Hv1.
  - rewrite bool_decide_false by done. cbn [negb when].
    destruct (pushJumpToEnd_fixups (length (m_blockInfo s) - 1 - Z.to_nat depth)%nat
                JumpToEndBrInfo.IsJump (currentByteCodeSize s) s)
      as (s0 & Hj & Hb0 & Hv0 & _ & Hf0); [lia|].
    assert ((cur <- gets currentByteCodeSize ;;
             pushJumpToEnd (length (m_blockInfo s) - 1 - Z.to_nat depth)%nat
               JumpToEndBrInfo.IsJump cur) s = Some (tt, s0)) as Hj'
      by exact Hj.
    rewrite (run_bind _ _ _ _ _ Hj').
    destruct (Hpush s0) as (s1 & Hp & Hb1 & Hbl1 & Hv1).
    rewrite (run_bind _ _ _ _ _ Hp).
    assert (length (m_blockInfo s0) = length (m_blockInfo s)) as Hlen.
    { apply (f_equal (@length _)) in Hf0.
      by rewrite length_alter, !length_map in Hf0. }
    destruct (stopToGenerateByteCodeWhileBlockEnd_blocks s1)
      as (s' & Hs & Hb' & Hbl' & Hv'); [rewrite Hbl1; unfold size; lia|].
    exists s'. split; [exact Hs|].
    by rewrite Hb', Hbl', Hv', Hb1, Hbl1, Hv1, Hb0, Hv0, Hf0.
Qed.


(** X24. In the emission pass, a [br] to an enclosing block that is not a
    loop, taken when the shadow stack is no higher than the block found
    it, succeeds, emits exactly one [Jump] record and appends one fixup to
    the list of the target block: a fixup of kind jump whose site is the
    byte position at which that [Jump] record starts. The fixup lists of
    the other open blocks are unchanged. *)
Theorem br_to_block_records_fixup depth s blockInfo :
  PreprocessData.m_inPreprocess (m_preprocessData s) = false ->
  0 <= depth ->
  fromBack (m_blockInfo s) (Z.to_nat depth) = Some blockInfo ->
  BlockInfo.m_blockType blockInfo <> BlockInfo.Loop ->
  (length (m_vmStack s) <= length (BlockInfo.m_vmStack blockInfo))%nat ->
  exists s' blockInfo',
    OnBrExpr depth s = Some (tt, s')
    /\ (exists offset, bufOf s' = bufOf s ++ [ByteCode.Jump offset])
    /\ fromBack (m_blockInfo s') (Z.to_nat depth) = Some blockInfo'
    /\ BlockInfo.m_jumpToEndBrInfo blockInfo'
       = BlockInfo.m_jumpToEndBrInfo blockInfo
         ++ [JumpToEndBrInfo.mk JumpToEndBrInfo.IsJump (currentByteCodeSize s)]
    /\ (forall d b b',
          d <> Z.to_nat depth ->
          fromBack (m_blockInfo s) d = Some b ->
          fromBack (m_blockInfo s') d = Some b' ->
          BlockInfo.m_jumpToEndBrInfo b' = BlockInfo.m_jumpToEndBrInfo b).
Proof.
  intros Hem Hd Hfb Hblock Hst.
  destruct (OnBrExpr_level depth s blockInfo Hem Hd Hfb (fun H => False_ind _ (Hblock H)) Hst)
    as (s' & H & Hb & Hv & Hf).
  rewrite decide_False in Hf by done.
  assert (length (m_blockInfo s') = length (m_blockInfo s)) as Hlen.
  { apply (f_equal (@length _)) in Hf.
    by rewrite length_alter, !length_map in Hf. }
  assert (forall d b',
            fromBack (m_blockInfo s') d = Some b' ->
            alter (fun l => l ++ [JumpToEndBrInfo.mk JumpToEndBrInfo.IsJump
                                    (currentByteCodeSize s)])
              (length (m_blockInfo s) - 1 - Z.to_nat depth)%nat
              (map BlockInfo.m_jumpToEndBrInfo (m_blockInfo s))
              !! (length (m_blockInfo s) - 1 - d)%nat
            = Some (BlockInfo.m_jumpToEndBrInfo b')
            /\ (d < length (m_blockInfo s))%nat) as Hlook.
  { intros d b' Hd'. unfold fromBack in Hd'. destruct decide as [Hlt|]; [|done].
    rewrite <- Hf, list_lookup_fmap, <- Hlen, Hd'. split; [done | lia]. }
  assert (Z.to_nat depth < length (m_blockInfo s))%nat as Hlt.
  { unfold fromBack in Hfb. by destruct decide. }
  assert (exists blockInfo', fromBack (m_blockInfo s') (Z.to_nat depth) = Some blockInfo')
    as [blockInfo' Hfb'].
  { unfold fromBack. rewrite decide_True by lia.
    apply lookup_lt_is_Some. lia. }
  exists s', blockInfo'. split; [exact H|]. split; [by eexists|].
  split; [exact Hfb'|]. split.
  - destruct (Hlook _ _ Hfb') as [Hl _].
    rewrite list_lookup_alter_eq, list_lookup_fmap in Hl.
    unfold fromBack in Hfb. destruct decide; [|done]. rewrite Hfb in Hl.
    simpl in Hl. by injection Hl as <-.
  - intros d b b' Hne Hdb Hdb'. destruct (Hlook _ _ Hdb') as [Hl Hdl].
    rewrite list_lookup_alter_ne, list_lookup_fmap in Hl by lia.
    unfold fromBack in Hdb. destruct decide; [|done]. rewrite Hdb in Hl.
    simpl in Hl. by injection Hl as <-.
Qed.
Lemma last_alter {A} (f : A -> A) (l : list A) :
  last (alter f (length l - 1)%nat l) = f <$> last l.
Proof.
  rewrite !last_lookup, length_alter.
  replace (pred (length l)) with (length l - 1)%nat by lia.
  by rewrite list_lookup_alter_eq.
Qed.

(** The fields of the innermost block that [seenBranch] leaves alone. *)
Lemma seenBranch_back s s' b :
  last (m_blockInfo s) = Some b ->
  seenBranch s = Some (tt, s') ->
  bufOf s' = bufOf s
  /\ exists b', last (m_blockInfo s') = Some b'
       /\ BlockInfo.m_position b' = BlockInfo.m_position b
       /\ BlockInfo.m_vmStack b' = BlockInfo.m_vmStack b
       /\ BlockInfo.m_jumpToEndBrInfo b' = BlockInfo.m_jumpToEndBrInfo b
       /\ BlockInfo.m_byteCodeGenerationStopped b'
          = BlockInfo.m_byteCodeGenerationStopped b.
Proof.
  intros Hl H. unfold seenBranch, inPreprocess in H. inv_run.
  destruct (PreprocessData.m_inPreprocess _); simpl in H.
  - unfold modifyPreprocessData in H. inv_run. cbn.
    destruct (0 <? _); cbn.
    + split; [done|]. rewrite last_alter, Hl. simpl. by eexists.
    + split; [done|]. by exists b.
  - inv_run. split; [done|]. by exists b.
Qed.

Lemma backBlockInfo_Some s b s' :
  backBlockInfo s = Some (b, s') -> last (m_blockInfo s) = Some b /\ s' = s.
Proof. intros H. unfold backBlockInfo in H. by inv_run. Qed.

Lemma modifyBackBlockInfo_Some f s s' :
  modifyBackBlockInfo f s = Some (tt, s') ->
  bufOf s' = bufOf s /\ m_vmStack s' = m_vmStack s
  /\ exists b, last (m_blockInfo s) = Some b /\ last (m_blockInfo s') = Some (f b).
Proof.
  intros H. unfold modifyBackBlockInfo, modifyBlockInfo in H. inv_run.
  destruct decide as [Hlt|]; [|done]. inv_run. cbn. split; [done|]. split; [done|].
  rewrite last_alter. destruct (last (m_blockInfo _)) as [b|] eqn:E.
  - by exists b.
  - apply last_None in E. rewrite E in Hlt. simpl in Hlt. lia.
Qed.

Lemma restoreVMStackBy_Some b s s' :
  restoreVMStackBy b s = Some (tt, s') ->
  m_vmStack s' = BlockInfo.m_vmStack b
  /\ bufOf s' = bufOf s /\ m_blockInfo s' = m_blockInfo s.
Proof.
  intros H.
  assert (Preserves (fun x => bufOf x = bufOf s /\ m_blockInfo x = m_blockInfo s)
            (restoreVMStackBy b)) as Hp by pres.
  split; [|by apply (Hp _ _ _ H)].
  unfold restoreVMStackBy in H.
  apply bind_Some in H as (? & ? & _ & H).
  apply bind_Some in H as (? & ? & _ & H).
  apply bind_Some in H as (? & ? & H1 & H).
  apply modify_Some in H1, H. by subst.
Qed.

Lemma keepBlockResultsIfNeeds_blocks b s s' :
  keepBlockResultsIfNeeds b s = Some (tt, s') -> m_blockInfo s' = m_blockInfo s.
Proof.
  intros H.
  assert (Preserves (fun x => m_blockInfo x = m_blockInfo s)
            (keepBlockResultsIfNeeds b)) as Hp by pres.
  by apply (Hp _ _ _ H).
Qed.

Lemma setOffsetAt_Some set pos v s s' :
  setOffsetAt set pos v s = Some (tt, s') ->
  updateAt (set v) (bufOf s) pos = Some (bufOf s')
  /\ m_vmStack s' = m_vmStack s /\ m_blockInfo s' = m_blockInfo s.
Proof.
  intros H. unfold setOffsetAt in H. inv_run. unfold bufOf. cbn. done.
Qed.

Lemma setJumpIfOffset_size v c c' : setJumpIfOffset v c = Some c' -> getSize c' = getSize c.
Proof. destruct c; try done; intros H; by injection H as <-. Qed.

(** A write to a conditional jump leaves a [Jump] at the end where it
    is. *)
Lemma updateAt_snoc_jump v pre o pos buf' :
  updateAt (setJumpIfOffset v) (pre ++ [ByteCode.Jump o]) pos = Some buf' ->
  exists pre', buf' = pre' ++ [ByteCode.Jump o] /\ byteSize pre' = byteSize pre.
Proof.
  revert pos buf'. induction pre as [|c pre IH]; intros pos buf' H; simpl in H.
  - destruct (pos =? 0); [done|]. destruct (pos <? _); done.
  - destruct (pos =? 0).
    + destruct (setJumpIfOffset v c) as [c'|] eqn:E; [|done]. simpl in H.
      injection H as <-. exists (c' :: pre). split; [done|]. simpl.
      by rewrite (setJumpIfOffset_size _ _ _ E).
    + destruct (pos <? _); [done|].
      destruct (updateAt _ _ _) as [r|] eqn:E; [|done]. simpl in H.
      injection H as <-. apply IH in E as (pre' & -> & Hsz).
      exists (c :: pre'). split; [done|]. simpl. by rewrite Hsz.
Qed.

Lemma updateAt_hits f buf pos buf' :
  updateAt f buf pos = Some buf' -> is_Some (peekAt buf pos ≫= f).
Proof.
  revert pos buf'. induction buf as [|c r IH]; intros pos buf' H; simpl in H; [done|].
  simpl. destruct (pos =? 0).
  - destruct (f c) eqn:E; [|done]. simpl. by rewrite E.
  - destruct (pos <? getSize c); [done|].
    destruct (updateAt f r _) as [r'|] eqn:Er; [|done]. by eapply IH.
Qed.

(** X25. When [OnElseExpr] returns, the conditional jump at the position
    the innermost block recorded (the jump the [if] emitted) has as offset
    the end of the buffer minus that position (as an [int32_t]): a false
    condition lands on the first record of the else branch. The shadow
    stack is the one the block saved when it was opened, generation is on
    again, and the first fixup of the block (the one of the [if]) is gone.
    If the then branch had not stopped generation, the buffer ends with a
    [Jump] and the block has a new last fixup of kind jump at the start of
    that record, for the [end] to patch. *)
Theorem else_patches_the_if s s' blockInfo :
  last (m_blockInfo s) = Some blockInfo ->
  OnElseExpr s = Some (tt, s') ->
  offsetAt JumpToEndBrInfo.IsJumpIf (bufOf s') (BlockInfo.m_position blockInfo)
  = Some (i32 (currentByteCodeSize s' - BlockInfo.m_position blockInfo))
  /\ m_vmStack s' = BlockInfo.m_vmStack blockInfo
  /\ exists blockInfo',
       last (m_blockInfo s') = Some blockInfo'
       /\ BlockInfo.m_byteCodeGenerationStopped blockInfo' = false
       /\ if BlockInfo.m_byteCodeGenerationStopped blockInfo
          then BlockInfo.m_jumpToEndBrInfo blockInfo'
               = tail (BlockInfo.m_jumpToEndBrInfo blockInfo)
          else exists pre offset,
                 bufOf s' = pre ++ [ByteCode.Jump offset]
                 /\ BlockInfo.m_jumpToEndBrInfo blockInfo'
                    = tail (BlockInfo.m_jumpToEndBrInfo blockInfo)
                      ++ [JumpToEndBrInfo.mk JumpToEndBrInfo.IsJump (byteSize pre)].
Proof.
  intros Hlast H. unfold OnElseExpr in H.
  apply bind_Some in H as ([] & u1 & R1 & H).
  destruct (seenBranch_back _ _ _ Hlast R1) as (Hb1 & b1 & Hl1 & Hp1 & Hv1 & Hj1 & Hg1).
  apply bind_Some in H as (b & u1' & Hb & H).
  apply backBlockInfo_Some in Hb as [Hb ->].
  rewrite Hl1 in Hb. injection Hb as <-.
  apply bind_Some in H as ([] & u2 & R2 & H).
  apply keepBlockResultsIfNeeds_blocks in R2 as Hbl2.
  apply bind_Some in H as ([] & u3 & R3 & H).
  destruct (_ =? 0); [done|].
  apply modifyBackBlockInfo_Some in R3 as (Hb3 & _ & b2 & Hl2 & Hl3).
  rewrite Hbl2, Hl1 in Hl2. injection Hl2 as <-.
  apply bind_Some in H as ([] & u4 & R4 & H).
  apply bind_Some in H as ([] & u5 & R5 & H).
  apply modifyBackBlockInfo_Some in R5 as (Hb5 & _ & b4 & Hl4 & Hl5).
  apply bind_Some in H as (b5 & u5' & Hb5' & H).
  apply backBlockInfo_Some in Hb5' as [Hb5' ->].
  rewrite Hl5 in Hb5'. injection Hb5' as <-.
  apply bind_Some in H as ([] & u6 & R6 & H).
  apply restoreVMStackBy_Some in R6 as (Hv6 & Hb6 & Hbl6).
  apply bind_Some in H as (cur & u6' & Hc & H). apply gets_Some in Hc as [-> ->].
  apply setOffsetAt_Some in H as (Hup & Hv' & Hbl').
  assert (BlockInfo.m_position b4 = BlockInfo.m_position blockInfo
          /\ BlockInfo.m_vmStack b4 = BlockInfo.m_vmStack blockInfo
          /\ if BlockInfo.m_byteCodeGenerationStopped blockInfo
             then BlockInfo.m_jumpToEndBrInfo b4
                  = tail (BlockInfo.m_jumpToEndBrInfo blockInfo)
             else exists pre offset,
                    bufOf u4 = pre ++ [ByteCode.Jump offset]
                    /\ BlockInfo.m_jumpToEndBrInfo b4
                       = tail (BlockInfo.m_jumpToEndBrInfo blockInfo)
                         ++ [JumpToEndBrInfo.mk JumpToEndBrInfo.IsJump (byteSize pre)])
    as (Hp4 & Hv4 & Hj4).
  { rewrite Hg1 in R4. destruct (BlockInfo.m_byteCodeGenerationStopped blockInfo).
    - simpl in R4. inv_run. rewrite Hl3 in Hl4. injection Hl4 as <-. cbn.
      by rewrite Hp1, Hv1, Hj1.
    - simpl in R4.
      apply bind_Some in R4 as (cur & ? & Hc & R4). apply gets_Some in Hc as [-> ->].
      apply bind_Some in R4 as (blocks & ? & Hc & R4). apply gets_Some in Hc as [-> ->].
      apply bind_Some in R4 as ([] & u3' & Hj & R4).
      assert (modifyBackBlockInfo
                (fun b => BlockInfo.set_m_jumpToEndBrInfo
                   (BlockInfo.m_jumpToEndBrInfo b
                    ++ [JumpToEndBrInfo.mk JumpToEndBrInfo.IsJump
                          (currentByteCodeSize u3)]) b) u3 = Some (tt, u3')) as Hj'.
      { unfold modifyBackBlockInfo, bind, gets. exact Hj. }
      apply modifyBackBlockInfo_Some in Hj' as (Hbj & _ & b3 & Hl3' & Hl3'').
      rewrite Hl3 in Hl3'. injection Hl3' as <-.
      unfold pushByteCode in R4. simpl in R4. unfold modifyFunction in R4. inv_run.
      cbn in Hl4. rewrite Hl3'' in Hl4. injection Hl4 as <-. cbn.
      rewrite Hp1, Hv1, Hj1. split; [done|]. split; [done|].
      exists (bufOf u3'), 0. unfold bufOf at 1. cbn. split; [done|].
      unfold currentByteCodeSize. fold (bufOf u3). by rewrite Hbj. }
  assert (BlockInfo.m_position (BlockInfo.set_m_byteCodeGenerationStopped false b4)
          = BlockInfo.m_position blockInfo) as Hp5 by exact Hp4.
  rewrite Hp5 in Hup. clear Hp5.
  pose proof (Fixups.byteSize_updateAt _ _ _ _ (setJumpIfOffset_size _) Hup) as Hsz.
  split; [|split].
  - unfold offsetAt.
    rewrite (Fixups.peekAt_updateAt _ _ _ _ (BlockInfo.m_position blockInfo)
               (setJumpIfOffset_size _) Hup), Z.eqb_refl.
    destruct (updateAt_hits _ _ _ _ Hup) as [c Hc].
    rewrite Hc. simpl.
    destruct (peekAt (bufOf u6) _) as [c0|]; [|done]. simpl in Hc.
    unfold currentByteCodeSize. fold (bufOf s') (bufOf u6). rewrite Hsz.
    destruct c0; try done; injection Hc as <-; done.
  - rewrite Hv', Hv6. cbn. done.
  - exists (BlockInfo.set_m_byteCodeGenerationStopped false b4).
    split; [by rewrite Hbl', Hbl6|]. split; [done|].
    destruct (BlockInfo.m_byteCodeGenerationStopped blockInfo); [exact Hj4|].
    destruct Hj4 as (pre & offset & Hbuf & Hj4).
    rewrite Hb6, Hb5, Hbuf in Hup.
    apply updateAt_snoc_jump in Hup as (pre' & Hbuf' & Hsz').
    exists pre', offset. split; [done|]. cbn. by rewrite Hsz'.
Qed.
End Wiring.


(** The theorem at work: [block; i32.const 7; drop; br 0]. *)
Lemma br_to_block_records_fixup_witness :
  exists s s' b',
    @Decoder.run Sample.layout Sample.sort
      [Decoder.Block Type_.Void; Decoder.I32Const 7; Decoder.Drop]
      (@new Sample.layout [] Inputs.emptyResult) = Some (tt, s)
    /\ @OnBrExpr Sample.layout 0 s = Some (tt, s')
    /\ last (m_blockInfo s') = Some b'
    /\ BlockInfo.m_jumpToEndBrInfo b'
       = [JumpToEndBrInfo.mk JumpToEndBrInfo.IsJump 16].
Proof.
  evar (s0 : t). evar (b0 : BlockInfo.t).
  assert (@Decoder.run Sample.layout Sample.sort
            [Decoder.Block Type_.Void; Decoder.I32Const 7; Decoder.Drop]
            (@new Sample.layout [] Inputs.emptyResult) = Some (tt, s0)) as Hrun
    by (unfold s0; vm_compute; reflexivity).
  destruct (@br_to_block_records_fixup Sample.layout 0 s0 b0)
    as (s' & b' & H & _ & Hfb & Hj & _).
  - reflexivity.
  - lia.
  - unfold b0. vm_compute. reflexivity.
  - discriminate.
  - simpl. lia.
  - exists s0, s', b'. split; [exact Hrun|]. split; [exact H|].
    split; [|rewrite Hj; vm_compute; reflexivity].
    unfold fromBack in Hfb. destruct decide; [|discriminate Hfb].
    rewrite last_lookup. rewrite <- Hfb. f_equal. simpl. lia.
Defined.

(** The theorem at work: the [else] of
    [i32.const 1; if; i32.const 7; drop; else]. *)
Lemma else_patches_the_if_witness :
  exists s s',
    @Decoder.run Sample.layout Sample.sort
      [Decoder.I32Const 1; Decoder.If Type_.Void; Decoder.I32Const 7; Decoder.Drop]
      (@new Sample.layout [] Inputs.emptyResult) = Some (tt, s)
    /\ @OnElseExpr Sample.layout s = Some (tt, s')
    /\ @offsetAt Sample.layout JumpToEndBrInfo.IsJumpIf (bufOf s') 16 = Some 48.
Proof.
  evar (s0 : t). evar (s1 : t). evar (b0 : BlockInfo.t).
  exists s0, s1.
  split; [unfold s0; vm_compute; reflexivity|].
  split; [unfold s1; vm_compute; reflexivity|].
  assert (last (m_blockInfo s0) = Some b0) as Hl
    by (unfold b0; vm_compute; reflexivity).
  assert (@OnElseExpr Sample.layout s0 = Some (tt, s1)) as Hrun
    by (vm_compute; reflexivity).
  exact (proj1 (@else_patches_the_if Sample.layout s0 s1 b0 Hl Hrun)).
Defined.

End Jumps.

(** ** Moves *)

Module Clean.

Import WASMBinaryReader MonadFacts HandlerFacts Patch Events Moves.

#[local] Open Scope M_scope.

Section Kept.

Context {L : Layout} {Srt : StdSort}.

Lemma updateAt_clean f buf pos buf' :
  (forall c c', f c = Some c' -> selfMove c' = false) ->
  updateAt f buf pos = Some buf' ->
  Forall (fun c => selfMove c = false) buf ->
  Forall (fun c => selfMove c = false) buf'.
Proof.
  intros Hf. revert pos buf'.
  induction buf as [|c r IH]; intros pos buf' H HF; simpl in H; [done|].
  inversion HF as [|? ? Hc Hr]; subst.
  destruct (pos =? 0).
  - destruct (f c) as [c'|] eqn:E; [|done]. simpl in H. injection H as <-.
    constructor; [by eapply Hf | done].
  - destruct (pos <? getSize c); [done|].
    destruct (updateAt f r _) as [r'|] eqn:Er; [|done]. simpl in H.
    injection H as <-. constructor; [done | by eapply IH].
Qed.

Lemma updateInside_clean f buf pos buf' :
  (forall off c c', f off c = Some c' -> selfMove c' = false) ->
  updateInside f buf pos = Some buf' ->
  Forall (fun c => selfMove c = false) buf ->
  Forall (fun c => selfMove c = false) buf'.
Proof.
  intros Hf. revert pos buf'.
  induction buf as [|c r IH]; intros pos buf' H HF; simpl in H; [done|].
  inversion HF as [|? ? Hc Hr]; subst.
  destruct (_ && _).
  - destruct (f pos c) as [c'|] eqn:E; [|done]. simpl in H. injection H as <-.
    constructor; [by eapply Hf | done].
  - destruct (updateInside f r _) as [r'|] eqn:Er; [|done]. simpl in H.
    injection H as <-. constructor; [done | by eapply IH].
Qed.

Lemma truncateAt_clean buf pos buf' :
  truncateAt buf pos = Some buf' ->
  Forall (fun c => selfMove c = false) buf ->
  Forall (fun c => selfMove c = false) buf'.
Proof.
  revert pos buf'.
  induction buf as [|c r IH]; intros pos buf' H HF; simpl in H.
  - destruct (pos =? 0); [|done]. by injection H as <-.
  - destruct (pos =? 0); [by injection H as <-|].
    inversion HF as [|? ? Hc Hr]; subst.
    destruct (pos <? getSize c); [done|].
    destruct (truncateAt r _) as [r'|] eqn:Er; [|done]. simpl in H.
    injection H as <-. constructor; [done | by eapply IH].
Qed.

Lemma setJumpOffset_clean v c c' : setJumpOffset v c = Some c' -> selfMove c' = false.
Proof. destruct c; try done. intros H. by injection H as <-. Qed.

Lemma setJumpIfOffset_clean v c c' :
  setJumpIfOffset v c = Some c' -> selfMove c' = false.
Proof. destruct c; try done; intros H; by injection H as <-. Qed.

Lemma setBrTableEntry_clean g off c c' :
  setBrTableEntry g off c = Some c' -> selfMove c' = false.
Proof.
  destruct c; try done. simpl. intros H.
  repeat case_match; simplify_option_eq; done.
Qed.

Lemma pushByteCode_clean c :
  selfMove c = false -> Preserves noSelfMove (pushByteCode c).
Proof.
  intros Hc. pres.
  all: unfold noSelfMove, bufOf in *; cbn; apply Forall_app; split; [done|].
  all: by constructor.
Qed.

Lemma generateMoveCodeIfNeeds_clean src dst ty :
  Preserves noSelfMove (generateMoveCodeIfNeeds src dst ty).
Proof.
  unfold generateMoveCodeIfNeeds. destruct (src =? dst) eqn:E; simpl.
  - apply pres_ret.
  - apply pushByteCode_clean. simpl. exact E.
Qed.

Lemma setOffsetAt_clean set pos v :
  (forall c c', set v c = Some c' -> selfMove c' = false) ->
  Preserves noSelfMove (setOffsetAt set pos v).
Proof.
  intros Hs s a s' H HP. unfold setOffsetAt in H. inv_run.
  unfold noSelfMove, bufOf in *. cbn. by eapply updateAt_clean.
Qed.

Lemma writeBrTableEntry_clean a b v : Preserves noSelfMove (writeBrTableEntry a b v).
Proof.
  intros s x s' H HP. unfold writeBrTableEntry in H. inv_run.
  unfold noSelfMove, bufOf in *. cbn.
  eapply updateAt_clean; [|eassumption|done]. intros ? ?. apply setBrTableEntry_clean.
Qed.

Lemma patchJumpToEnd_clean j : Preserves noSelfMove (patchJumpToEnd j).
Proof.
  unfold patchJumpToEnd. apply pres_bind; [apply pres_gets|]. intros cur.
  destruct (JumpToEndBrInfo.m_type j).
  - apply setOffsetAt_clean, setJumpOffset_clean.
  - apply setOffsetAt_clean, setJumpIfOffset_clean.
  - intros s x s' H HP. inv_run.
    unfold noSelfMove, bufOf in *. cbn.
    eapply updateInside_clean; [|eassumption|done].
    intros ? ? ?. apply setBrTableEntry_clean.
Qed.

Lemma resizeByteCode_clean pos : Preserves noSelfMove (resizeByteCode pos).
Proof.
  intros s x s' H HP. unfold resizeByteCode in H. inv_run.
  unfold noSelfMove, bufOf in *. cbn. by eapply truncateAt_clean.
Qed.

#[local] Hint Resolve generateMoveCodeIfNeeds_clean writeBrTableEntry_clean
  patchJumpToEnd_clean resizeByteCode_clean : pres.
#[local] Hint Extern 1 (Preserves noSelfMove (setOffsetAt _ _ _)) =>
  first [apply setOffsetAt_clean, setJumpOffset_clean
        | apply setOffsetAt_clean, setJumpIfOffset_clean] : pres.
#[local] Hint Extern 1 (Preserves noSelfMove (pushByteCode ?c)) =>
  apply pushByteCode_clean;
  first [reflexivity | unfold condJump; repeat case_match; reflexivity]
  : pres.

Lemma moveLoop_clean stack srcI dstI remainSize :
  Preserves noSelfMove (moveLoop stack srcI dstI remainSize).
Proof.
  revert dstI remainSize. induction srcI as [|srcI IH]; intros; simpl; pres.
Qed.

Lemma popWhile_clean fuel dropSize : Preserves noSelfMove (popWhile fuel dropSize).
Proof. revert dropSize. induction fuel as [|fuel IH]; intros; simpl; pres. Qed.

Lemma harvestCatchInfo_clean depth snapshot catches :
  Preserves noSelfMove (harvestCatchInfo depth snapshot catches).
Proof. induction catches as [|c r IH]; simpl; pres. Qed.

#[local] Hint Resolve moveLoop_clean popWhile_clean harvestCatchInfo_clean : pres.

Lemma handle_clean e :
  beforeOptimizeLocals e -> Preserves noSelfMove (Decoder.handle e).
Proof.
  intros He. destruct e; try done; unfold Decoder.handle.
  all: pres.
  - unfold noSelfMove, bufOf. cbn. constructor.
  - unfold noSelfMove, bufOf in *. cbn. apply Forall_app. split; [done|].
    constructor; [|done]. unfold constantInit. by repeat case_match.
  - unfold noSelfMove, bufOf. cbn. simpl in He. rewrite He. constructor.
Qed.

(** X26. Up to the end of a body, the emitter never puts a move from a
    position to itself into the buffer: if the buffer holds none, then
    after any run of events (the start of a function with an empty
    buffer, declarations, both passes, every instruction handler,
    including the moves of block results, of dropped values and of
    [local.set] and [local.tee], the patching of jumps and the rewinding
    of an [i32.eqz]) every [Move] record in the buffer has a source
    position that differs from its destination position. *)
Theorem no_move_onto_itself es s s' kind src dst :
  Forall beforeOptimizeLocals es ->
  noSelfMove s ->
  Decoder.run es s = Some (tt, s') ->
  In (ByteCode.Move kind src dst) (bufOf s') ->
  src <> dst.
Proof.
  intros Hes Hs Hrun Hin.
  assert (noSelfMove s') as Hs'.
  { revert s Hs Hrun. unfold Decoder.run.
    induction Hes as [|e es He _ IH]; intros s Hs Hrun; simpl in Hrun.
    - by inv_run.
    - apply bind_Some in Hrun as ([] & s1 & H1 & Hrun).
      apply (IH s1); [|done]. by apply (handle_clean e He s tt s1). }
  unfold noSelfMove in Hs'. rewrite Forall_forall in Hs'.
  apply list_elem_of_In, Hs' in Hin. simpl in Hin. lia.
Qed.

End Kept.

(** The theorem at work: [local.get 0; local.set 1] in a function of type
    [(i32, i32) -> ()] moves parameter 0 to parameter 1. *)
Lemma no_move_onto_itself_witness :
  exists s',
    @Decoder.run Sample.layout Sample.sort
      [Decoder.BeginFunctionBody
         (ModuleFunction.new (FunctionType.mk [Value.I32; Value.I32] []));
       Decoder.StartPreprocess; Decoder.EndPreprocess;
       Decoder.LocalGet 0; Decoder.LocalSet 1]
      (@new Sample.layout [] Inputs.emptyResult) = Some (tt, s')
    /\ bufOf s' = [ByteCode.Move ByteCode.MoveI32 0 4]
    /\ 0 <> 4.
Proof.
  evar (s1 : t). exists s1.
  assert (@Decoder.run Sample.layout Sample.sort
            [Decoder.BeginFunctionBody
               (ModuleFunction.new (FunctionType.mk [Value.I32; Value.I32] []));
             Decoder.StartPreprocess; Decoder.EndPreprocess;
             Decoder.LocalGet 0; Decoder.LocalSet 1]
            (@new Sample.layout [] Inputs.emptyResult) = Some (tt, s1)) as Hrun
    by (unfold s1; vm_compute; reflexivity).
  split; [exact Hrun|]. split; [reflexivity|].
  refine (@no_move_onto_itself Sample.layout Sample.sort _
            (@new Sample.layout [] Inputs.emptyResult) s1 ByteCode.MoveI32 0 4
            _ _ Hrun _).
  - repeat (apply List.Forall_cons; [simpl; first [reflexivity | exact I]|]).
    apply List.Forall_nil.
  - apply List.Forall_nil.
  - left. reflexivity.
Defined.

End Clean.

(** ** The fixups of the open blocks *)

Module Wiring.

Import WASMBinaryReader MonadFacts HandlerFacts Patch Candidate Events Sites.

#[local] Open Scope M_scope.

Section Kept.

Context {L : Layout} {Srt : StdSort}.

(** *** Buffers *)

Lemma peekAt_app_l buf l q c :
  peekAt buf q = Some c -> peekAt (buf ++ l) q = Some c.
Proof.
  revert q. induction buf as [|c0 r IH]; intros q H; simpl in *; [done|].
  destruct (q =? 0); [done|]. destruct (q <? getSize c0); [done|]. by apply IH.
Qed.

Lemma peekAt_range buf q c :
  peekAt buf q = Some c -> 0 <= q /\ q + getSize c <= byteSize buf.
Proof.
  revert q. induction buf as [|c0 r IH]; intros q H; simpl in *; [done|].
  pose proof (Fusion.getSize_pos c0). pose proof (Fusion.byteSize_nonneg r).
  destruct (q =? 0) eqn:E0.
  - injection H as <-. lia.
  - destruct (q <? getSize c0) eqn:E1; [done|]. apply IH in H. lia.
Qed.

(** A record that ends where the buffer ends is its last record. *)
Lemma peekAt_last buf q c :
  peekAt buf q = Some c -> q + getSize c = byteSize buf ->
  exists pre, buf = pre ++ [c] /\ byteSize pre = q.
Proof.
  revert q. induction buf as [|c0 r IH]; intros q H Hsz; simpl in *; [done|].
  pose proof (Fusion.getSize_pos c0). pose proof (Fusion.byteSize_nonneg r).
  destruct (q =? 0) eqn:E0.
  - injection H as <-. exists []. simpl.
    assert (byteSize r = 0) as Hr by lia.
    destruct r as [|c1 r]; [split; [done|lia]|].
    simpl in Hr. pose proof (Fusion.getSize_pos c1).
    pose proof (Fusion.byteSize_nonneg r). lia.
  - destruct (q <? getSize c0) eqn:E1; [done|].
    destruct (IH _ H) as (pre & -> & Hp); [lia|].
    exists (c0 :: pre). simpl. split; [done|lia].
Qed.

Lemma peekAt_snoc_inv pre c0 q c :
  peekAt (pre ++ [c0]) q = Some c ->
  peekAt pre q = Some c \/ (q = byteSize pre /\ c = c0).
Proof.
  revert q. induction pre as [|c1 r IH]; intros q H; simpl in *.
  - destruct (q =? 0) eqn:E0.
    + injection H as <-. right. split; [lia|done].
    + by destruct (q <? getSize c0).
  - destruct (q =? 0); [by left|].
    destruct (q <? getSize c1); [done|].
    destruct (IH _ H) as [?|[? ?]]; [by left|]. right. split; [lia|done].
Qed.

(** *** Sites *)

Lemma sited_app buf l j : sited buf j -> sited (buf ++ l) j.
Proof.
  unfold sited, offsetAt. destruct (JumpToEndBrInfo.m_type j); [| |done].
  all: intros [o Ho]; destruct (peekAt buf _) as [c|] eqn:E; [|done].
  all: by rewrite (peekAt_app_l _ _ _ _ E).
Qed.


Lemma sited_updateAt f buf pos buf' j :
  keepsKind f -> updateAt f buf pos = Some buf' -> sited buf j -> sited buf' j.
Proof.
  intros Hf Hup. unfold sited, offsetAt.
  pose proof (Fixups.peekAt_updateAt f buf pos buf' (JumpToEndBrInfo.m_position j)
                (fun c c' H => proj1 (Hf c c' H)) Hup) as Hpk.
  destruct (JumpToEndBrInfo.m_type j); [| |done].
  all: rewrite Hpk; destruct (_ =? pos) eqn:E; [|done].
  all: apply Z.eqb_eq in E; rewrite E.
  all: destruct (Jumps.updateAt_hits _ _ _ _ Hup) as [c' Hc'].
  all: destruct (peekAt buf pos) as [c0|] eqn:E0; [|done]; simpl in *.
  all: rewrite Hc'; simpl; destruct (Hf _ _ Hc') as (_ & H1 & H2 & _); auto.
Qed.

Lemma sited_updateInside f buf pos buf' j :
  (forall off, keepsKind (f off)) ->
  (forall off c c', f off c = Some c' ->
     jumpOffset c' = jumpOffset c /\ jumpIfOffset c' = jumpIfOffset c) ->
  updateInside f buf pos = Some buf' -> sited buf j -> sited buf' j.
Proof.
  intros Hf Hj Hup. unfold sited, offsetAt.
  destruct (JumpToEndBrInfo.m_type j); [| |done].
  - rewrite (Fixups.peekAt_updateInside jumpOffset f buf pos buf' _
               (fun off c c' H => proj1 (Hf off c c' H))
               (fun off c c' H => proj1 (Hj off c c' H)) Hup). done.
  - rewrite (Fixups.peekAt_updateInside jumpIfOffset f buf pos buf' _
               (fun off c c' H => proj1 (Hf off c c' H))
               (fun off c c' H => proj2 (Hj off c c' H)) Hup). done.
Qed.

Lemma keepsKind_setJumpOffset v : keepsKind (setJumpOffset v).
Proof. intros c c' H. destruct c; try done. injection H as <-. by repeat split. Qed.

Lemma keepsKind_setJumpIfOffset v : keepsKind (setJumpIfOffset v).
Proof.
  intros c c' H. destruct c; try done; injection H as <-; by repeat split.
Qed.

Lemma setBrTableEntry_shape g off c c' :
  setBrTableEntry g off c = Some c' ->
  getSize c' = getSize c /\ jumpOffset c' = jumpOffset c
  /\ jumpIfOffset c' = jumpIfOffset c /\ isI32Eqz c = false.
Proof.
  destruct c; try done. simpl. intros H.
  repeat case_match; simplify_option_eq; repeat split; try done.
  unfold getSize. simpl. by rewrite length_insert.
Qed.

Lemma keepsKind_setBrTableEntry g off : keepsKind (setBrTableEntry g off).
Proof.
  intros c c' H. destruct (setBrTableEntry_shape _ _ _ _ H) as (H1 & H2 & H3 & H4).
  split; [done|]. rewrite H2, H3. split; [done|]. split; [done|]. by rewrite H4.
Qed.

(** *** The designated record *)

Lemma peekAt_eqz_updateAt f buf pos buf' q src dst :
  keepsKind f -> updateAt f buf pos = Some buf' ->
  peekAt buf q = Some (ByteCode.UnaryOperation WASMOpcode.I32Eqz src dst) ->
  peekAt buf' q = Some (ByteCode.UnaryOperation WASMOpcode.I32Eqz src dst).
Proof.
  intros Hf Hup Hq.
  rewrite (Fixups.peekAt_updateAt f buf pos buf' q
             (fun c c' H => proj1 (Hf c c' H)) Hup).
  destruct (q =? pos) eqn:E; [|done]. apply Z.eqb_eq in E. subst q.
  rewrite Hq. simpl.
  destruct (Jumps.updateAt_hits _ _ _ _ Hup) as [c' Hc']. rewrite Hq in Hc'.
  simpl in Hc'. rewrite Hc'. f_equal. by apply (Hf _ _ Hc').
Qed.

Lemma peekAt_eqz_updateInside f buf pos buf' q src dst :
  (forall off c c', f off c = Some c' -> getSize c' = getSize c) ->
  (forall off c c', f off c = Some c' -> isI32Eqz c = false /\ isI32Eqz c' = false) ->
  updateInside f buf pos = Some buf' ->
  peekAt buf q = Some (ByteCode.UnaryOperation WASMOpcode.I32Eqz src dst) ->
  peekAt buf' q = Some (ByteCode.UnaryOperation WASMOpcode.I32Eqz src dst).
Proof.
  intros Hf He Hup Hq.
  pose proof (Fixups.peekAt_updateInside
                (fun c => if isI32Eqz c then Some c else None) f buf pos buf' q Hf)
    as Hpk.
  rewrite Hq in Hpk. simpl in Hpk.
  destruct (peekAt buf' q) as [c|]; simpl in Hpk.
  - destruct (isI32Eqz c) eqn:E.
    + apply Hpk; [|done]. intros off c0 c' H0.
      destruct (He _ _ _ H0) as [-> ->]. done.
    + exfalso. assert (@None ByteCode.t = Some (ByteCode.UnaryOperation
                         WASMOpcode.I32Eqz src dst)); [|done].
      apply Hpk; [|done]. intros off c0 c' H0.
      destruct (He _ _ _ H0) as [-> ->]. done.
  - exfalso. assert (@None ByteCode.t = Some (ByteCode.UnaryOperation
                       WASMOpcode.I32Eqz src dst)); [|done].
    apply Hpk; [|done]. intros off c0 c' H0.
    destruct (He _ _ _ H0) as [-> ->]. done.
Qed.

(** *** What the steps of a handler keep *)

Lemma jumpsWired_ext s s' :
  bufOf s' = bufOf s -> m_blockInfo s' = m_blockInfo s ->
  m_lastI32EqzPos s' = m_lastI32EqzPos s ->
  jumpsWired s -> jumpsWired s'.
Proof.
  unfold jumpsWired, wired, candidateIsEqz, noCandidate.
  intros -> -> ->. done.
Qed.

Lemma candidate_push c s s' :
  candidateIsEqz s ->
  bufOf s' = bufOf s ++ [c] ->
  m_lastI32EqzPos s'
  = (if isI32Eqz c then currentByteCodeSize s else m_lastI32EqzPos s) ->
  candidateIsEqz s'.
Proof.
  intros Hc Hb Hl. unfold candidateIsEqz, noCandidate. rewrite Hb, Hl.
  destruct (isI32Eqz c) eqn:E.
  - right. destruct c; try done.
    match goal with op : WASMOpcode.unary |- _ => destruct op; try done end.
    eexists _, _. apply Fusion.peekAt_app.
  - destruct Hc as [Hc|(src & dst & Hc)]; [by left|]. right.
    exists src, dst. by apply peekAt_app_l.
Qed.

Lemma pushByteCode_Some c s s' :
  pushByteCode c s = Some (tt, s') ->
  bufOf s' = bufOf s ++ [c] /\ m_blockInfo s' = m_blockInfo s
  /\ m_lastI32EqzPos s'
     = if isI32Eqz c then currentByteCodeSize s else m_lastI32EqzPos s.
Proof.
  intros H. unfold pushByteCode, modifyFunction in H.
  destruct c; try (match goal with op : WASMOpcode.unary |- _ => destruct op end);
    inv_run; done.
Qed.

Lemma pushByteCode_wired c : Preserves jumpsWired (pushByteCode c).
Proof.
  intros s [] s' H [Hw Hc].
  destruct (pushByteCode_Some _ _ _ H) as (Hb & Hbl & Hl).
  split; [|by eapply candidate_push].
  unfold wired. rewrite Hb, Hbl.
  eapply Forall_impl; [exact Hw|]. intros b Hb0.
  eapply Forall_impl; [exact Hb0|]. intros j. apply sited_app.
Qed.

Lemma setOffsetAt_wired set pos v :
  keepsKind (set v) -> Preserves jumpsWired (setOffsetAt set pos v).
Proof.
  intros Hk s [] s' H [Hw Hc].
  destruct (Jumps.setOffsetAt_Some _ _ _ _ _ H) as (Hup & _ & Hbl).
  assert (m_lastI32EqzPos s' = m_lastI32EqzPos s) as Hl
    by (unfold setOffsetAt in H; by inv_run).
  split.
  - unfold wired. rewrite Hbl.
    eapply Forall_impl; [exact Hw|]. intros b Hb0.
    eapply Forall_impl; [exact Hb0|]. intros j. by eapply sited_updateAt.
  - unfold candidateIsEqz, noCandidate. rewrite Hl.
    destruct Hc as [Hc|(src & dst & Hc)]; [by left|]. right.
    exists src, dst. by eapply peekAt_eqz_updateAt.
Qed.

Lemma writeBrTableEntry_wired a b v : Preserves jumpsWired (writeBrTableEntry a b v).
Proof.
  intros s [] s' H HP.
  assert (setOffsetAt (fun v => setBrTableEntry (fun _ => v) b) a v s = Some (tt, s'))
    as H' by exact H.
  eapply setOffsetAt_wired; [|exact H'|exact HP]. apply keepsKind_setBrTableEntry.
Qed.

Lemma patchJumpToEnd_wired j : Preserves jumpsWired (patchJumpToEnd j).
Proof.
  unfold patchJumpToEnd. apply pres_bind; [apply pres_gets|]. intros cur.
  destruct (JumpToEndBrInfo.m_type j).
  - apply setOffsetAt_wired, keepsKind_setJumpOffset.
  - apply setOffsetAt_wired, keepsKind_setJumpIfOffset.
  - intros s [] s' H [Hw Hc].
    apply bind_Some in H as (buf & s0 & H0 & H). unfold byteCode in H0.
    apply gets_Some in H0 as [-> ->].
    apply bind_Some in H as (buf' & s0 & H0 & H). apply lift_Some in H0 as [Hup ->].
    unfold setByteCode, modifyFunction in H. apply modify_Some in H. subst s'.
    fold (bufOf s) in Hup.
    split.
    + unfold wired, bufOf. cbn.
      eapply Forall_impl; [exact Hw|]. intros b Hb0.
      eapply Forall_impl; [exact Hb0|]. intros j0.
      eapply sited_updateInside; [| |exact Hup].
      * intros off. apply keepsKind_setBrTableEntry.
      * intros off c c' Hs. destruct (setBrTableEntry_shape _ _ _ _ Hs) as (_ & ? & ? & _).
        done.
    + unfold candidateIsEqz, noCandidate, bufOf. cbn.
      destruct Hc as [Hc|(src & dst & Hc)]; [by left|]. right.
      exists src, dst. eapply peekAt_eqz_updateInside; [| |exact Hup|exact Hc].
      * intros off c c' Hs. by destruct (setBrTableEntry_shape _ _ _ _ Hs).
      * intros off c c' Hs. destruct c; try done. simpl in Hs.
        repeat case_match; simplify_option_eq; done.
Qed.

Lemma modifyBlockInfo_wired i f :
  (forall b, BlockInfo.m_jumpToEndBrInfo (f b) ⊆ BlockInfo.m_jumpToEndBrInfo b) ->
  Preserves jumpsWired (modifyBlockInfo i f).
Proof.
  intros Hf s [] s' H [Hw Hc]. unfold modifyBlockInfo in H. inv_run.
  destruct decide; inv_run. split; [|exact Hc].
  unfold wired. cbn. apply Forall_alter; [exact Hw|].
  intros b _ Hb. rewrite Forall_forall in Hb |- *. intros j Hj.
  apply Hb. by apply Hf.
Qed.

Lemma modifyBackBlockInfo_wired f :
  (forall b, BlockInfo.m_jumpToEndBrInfo (f b) ⊆ BlockInfo.m_jumpToEndBrInfo b) ->
  Preserves jumpsWired (modifyBackBlockInfo f).
Proof.
  intros Hf. unfold modifyBackBlockInfo.
  apply pres_bind; [apply pres_gets|]. intros. by apply modifyBlockInfo_wired.
Qed.

Lemma seenBranch_wired : Preserves jumpsWired seenBranch.
Proof.
  intros s [] s' H [Hw Hc]. unfold seenBranch, inPreprocess in H. inv_run.
  destruct (PreprocessData.m_inPreprocess _); simpl in H; [|by inv_run].
  unfold modifyPreprocessData in H. inv_run. cbn.
  destruct (0 <? _); cbn; [|done]. split; [|exact Hc].
  unfold wired. cbn. apply Forall_alter; [exact Hw|]. by intros.
Qed.

Lemma forget_wired : Preserves jumpsWired (modify (set_m_lastI32EqzPos s_noI32Eqz)).
Proof.
  apply pres_modify. intros s [Hw _]. split; [exact Hw|]. by left.
Qed.

Lemma pushJumpToEnd_brTable i p :
  Preserves jumpsWired (pushJumpToEnd i JumpToEndBrInfo.IsBrTable p).
Proof.
  intros s [] s' H [Hw Hc]. unfold pushJumpToEnd, modifyBlockInfo in H. inv_run.
  destruct decide; inv_run. split; [|exact Hc].
  unfold wired. cbn. apply Forall_alter; [exact Hw|].
  intros b _ Hb. cbn. apply Forall_app. split; [exact Hb|]. by repeat constructor.
Qed.

Lemma popVMStackInfo_wired : Preserves jumpsWired popVMStackInfo.
Proof. pres. Qed.

#[local] Hint Resolve pushByteCode_wired writeBrTableEntry_wired patchJumpToEnd_wired
  seenBranch_wired forget_wired pushJumpToEnd_brTable popVMStackInfo_wired : pres.
#[local] Hint Extern 1 (Preserves jumpsWired (setOffsetAt _ _ _)) =>
  first [apply setOffsetAt_wired, keepsKind_setJumpOffset
        | apply setOffsetAt_wired, keepsKind_setJumpIfOffset] : pres.
#[local] Hint Extern 1 (Preserves jumpsWired (modifyBlockInfo _ _)) =>
  apply modifyBlockInfo_wired; intros ?; cbn; done : pres.
#[local] Hint Extern 1 (Preserves jumpsWired (modifyBackBlockInfo _)) =>
  apply modifyBackBlockInfo_wired; intros ?; cbn; done : pres.

Lemma moveLoop_wired stack srcI dstI remainSize :
  Preserves jumpsWired (moveLoop stack srcI dstI remainSize).
Proof. apply moveLoop_pres; intros; pres. Qed.

Lemma popWhile_wired fuel dropSize : Preserves jumpsWired (popWhile fuel dropSize).
Proof. apply popWhile_pres; intros; pres. Qed.

Lemma harvestCatchInfo_wired depth snapshot catches :
  Preserves jumpsWired (harvestCatchInfo depth snapshot catches).
Proof. apply harvestCatchInfo_pres; intros; pres. Qed.

#[local] Hint Resolve moveLoop_wired popWhile_wired harvestCatchInfo_wired : pres.

(** *** Recording a fixup and emitting its jump *)

(** The state after a fixup for the end of the buffer has been recorded
    (in the blocks [B]) and the record [c] of its kind has been pushed. *)
Lemma pending_push c ty s s' :
  jumpsWired s ->
  sited [c] (JumpToEndBrInfo.mk ty 0) ->
  bufOf s' = bufOf s ++ [c] ->
  m_lastI32EqzPos s'
  = (if isI32Eqz c then currentByteCodeSize s else m_lastI32EqzPos s) ->
  Forall (fun b => Forall (fun j => sited (bufOf s) j
                                    \/ j = JumpToEndBrInfo.mk ty (currentByteCodeSize s))
                          (BlockInfo.m_jumpToEndBrInfo b))
         (m_blockInfo s') ->
  jumpsWired s'.
Proof.
  intros [Hw Hc] Hk Hb Hl HB. split; [|by eapply candidate_push].
  unfold wired. rewrite Hb.
  eapply Forall_impl; [exact HB|]. intros b Hb0.
  eapply Forall_impl; [exact Hb0|]. intros j [Hj| ->]; [by apply sited_app|].
  unfold sited, offsetAt in *. cbn in Hk |- *. unfold currentByteCodeSize.
  fold (bufOf s). rewrite Fusion.peekAt_app.
  destruct ty; [exact Hk|exact Hk|done].
Qed.

Lemma record_then_push i ty c s s1 s2 :
  jumpsWired s ->
  sited [c] (JumpToEndBrInfo.mk ty 0) ->
  pushJumpToEnd i ty (currentByteCodeSize s) s = Some (tt, s1) ->
  pushByteCode c s1 = Some (tt, s2) ->
  jumpsWired s2.
Proof.
  intros HP Hk H1 H2.
  unfold pushJumpToEnd, modifyBlockInfo in H1.
  apply bind_Some in H1 as (blocks & s0 & H0 & H1). apply gets_Some in H0 as [-> ->].
  destruct decide; [|done]. apply modify_Some in H1. subst s1.
  destruct (pushByteCode_Some _ _ _ H2) as (Hb & Hbl & Hl).
  apply (pending_push c ty s s2 HP Hk Hb Hl).
  rewrite Hbl. cbn. destruct HP as [Hw _].
  apply Forall_alter.
  - eapply Forall_impl; [exact Hw|]. intros b Hb0.
    eapply Forall_impl; [exact Hb0|]. intros j Hj. by left.
  - intros b _ Hb0. cbn. apply Forall_app. split; [exact Hb0|].
    constructor; [by right|done].
Qed.

Lemma when_record_push b i ty c :
  sited [c] (JumpToEndBrInfo.mk ty 0) ->
  Preserves jumpsWired
    (when b (cur <- gets currentByteCodeSize ;; pushJumpToEnd i ty cur) ;;
     pushByteCode c).
Proof.
  intros Hk s [] s' H HP.
  apply bind_Some in H as ([] & s1 & H1 & H). destruct b; simpl in H1.
  - apply bind_Some in H1 as (cur & s0 & H0 & H1). apply gets_Some in H0 as [-> ->].
    by eapply record_then_push.
  - apply ret_Some in H1 as [_ ->]. by eapply pushByteCode_wired.
Qed.

Lemma gets_record_push b i ty (c : Z -> ByteCode.t) :
  (forall cur, sited [c cur] (JumpToEndBrInfo.mk ty 0)) ->
  Preserves jumpsWired
    (cur <- gets currentByteCodeSize ;;
     when b (pushJumpToEnd i ty cur) ;;
     pushByteCode (c cur)).
Proof.
  intros Hk s [] s' H HP.
  apply bind_Some in H as (cur & s0 & H0 & H). apply gets_Some in H0 as [-> ->].
  apply bind_Some in H as ([] & s1 & H1 & H). destruct b; simpl in H1.
  - by eapply record_then_push.
  - apply ret_Some in H1 as [_ ->]. by eapply pushByteCode_wired.
Qed.

Lemma pres_assoc {A B C} (P : t -> Prop) (m : M A) (k : A -> M B) (h : B -> M C) :
  Preserves P (bind m k) -> (forall b, Preserves P (h b)) ->
  Preserves P (bind m (fun a => bind (k a) h)).
Proof.
  intros Hmk Hh s c s' H HP.
  apply bind_Some in H as (a & s1 & H1 & H).
  apply bind_Some in H as (b & s2 & H2 & H).
  apply (Hh b _ _ _ H). apply (Hmk s b s2); [|done].
  apply bind_Some. by exists a, s1.
Qed.

(** One step of a run that keeps the wiring. *)
Ltac keep H HP :=
  let a := fresh "a" in
  let s1 := fresh "s" in
  let H1 := fresh "H" in
  let Hp := fresh "Hp" in
  apply bind_Some in H as (a & s1 & H1 & H);
  lazymatch type of H1 with
  | ?m _ = _ =>
      assert (Preserves jumpsWired m) as Hp by pres;
      apply (Hp _ _ _ H1) in HP; clear Hp H1
  end.

Ltac kept H HP :=
  lazymatch type of H with
  | ?m _ = _ =>
      let Hp := fresh "Hp" in
      assert (Preserves jumpsWired m) as Hp by pres;
      exact (Hp _ _ _ H HP)
  end.

Lemma OnBrExpr_wired depth : Preserves jumpsWired (OnBrExpr depth).
Proof.
  unfold OnBrExpr.
  apply pres_bind; [pres|intros _]. apply pres_bind; [pres|intros blocks].
  destruct (_ =? _); [pres|].
  do 4 (apply pres_bind; [pres|intros ?]).
  apply pres_bind; [pres|intros _].
  apply pres_assoc; [|intros; pres].
  apply when_record_push. unfold sited, offsetAt. cbn. done.
Qed.

#[local] Hint Resolve OnBrExpr_wired : pres.

Lemma OnBrTableExpr_wired depths d : Preserves jumpsWired (OnBrTableExpr depths d).
Proof. pres. Qed.

Lemma BlockInfo_new_Some ty sig s b s' :
  BlockInfo_new ty sig s = Some (b, s') ->
  jumpsWired s ->
  jumpsWired s'
  /\ BlockInfo.m_jumpToEndBrInfo b = []
  /\ BlockInfo.m_position b = currentByteCodeSize s'.
Proof.
  intros H HP. split.
  { revert H. match goal with |- ?m _ = _ -> _ =>
      assert (Preserves jumpsWired m) as Hp by pres;
      intros H; exact (Hp _ _ _ H HP) end. }
  unfold BlockInfo_new in H.
  apply bind_Some in H as (? & ? & _ & H).
  apply bind_Some in H as (? & ? & _ & H).
  apply bind_Some in H as (? & ? & _ & H).
  apply bind_Some in H as (? & ? & H1 & H). apply gets_Some in H1 as [-> ->].
  apply bind_Some in H as (? & ? & H1 & H). apply gets_Some in H1 as [-> ->].
  apply ret_Some in H as [Hb ->]. by subst b.
Qed.

Lemma pushBlockInfo_wired b :
  BlockInfo.m_jumpToEndBrInfo b = [] -> Preserves jumpsWired (pushBlockInfo b).
Proof.
  intros Hb. apply pres_modify. intros s [Hw Hc]. split; [|exact Hc].
  unfold wired. cbn. apply Forall_app. split; [exact Hw|].
  constructor; [|done]. rewrite Hb. constructor.
Qed.

(** [OnLoopExpr], [OnBlockExpr] and the start of [OnTryExpr]. *)
Lemma open_wired ty sig :
  Preserves jumpsWired (b <- BlockInfo_new ty sig ;; pushBlockInfo b).
Proof.
  intros s [] s' H HP.
  apply bind_Some in H as (b & s1 & H1 & H).
  destruct (BlockInfo_new_Some _ _ _ _ _ H1 HP) as (HP1 & Hf & _).
  by apply (pushBlockInfo_wired b Hf _ _ _ H).
Qed.

Lemma ifTail_wired isInverted stackPos sig :
  Preserves jumpsWired (ifTail isInverted stackPos sig).
Proof.
  intros s [] s' H HP. unfold ifTail in H.
  apply bind_Some in H as (b & s1 & H1 & H).
  destruct (BlockInfo_new_Some _ _ _ _ _ H1 HP) as (HP1 & Hf & Hpos).
  apply bind_Some in H as ([] & s2 & H2 & H).
  unfold pushBlockInfo in H2. apply modify_Some in H2. subst s2.
  apply bind_Some in H as ([] & s3 & H3 & H).
  apply (seenBranch_wired _ _ _ H).
  destruct (pushByteCode_Some _ _ _ H3) as (Hb & Hbl & Hl).
  apply (pending_push (condJump isInverted stackPos 0) JumpToEndBrInfo.IsJumpIf
           s1 s3 HP1).
  - unfold sited, offsetAt, condJump. cbn. by destruct isInverted.
  - exact Hb.
  - exact Hl.
  - rewrite Hbl. cbn. destruct HP1 as [Hw _]. apply Forall_app. split.
    + eapply Forall_impl; [exact Hw|]. intros b0 Hb0.
      eapply Forall_impl; [exact Hb0|]. intros j Hj. by left.
    + constructor; [|done]. cbn. constructor; [|done]. right. by rewrite Hpos.
Qed.

Lemma OnElseExpr_wired : Preserves jumpsWired OnElseExpr.
Proof.
  unfold OnElseExpr.
  apply pres_bind; [pres|intros _]. apply pres_bind; [pres|intros blockInfo].
  apply pres_bind; [pres|intros _].
  apply pres_bind.
  { destruct (_ =? 0); [pres|]. apply modifyBackBlockInfo_wired.
    intros b j Hj. cbn in Hj. destruct (BlockInfo.m_jumpToEndBrInfo b); [done|].
    simpl in Hj. by apply elem_of_cons; right. }
  intros _. apply pres_bind; [|intros _; pres].
  apply pres_when.
  intros s [] s' H HP.
  apply bind_Some in H as (cur & z1 & H0 & H). apply gets_Some in H0 as [-> ->].
  apply bind_Some in H as (blocks & z2 & H0 & H). apply gets_Some in H0 as [-> ->].
  apply bind_Some in H as ([] & s1 & H1 & H).
  eapply record_then_push; [exact HP| |exact H1|exact H].
  unfold sited, offsetAt. cbn. done.
Qed.

Lemma processCatchExpr_wired tag : Preserves jumpsWired (processCatchExpr tag).
Proof.
  intros s [] s' H HP. unfold processCatchExpr in H.
  keep H HP. keep H HP. keep H HP. keep H HP.
  apply bind_Some in H as (cur & z3 & H0 & H). apply gets_Some in H0 as [-> ->].
  apply bind_Some in H as (catches & z4 & H0 & H). apply gets_Some in H0 as [-> ->].
  apply bind_Some in H as (blocks & z5 & H0 & H). apply gets_Some in H0 as [-> ->].
  apply bind_Some in H as ([] & s4 & H4 & H).
  assert (jumpsWired s4) as HP4.
  { destruct (negb _); simpl in H4; [|by apply ret_Some in H4 as [_ ->]].
    apply bind_Some in H4 as ([] & s5 & H5 & H4).
    eapply record_then_push; [exact HP| |exact H5|exact H4].
    unfold sited, offsetAt. cbn. done. }
  kept H HP4.
Qed.

#[local] Hint Resolve ifTail_wired OnElseExpr_wired processCatchExpr_wired : pres.

Ltac wire :=
  repeat first
    [ lazymatch goal with
      | |- Preserves _ (bind (gets currentByteCodeSize) _) =>
          eapply gets_record_push; intros ?; unfold sited, offsetAt, condJump; cbn;
          first [done | by case_match]
      end
    | pres_step
    | solve [eauto 2 with pres nocore]
    | lazymatch goal with |- Preserves _ (modify _) => pres_modify end
    | pres_unfold ].

Lemma brIfTail_wired isInverted stackPos depth :
  Preserves jumpsWired (brIfTail isInverted stackPos depth).
Proof.
  unfold brIfTail. cbv zeta. wire.
Qed.

#[local] Hint Resolve brIfTail_wired : pres.

Lemma OnEndExpr_wired : Preserves jumpsWired OnEndExpr.
Proof.
  intros s [] s' H HP. unfold OnEndExpr in H.
  apply bind_Some in H as ([] & s1 & H1 & H). apply (forget_wired _ _ _ H1) in HP.
  apply bind_Some in H as (blocks & z1 & H0 & H). apply gets_Some in H0 as [-> ->].
  destruct (last (m_blockInfo s1)) as [blockInfo|] eqn:El; [|kept H HP].
  apply last_Some_removelast in El.
  apply bind_Some in H as (dropSize & s2 & H2 & H).
  assert (s2 = s1) as ->.
  { revert H2. match goal with |- ?m _ = _ -> _ =>
      assert (Preserves (fun st => st = s1) m) as Hp by pres;
      intros H2; exact (Hp _ _ _ H2 eq_refl) end. }
  apply bind_Some in H as ([] & s3 & H3 & H). apply modify_Some in H3.
  assert (jumpsWired s3) as HP3.
  { subst s3. destruct HP as [Hw Hc]. split; [|exact Hc].
    unfold wired in *. cbn. rewrite El in Hw. by apply Forall_app in Hw as [Hw _]. }
  kept H HP3.
Qed.

(** *** The rewinding of an [i32.eqz] *)

Lemma canBeInverted_Some stackPos s b s1 :
  canBeInverted stackPos s = Some (b, s1) ->
  s1 = s
  /\ (b = true -> currentByteCodeSize s <> SIZE_MAX -> candidateIsEqz s ->
      exists pre src dst,
        bufOf s = pre ++ [ByteCode.UnaryOperation WASMOpcode.I32Eqz src dst]
        /\ m_lastI32EqzPos s = byteSize pre).
Proof.
  intros H. unfold canBeInverted in H.
  apply bind_Some in H as (lastPos & z1 & H0 & H). apply gets_Some in H0 as [-> ->].
  apply bind_Some in H as (cur & z2 & H0 & H). apply gets_Some in H0 as [-> ->].
  destruct (_ =? _) eqn:E.
  - apply bind_Some in H as (sd & s2 & H2 & H). apply ret_Some in H as [_ ->].
    assert (s2 = s) as ->.
    { revert H2. match goal with |- ?m _ = _ -> _ =>
        assert (Preserves (fun st => st = s) m) as Hp by pres;
        intros H2; exact (Hp _ _ _ H2 eq_refl) end. }
    split; [done|]. intros _ Hsz Hc. apply Z.eqb_eq in E.
    destruct Hc as [Hc|(src & dst & Hc)].
    + exfalso. apply Hsz. rewrite <- E. unfold noCandidate in Hc. rewrite Hc.
      unfold s_noI32Eqz, usize, SIZE_MAX.
      replace (2 ^ 64 - 1 - sizeof (ByteCode.UnaryOpcode WASMOpcode.I32Eqz)
               + sizeof (ByteCode.UnaryOpcode WASMOpcode.I32Eqz))
        with (2 ^ 64 - 1) by lia.
      by apply Z.mod_small.
    + pose proof (peekAt_range _ _ _ Hc) as [Hlo Hhi].
      pose proof (sizeof_pos (ByteCode.UnaryOpcode WASMOpcode.I32Eqz)) as Hpos.
      assert (getSize (ByteCode.UnaryOperation WASMOpcode.I32Eqz src dst)
              = sizeof (ByteCode.UnaryOpcode WASMOpcode.I32Eqz)) as Hg
        by (unfold getSize; simpl; lia).
      rewrite Hg in Hhi. unfold currentByteCodeSize in E. fold (bufOf s) in E.
      assert (m_lastI32EqzPos s + sizeof (ByteCode.UnaryOpcode WASMOpcode.I32Eqz)
              = byteSize (bufOf s)) as Hend.
      { unfold usize in E.
        assert (0 <= m_lastI32EqzPos s
                     + sizeof (ByteCode.UnaryOpcode WASMOpcode.I32Eqz)) as H0 by lia.
        assert (0 < 2 ^ 64) as H64 by done.
        pose proof (Z.mod_le _ _ H0 H64). lia. }
      destruct (peekAt_last _ _ _ Hc) as (pre & Hb & Hp); [by rewrite Hg|].
      by exists pre, src, dst.
  - apply ret_Some in H as [Hb ->]. split; [done|]. by subst b.
Qed.

Lemma sited_snoc_eqz pre src dst j :
  sited (pre ++ [ByteCode.UnaryOperation WASMOpcode.I32Eqz src dst]) j -> sited pre j.
Proof.
  unfold sited, offsetAt. destruct (JumpToEndBrInfo.m_type j); [| |done].
  all: intros [o Ho]; destruct (peekAt (pre ++ _) _) as [c|] eqn:E; [|done].
  all: apply peekAt_snoc_inv in E as [E|[_ ->]]; [by rewrite E|done].
Qed.

Lemma rewindI32Eqz_wired pre src dst s p s' :
  bufOf s = pre ++ [ByteCode.UnaryOperation WASMOpcode.I32Eqz src dst] ->
  m_lastI32EqzPos s = byteSize pre ->
  rewindI32Eqz s = Some (p, s') ->
  jumpsWired s -> jumpsWired s'.
Proof.
  intros Hb Hl H [Hw _]. unfold rewindI32Eqz in H.
  apply bind_Some in H as (lastPos & z1 & H0 & H). apply gets_Some in H0 as [-> ->].
  apply bind_Some in H as (sd & s1 & H1 & H).
  assert (s1 = s) as ->.
  { revert H1. match goal with |- ?m _ = _ -> _ =>
      assert (Preserves (fun st => st = s) m) as Hp by pres;
      intros H1; exact (Hp _ _ _ H1 eq_refl) end. }
  apply bind_Some in H as ([] & s2 & H2 & H).
  apply bind_Some in H as ([] & s3 & H3 & H). apply modify_Some in H3.
  apply ret_Some in H as [_ ->]. subst s3.
  unfold resizeByteCode, byteCode in H2.
  apply bind_Some in H2 as (buf & z2 & H0 & H2). apply gets_Some in H0 as [-> ->].
  fold (bufOf s) in H2. rewrite Hb, Hl, Fusion.truncateAt_app in H2.
  apply bind_Some in H2 as (buf' & z3 & H0 & H2). apply lift_Some in H0 as [Hb' ->].
  injection Hb' as <-. unfold setByteCode, modifyFunction in H2.
  apply modify_Some in H2. subst s2.
  split; [|by left].
  unfold wired, bufOf in *. cbn. rewrite Hb in Hw.
  eapply Forall_impl; [exact Hw|]. intros b Hb0.
  eapply Forall_impl; [exact Hb0|]. intros j. apply sited_snoc_eqz.
Qed.

(** The test and the rewinding, as [OnIfExpr] and [OnBrIfExpr] run them. *)
Lemma fuse_wired {A} stackPos (k : bool -> Z -> M A) s a s' :
  (forall b p, Preserves jumpsWired (k b p)) ->
  (isInverted <- canBeInverted stackPos ;;
   stackPos <- (if isInverted then rewindI32Eqz else ret stackPos) ;;
   k isInverted stackPos) s = Some (a, s') ->
  currentByteCodeSize s <> SIZE_MAX ->
  jumpsWired s -> jumpsWired s'.
Proof.
  intros Hk H Hsz HP.
  apply bind_Some in H as (b & s1 & H1 & H).
  apply canBeInverted_Some in H1 as [-> Hb].
  apply bind_Some in H as (p & s2 & H2 & H).
  apply (Hk b p _ _ _ H). destruct b.
  - destruct (Hb eq_refl Hsz (proj2 HP)) as (pre & src & dst & Hbuf & Hl).
    by eapply rewindI32Eqz_wired.
  - by apply ret_Some in H2 as [_ ->].
Qed.


Lemma OnLoopExpr_wired sig : Preserves jumpsWired (OnLoopExpr sig).
Proof. apply open_wired. Qed.

Lemma OnBlockExpr_wired sig : Preserves jumpsWired (OnBlockExpr sig).
Proof. apply open_wired. Qed.

Lemma OnTryExpr_wired sig : Preserves jumpsWired (OnTryExpr sig).
Proof.
  unfold OnTryExpr. apply pres_assoc; [apply open_wired|]. intros; pres.
Qed.

#[local] Hint Resolve OnEndExpr_wired OnLoopExpr_wired OnBlockExpr_wired
  OnTryExpr_wired : pres.

Lemma popVMStack_wired : Preserves jumpsWired popVMStack.
Proof. pres. Qed.

(** The handlers of the instructions keep the wiring. *)
Lemma handle_wired e s s' :
  isInstruction e = true ->
  currentByteCodeSize s <> SIZE_MAX ->
  jumpsWired s ->
  Decoder.handle e s = Some (tt, s') ->
  jumpsWired s'.
Proof.
  intros He Hsz HP H.
  destruct e; try discriminate He; unfold Decoder.handle in H.
  all: try (revert H; match goal with |- ?m _ = _ -> _ =>
         assert (Preserves jumpsWired m) as Hp by pres;
         intros H; exact (Hp _ _ _ H HP) end).
  - (* if *)
    unfold OnIfExpr in H.
    apply bind_Some in H as (stackPos & s1 & H1 & H).
    assert (currentByteCodeSize s1 = currentByteCodeSize s) as Hsz1.
    { revert H1. match goal with |- ?m _ = _ -> _ =>
        assert (Preserves (fun st => currentByteCodeSize st = currentByteCodeSize s) m)
          as Hp by pres;
        intros H1; exact (Hp _ _ _ H1 eq_refl) end. }
    assert (jumpsWired s1) as HP1.
    { revert H1. match goal with |- ?m _ = _ -> _ =>
        assert (Preserves jumpsWired m) as Hp by pres;
        intros H1; exact (Hp _ _ _ H1 HP) end. }
    eapply (fuse_wired stackPos (fun b p => ifTail b p sig)); [|exact H| |exact HP1].
    + intros. apply ifTail_wired.
    + by rewrite Hsz1.
  - (* br_if *)
    unfold OnBrIfExpr in H.
    apply bind_Some in H as ([] & s0 & H0 & H).
    apply bind_Some in H as (stackPos & s1 & H1 & H).
    assert (currentByteCodeSize s1 = currentByteCodeSize s) as Hsz1.
    { transitivity (currentByteCodeSize s0).
      - revert H1. match goal with |- ?m _ = _ -> _ =>
          assert (Preserves (fun st => currentByteCodeSize st = currentByteCodeSize s0) m)
            as Hp by pres;
          intros H1; exact (Hp _ _ _ H1 eq_refl) end.
      - revert H0. match goal with |- ?m _ = _ -> _ =>
          assert (Preserves (fun st => currentByteCodeSize st = currentByteCodeSize s) m)
            as Hp by pres;
          intros H0; exact (Hp _ _ _ H0 eq_refl) end. }
    assert (jumpsWired s1) as HP1.
    { apply (seenBranch_wired _ _ _ H0) in HP.
      revert H1. match goal with |- ?m _ = _ -> _ =>
        assert (Preserves jumpsWired m) as Hp by pres;
        intros H1; exact (Hp _ _ _ H1 HP) end. }
    eapply (fuse_wired stackPos (fun b p => brIfTail b p depth));
      [|exact H| |exact HP1].
    + intros. apply brIfTail_wired.
    + by rewrite Hsz1.
Qed.

(** X27. The fixups stay wired. Suppose every jump and conditional-jump
    fixup of every open block names the start of a record of its kind in
    the buffer ([Jump], or [JumpIfTrue]/[JumpIfFalse]), and the designated
    [i32.eqz] record, if there is one, is an [i32.eqz]. Then the same holds
    after any instruction handler that returns, as long as the buffer does
    not fill the address space: the handlers that record a fixup emit its
    jump at the recorded position, patching keeps the kind of a record,
    and the rewinding of a fused [i32.eqz] removes only that record. *)
Theorem fixups_point_at_jumps e s s' :
  isInstruction e = true ->
  currentByteCodeSize s <> SIZE_MAX ->
  jumpsWired s ->
  Decoder.handle e s = Some (tt, s') ->
  jumpsWired s'.
Proof. apply handle_wired. Qed.

Lemma updateAt_at f buf pos c c' :
  peekAt buf pos = Some c -> f c = Some c' ->
  exists buf', updateAt f buf pos = Some buf'.
Proof.
  revert pos. induction buf as [|c0 r IH]; intros pos H Hf; simpl in *; [done|].
  destruct (pos =? 0).
  - injection H as ->. rewrite Hf. by eexists.
  - destruct (pos <? getSize c0); [done|].
    destruct (IH _ H Hf) as [r' ->]. by eexists.
Qed.

(** X28. A jump or conditional-jump fixup that names the start of a
    record of its kind can always be patched: [patchJumpToEnd], the body
    of the patch loop of [OnEndExpr], succeeds on it, the record then
    holds the end of the buffer minus the site (as an [int32_t]), and the
    length of the buffer is unchanged. *)
Theorem sited_fixup_can_be_patched s j :
  sited (bufOf s) j ->
  JumpToEndBrInfo.m_type j <> JumpToEndBrInfo.IsBrTable ->
  exists s',
    patchJumpToEnd j s = Some (tt, s')
    /\ offsetAt (JumpToEndBrInfo.m_type j) (bufOf s') (JumpToEndBrInfo.m_position j)
       = Some (i32 (currentByteCodeSize s - JumpToEndBrInfo.m_position j))
    /\ currentByteCodeSize s' = currentByteCodeSize s.
Proof.
  intros Hs Hty. unfold sited, offsetAt in Hs.
  unfold patchJumpToEnd, bind at 1, gets at 1.
  destruct (JumpToEndBrInfo.m_type j) eqn:Ety; [| |done].
  - destruct Hs as [o Ho].
    destruct (peekAt (bufOf s) _) as [c|] eqn:E; [|done]. simpl in Ho.
    destruct c; try done.
    destruct (updateAt_at (setJumpOffset (currentByteCodeSize s
                                          - JumpToEndBrInfo.m_position j))
                _ _ _ _ E eq_refl) as [buf' Hup].
    eexists. split.
    { unfold setOffsetAt, byteCode, setByteCode, modifyFunction, bind, gets, lift, modify.
      fold (bufOf s). rewrite Hup. reflexivity. }
    unfold offsetAt, bufOf, currentByteCodeSize. cbn. fold (bufOf s).
    rewrite (Fixups.peekAt_updateAt _ _ _ _ (JumpToEndBrInfo.m_position j)
               (fun c c' H => proj1 (keepsKind_setJumpOffset _ c c' H)) Hup),
      Z.eqb_refl, E.
    split; [done|].
    apply (Fixups.byteSize_updateAt _ _ _ _
             (fun c c' H => proj1 (keepsKind_setJumpOffset _ c c' H)) Hup).
  - destruct Hs as [o Ho].
    destruct (peekAt (bufOf s) _) as [c|] eqn:E; [|done]. simpl in Ho.
    assert (exists c', setJumpIfOffset (currentByteCodeSize s
                                        - JumpToEndBrInfo.m_position j) c = Some c'
                       /\ jumpIfOffset c'
                          = Some (i32 (currentByteCodeSize s
                                       - JumpToEndBrInfo.m_position j)))
      as (c' & Hc' & Ho').
    { destruct c; try done; by eexists. }
    destruct (updateAt_at _ _ _ _ _ E Hc') as [buf' Hup].
    eexists. split.
    { unfold setOffsetAt, byteCode, setByteCode, modifyFunction, bind, gets, lift, modify.
      fold (bufOf s). rewrite Hup. reflexivity. }
    unfold offsetAt, bufOf, currentByteCodeSize. cbn. fold (bufOf s).
    rewrite (Fixups.peekAt_updateAt _ _ _ _ (JumpToEndBrInfo.m_position j)
               (fun c c' H => proj1 (keepsKind_setJumpIfOffset _ c c' H)) Hup),
      Z.eqb_refl, E.
    simpl. rewrite Hc'. simpl. split; [done|].
    apply (Fixups.byteSize_updateAt _ _ _ _
             (fun c c' H => proj1 (keepsKind_setJumpIfOffset _ c c' H)) Hup).
Qed.
End Kept.

(** The theorem at work: the [else] of
    [i32.const 1; if; i32.const 7; drop; else], whose block holds the
    fixup of the [if]. *)
Lemma fixups_point_at_jumps_witness :
  exists s s',
    @Decoder.run Sample.layout Sample.sort
      [Decoder.I32Const 1; Decoder.If Type_.Void; Decoder.I32Const 7; Decoder.Drop]
      (@new Sample.layout [] Inputs.emptyResult) = Some (tt, s)
    /\ @Decoder.handle Sample.layout Sample.sort Decoder.Else s = Some (tt, s')
    /\ @jumpsWired Sample.layout s
    /\ @jumpsWired Sample.layout s'.
Proof.
  evar (s0 : t). evar (s1 : t). exists s0, s1.
  split; [unfold s0; vm_compute; reflexivity|].
  assert (@Decoder.handle Sample.layout Sample.sort Decoder.Else s0 = Some (tt, s1))
    as Hrun by (unfold s1; vm_compute; reflexivity).
  split; [exact Hrun|].
  assert (@jumpsWired Sample.layout s0) as HP.
  { split; [|left; reflexivity].
    repeat constructor. unfold sited. cbn. eexists. vm_compute. reflexivity. }
  split; [exact HP|].
  apply (@fixups_point_at_jumps Sample.layout Sample.sort Decoder.Else s0 s1).
  - reflexivity.
  - vm_compute. discriminate.
  - exact HP.
  - exact Hrun.
Defined.

(** The theorem at work: the fixup of that [if], patched at 32 bytes. *)
Lemma sited_fixup_can_be_patched_witness :
  exists s s',
    @Decoder.run Sample.layout Sample.sort
      [Decoder.I32Const 1; Decoder.If Type_.Void]
      (@new Sample.layout [] Inputs.emptyResult) = Some (tt, s)
    /\ @patchJumpToEnd Sample.layout
         (JumpToEndBrInfo.mk JumpToEndBrInfo.IsJumpIf 16) s = Some (tt, s')
    /\ bufOf s' = [ByteCode.Const32 0 1; ByteCode.JumpIfFalse 0 16].
Proof.
  evar (s0 : t).
  assert (@Decoder.run Sample.layout Sample.sort
            [Decoder.I32Const 1; Decoder.If Type_.Void]
            (@new Sample.layout [] Inputs.emptyResult) = Some (tt, s0)) as Hrun
    by (unfold s0; vm_compute; reflexivity).
  destruct (@sited_fixup_can_be_patched Sample.layout s0
              (JumpToEndBrInfo.mk JumpToEndBrInfo.IsJumpIf 16))
    as (s' & H & _).
  - unfold sited. cbn. eexists. vm_compute. reflexivity.
  - discriminate.
  - exists s0, s'. split; [exact Hrun|]. split; [exact H|].
    revert H. vm_compute. intros H. injection H as <-. reflexivity.
Defined.

End Wiring.

(** ** Where the fixups of a block land *)

Module Landing.

Import WASMBinaryReader MonadFacts HandlerFacts Patch Candidate Events Sites Landed.

#[local] Open Scope M_scope.

Section Entries.

Context {L : Layout}.

(** *** Reads inside a record *)

Lemma peekInside_range {A} (g : Z -> ByteCode.t -> option A) buf q x :
  peekInside g buf q = Some x -> 0 <= q < byteSize buf.
Proof.
  revert q. induction buf as [|c r IH]; intros q H; simpl in *; [done|].
  pose proof (Fusion.getSize_pos c). pose proof (Fusion.byteSize_nonneg r).
  destruct ((0 <=? q) && (q <? getSize c)) eqn:E; [lia|].
  apply IH in H. lia.
Qed.

Lemma peekInside_app_l {A} (g : Z -> ByteCode.t -> option A) buf l q x :
  peekInside g buf q = Some x -> peekInside g (buf ++ l) q = Some x.
Proof.
  revert q. induction buf as [|c r IH]; intros q H; simpl in *; [done|].
  destruct ((0 <=? q) && (q <? getSize c)); [done|]. by apply IH.
Qed.

Lemma peekInside_snoc_inv {A} (g : Z -> ByteCode.t -> option A) pre c q x :
  (forall off, g off c = None) ->
  peekInside g (pre ++ [c]) q = Some x -> peekInside g pre q = Some x.
Proof.
  intros Hc. revert q. induction pre as [|c0 r IH]; intros q H; simpl in *.
  - destruct ((0 <=? q) && (q <? getSize c)); [by rewrite Hc in H|done].
  - destruct ((0 <=? q) && (q <? getSize c0)); [done|]. by apply IH.
Qed.

(** A read inside a record finds the record that holds the byte. *)
Lemma peekInside_record {A} (g : Z -> ByteCode.t -> option A) buf q x :
  peekInside g buf q = Some x ->
  exists start c,
    peekAt buf start = Some c /\ start <= q < start + getSize c
    /\ g (q - start) c = Some x.
Proof.
  revert q. induction buf as [|c r IH]; intros q H; simpl in *; [done|].
  pose proof (Fusion.getSize_pos c) as Hc.
  destruct ((0 <=? q) && (q <? getSize c)) eqn:E.
  - exists 0, c. simpl. split; [done|]. split; [lia|]. by rewrite Z.sub_0_r.
  - pose proof (peekInside_range _ _ _ _ H) as Hq.
    destruct (IH _ H) as (start & c' & Hp & Hr & Hg).
    exists (start + getSize c), c'. split.
    + pose proof (Wiring.peekAt_range _ _ _ Hp) as [Hs _].
      assert ((start + getSize c =? 0) = false) as -> by lia.
      assert ((start + getSize c <? getSize c) = false) as -> by lia.
      by replace (start + getSize c - getSize c) with start by lia.
    + split; [lia|]. by replace (q - (start + getSize c)) with (q - getSize c - start) by lia.
Qed.

Lemma peekAt_peekInside {A} (g : Z -> ByteCode.t -> option A) buf start c off :
  peekAt buf start = Some c -> 0 <= off < getSize c ->
  peekInside g buf (start + off) = g off c.
Proof.
  revert start. induction buf as [|c0 r IH]; intros start H Ho; simpl in *; [done|].
  pose proof (Fusion.getSize_pos c0) as Hc.
  destruct (start =? 0) eqn:E0.
  - injection H as ->. assert (start = 0) as -> by lia.
    rewrite Z.add_0_l.
    assert ((0 <=? off) && (off <? getSize c) = true) as -> by lia. done.
  - destruct (start <? getSize c0) eqn:E1; [done|].
    assert ((0 <=? start + off) && (start + off <? getSize c0) = false) as -> by lia.
    replace (start + off - getSize c0) with (start - getSize c0 + off) by lia.
    by apply IH.
Qed.

(** *** The entries of a [br_table] *)

Lemma entryAt_offsetAt buf q off v :
  entryAt buf q = Some (off, v) ->
  offsetAt JumpToEndBrInfo.IsBrTable buf q = Some v.
Proof.
  unfold entryAt, offsetAt. revert q.
  induction buf as [|c r IH]; intros q H; simpl in *; [done|].
  destruct ((0 <=? q) && (q <? getSize c)); [|by apply IH].
  destruct (brTableEntry q c); simpl in H; [|done]. by injection H as _ ->.
Qed.

Lemma entryAt_record buf q off v :
  entryAt buf q = Some (off, v) ->
  exists c,
    peekAt buf (q - off) = Some c /\ 0 <= off < getSize c
    /\ brTableEntry off c = Some v.
Proof.
  intros H. apply peekInside_record in H as (start & c & Hp & Hr & Hg).
  destruct (brTableEntry (q - start) c) as [v'|] eqn:E; simpl in Hg; [|done].
  injection Hg as <- <-. exists c.
  replace (q - (q - start)) with start by lia. split; [done|]. split; [lia|done].
Qed.

Lemma setBrTableEntry_range g off c c' :
  setBrTableEntry g off c = Some c' -> 0 <= off < getSize c.
Proof.
  destruct c; simpl; try discriminate.
  rename tableSize into n, jumpOffsets into js.
  pose proof offsetOfDefault_range as Hd.
  unfold getSize. simpl.
  assert (0 <= (if Z.of_nat (length js) =? 0 then 0
                else ByteCode.pointerAlignedSize (4 * Z.of_nat (length js)))) as Ht.
  { destruct (_ =? 0); [lia|]. unfold ByteCode.pointerAlignedSize.
    apply Z.mul_nonneg_nonneg; [|lia]. apply Z.div_pos; lia. }
  destruct (off =? offsetOfDefault) eqn:Eo; [intros _; lia|].
  set (k := off - sizeof ByteCode.BrTableOpcode).
  destruct ((0 <=? k) && (k mod 4 =? 0) && (k / 4 <? n)) eqn:Ek; [|discriminate].
  destruct (js !! Z.to_nat (k / 4)) as [old|] eqn:Eold; simpl; [|discriminate].
  intros _. apply lookup_lt_Some in Eold.
  assert (0 <= k /\ k mod 4 = 0) as [Hk0 Hk4] by lia.
  pose proof (Z.div_mod k 4 ltac:(lia)) as Hdm.
  pose proof (Z.div_pos k 4 ltac:(lia) ltac:(lia)) as Hdp.
  assert (k < 4 * Z.of_nat (length js)) as Hlt by lia.
  destruct (Z.of_nat (length js) =? 0) eqn:El; [lia|].
  unfold ByteCode.pointerAlignedSize.
  pose proof (Z.div_mod (4 * Z.of_nat (length js) + 7) 8 ltac:(lia)).
  pose proof (Z.mod_pos_bound (4 * Z.of_nat (length js) + 7) 8 ltac:(lia)).
  unfold k in *. lia.
Qed.

(** A write through a record pointer that leaves the entries alone. *)
Lemma entryAt_updateAt f buf pos buf' q :
  (forall c c', f c = Some c' -> getSize c' = getSize c) ->
  (forall c c' off, f c = Some c' -> brTableEntry off c' = brTableEntry off c) ->
  updateAt f buf pos = Some buf' ->
  entryAt buf' q = entryAt buf q.
Proof.
  intros Hf Hg Hu. unfold entryAt.
  eapply Fixups.peekInside_updateAt; [exact Hf| |exact Hu].
  intros c c' off Hc. simpl. by rewrite (Hg _ _ _ Hc).
Qed.

(** A write of the entry at byte [b] of the record that starts at [a]. *)
Lemma entryAt_write g b buf a buf' :
  updateAt (setBrTableEntry g b) buf a = Some buf' ->
  (forall q, q <> a + b -> entryAt buf' q = entryAt buf q)
  /\ exists old,
       entryAt buf (a + b) = Some (b, old)
       /\ entryAt buf' (a + b) = Some (b, i32 (g old)).
Proof.
  intros Hu.
  destruct (Fixups.updateAt_Some _ _ _ _ Hu) as (c & c' & Hc & Hfc).
  pose proof (Fixups.peekAt_updateAt _ _ _ _ a
                (fun c c' H => proj1 (Fixups.setBrTableEntry_Some _ _ _ _ H)) Hu) as Hp.
  rewrite Z.eqb_refl, Hc in Hp. simpl in Hp. rewrite Hfc in Hp.
  pose proof (setBrTableEntry_range _ _ _ _ Hfc) as Hr.
  destruct (Fixups.setBrTableEntry_Some _ _ _ _ Hfc)
    as (Hsz & _ & _ & (old & Ho & Hn) & Hoth).
  split.
  - intros q Hq. unfold entryAt. revert a q buf' Hu Hq Hc Hp.
    induction buf as [|c0 r IH]; intros a q buf' Hu Hq Hc Hp; simpl in Hu; [done|].
    simpl in Hc. destruct (a =? 0) eqn:E0.
    + injection Hc as ->. rewrite Hfc in Hu. simpl in Hu. injection Hu as <-.
      simpl. rewrite Hsz.
      destruct ((0 <=? q) && (q <? getSize c)); [|done].
      rewrite Hoth; [done|lia].
    + destruct (a <? getSize c0) eqn:E1; [done|].
      destruct (updateAt _ r (a - getSize c0)) as [r'|] eqn:Er; simpl in Hu; [|done].
      injection Hu as <-. simpl.
      destruct ((0 <=? q) && (q <? getSize c0)); [done|].
      eapply IH; [exact Er|lia|exact Hc|].
      simpl in Hp. by rewrite E0, E1 in Hp.
  - exists old. unfold entryAt.
    rewrite (peekAt_peekInside _ _ _ _ _ Hc Hr).
    rewrite (peekAt_peekInside _ _ _ _ _ Hp); [|by rewrite Hsz].
    by rewrite Ho, Hn.
Qed.

(** The write of the patch loop into the entry at [site]. *)
Lemma entryAt_updateInside g buf site buf' :
  updateInside (setBrTableEntry g) buf site = Some buf' ->
  (forall q, q <> site -> entryAt buf' q = entryAt buf q)
  /\ exists off old,
       entryAt buf site = Some (off, old)
       /\ entryAt buf' site = Some (off, i32 (g old)).
Proof.
  intros Hu.
  assert (forall off c c', setBrTableEntry g off c = Some c' ->
                           getSize c' = getSize c) as Hsz.
  { intros off c c' Hc. by apply Fixups.setBrTableEntry_Some in Hc as (? & _). }
  split.
  - intros q Hq. unfold entryAt.
    eapply Fixups.peekInside_updateInside; [exact Hsz|exact Hu|exact Hq|].
    intros off off' c c' Hc Hne. simpl.
    apply Fixups.setBrTableEntry_Some in Hc as (_ & _ & _ & _ & Hc).
    by rewrite Hc.
  - destruct (Fixups.peekInside_updateInside_same
                (fun off c => pair off <$> brTableEntry off c) _ _ _ _ Hsz Hu)
      as (off & c & c' & Hc & Hold & Hnew).
    apply Fixups.setBrTableEntry_Some in Hc as (_ & _ & _ & (old & Ho & Hn) & _).
    exists off, old. unfold entryAt. rewrite Hold, Hnew, Ho, Hn. done.
Qed.

Lemma entryAt_app buf l q x :
  entryAt buf q = Some x -> entryAt (buf ++ l) q = Some x.
Proof. apply peekInside_app_l. Qed.

Lemma tabled_app buf l j : tabled buf j -> tabled (buf ++ l) j.
Proof.
  intros H Hty. destruct (H Hty) as (off & Ho). exists off. by apply entryAt_app.
Qed.

Lemma i32_i32_add a b c : i32 (a + i32 b - c) = i32 (a + b - c).
Proof.
  unfold i32.
  pose proof (Z.div_mod (b + 2 ^ 31) (2 ^ 32) ltac:(lia)) as Hb.
  replace (a + ((b + 2 ^ 31) mod 2 ^ 32 - 2 ^ 31) - c + 2 ^ 31)
    with (a + b - c + 2 ^ 31 + (- ((b + 2 ^ 31) / 2 ^ 32)) * 2 ^ 32) by lia.
  by rewrite Z_mod_plus_full.
Qed.

End Entries.
(** *** The fixups of the open blocks as a multiset *)

Section Lists.

Lemma concat_alter_submseteq {A B} (fx : A -> list B) (f : A -> A) extra i l :
  (forall b, fx (f b) ⊆+ fx b ++ extra) ->
  concat (map fx (alter f i l)) ⊆+ concat (map fx l) ++ extra.
Proof.
  intros Hf. revert i. induction l as [|c r IH]; intros i; simpl.
  - apply submseteq_nil_l.
  - destruct i as [|i]; simpl.
    + rewrite <- app_assoc.
      rewrite (Permutation_app_comm (concat (map fx r)) extra).
      rewrite app_assoc. apply submseteq_skips_r, Hf.
    + rewrite <- app_assoc. apply submseteq_skips_l, IH.
Qed.

Lemma NoDup_submseteq_inv {A} (l k : list A) : l ⊆+ k -> NoDup k -> NoDup l.
Proof.
  intros H Hk. apply submseteq_Permutation in H as [k' H].
  rewrite H in Hk. by apply NoDup_app in Hk as [? _].
Qed.

End Lists.

Section Intro.

Context {L : Layout}.

Variable R0 R : Z -> Prop.
Variable hi0 hi : Z.

(** The fixups after a step are among those before it and [extra], new
    ones at fresh sites. *)
Lemma apart_intro s s' extra :
  apart R0 hi0 s ->
  fixupsOf s' ⊆+ fixupsOf s ++ extra ->
  hi <= currentByteCodeSize s' ->
  (forall j, j ∈ fixupsOf s ->
     JumpToEndBrInfo.m_position j < currentByteCodeSize s ->
     R0 (JumpToEndBrInfo.m_position j) ->
     tabled (bufOf s) j ->
     JumpToEndBrInfo.m_position j < currentByteCodeSize s'
     /\ R (JumpToEndBrInfo.m_position j)
     /\ tabled (bufOf s') j) ->
  NoDup (map JumpToEndBrInfo.m_position extra) ->
  (forall x j, x ∈ extra -> j ∈ fixupsOf s ->
     JumpToEndBrInfo.m_position x <> JumpToEndBrInfo.m_position j) ->
  Forall (fun j => JumpToEndBrInfo.m_position j < currentByteCodeSize s'
                   /\ R (JumpToEndBrInfo.m_position j)
                   /\ tabled (bufOf s') j) extra ->
  apart R hi s'.
Proof.
  intros (Hnd & Hall & _) Hsub Hhi Hold Hnx Hfresh Hx.
  split; [|split; [|exact Hhi]].
  - eapply NoDup_submseteq_inv; [by apply fmap_submseteq|].
    rewrite fmap_app. apply NoDup_app. split; [exact Hnd|]. split; [|exact Hnx].
    intros p Hp Hp'.
    apply list_elem_of_fmap in Hp as (j & -> & Hj).
    apply list_elem_of_fmap in Hp' as (x & Heq & Hx').
    by apply (Hfresh x j).
  - apply Forall_forall. intros j Hj.
    apply (elem_of_submseteq _ _ _ Hj) in Hsub.
    apply elem_of_app in Hsub as [Hj'|Hj'].
    + rewrite Forall_forall in Hall. destruct (Hall _ Hj') as (Hlt & HR & Ht).
      by apply Hold.
    + rewrite Forall_forall in Hx. by apply Hx.
Qed.

End Intro.

(** Fewer demands on the sites. *)
Lemma apart_mono {L : Layout} (R0 R : Z -> Prop) hi0 hi s :
  (forall z, R0 z -> R z) -> hi <= hi0 -> apart R0 hi0 s -> apart R hi s.
Proof.
  intros HR Hhi (Hnd & Hall & Hh). split; [exact Hnd|]. split; [|lia].
  eapply Forall_impl; [exact Hall|]. intros j (? & ? & ?). auto.
Qed.

Section Kept.

Context {L : Layout} {Srt : StdSort}.

Variable R : Z -> Prop.
Variable hi : Z.
Hypothesis R_above : forall z, hi <= z -> R z.

(** A step that leaves the buffer and the blocks alone. *)
Lemma apart_ext s s' :
  bufOf s' = bufOf s -> m_blockInfo s' = m_blockInfo s ->
  apart R hi s -> apart R hi s'.
Proof.
  unfold apart, fixupsOf, currentByteCodeSize, bufOf. intros -> ->. done.
Qed.

(** A step that only rewrites records in place, leaving the entries of
    the fixups as they are, and drops fixups. *)
Lemma apart_same_size s s' :
  apart R hi s ->
  fixupsOf s' ⊆+ fixupsOf s ->
  currentByteCodeSize s' = currentByteCodeSize s ->
  (forall j, j ∈ fixupsOf s -> R (JumpToEndBrInfo.m_position j) ->
     tabled (bufOf s) j -> tabled (bufOf s') j) ->
  apart R hi s'.
Proof.
  intros HP Hsub Hsz Ht.
  apply (apart_intro R R hi hi s s' []); try done.
  - by rewrite app_nil_r.
  - rewrite Hsz. by destruct HP as (_ & _ & ?).
  - intros j Hj Hlt HR Htj. rewrite Hsz. split; [done|]. split; [done|]. by apply Ht.
  - constructor.
  - intros x j Hx. by apply elem_of_nil in Hx.
Qed.

Lemma currentByteCodeSize_push c s s' :
  bufOf s' = bufOf s ++ [c] ->
  currentByteCodeSize s' = currentByteCodeSize s + getSize c.
Proof.
  unfold currentByteCodeSize. fold (bufOf s) (bufOf s'). intros ->.
  rewrite Fusion.byteSize_app. simpl. lia.
Qed.

Lemma pushByteCode_apart c : Preserves (apart R hi) (pushByteCode c).
Proof.
  intros s [] s' H HP.
  destruct (Wiring.pushByteCode_Some _ _ _ H) as (Hb & Hbl & _).
  pose proof (currentByteCodeSize_push _ _ _ Hb) as Hsz.
  pose proof (Fusion.getSize_pos c) as Hc.
  apply (apart_intro R R hi hi s s' []); try done.
  - unfold fixupsOf. by rewrite Hbl, app_nil_r.
  - destruct HP as (_ & _ & ?). lia.
  - intros j Hj Hlt HR Htj. split; [lia|]. split; [done|].
    rewrite Hb. by apply tabled_app.
  - constructor.
  - intros x j Hx. by apply elem_of_nil in Hx.
Qed.

(** A jump fixup for the end of the buffer has been recorded and the
    record [c] pushed. *)
Lemma pending_push_apart c x s s' :
  apart R hi s ->
  JumpToEndBrInfo.m_type x <> JumpToEndBrInfo.IsBrTable ->
  JumpToEndBrInfo.m_position x = currentByteCodeSize s ->
  bufOf s' = bufOf s ++ [c] ->
  fixupsOf s' ⊆+ fixupsOf s ++ [x] ->
  apart R hi s'.
Proof.
  intros HP Hty Hpos Hb Hsub.
  pose proof (currentByteCodeSize_push _ _ _ Hb) as Hsz.
  pose proof (Fusion.getSize_pos c) as Hc.
  pose proof HP as (_ & Hall & Hhi).
  apply (apart_intro R R hi hi s s' [x]); try done.
  - lia.
  - intros j Hj Hlt HR Htj. split; [lia|]. split; [done|].
    rewrite Hb. by apply tabled_app.
  - simpl. apply NoDup_singleton.
  - intros x' j Hx Hj. apply list_elem_of_singleton in Hx. subst x'.
    rewrite Forall_forall in Hall. destruct (Hall _ Hj). lia.
  - constructor; [|done]. split; [lia|]. split; [apply R_above; lia|].
    intros Hx. done.
Qed.

Lemma modifyBlockInfo_Some i f s s' :
  modifyBlockInfo i f s = Some (tt, s') ->
  s' = set_m_blockInfo (alter f i (m_blockInfo s)) s.
Proof.
  intros H. unfold modifyBlockInfo in H.
  apply bind_Some in H as (blocks & s0 & H0 & H). apply gets_Some in H0 as [-> ->].
  destruct decide; [|done]. by apply modify_Some in H.
Qed.

Lemma fixupsOf_modifyBlockInfo i f extra s s' :
  (forall b, BlockInfo.m_jumpToEndBrInfo (f b)
             ⊆+ BlockInfo.m_jumpToEndBrInfo b ++ extra) ->
  modifyBlockInfo i f s = Some (tt, s') ->
  fixupsOf s' ⊆+ fixupsOf s ++ extra /\ bufOf s' = bufOf s.
Proof.
  intros Hf H. apply modifyBlockInfo_Some in H. subst s'.
  split; [|done]. unfold fixupsOf. cbn. by apply concat_alter_submseteq.
Qed.

Lemma modifyBlockInfo_apart i f :
  (forall b, BlockInfo.m_jumpToEndBrInfo (f b) ⊆+ BlockInfo.m_jumpToEndBrInfo b) ->
  Preserves (apart R hi) (modifyBlockInfo i f).
Proof.
  intros Hf s [] s' H HP.
  destruct (fixupsOf_modifyBlockInfo i f [] s s') as [Hsub Hb]; [|done|].
  { intros b. by rewrite app_nil_r. }
  rewrite app_nil_r in Hsub.
  apply (apart_same_size s s' HP Hsub).
  - unfold currentByteCodeSize. fold (bufOf s) (bufOf s'). by rewrite Hb.
  - intros j _ _. by rewrite Hb.
Qed.

Lemma modifyBackBlockInfo_apart f :
  (forall b, BlockInfo.m_jumpToEndBrInfo (f b) ⊆+ BlockInfo.m_jumpToEndBrInfo b) ->
  Preserves (apart R hi) (modifyBackBlockInfo f).
Proof.
  intros Hf. unfold modifyBackBlockInfo.
  apply pres_bind; [apply pres_gets|]. intros. by apply modifyBlockInfo_apart.
Qed.

Lemma fixupsOf_pushJumpToEnd i ty p s s' :
  pushJumpToEnd i ty p s = Some (tt, s') ->
  fixupsOf s' ⊆+ fixupsOf s ++ [JumpToEndBrInfo.mk ty p] /\ bufOf s' = bufOf s.
Proof.
  intros H. unfold pushJumpToEnd in H.
  eapply fixupsOf_modifyBlockInfo; [|exact H]. intros b. cbn. reflexivity.
Qed.

Lemma record_then_push_apart i ty c s s1 s2 :
  apart R hi s ->
  ty <> JumpToEndBrInfo.IsBrTable ->
  pushJumpToEnd i ty (currentByteCodeSize s) s = Some (tt, s1) ->
  pushByteCode c s1 = Some (tt, s2) ->
  apart R hi s2.
Proof.
  intros HP Hty H1 H2.
  destruct (fixupsOf_pushJumpToEnd _ _ _ _ _ H1) as [Hsub Hb1].
  destruct (Wiring.pushByteCode_Some _ _ _ H2) as (Hb & Hbl & _).
  apply (pending_push_apart c (JumpToEndBrInfo.mk ty (currentByteCodeSize s))
           s s2 HP); [exact Hty|done|by rewrite Hb, Hb1|].
  unfold fixupsOf at 1. rewrite Hbl. exact Hsub.
Qed.

Lemma when_record_push_apart b i ty c :
  ty <> JumpToEndBrInfo.IsBrTable ->
  Preserves (apart R hi)
    (when b (cur <- gets currentByteCodeSize ;; pushJumpToEnd i ty cur) ;;
     pushByteCode c).
Proof.
  intros Hk s [] s' H HP.
  apply bind_Some in H as ([] & s1 & H1 & H). destruct b; simpl in H1.
  - apply bind_Some in H1 as (cur & s0 & H0 & H1). apply gets_Some in H0 as [-> ->].
    by eapply record_then_push_apart.
  - apply ret_Some in H1 as [_ ->]. by eapply pushByteCode_apart.
Qed.

Lemma gets_record_push_apart b i ty (c : Z -> ByteCode.t) :
  ty <> JumpToEndBrInfo.IsBrTable ->
  Preserves (apart R hi)
    (cur <- gets currentByteCodeSize ;;
     when b (pushJumpToEnd i ty cur) ;;
     pushByteCode (c cur)).
Proof.
  intros Hk s [] s' H HP.
  apply bind_Some in H as (cur & s0 & H0 & H). apply gets_Some in H0 as [-> ->].
  apply bind_Some in H as ([] & s1 & H1 & H). destruct b; simpl in H1.
  - by eapply record_then_push_apart.
  - apply ret_Some in H1 as [_ ->]. by eapply pushByteCode_apart.
Qed.

(** A write of the offset of a jump or conditional jump. *)
Lemma setOffsetAt_apart set pos v :
  (forall c c', set v c = Some c' ->
     getSize c' = getSize c /\ forall off, brTableEntry off c' = brTableEntry off c) ->
  Preserves (apart R hi) (setOffsetAt set pos v).
Proof.
  intros Hk s [] s' H HP.
  destruct (Jumps.setOffsetAt_Some _ _ _ _ _ H) as (Hup & _ & Hbl).
  assert (byteSize (bufOf s') = byteSize (bufOf s)) as Hsz.
  { eapply Fixups.byteSize_updateAt; [|exact Hup]. intros c c' Hc. by apply Hk. }
  apply (apart_same_size s s' HP).
  - unfold fixupsOf. by rewrite Hbl.
  - exact Hsz.
  - intros j _ _ Ht Hty. destruct (Ht Hty) as (off & Ho). exists off.
    rewrite <- Ho. eapply entryAt_updateAt; [| |exact Hup].
    + intros c c' Hc. by apply Hk.
    + intros c c' o Hc. by apply Hk.
Qed.

Lemma setJumpOffset_entries v c c' :
  setJumpOffset v c = Some c' ->
  getSize c' = getSize c /\ forall off, brTableEntry off c' = brTableEntry off c.
Proof. destruct c; simpl; intros H; inversion H; done. Qed.

Lemma setJumpIfOffset_entries v c c' :
  setJumpIfOffset v c = Some c' ->
  getSize c' = getSize c /\ forall off, brTableEntry off c' = brTableEntry off c.
Proof. destruct c; simpl; intros H; inversion H; done. Qed.

Lemma seenBranch_apart : Preserves (apart R hi) seenBranch.
Proof.
  intros s [] s' H HP. unfold seenBranch, inPreprocess in H. inv_run.
  destruct (PreprocessData.m_inPreprocess _); simpl in H; [|by inv_run].
  unfold modifyPreprocessData in H. inv_run. cbn.
  destruct (0 <? _); cbn; [|done].
  eapply apart_same_size; [exact HP| |done|done].
  unfold fixupsOf. cbn.
  rewrite <- (app_nil_r (concat (map _ (m_blockInfo s)))).
  apply concat_alter_submseteq. intros b. cbn. by rewrite app_nil_r.
Qed.

Lemma popVMStackInfo_apart : Preserves (apart R hi) popVMStackInfo.
Proof. pres. Qed.

#[local] Hint Resolve pushByteCode_apart seenBranch_apart popVMStackInfo_apart : pres.
#[local] Hint Extern 1 (Preserves (apart _ _) (setOffsetAt _ _ _)) =>
  first [apply setOffsetAt_apart, setJumpOffset_entries
        | apply setOffsetAt_apart, setJumpIfOffset_entries] : pres.
#[local] Hint Extern 1 (Preserves (apart _ _) (modifyBlockInfo _ _)) =>
  apply modifyBlockInfo_apart; intros ?; cbn; done : pres.
#[local] Hint Extern 1 (Preserves (apart _ _) (modifyBackBlockInfo _)) =>
  apply modifyBackBlockInfo_apart; intros ?; cbn; done : pres.

Lemma moveLoop_apart stack srcI dstI remainSize :
  Preserves (apart R hi) (moveLoop stack srcI dstI remainSize).
Proof. apply moveLoop_pres; intros; pres. Qed.

Lemma popWhile_apart fuel dropSize : Preserves (apart R hi) (popWhile fuel dropSize).
Proof. apply popWhile_pres; intros; pres. Qed.

Lemma harvestCatchInfo_apart depth snapshot catches :
  Preserves (apart R hi) (harvestCatchInfo depth snapshot catches).
Proof. apply harvestCatchInfo_pres; intros; pres. Qed.

#[local] Hint Resolve moveLoop_apart popWhile_apart harvestCatchInfo_apart : pres.

Lemma generateEndCode_apart b : Preserves (apart R hi) (generateEndCode b).
Proof. pres. Qed.

Lemma OnBrExpr_apart depth : Preserves (apart R hi) (OnBrExpr depth).
Proof.
  unfold OnBrExpr.
  apply pres_bind; [pres|intros _]. apply pres_bind; [pres|intros blocks].
  destruct (_ =? _); [pres|].
  do 4 (apply pres_bind; [pres|intros ?]).
  apply pres_bind; [pres|intros _].
  apply Wiring.pres_assoc; [|intros; pres].
  by apply when_record_push_apart.
Qed.

#[local] Hint Resolve generateEndCode_apart OnBrExpr_apart : pres.

(** A write of an entry no fixup names. *)
Lemma writeBrTableEntry_apart a b v :
  ~ R (a + b) -> Preserves (apart R hi) (writeBrTableEntry a b v).
Proof.
  intros Hab s [] s' H HP.
  assert (setOffsetAt (fun v => setBrTableEntry (fun _ => v) b) a v s = Some (tt, s'))
    as H' by exact H.
  destruct (Jumps.setOffsetAt_Some _ _ _ _ _ H') as (Hup & _ & Hbl).
  assert (byteSize (bufOf s') = byteSize (bufOf s)) as Hsz.
  { eapply Fixups.byteSize_updateAt; [|exact Hup].
    intros c c' Hc. by apply Fixups.setBrTableEntry_Some in Hc as (? & _). }
  apply (apart_same_size s s' HP).
  - unfold fixupsOf. by rewrite Hbl.
  - exact Hsz.
  - intros j _ HR Ht Hty. destruct (Ht Hty) as (off & Ho). exists off.
    rewrite <- Ho. apply (proj1 (entryAt_write _ _ _ _ _ Hup)).
    intros Heq. apply Hab. by rewrite <- Heq.
Qed.

(** *** Opening a block *)

Lemma BlockInfo_new_apart ty sig s b s' :
  BlockInfo_new ty sig s = Some (b, s') ->
  apart R hi s ->
  apart R hi s'
  /\ BlockInfo.m_jumpToEndBrInfo b = []
  /\ BlockInfo.m_position b = currentByteCodeSize s'.
Proof.
  intros H HP. split.
  { revert H. match goal with |- ?m _ = _ -> _ =>
      assert (Preserves (apart R hi) m) as Hp by pres;
      intros H; exact (Hp _ _ _ H HP) end. }
  unfold BlockInfo_new in H.
  apply bind_Some in H as (? & ? & _ & H).
  apply bind_Some in H as (? & ? & _ & H).
  apply bind_Some in H as (? & ? & _ & H).
  apply bind_Some in H as (? & ? & H1 & H). apply gets_Some in H1 as [-> ->].
  apply bind_Some in H as (? & ? & H1 & H). apply gets_Some in H1 as [-> ->].
  apply ret_Some in H as [Hb ->]. by subst b.
Qed.

Lemma fixupsOf_pushBlockInfo b s :
  fixupsOf (set_m_blockInfo (m_blockInfo s ++ [b]) s)
  = fixupsOf s ++ BlockInfo.m_jumpToEndBrInfo b.
Proof.
  unfold fixupsOf. cbn. by rewrite map_app, concat_app; simpl; rewrite app_nil_r.
Qed.

Lemma pushBlockInfo_apart b :
  BlockInfo.m_jumpToEndBrInfo b = [] -> Preserves (apart R hi) (pushBlockInfo b).
Proof.
  intros Hb. apply pres_modify. intros s HP.
  eapply apart_same_size; [exact HP| |done|done].
  by rewrite fixupsOf_pushBlockInfo, Hb, app_nil_r.
Qed.

(** [OnLoopExpr], [OnBlockExpr] and the start of [OnTryExpr]. *)
Lemma open_apart ty sig :
  Preserves (apart R hi) (b <- BlockInfo_new ty sig ;; pushBlockInfo b).
Proof.
  intros s [] s' H HP.
  apply bind_Some in H as (b & s1 & H1 & H).
  destruct (BlockInfo_new_apart _ _ _ _ _ H1 HP) as (HP1 & Hf & _).
  by apply (pushBlockInfo_apart b Hf _ _ _ H).
Qed.

Lemma ifTail_apart isInverted stackPos sig :
  Preserves (apart R hi) (ifTail isInverted stackPos sig).
Proof.
  intros s [] s' H HP. unfold ifTail in H.
  apply bind_Some in H as (b & s1 & H1 & H).
  destruct (BlockInfo_new_apart _ _ _ _ _ H1 HP) as (HP1 & Hf & Hpos).
  apply bind_Some in H as ([] & s2 & H2 & H).
  unfold pushBlockInfo in H2. apply modify_Some in H2. subst s2.
  apply bind_Some in H as ([] & s3 & H3 & H).
  apply (seenBranch_apart _ _ _ H).
  destruct (Wiring.pushByteCode_Some _ _ _ H3) as (Hb & Hbl & _).
  apply (pending_push_apart (condJump isInverted stackPos 0)
           (JumpToEndBrInfo.mk JumpToEndBrInfo.IsJumpIf (BlockInfo.m_position b))
           s1 s3 HP1); [done|exact Hpos|exact Hb|].
  unfold fixupsOf at 1. rewrite Hbl.
  change (fixupsOf (set_m_blockInfo (m_blockInfo s1 ++ [BlockInfo.set_m_jumpToEndBrInfo
            [JumpToEndBrInfo.mk JumpToEndBrInfo.IsJumpIf (BlockInfo.m_position b)] b]) s1)
          ⊆+ fixupsOf s1
             ++ [JumpToEndBrInfo.mk JumpToEndBrInfo.IsJumpIf (BlockInfo.m_position b)]).
  by rewrite fixupsOf_pushBlockInfo.
Qed.

Lemma OnElseExpr_apart : Preserves (apart R hi) OnElseExpr.
Proof.
  unfold OnElseExpr.
  apply pres_bind; [pres|intros _]. apply pres_bind; [pres|intros blockInfo].
  apply pres_bind; [pres|intros _].
  apply pres_bind.
  { destruct (_ =? 0); [pres|]. apply modifyBackBlockInfo_apart.
    intros b. cbn. destruct (BlockInfo.m_jumpToEndBrInfo b) as [|j l]; [done|].
    simpl. by apply submseteq_cons. }
  intros _. apply pres_bind; [|intros _; pres].
  apply pres_when.
  intros s [] s' H HP.
  apply bind_Some in H as (cur & z1 & H0 & H). apply gets_Some in H0 as [-> ->].
  apply bind_Some in H as (blocks & z2 & H0 & H). apply gets_Some in H0 as [-> ->].
  apply bind_Some in H as ([] & s1 & H1 & H).
  eapply record_then_push_apart; [exact HP| |exact H1|exact H]. done.
Qed.

Ltac keep H HP :=
  let a := fresh "a" in
  let s1 := fresh "s" in
  let H1 := fresh "H" in
  let Hp := fresh "Hp" in
  apply bind_Some in H as (a & s1 & H1 & H);
  lazymatch type of H1 with
  | ?m _ = _ =>
      assert (Preserves (apart R hi) m) as Hp by pres;
      apply (Hp _ _ _ H1) in HP; clear Hp H1
  end.

Ltac kept H HP :=
  lazymatch type of H with
  | ?m _ = _ =>
      let Hp := fresh "Hp" in
      assert (Preserves (apart R hi) m) as Hp by pres;
      exact (Hp _ _ _ H HP)
  end.

Lemma processCatchExpr_apart tag : Preserves (apart R hi) (processCatchExpr tag).
Proof.
  intros s [] s' H HP. unfold processCatchExpr in H.
  keep H HP. keep H HP. keep H HP. keep H HP.
  apply bind_Some in H as (cur & z3 & H0 & H). apply gets_Some in H0 as [-> ->].
  apply bind_Some in H as (catches & z4 & H0 & H). apply gets_Some in H0 as [-> ->].
  apply bind_Some in H as (blocks & z5 & H0 & H). apply gets_Some in H0 as [-> ->].
  apply bind_Some in H as ([] & s4 & H4 & H).
  assert (apart R hi s4) as HP4.
  { destruct (negb _); simpl in H4; [|by apply ret_Some in H4 as [_ ->]].
    apply bind_Some in H4 as ([] & s5 & H5 & H4).
    eapply record_then_push_apart; [exact HP| |exact H5|exact H4]. done. }
  kept H HP4.
Qed.

#[local] Hint Resolve ifTail_apart OnElseExpr_apart processCatchExpr_apart : pres.

Ltac wire :=
  repeat first
    [ lazymatch goal with
      | |- Preserves _ (bind (gets currentByteCodeSize) _) =>
          eapply gets_record_push_apart; done
      end
    | pres_step
    | solve [eauto 2 with pres nocore]
    | lazymatch goal with |- Preserves _ (modify _) => pres_modify end
    | pres_unfold ].

Lemma brIfTail_apart isInverted stackPos depth :
  Preserves (apart R hi) (brIfTail isInverted stackPos depth).
Proof.
  unfold brIfTail. cbv zeta. wire.
Qed.

#[local] Hint Resolve brIfTail_apart : pres.

Lemma OnLoopExpr_apart sig : Preserves (apart R hi) (OnLoopExpr sig).
Proof. apply open_apart. Qed.

Lemma OnBlockExpr_apart sig : Preserves (apart R hi) (OnBlockExpr sig).
Proof. apply open_apart. Qed.

Lemma OnTryExpr_apart sig : Preserves (apart R hi) (OnTryExpr sig).
Proof.
  unfold OnTryExpr. apply Wiring.pres_assoc; [apply open_apart|]. intros; pres.
Qed.

#[local] Hint Resolve OnLoopExpr_apart OnBlockExpr_apart OnTryExpr_apart : pres.

(** *** The end of a block *)

(** One round of the patch loop, for a fixup whose site no fixup of the
    open blocks shares. *)
Lemma patchJumpToEnd_apart j s s' :
  patchJumpToEnd j s = Some (tt, s') ->
  apart R hi s ->
  JumpToEndBrInfo.m_position j ∉ map JumpToEndBrInfo.m_position (fixupsOf s) ->
  apart R hi s' /\ m_blockInfo s' = m_blockInfo s.
Proof.
  intros H HP Hj. unfold patchJumpToEnd in H.
  apply bind_Some in H as (cur & s0 & H0 & H). apply gets_Some in H0 as [-> ->].
  destruct (JumpToEndBrInfo.m_type j).
  - split; [|by destruct (Jumps.setOffsetAt_Some _ _ _ _ _ H) as (_ & _ & ?)].
    eapply setOffsetAt_apart; [apply setJumpOffset_entries|exact H|exact HP].
  - split; [|by destruct (Jumps.setOffsetAt_Some _ _ _ _ _ H) as (_ & _ & ?)].
    eapply setOffsetAt_apart; [apply setJumpIfOffset_entries|exact H|exact HP].
  - apply bind_Some in H as (buf & s0 & H0 & H). unfold byteCode in H0.
    apply gets_Some in H0 as [-> ->].
    apply bind_Some in H as (buf' & s0 & H0 & H). apply lift_Some in H0 as [Hup ->].
    unfold setByteCode, modifyFunction in H. apply modify_Some in H. subst s'.
    fold (bufOf s) in Hup. split; [|done].
    apply (apart_same_size s _ HP).
    + done.
    + unfold currentByteCodeSize. cbn. fold (bufOf s).
      eapply Fixups.byteSize_updateInside; [|exact Hup].
      intros off c c' Hc. by apply Fixups.setBrTableEntry_Some in Hc as (? & _).
    + intros x Hx _ Ht Hty. destruct (Ht Hty) as (off & Ho). exists off.
      rewrite <- Ho. unfold bufOf at 1. cbn.
      apply (proj1 (entryAt_updateInside _ _ _ _ Hup)).
      intros Heq. apply Hj. rewrite <- Heq.
      by apply (list_elem_of_fmap_2 JumpToEndBrInfo.m_position).
Qed.

Lemma patch_loop_apart fixups s s' :
  forM_ fixups patchJumpToEnd s = Some (tt, s') ->
  apart R hi s ->
  (forall j, j ∈ fixups ->
     JumpToEndBrInfo.m_position j ∉ map JumpToEndBrInfo.m_position (fixupsOf s)) ->
  apart R hi s'.
Proof.
  revert s. induction fixups as [|j rest IH]; intros s H HP Hf; simpl in H.
  - by apply ret_Some in H as [_ ->].
  - apply bind_Some in H as ([] & s1 & H1 & H).
    destruct (patchJumpToEnd_apart _ _ _ H1 HP) as [HP1 Hbl].
    { apply Hf. by left. }
    apply (IH _ H HP1). intros j' Hj'. unfold fixupsOf. rewrite Hbl.
    apply Hf. by right.
Qed.

Lemma pres_both {A} (P Q : t -> Prop) (m : M A) :
  Preserves P m -> Preserves Q m -> Preserves (fun st => P st /\ Q st) m.
Proof. intros HP HQ s a s' H [? ?]. split; eauto. Qed.

(** Behind the pop, up to the patch loop, the blocks stay as they are. *)
Lemma pushByteCode_blocks B c :
  Preserves (fun st => m_blockInfo st = B) (pushByteCode c).
Proof. pres. Qed.

Lemma popVMStackInfo_keeps_blocks B :
  Preserves (fun st => m_blockInfo st = B) popVMStackInfo.
Proof. pres. Qed.

#[local] Hint Resolve pushByteCode_blocks popVMStackInfo_keeps_blocks : pres.

Lemma moveLoop_blocks B stack srcI dstI remainSize :
  Preserves (fun st => m_blockInfo st = B) (moveLoop stack srcI dstI remainSize).
Proof. apply moveLoop_pres; intros; pres. Qed.

Lemma harvestCatchInfo_blocks B depth snapshot catches :
  Preserves (fun st => m_blockInfo st = B) (harvestCatchInfo depth snapshot catches).
Proof. apply harvestCatchInfo_pres; intros; pres. Qed.

#[local] Hint Resolve moveLoop_blocks harvestCatchInfo_blocks : pres.

Lemma OnEndExpr_apart : Preserves (apart R hi) OnEndExpr.
Proof.
  intros s [] s' H HP. unfold OnEndExpr in H.
  apply bind_Some in H as ([] & s1 & H1 & H). apply modify_Some in H1.
  assert (apart R hi s1) as HP1 by (subst s1; exact HP). clear HP.
  apply bind_Some in H as (blocks & z1 & H0 & H). apply gets_Some in H0 as [-> ->].
  destruct (last (m_blockInfo s1)) as [blockInfo|] eqn:El; [|kept H HP1].
  apply last_Some_removelast in El.
  apply bind_Some in H as (dropSize & s2 & H2 & H).
  assert (s2 = s1) as ->.
  { revert H2. match goal with |- ?m _ = _ -> _ =>
      assert (Preserves (fun st => st = s1) m) as Hp by pres;
      intros H2; exact (Hp _ _ _ H2 eq_refl) end. }
  apply bind_Some in H as ([] & s3 & H3 & H). apply modify_Some in H3.
  set (held := BlockInfo.m_jumpToEndBrInfo blockInfo) in *.
  assert (fixupsOf s1 = fixupsOf s3 ++ held) as HF.
  { subst s3. unfold fixupsOf at 1. rewrite El at 1.
    rewrite map_app, concat_app. simpl. by rewrite app_nil_r. }
  assert (apart R hi s3) as HP3.
  { eapply apart_same_size; [exact HP1| |by subst s3|by subst s3].
    rewrite HF. by apply submseteq_inserts_r. }
  assert (forall j, j ∈ held ->
            JumpToEndBrInfo.m_position j
            ∉ map JumpToEndBrInfo.m_position (fixupsOf s3)) as Hheld.
  { destruct HP1 as (Hnd & _). rewrite HF, fmap_app in Hnd.
    apply NoDup_app in Hnd as (_ & Hd & _). intros j Hj Hin.
    apply (Hd _ Hin). by apply (list_elem_of_fmap_2 JumpToEndBrInfo.m_position). }
  clearbody held. clear HF HP1 El H2.
  set (B := m_blockInfo s3) in *.
  assert (apart R hi s3 /\ m_blockInfo s3 = B) as HQ by done.
  assert (forall st, m_blockInfo st = B -> fixupsOf st = fixupsOf s3) as HB.
  { intros st Hst. unfold fixupsOf. by rewrite Hst. }
  clear HP3. clearbody B.
  apply bind_Some in H as ([] & s4 & H4 & H).
  assert (apart R hi s4 /\ m_blockInfo s4 = B) as HQ4.
  { revert H4. match goal with |- ?m _ = _ -> _ =>
      assert (Preserves (fun st => apart R hi st /\ m_blockInfo st = B) m) as Hp
        by (apply pres_both; [pres|pres]);
      intros H4; exact (Hp _ _ _ H4 HQ) end. }
  destruct (_ && _).
  - destruct HQ4 as [HP4 _]. kept H HP4.
  - apply bind_Some in H as ([] & s5 & H5 & H).
    assert (apart R hi s5 /\ m_blockInfo s5 = B) as HQ5.
    { revert H5. match goal with |- ?m _ = _ -> _ =>
        assert (Preserves (fun st => apart R hi st /\ m_blockInfo st = B) m) as Hp
          by (apply pres_both; [pres|pres]);
        intros H5; exact (Hp _ _ _ H5 HQ4) end. }
    apply bind_Some in H as ([] & s6 & H6 & H).
    assert (apart R hi s6 /\ m_blockInfo s6 = B) as [HP6 HB6].
    { revert H6. match goal with |- ?m _ = _ -> _ =>
        assert (Preserves (fun st => apart R hi st /\ m_blockInfo st = B) m) as Hp
          by (apply pres_both; [pres|pres]);
        intros H6; exact (Hp _ _ _ H6 HQ5) end. }
    apply (patch_loop_apart _ _ _ H HP6).
    intros j Hj. rewrite (HB _ HB6). by apply Hheld.
Qed.

#[local] Hint Resolve OnEndExpr_apart : pres.

(** Every instruction but the conditional branches and [br_table]. *)
Lemma handle_apart e :
  isInstruction e = true ->
  match e with
  | Decoder.If _ | Decoder.BrIf _ | Decoder.BrTable _ _ => False
  | _ => True
  end ->
  Preserves (apart R hi) (Decoder.handle e).
Proof.
  intros He Hk. destruct e; try discriminate He; try done; unfold Decoder.handle.
  all: pres.
Qed.

Lemma popVMStack_apart : Preserves (apart R hi) popVMStack.
Proof. pres. Qed.

Lemma dropStackValuesBeforeBrIfNeeds_apart depth :
  Preserves (apart R hi) (dropStackValuesBeforeBrIfNeeds depth).
Proof. pres. Qed.

Lemma findBlockInfoInBr_apart depth : Preserves (apart R hi) (findBlockInfoInBr depth).
Proof. pres. Qed.

Lemma blockInfoAt_apart i : Preserves (apart R hi) (blockInfoAt i).
Proof. pres. Qed.

Lemma stopToGenerateByteCodeWhileBlockEnd_apart :
  Preserves (apart R hi) stopToGenerateByteCodeWhileBlockEnd.
Proof. pres. Qed.

End Kept.
(** *** The entries of a [br_table] being emitted *)

Section Table.

Context {L : Layout} {Srt : StdSort}.

Lemma aroundTable_above lo G U z : lo + G <= z -> aroundTable lo G U z.
Proof. intros H. right. by left. Qed.

Lemma aroundTable_cons lo G U b z :
  aroundTable lo G U z -> aroundTable lo G (b :: U) z.
Proof.
  intros [H|[H|(b' & Hb & ->)]]; [by left|right; by left|].
  right. right. exists b'. split; [by right|done].
Qed.

Lemma aroundTable_not lo G U b :
  0 <= b < G -> b ∉ U -> ~ aroundTable lo G U (lo + b).
Proof.
  intros Hb HU [H|[H|(b' & Hb' & Heq)]]; [lia|lia|].
  assert (b' = b) as -> by lia. done.
Qed.

Lemma i32_i32 z : i32 (i32 z) = i32 z.
Proof.
  pose proof (i32_i32_add 0 z 0) as H. by rewrite !Z.add_0_l, !Z.sub_0_r in H.
Qed.

(** [emitBrTableCase] records the entry at byte [b] and writes [b] into
    it. *)
Lemma record_entry_apart lo G U b bi s s1 s2 :
  apart (aroundTable lo G U) (lo + G) s ->
  0 <= b < G -> b ∉ U ->
  pushJumpToEnd bi JumpToEndBrInfo.IsBrTable (lo + b) s = Some (tt, s1) ->
  writeBrTableEntry lo b (i32 b) s1 = Some (tt, s2) ->
  apart (aroundTable lo G (b :: U)) (lo + G) s2.
Proof.
  intros HP Hb HU H1 H2.
  destruct (fixupsOf_pushJumpToEnd _ _ _ _ _ H1) as [Hsub Hb1].
  assert (setOffsetAt (fun v => setBrTableEntry (fun _ => v) b) lo (i32 b) s1
          = Some (tt, s2)) as H2' by exact H2.
  destruct (Jumps.setOffsetAt_Some _ _ _ _ _ H2') as (Hup & _ & Hbl).
  rewrite Hb1 in Hup.
  assert (byteSize (bufOf s2) = byteSize (bufOf s)) as Hsz.
  { eapply Fixups.byteSize_updateAt; [|exact Hup].
    intros c c' Hc. by apply Fixups.setBrTableEntry_Some in Hc as (? & _). }
  destruct (entryAt_write _ _ _ _ _ Hup) as (Hoth & old & _ & Hnew).
  pose proof HP as (_ & Hall & Hhi).
  assert (currentByteCodeSize s2 = currentByteCodeSize s) as Hcur by exact Hsz.
  apply (apart_intro (aroundTable lo G U) (aroundTable lo G (b :: U))
           (lo + G) (lo + G) s s2
           [JumpToEndBrInfo.mk JumpToEndBrInfo.IsBrTable (lo + b)] HP).
  - unfold fixupsOf at 1. rewrite Hbl. exact Hsub.
  - by rewrite Hcur.
  - intros j Hj Hlt HR Ht. rewrite Hcur. split; [done|].
    split; [by apply aroundTable_cons|].
    intros Hty. destruct (Ht Hty) as (off & Ho). exists off. rewrite <- Ho.
    apply Hoth. intros Heq. apply (aroundTable_not lo G U b Hb HU).
    by rewrite <- Heq.
  - apply NoDup_singleton.
  - intros x j Hx Hj. apply list_elem_of_singleton in Hx. subst x. cbn.
    intros Heq. rewrite Forall_forall in Hall. destruct (Hall _ Hj) as (_ & HR & _).
    apply (aroundTable_not lo G U b Hb HU). by rewrite Heq.
  - constructor; [|done]. cbn. rewrite Hcur.
    split; [unfold currentByteCodeSize in *; lia|]. split.
    + right. right. exists b. split; [by left|done].
    + intros _. exists b. cbn. by rewrite Hnew, i32_i32.
Qed.

Lemma emitBrTableCase_apart lo G U depth b s s' :
  0 <= b < G -> b ∉ U ->
  emitBrTableCase lo depth b s = Some (tt, s') ->
  apart (aroundTable lo G U) (lo + G) s ->
  apart (aroundTable lo G (b :: U)) (lo + G) s'.
Proof.
  intros Hb HU H HP. unfold emitBrTableCase in H.
  pose proof (aroundTable_not lo G U b Hb HU) as Hnot.
  pose proof (aroundTable_above lo G U) as Habove.
  assert (forall st, apart (aroundTable lo G U) (lo + G) st ->
                     apart (aroundTable lo G (b :: U)) (lo + G) st) as Hmono.
  { intros st. apply apart_mono; [apply aroundTable_cons|lia]. }
  apply bind_Some in H as (cur & z1 & H0 & H). apply gets_Some in H0 as [-> ->].
  apply bind_Some in H as (blocks & z2 & H0 & H). apply gets_Some in H0 as [-> ->].
  destruct (_ =? depth).
  - apply bind_Some in H as ([] & s1 & H1 & H).
    apply (writeBrTableEntry_apart _ _ _ _ _ Hnot _ _ _ H1) in HP.
    apply Hmono. exact (generateEndCode_apart _ _ _ _ _ _ H HP).
  - apply bind_Some in H as (dropSize & s1 & H1 & H).
    apply (dropStackValuesBeforeBrIfNeeds_apart _ _ _ _ _ _ H1) in HP.
    destruct (negb _).
    + apply bind_Some in H as ([] & s2 & H2 & H).
      apply (writeBrTableEntry_apart _ _ _ _ _ Hnot _ _ _ H2) in HP.
      apply Hmono. exact (OnBrExpr_apart _ _ Habove _ _ _ _ H HP).
    + apply bind_Some in H as (bi & s2 & H2 & H).
      apply (findBlockInfoInBr_apart _ _ _ _ _ _ H2) in HP.
      apply bind_Some in H as (blockInfo & s3 & H3 & H).
      apply (blockInfoAt_apart _ _ _ _ _ _ H3) in HP.
      destruct (bool_decide _).
      * apply Hmono. exact (writeBrTableEntry_apart _ _ _ _ _ Hnot _ _ _ H HP).
      * apply bind_Some in H as ([] & s4 & H4 & H).
        by eapply record_entry_apart.
Qed.

Lemma emit_loop_apart lo G (off : Z * Z -> Z) l U s s' :
  forM_ l (fun id => emitBrTableCase lo (snd id) (off id)) s = Some (tt, s') ->
  NoDup (map off l) ->
  (forall id, id ∈ l -> 0 <= off id < G /\ off id ∉ U) ->
  apart (aroundTable lo G U) (lo + G) s ->
  exists U',
    apart (aroundTable lo G U') (lo + G) s'
    /\ forall b, b ∈ U' -> b ∈ U \/ b ∈ map off l.
Proof.
  revert U s. induction l as [|id l IH]; intros U s H Hnd Hl HP; simpl in H.
  - apply ret_Some in H as [_ ->]. exists U. split; [done|]. by left.
  - apply bind_Some in H as ([] & s1 & H1 & H).
    simpl in Hnd. apply NoDup_cons in Hnd as [Hid Hnd].
    destruct (Hl id) as [Hr HU]; [by left|].
    pose proof (emitBrTableCase_apart _ _ _ _ _ _ _ Hr HU H1 HP) as HP1.
    destruct (IH (off id :: U) s1 H Hnd) as (U' & HP' & HU'); [|exact HP1|].
    { intros id' Hid'. destruct (Hl id') as [Hr' HU'']; [by right|].
      split; [done|]. intros Hin. apply elem_of_cons in Hin as [Heq|Hin]; [|done].
      apply Hid. rewrite <- Heq.
      by apply (list_elem_of_fmap_2 off). }
    exists U'. split; [done|]. intros b0 Hb0.
    destruct (HU' _ Hb0) as [Hin|Hin].
    + apply elem_of_cons in Hin as [->|Hin]; [right; by left|by left].
    + right. by right.
Qed.

Lemma getSize_BrTable_range stackPos n d js k :
  (k < length js)%nat ->
  0 <= sizeof ByteCode.BrTableOpcode + Z.of_nat k * 4
    < getSize (ByteCode.BrTable stackPos n d js).
Proof.
  intros Hk. pose proof (sizeof_pos ByteCode.BrTableOpcode).
  unfold getSize. simpl.
  destruct (Z.of_nat (length js) =? 0) eqn:E; [lia|].
  unfold ByteCode.pointerAlignedSize.
  pose proof (Z.div_mod (4 * Z.of_nat (length js) + 7) 8 ltac:(lia)).
  pose proof (Z.mod_pos_bound (4 * Z.of_nat (length js) + 7) 8 ltac:(lia)).
  lia.
Qed.

Lemma getSize_header c : sizeof (ByteCode.opcode c) <= getSize c.
Proof.
  pose proof (Fusion.getSize_pos c). unfold getSize in *.
  assert (0 <= ByteCode.tailSize c); [|lia].
  assert (forall n, 0 <= n -> 0 <= ByteCode.pointerAlignedSize n) as Hp.
  { intros n Hn. unfold ByteCode.pointerAlignedSize.
    apply Z.mul_nonneg_nonneg; [|lia]. apply Z.div_pos; lia. }
  destruct c; simpl; try lia; try (apply Hp; lia).
  destruct (_ =? 0); [lia|apply Hp; lia].
Qed.

(** A record has been pushed and none of its bytes is a site yet. *)
Lemma pushByteCode_table R hi c s s' :
  pushByteCode c s = Some (tt, s') ->
  apart R hi s ->
  apart (aroundTable (currentByteCodeSize s) (getSize c) [])
        (currentByteCodeSize s + getSize c) s'.
Proof.
  intros H HP.
  destruct (Wiring.pushByteCode_Some _ _ _ H) as (Hb & Hbl & _).
  pose proof (currentByteCodeSize_push _ _ _ Hb) as Hsz.
  pose proof (Fusion.getSize_pos c) as Hc.
  apply (apart_intro R _ hi _ s s' [] HP).
  - unfold fixupsOf. by rewrite Hbl, app_nil_r.
  - lia.
  - intros j Hj Hlt HR Ht. split; [lia|]. split; [by left|].
    rewrite Hb. by apply tabled_app.
  - constructor.
  - intros x j Hx. by apply elem_of_nil in Hx.
  - constructor.
Qed.

Lemma OnBrTableExpr_apart targetDepths d :
  Preserves (apart (fun _ => True) 0) (OnBrTableExpr targetDepths d).
Proof.
  intros s [] s' H HP. unfold OnBrTableExpr in H.
  apply bind_Some in H as ([] & s1 & H1 & H).
  apply (seenBranch_apart _ _ _ _ _ H1) in HP.
  apply bind_Some in H as (stackPos & s2 & H2 & H).
  apply (popVMStack_apart _ _ _ _ _ H2) in HP.
  apply bind_Some in H as (lo & z1 & H0 & H). apply gets_Some in H0 as [-> ->].
  apply bind_Some in H as ([] & s3 & H3 & H).
  set (rec := ByteCode.BrTable stackPos (size targetDepths) 0
                (replicate (length targetDepths) 0)) in *.
  set (lo := currentByteCodeSize s2) in *. set (G := getSize rec).
  apply (pushByteCode_table _ _ _ _ _ H3) in HP. fold lo G in HP.
  apply bind_Some in H as ([] & s4 & H4 & H).
  set (off := fun id : Z * Z => sizeof ByteCode.BrTableOpcode + fst id * 4).
  assert (map off (imap (fun i d => (Z.of_nat i, d)) targetDepths)
          = (fun i => sizeof ByteCode.BrTableOpcode + Z.of_nat i * 4)
              <$> seq 0 (length targetDepths)) as Hoffs.
  { change (map off) with (fmap (M := list) off). rewrite fmap_imap.
    by rewrite <- imap_seq_0. }
  destruct (emit_loop_apart lo G off _ [] _ _ H4) as (U & HPU & HU); [| |exact HP|].
  { rewrite Hoffs. apply NoDup_fmap_2; [|apply NoDup_seq].
    intros i j Hij. lia. }
  { intros id Hid. split; [|apply not_elem_of_nil].
    apply elem_of_lookup_imap in Hid as (i & y & -> & Hy).
    apply lookup_lt_Some in Hy. unfold off, G, rec. cbn [fst].
    apply getSize_BrTable_range. by rewrite length_replicate. }
  apply bind_Some in H as ([] & s5 & H5 & H).
  pose proof offsetOfDefault_range as Hd.
  apply (emitBrTableCase_apart lo G U) in H5; [| | |exact HPU].
  - apply (stopToGenerateByteCodeWhileBlockEnd_apart _ _ _ _ _ H) in H5.
    revert H5. apply apart_mono; [done|].
    pose proof (Fusion.byteSize_nonneg (bufOf s2)).
    pose proof (Fusion.getSize_pos rec). unfold lo, G, currentByteCodeSize.
    fold (bufOf s2). lia.
  - pose proof (getSize_header rec). unfold G. simpl in *. lia.
  - intros Hin. destruct (HU _ Hin) as [Hin'|Hin']; [by apply elem_of_nil in Hin'|].
    rewrite Hoffs in Hin'. apply list_elem_of_fmap in Hin' as (i & Heq & _). lia.
Qed.

End Table.
(** *** The rewinding of an [i32.eqz] *)

Section Sound.

Context {L : Layout} {Srt : StdSort}.

Lemma elem_of_concat {A} (x : A) ls :
  x ∈ concat ls -> exists l, x ∈ l /\ l ∈ ls.
Proof.
  induction ls as [|l ls IH]; simpl; intros H; [by apply elem_of_nil in H|].
  apply elem_of_app in H as [H|H]; [exists l; split; [done|by left]|].
  destruct (IH H) as (l' & ? & ?). exists l'. split; [done|by right].
Qed.

Lemma fixupsOf_wired s j : wired s -> j ∈ fixupsOf s -> sited (bufOf s) j.
Proof.
  unfold wired, fixupsOf. intros Hw Hj.
  apply elem_of_concat in Hj as (l & Hj & Hl).
  apply list_elem_of_fmap in Hl as (b & -> & Hb).
  rewrite Forall_forall in Hw. specialize (Hw _ Hb).
  rewrite Forall_forall in Hw. by apply Hw.
Qed.

Lemma rewindI32Eqz_Some pre src dst s p s' :
  bufOf s = pre ++ [ByteCode.UnaryOperation WASMOpcode.I32Eqz src dst] ->
  m_lastI32EqzPos s = byteSize pre ->
  rewindI32Eqz s = Some (p, s') ->
  bufOf s' = pre /\ m_blockInfo s' = m_blockInfo s.
Proof.
  intros Hb Hl H. unfold rewindI32Eqz in H.
  apply bind_Some in H as (lastPos & z1 & H0 & H). apply gets_Some in H0 as [-> ->].
  apply bind_Some in H as (sd & s1 & H1 & H).
  assert (s1 = s) as ->.
  { revert H1. match goal with |- ?m _ = _ -> _ =>
      assert (Preserves (fun st => st = s) m) as Hp by pres;
      intros H1; exact (Hp _ _ _ H1 eq_refl) end. }
  apply bind_Some in H as ([] & s2 & H2 & H).
  apply bind_Some in H as ([] & s3 & H3 & H). apply modify_Some in H3.
  apply ret_Some in H as [_ ->]. subst s3.
  unfold resizeByteCode, byteCode in H2.
  apply bind_Some in H2 as (buf & z2 & H0 & H2). apply gets_Some in H0 as [-> ->].
  fold (bufOf s) in H2. rewrite Hb, Hl, Fusion.truncateAt_app in H2.
  apply bind_Some in H2 as (buf' & z3 & H0 & H2). apply lift_Some in H0 as [Hb' ->].
  injection Hb' as <-. unfold setByteCode, modifyFunction in H2.
  apply modify_Some in H2. subst s2. done.
Qed.

(** The rewinding removes the last record only, and no site lies in it. *)
Lemma rewindI32Eqz_apart pre src dst s p s' :
  bufOf s = pre ++ [ByteCode.UnaryOperation WASMOpcode.I32Eqz src dst] ->
  m_lastI32EqzPos s = byteSize pre ->
  rewindI32Eqz s = Some (p, s') ->
  wired s ->
  apart (fun _ => True) 0 s -> apart (fun _ => True) 0 s'.
Proof.
  intros Hb Hl H Hw HP.
  destruct (rewindI32Eqz_Some _ _ _ _ _ _ Hb Hl H) as [Hb' Hbl].
  apply (apart_intro (fun _ => True) (fun _ => True) 0 0 s s' [] HP).
  - unfold fixupsOf. by rewrite Hbl, app_nil_r.
  - unfold currentByteCodeSize. fold (bufOf s'). apply Fusion.byteSize_nonneg.
  - intros j Hj _ _ Ht.
    unfold currentByteCodeSize. fold (bufOf s'). rewrite Hb'.
    pose proof (fixupsOf_wired _ _ Hw Hj) as Hs. rewrite Hb in Hs, Ht.
    apply Wiring.sited_snoc_eqz in Hs.
    assert (JumpToEndBrInfo.m_type j = JumpToEndBrInfo.IsBrTable ->
            exists off, entryAt pre (JumpToEndBrInfo.m_position j)
                        = Some (off, i32 off)) as Ht'.
    { intros Hty. destruct (Ht Hty) as (off & Ho). exists off.
      eapply peekInside_snoc_inv; [|exact Ho]. done. }
    split; [|split; [done|exact Ht']].
    unfold sited, offsetAt in Hs.
    destruct (JumpToEndBrInfo.m_type j) eqn:Ety.
    + destruct Hs as [o Ho].
      destruct (peekAt pre _) as [c|] eqn:Ec; [|done].
      pose proof (Wiring.peekAt_range _ _ _ Ec). pose proof (Fusion.getSize_pos c). lia.
    + destruct Hs as [o Ho].
      destruct (peekAt pre _) as [c|] eqn:Ec; [|done].
      pose proof (Wiring.peekAt_range _ _ _ Ec). pose proof (Fusion.getSize_pos c). lia.
    + destruct (Ht' eq_refl) as (off & Ho).
      by apply peekInside_range in Ho as [_ ?].
  - constructor.
  - intros x j Hx. by apply elem_of_nil in Hx.
  - constructor.
Qed.

Lemma fixupsSound_both {A} (m : M A) :
  Preserves jumpsWired m -> Preserves (apart (fun _ => True) 0) m ->
  Preserves fixupsSound m.
Proof. intros H1 H2. by apply pres_both. Qed.

(** The test and the rewinding, as [OnIfExpr] and [OnBrIfExpr] run them. *)
Lemma fuse_sound {A} stackPos (k : bool -> Z -> M A) s a s' :
  (forall b p, Preserves fixupsSound (k b p)) ->
  (isInverted <- canBeInverted stackPos ;;
   stackPos <- (if isInverted then rewindI32Eqz else ret stackPos) ;;
   k isInverted stackPos) s = Some (a, s') ->
  currentByteCodeSize s <> SIZE_MAX ->
  fixupsSound s -> fixupsSound s'.
Proof.
  intros Hk H Hsz HP.
  apply bind_Some in H as (b & s1 & H1 & H).
  apply Wiring.canBeInverted_Some in H1 as [-> Hb].
  apply bind_Some in H as (p & s2 & H2 & H).
  apply (Hk b p _ _ _ H). destruct b.
  - destruct HP as [HW HA].
    destruct (Hb eq_refl Hsz (proj2 HW)) as (pre & src & dst & Hbuf & Hl).
    split; [by eapply Wiring.rewindI32Eqz_wired|].
    eapply rewindI32Eqz_apart; [exact Hbuf|exact Hl|exact H2|by destruct HW|exact HA].
  - by apply ret_Some in H2 as [_ ->].
Qed.

(** The handlers of the instructions keep the fixups in order. *)
Lemma handle_sound e s s' :
  isInstruction e = true ->
  currentByteCodeSize s <> SIZE_MAX ->
  fixupsSound s ->
  Decoder.handle e s = Some (tt, s') ->
  fixupsSound s'.
Proof.
  intros He Hsz HP H.
  assert (jumpsWired s') as HW'.
  { destruct HP as [HW _]. by eapply Wiring.handle_wired. }
  assert (forall (P : Prop), P -> True) as Htriv by done.
  destruct e; try discriminate He.
  all: try (split; [exact HW'|];
            eapply (handle_apart (fun _ => True) 0); [done|exact He|done|exact H|];
            by destruct HP).
  - (* if *)
    unfold Decoder.handle, OnIfExpr in H.
    apply bind_Some in H as (stackPos & s1 & H1 & H).
    assert (currentByteCodeSize s1 = currentByteCodeSize s) as Hsz1.
    { revert H1. match goal with |- ?m _ = _ -> _ =>
        assert (Preserves (fun st => currentByteCodeSize st = currentByteCodeSize s) m)
          as Hp by pres;
        intros H1; exact (Hp _ _ _ H1 eq_refl) end. }
    assert (fixupsSound s1) as HP1.
    { eapply (fixupsSound_both popVMStack); [| |exact H1|exact HP].
      - apply Wiring.popVMStack_wired.
      - apply popVMStack_apart. }
    eapply (fuse_sound stackPos (fun b p => ifTail b p sig)); [|exact H| |exact HP1].
    + intros. apply fixupsSound_both; [apply Wiring.ifTail_wired|].
      by apply ifTail_apart.
    + by rewrite Hsz1.
  - (* br_if *)
    unfold Decoder.handle, OnBrIfExpr in H.
    apply bind_Some in H as ([] & s0 & H0 & H).
    apply bind_Some in H as (stackPos & s1 & H1 & H).
    assert (currentByteCodeSize s1 = currentByteCodeSize s) as Hsz1.
    { transitivity (currentByteCodeSize s0).
      - revert H1. match goal with |- ?m _ = _ -> _ =>
          assert (Preserves (fun st => currentByteCodeSize st = currentByteCodeSize s0) m)
            as Hp by pres;
          intros H1; exact (Hp _ _ _ H1 eq_refl) end.
      - revert H0. match goal with |- ?m _ = _ -> _ =>
          assert (Preserves (fun st => currentByteCodeSize st = currentByteCodeSize s) m)
            as Hp by pres;
          intros H0; exact (Hp _ _ _ H0 eq_refl) end. }
    assert (fixupsSound s1) as HP1.
    { eapply (fixupsSound_both popVMStack); [| |exact H1|].
      - apply Wiring.popVMStack_wired.
      - apply popVMStack_apart.
      - eapply (fixupsSound_both seenBranch); [| |exact H0|exact HP].
        + apply Wiring.seenBranch_wired.
        + apply seenBranch_apart. }
    eapply (fuse_sound stackPos (fun b p => brIfTail b p depth));
      [|exact H| |exact HP1].
    + intros. apply fixupsSound_both; [apply Wiring.brIfTail_wired|].
      by apply brIfTail_apart.
    + by rewrite Hsz1.
  - (* br_table *)
    split; [exact HW'|]. destruct HP as [_ HA].
    exact (OnBrTableExpr_apart _ _ _ _ _ H HA).
Qed.

(** A body that starts without open blocks and without a candidate
    keeps its fixups in order. *)
Lemma fixupsSound_start s :
  m_blockInfo s = [] -> noCandidate s -> fixupsSound s.
Proof.
  intros Hb Hc. split; [split|].
  - unfold wired. rewrite Hb. constructor.
  - by left.
  - unfold apart, fixupsOf. rewrite Hb. simpl.
    split; [constructor|]. split; [constructor|]. apply Fusion.byteSize_nonneg.
Qed.

Lemma bodyRun_sound es s0 s :
  bodyRun es s0 s -> fixupsSound s0 -> fixupsSound s.
Proof.
  revert s0. induction es as [|e es IH]; intros s0 H HP; simpl in H.
  - by subst.
  - destruct H as (He & Hsz & s1 & H1 & H). apply (IH _ H).
    destruct (isInstruction e) eqn:Ei; [by eapply handle_sound|].
    destruct e; try discriminate; simpl in H1; apply modify_Some in H1; by subst s1.
Qed.

(** *** The patch loop *)

Lemma patchJumpToEnd_lands j s s' :
  patchJumpToEnd j s = Some (tt, s') ->
  tabled (bufOf s) j ->
  currentByteCodeSize s' = currentByteCodeSize s
  /\ landedAt (bufOf s') (currentByteCodeSize s) j
  /\ (forall ty q, q <> JumpToEndBrInfo.m_position j ->
        offsetAt ty (bufOf s') q = offsetAt ty (bufOf s) q)
  /\ (forall q, q <> JumpToEndBrInfo.m_position j ->
        entryAt (bufOf s') q = entryAt (bufOf s) q).
Proof.
  intros H Ht.
  destruct (Fixups.patchJumpToEnd_Some _ _ _ H) as (Hsz & (old & Hold & Hnew) & Hoth).
  split; [exact Hsz|]. split; [|split; [exact Hoth|]].
  - unfold landedAt. unfold patchJumpToEnd in H.
    apply bind_Some in H as (cur & s0 & H0 & H). apply gets_Some in H0 as [-> ->].
    destruct (JumpToEndBrInfo.m_type j) eqn:Ety; [exact Hnew|exact Hnew|].
    apply bind_Some in H as (buf & s0 & H0 & H). unfold byteCode in H0.
    apply gets_Some in H0 as [-> ->].
    apply bind_Some in H as (buf' & s0 & H0 & H). apply lift_Some in H0 as [Hup ->].
    unfold setByteCode, modifyFunction in H. apply modify_Some in H. subst s'.
    fold (bufOf s) in Hup.
    destruct (entryAt_updateInside _ _ _ _ Hup) as (_ & off & old' & Ho & Hn).
    destruct (Ht Ety) as (off0 & Ho0). rewrite Ho0 in Ho.
    injection Ho as Hoff Hval. subst off0 old'. exists off.
    change (entryAt buf' (JumpToEndBrInfo.m_position j)
            = Some (off, i32 (currentByteCodeSize s
                              - (JumpToEndBrInfo.m_position j - off)))).
    rewrite Hn, Fixups.i32_usize, i32_i32_add. do 3 f_equal. lia.
  - intros q Hq. unfold patchJumpToEnd in H.
    apply bind_Some in H as (cur & s0 & H0 & H). apply gets_Some in H0 as [-> ->].
    destruct (JumpToEndBrInfo.m_type j).
    + destruct (Jumps.setOffsetAt_Some _ _ _ _ _ H) as (Hup & _).
      eapply entryAt_updateAt; [| |exact Hup].
      * intros c c' Hc. by apply setJumpOffset_entries in Hc as [? _].
      * intros c c' off Hc. by apply setJumpOffset_entries in Hc as [_ ?].
    + destruct (Jumps.setOffsetAt_Some _ _ _ _ _ H) as (Hup & _).
      eapply entryAt_updateAt; [| |exact Hup].
      * intros c c' Hc. by apply setJumpIfOffset_entries in Hc as [? _].
      * intros c c' off Hc. by apply setJumpIfOffset_entries in Hc as [_ ?].
    + apply bind_Some in H as (buf & s0 & H0 & H). unfold byteCode in H0.
      apply gets_Some in H0 as [-> ->].
      apply bind_Some in H as (buf' & s0 & H0 & H). apply lift_Some in H0 as [Hup ->].
      unfold setByteCode, modifyFunction in H. apply modify_Some in H. subst s'.
      fold (bufOf s) in Hup.
      change (entryAt buf' q = entryAt (bufOf s) q).
      by apply (proj1 (entryAt_updateInside _ _ _ _ Hup)).
Qed.

Lemma landedAt_other after after' cur j :
  offsetAt (JumpToEndBrInfo.m_type j) after' (JumpToEndBrInfo.m_position j)
  = offsetAt (JumpToEndBrInfo.m_type j) after (JumpToEndBrInfo.m_position j) ->
  entryAt after' (JumpToEndBrInfo.m_position j)
  = entryAt after (JumpToEndBrInfo.m_position j) ->
  landedAt after cur j -> landedAt after' cur j.
Proof.
  unfold landedAt. intros Ho He.
  destruct (JumpToEndBrInfo.m_type j); [by rewrite Ho|by rewrite Ho|by rewrite He].
Qed.

(** Every fixup of the list gets its round, and the rounds do not
    disturb each other. *)
Lemma patch_loop_lands fixups s s' :
  NoDup (map JumpToEndBrInfo.m_position fixups) ->
  Forall (tabled (bufOf s)) fixups ->
  forM_ fixups patchJumpToEnd s = Some (tt, s') ->
  currentByteCodeSize s' = currentByteCodeSize s
  /\ Forall (landedAt (bufOf s') (currentByteCodeSize s)) fixups
  /\ (forall ty q, q ∉ map JumpToEndBrInfo.m_position fixups ->
        offsetAt ty (bufOf s') q = offsetAt ty (bufOf s) q)
  /\ (forall q, q ∉ map JumpToEndBrInfo.m_position fixups ->
        entryAt (bufOf s') q = entryAt (bufOf s) q).
Proof.
  revert s. induction fixups as [|j rest IH]; intros s Hnd Ht H; simpl in H.
  - apply ret_Some in H as [_ ->]. by repeat split.
  - simpl in Hnd. apply NoDup_cons in Hnd as [Hj Hnd].
    apply List.Forall_cons_iff in Ht as [Htj Ht].
    apply bind_Some in H as ([] & s1 & H1 & H).
    destruct (patchJumpToEnd_lands _ _ _ H1 Htj) as (Hsz1 & Hl1 & Ho1 & He1).
    assert (Forall (tabled (bufOf s1)) rest) as Ht1.
    { apply Forall_forall. intros j' Hj' Hty.
      rewrite Forall_forall in Ht. destruct (Ht _ Hj' Hty) as (off & Ho).
      exists off. rewrite <- Ho. apply He1. intros Heq. apply Hj. rewrite <- Heq.
      by apply (list_elem_of_fmap_2 JumpToEndBrInfo.m_position). }
    destruct (IH _ Hnd Ht1 H) as (Hsz & Hall & Ho & He).
    split; [congruence|]. split; [|split].
    + constructor.
      * eapply landedAt_other; [by apply Ho|by apply He|exact Hl1].
      * by rewrite <- Hsz1.
    + intros ty q Hq. simpl in Hq. apply not_elem_of_cons in Hq as [Hq1 Hq2].
      rewrite (Ho _ _ Hq2). by apply Ho1.
    + intros q Hq. simpl in Hq. apply not_elem_of_cons in Hq as [Hq1 Hq2].
      rewrite (He _ Hq2). by apply He1.
Qed.

Lemma landedAt_fixupLanded after cur j :
  landedAt after cur j -> fixupLanded after cur j.
Proof.
  unfold landedAt, fixupLanded.
  destruct (JumpToEndBrInfo.m_type j); [done|done|].
  intros (off & Ho). apply entryAt_record in Ho as (c & Hp & Hr & Hv).
  exists (JumpToEndBrInfo.m_position j - off), c.
  split; [exact Hp|]. split; [lia|].
  by replace (JumpToEndBrInfo.m_position j - (JumpToEndBrInfo.m_position j - off))
    with off by lia.
Qed.

(** C4, as the code has it. In a function body that starts
    without open blocks and without a fusion candidate, take any state
    the handlers reach and let [end] close its innermost block. The
    block is popped, and every fixup of its list has landed on the
    position [cur] the buffer has when the patch loop runs, which is its
    length after [end]: a jump or conditional jump at its recorded site
    holds [cur] minus the site; a [br_table] entry holds [cur] minus the
    start of the [BrTable] record its site lies in. *)
Theorem block_end_lands_every_fixup es s0 s s' blockInfo :
  m_blockInfo s0 = [] ->
  noCandidate s0 ->
  bodyRun es s0 s ->
  last (m_blockInfo s) = Some blockInfo ->
  OnEndExpr s = Some (tt, s') ->
  length (m_blockInfo s') = (length (m_blockInfo s) - 1)%nat
  /\ Forall (fixupLanded (bufOf s') (currentByteCodeSize s'))
       (BlockInfo.m_jumpToEndBrInfo blockInfo).
Proof.
  intros Hb Hc Hrun Hlast H.
  pose proof (bodyRun_sound _ _ _ Hrun (fixupsSound_start _ Hb Hc))
    as (_ & Hnd & Hall & _).
  destruct (Fixups.OnEndExpr_patches _ _ _ Hlast H)
    as (Hcnt & s1 & [extra Hext] & Hcase).
  split; [exact Hcnt|].
  destruct Hcase as [[Hnil _] | Hloop]; [rewrite Hnil; constructor|].
  apply last_Some_removelast in Hlast.
  assert (fixupsOf s = concat (map BlockInfo.m_jumpToEndBrInfo
                                   (removelast (m_blockInfo s)))
                       ++ BlockInfo.m_jumpToEndBrInfo blockInfo) as HF.
  { unfold fixupsOf. rewrite Hlast at 1.
    rewrite map_app, concat_app. simpl. by rewrite app_nil_r. }
  rewrite HF in Hnd, Hall. rewrite fmap_app in Hnd.
  apply NoDup_app in Hnd as (_ & _ & Hnd). apply Forall_app in Hall as [_ Hall].
  destruct (patch_loop_lands _ s1 s' Hnd) as (Hsz & Hl & _); [|exact Hloop|].
  - eapply Forall_impl; [exact Hall|]. intros j (_ & _ & Ht).
    rewrite Hext. by apply tabled_app.
  - rewrite Hsz. eapply Forall_impl; [exact Hl|].
    intros j. apply landedAt_fixupLanded.
Qed.

End Sound.


(** The theorem at work on
    [block; local.get 0; br_table 0; end; end]: the emission pass starts
    without open blocks, the [br_table] record starts at byte 0 and its
    default entry, the fixup at byte 12, lands on the position 16 the
    buffer has at the [end] of the block. *)
Lemma block_end_lands_every_fixup_witness :
  exists s0 s s' blockInfo,
    @Decoder.run Sample.layout Sample.sort Inputs.brTableInBlock_first_pass
      (@new Sample.layout Inputs.brTableInBlock_data Inputs.emptyResult)
    = Some (tt, s0)
    /\ m_blockInfo s0 = []
    /\ @Decoder.run Sample.layout Sample.sort Inputs.brTableInBlock_pass s0
       = Some (tt, s)
    /\ last (m_blockInfo s) = Some blockInfo
    /\ BlockInfo.m_jumpToEndBrInfo blockInfo
       = [JumpToEndBrInfo.mk JumpToEndBrInfo.IsBrTable 12]
    /\ @OnEndExpr Sample.layout s = Some (tt, s')
    /\ @currentByteCodeSize Sample.layout s' = 16
    /\ length (m_blockInfo s') = (length (m_blockInfo s) - 1)%nat
    /\ Forall (@fixupLanded Sample.layout (bufOf s')
                 (@currentByteCodeSize Sample.layout s'))
         (BlockInfo.m_jumpToEndBrInfo blockInfo).
Proof.
  evar (s0 : t). evar (s : t). evar (s' : t). evar (b : BlockInfo.t).
  exists s0, s, s', b.
  assert (@Decoder.run Sample.layout Sample.sort Inputs.brTableInBlock_first_pass
            (@new Sample.layout Inputs.brTableInBlock_data Inputs.emptyResult)
          = Some (tt, s0)) as H0 by (unfold s0; vm_compute; reflexivity).
  assert (@Decoder.run Sample.layout Sample.sort Inputs.brTableInBlock_pass s0
          = Some (tt, s)) as H1 by (unfold s; vm_compute; reflexivity).
  assert (last (m_blockInfo s) = Some b) as H2 by (unfold b; vm_compute; reflexivity).
  assert (@OnEndExpr Sample.layout s = Some (tt, s')) as H3
    by (unfold s'; vm_compute; reflexivity).
  split; [exact H0|]. split; [reflexivity|]. split; [exact H1|].
  split; [exact H2|]. split; [reflexivity|]. split; [exact H3|].
  split; [reflexivity|].
  apply (@block_end_lands_every_fixup Sample.layout Sample.sort
           Inputs.brTableInBlock_pass s0 s s' b).
  - reflexivity.
  - reflexivity.
  - unfold Inputs.brTableInBlock_pass. cbn [bodyRun].
    repeat (split; [reflexivity|];
            split; [vm_compute; intros E; discriminate E|];
            eexists; split; [vm_compute; reflexivity|]).
    vm_compute. reflexivity.
  - exact H2.
  - exact H3.
Defined.

End Landing.
